(** * DisplayQueue: a shallow embedding of src/common/display/DisplayQueue.cpp

    The development follows the layout of the C++ file: 32-bit arithmetic,
    FrameId, WorkItem / Event / FrameLayer / Frame, then the DisplayQueue
    itself, its private helpers (the [do...] functions) and its public
    operations.

    Modelling decisions.
    - The intrusive circular doubly-linked ring [mpWorkQueue] is a list of
      work items, head first, most recently queued item last: [head->mpPrev]
      is the last element.  [mpPrev && mpNext] of an item is the boolean
      [linked] flag that [WorkItem::queue] sets and [WorkItem::dequeue]
      clears.
    - Pool frames are shared between the pool array [maFrames] and the ring;
      a ring entry for a frame is the index of the frame in the pool, the
      frame data lives in the pool only.  Events are owned by the ring.
    - A public operation holds [mLockQueue] from entry to return and is one
      step, but for consumeWork, which releases the lock around
      Frame::waitRendering and around the calls of the backend: its locked
      sections are steps of their own ([consumer_step]), and [run_steps]
      runs them with the operations of other threads in between.
      [consumeWork] is these sections with no other thread in between.
      doFlush releases the lock around syncFlip and touches no state after
      it.  Calls to the display backend, condition-variable notifications
      and the deletion of events are appended to the log [mLog].
    - HWCASSERT and FrameId::validateFutureFrame abort: a failed check ends
      the computation with [AssertFail].  The queue validation of the
      internal build (doValidateQueue) is part of the model.
    - Debug tracing (Log::add, DTRACEIF, ETRACE, ATRACE, dump) is left out. *)

From Stdlib Require Import ZArith List Bool Lia Sorted String.
From stdpp Require Import base list.
Import ListNotations.

Open Scope Z_scope.

(** ** 32-bit arithmetic *)

(** A value stored in a [uint32_t]. *)
Definition u32 (z : Z) : Z := z mod 2 ^ 32.

(** The C++ cast [int32_t( x )] of a 32-bit difference. *)
Definition s32 (z : Z) : Z :=
  if u32 z <? 2 ^ 31 then u32 z else u32 z - 2 ^ 32.

Definition incr32 (z : Z) : Z := u32 (z + 1).
Definition decr32 (z : Z) : Z := u32 (z - 1).

(** Status codes: Android's OK and errno's ENOSYS. *)
Definition OK : Z := 0.
Definition ENOSYS : Z := 38.

(** cMinimumLayerAllocCount *)
Definition cMinimumLayerAllocCount : Z := 8.

(** ** DisplayQueue::FrameId *)

Record FrameId := mkFrameId {
  mTimelineIndex : Z;
  mHwcIndex : Z
}.

Definition FrameId_zero : FrameId := mkFrameId 0 0.

(** Modelled from the spec: FrameId::validateFutureFrame is declared in
    DisplayQueue.h, which is not part of the sources.  The spec orders
    FrameIds by signed subtraction modulo 2^32 on the pair of counters and
    makes the check fail when the new id is behind the last one. *)
Definition futureFrame (last id : FrameId) : bool :=
  (0 <=? s32 (mTimelineIndex id - mTimelineIndex last))
  && (0 <=? s32 (mHwcIndex id - mHwcIndex last)).

(** ** Layers handed in by the producer *)

Record Layer := mkLayer {
  lDisabled : bool;            (* Layer::isDisabled *)
  lBufferDeviceId : Z;         (* Layer::getBufferDeviceId *)
  lBufferDeviceIdValid : bool; (* Layer::isBufferDeviceIdValid *)
  lHandle : option Z;          (* Layer::getHandle, None is the null handle *)
  lAcquireFence : Z;           (* descriptor behind getAcquireFenceReturn, negative: none *)
  lReleaseNative : bool;       (* getReleaseFenceReturn().getType() == eTypeNative *)
  lHasReleaseFence : bool;     (* a release fence reference is attached *)
  lRendered : bool             (* Layer::waitRendering( 0 ) *)
}.

Definition Layer_empty : Layer := mkLayer false 0 false None (-1) false false true.

(** ** DisplayQueue::FrameLayer *)

Record FrameLayer := mkFrameLayer {
  mLayer : Layer;
  mAcquireFence : Z;
  mpAcquiredBuffer : option Z;
  mbSet : bool
}.

(** FrameLayer::FrameLayer *)
Definition FrameLayer_new : FrameLayer := mkFrameLayer Layer_empty (-1) None false.

(** FrameLayer::isRenderingComplete *)
Definition FrameLayer_isRenderingComplete (fl : FrameLayer) : bool :=
  if lDisabled (mLayer fl) then true else lRendered (mLayer fl).

(** FrameLayer::reset: the owned acquire fence is closed, the release fence
    reference is dropped on cancel, the buffer reference is cleared. *)
Definition FrameLayer_reset (bCancel : bool) (fl : FrameLayer) : FrameLayer :=
  let l := mLayer fl in
  mkFrameLayer
    (mkLayer (lDisabled l) (lBufferDeviceId l) (lBufferDeviceIdValid l)
             (lHandle l) (lAcquireFence l) (lReleaseNative l)
             (if bCancel then false else lHasReleaseFence l)
             (lRendered l))
    (if 0 <=? mAcquireFence fl then -1 else mAcquireFence fl)
    None
    false.

(** ** DisplayQueue::Event *)

Record Event := mkEvent {
  mId : Z;
  evEffectiveFrame : FrameId;
  evLinked : bool
}.

(** Event::Event( id ) *)
Definition Event_new (id : Z) : Event := mkEvent id FrameId_zero false.

(** ** DisplayQueue::Frame *)

Inductive FrameType := eFT_CUSTOM | eFT_DISPLAY_QUEUE.

Definition FrameType_eqb (a b : FrameType) : bool :=
  match a, b with
  | eFT_CUSTOM, eFT_CUSTOM | eFT_DISPLAY_QUEUE, eFT_DISPLAY_QUEUE => true
  | _, _ => false
  end.

Record Frame := mkFrame {
  mEffectiveFrame : FrameId;      (* WorkItem::mEffectiveFrame *)
  mbLinked : bool;                (* WorkItem::mpPrev && WorkItem::mpNext *)
  mType : FrameType;
  mLayerAllocCount : Z;
  mLayerCount : Z;
  maLayers : list FrameLayer;     (* [] is the NULL array *)
  mZOrder : Z;
  mFrameId : FrameId;
  mConfig : Z;
  mbLockedForDisplay : bool;
  mbValid : bool
}.

(** Frame::Frame *)
Definition Frame_new : Frame :=
  mkFrame FrameId_zero false eFT_CUSTOM 0 0 [] 0 FrameId_zero 0 false false.

(** Frame::editLayer: the result is the index of the layer the returned
    pointer designates, [None] is NULL. *)
Definition Frame_editLayer (f : Frame) (ly : Z) : option Z :=
  if negb (mLayerCount f =? 0) && (ly <? mLayerCount f) then Some ly else None.

(** Frame::getLayer *)
Definition Frame_getLayer (f : Frame) (ly : Z) : option Z := Frame_editLayer f ly.

(** Dereferencing a layer pointer: defined inside the array only. *)
Definition Frame_layerAt (f : Frame) (p : Z) : option FrameLayer :=
  if p <? 0 then None else maLayers f !! Z.to_nat p.

(** Frame::isRenderingComplete: the layers below mLayerCount. *)
Definition Frame_isRenderingComplete (f : Frame) : bool :=
  forallb FrameLayer_isRenderingComplete (take (Z.to_nat (mLayerCount f)) (maLayers f)).

(** The loop [for ly < mLayerCount: maLayers[ly].reset( bCancel )]. *)
Definition reset_layers (bCancel : bool) (n : Z) (ls : list FrameLayer) : list FrameLayer :=
  map (FrameLayer_reset bCancel) (take (Z.to_nat n) ls) ++ drop (Z.to_nat n) ls.

(** Frame::reset *)
Definition Frame_reset (bCancel : bool) (f : Frame) : Frame :=
  mkFrame (mEffectiveFrame f) (mbLinked f) (mType f) (mLayerAllocCount f)
          (mLayerCount f) (reset_layers bCancel (mLayerCount f) (maLayers f))
          (mZOrder f) (mFrameId f) (mConfig f) false (mbValid f).

(** ** Outcomes of a computation *)

Inductive Result (A : Type) : Type :=
| Ok (a : A)        (* normal completion *)
| AssertFail        (* a HWCASSERT or validateFutureFrame failed *)
| Spin.             (* the loop was still running when the fuel ran out *)
Arguments Ok {A} a.
Arguments AssertFail {A}.
Arguments Spin {A}.

Definition rbind {A B} (r : Result A) (k : A -> Result B) : Result B :=
  match r with
  | Ok a => k a
  | AssertFail => AssertFail
  | Spin => Spin
  end.

Definition rassert (b : bool) : Result unit := if b then Ok tt else AssertFail.

(** FrameLayer::set, with FrameLayer::validate of the internal build.  The
    duplicated acquire fence is the descriptor of the producer's fence. *)
Definition FrameLayer_set (layer : Layer) (fl : FrameLayer) : Result FrameLayer :=
  rbind (rassert (negb (mbSet fl))) (fun _ =>
  rbind (rassert (match mpAcquiredBuffer fl with None => true | Some _ => false end)) (fun _ =>
  rbind (rassert (mAcquireFence fl <? 0)) (fun _ =>
  let fence := lAcquireFence layer in
  let native := lReleaseNative layer in
  let snap :=
    mkLayer (lDisabled layer) (lBufferDeviceId layer) (lBufferDeviceIdValid layer)
            (lHandle layer) fence
            (if native then false else lReleaseNative layer)
            (if native then false else lHasReleaseFence layer)
            (lRendered layer) in
  match lHandle layer with
  | Some h =>
      rbind (rassert (lBufferDeviceIdValid layer)) (fun _ =>
      rbind (rassert (negb (lBufferDeviceId layer =? 0))) (fun _ =>
      Ok (mkFrameLayer snap fence (Some h) true)))
  | None => Ok (mkFrameLayer snap fence None true)
  end))).

(** The loop [for ly < stackSize: maLayers[ ly ].set( stack.getLayer(ly) )].
    The array is at least as long as the stack when the loop is reached. *)
Fixpoint set_layers (stack : list Layer) (ls : list FrameLayer) : Result (list FrameLayer) :=
  match stack, ls with
  | [], _ => Ok ls
  | l :: stack', fl :: ls' =>
      rbind (FrameLayer_set l fl) (fun fl' =>
      rbind (set_layers stack' ls') (fun rest => Ok (fl' :: rest)))
  | _ :: _, [] => AssertFail
  end.

(** Frame::set.  [bAlloc] tells whether [new FrameLayer[ n ]] yields an
    array; the result is the returned bool and the frame afterwards. *)
Definition Frame_set (bAlloc : bool) (stack : list Layer) (zorder : Z) (id : FrameId)
    (config : Z) (f : Frame) : Result (bool * Frame) :=
  rbind (rassert (negb (mbLinked f))) (fun _ =>
  rbind (rassert (negb (mbLockedForDisplay f))) (fun _ =>
  let stackSize := u32 (Z.of_nat (length stack)) in
  let bReAllocLayers := mLayerAllocCount f <? stackSize in
  let with_layers (alloc count : Z) (ls : list FrameLayer) (cfg : Z) : Frame :=
    mkFrame (mEffectiveFrame f) (mbLinked f) (mType f) alloc count ls
            zorder id cfg (mbLockedForDisplay f) true in
  let allocCount :=
    if bReAllocLayers
    then (if cMinimumLayerAllocCount <? stackSize then stackSize else cMinimumLayerAllocCount)
    else mLayerAllocCount f in
  let layers :=
    if bReAllocLayers then repeat FrameLayer_new (Z.to_nat allocCount) else maLayers f in
  if bReAllocLayers && negb bAlloc then
    Ok (false, with_layers 0 0 [] (mConfig f))
  else if allocCount <? stackSize then
    Ok (false, with_layers allocCount (mLayerCount f) layers (mConfig f))
  else
    rbind (set_layers stack layers) (fun ls =>
    Ok (true, with_layers allocCount stackSize ls config)))).

(** ** Work items in the ring *)

Inductive EType := WORK_ITEM_FRAME | WORK_ITEM_EVENT.

(** A ring entry: a pool frame, by its index in maFrames, or an event. *)
Inductive WorkItem :=
| WFrame (f : nat)
| WEvent (e : Event).

(** WorkItem::getWorkItemType *)
Definition getWorkItemType (w : WorkItem) : EType :=
  match w with
  | WFrame _ => WORK_ITEM_FRAME
  | WEvent _ => WORK_ITEM_EVENT
  end.

Definition isFrameItem (w : WorkItem) : bool :=
  match w with WFrame _ => true | WEvent _ => false end.

Definition FrameId_eqb (a b : FrameId) : bool :=
  (mTimelineIndex a =? mTimelineIndex b) && (mHwcIndex a =? mHwcIndex b).

Definition Event_eqb (a b : Event) : bool :=
  (mId a =? mId b) && FrameId_eqb (evEffectiveFrame a) (evEffectiveFrame b)
  && Bool.eqb (evLinked a) (evLinked b).

Definition WorkItem_eqb (a b : WorkItem) : bool :=
  match a, b with
  | WFrame i, WFrame j => Nat.eqb i j
  | WEvent e, WEvent e' => Event_eqb e e'
  | _, _ => false
  end.

(** Unlinking [w]: the first entry of the ring that is [w] goes. *)
Fixpoint ring_remove (w : WorkItem) (ring : list WorkItem) : list WorkItem :=
  match ring with
  | [] => []
  | x :: rest => if WorkItem_eqb w x then rest else x :: ring_remove w rest
  end.

(** The pool frames linked in the ring, in ring order. *)
Definition frame_ids (ring : list WorkItem) : list nat :=
  omap (fun w => match w with WFrame i => Some i | WEvent _ => None end) ring.

(** The number of FRAME items linked in the ring. *)
Definition ring_frames (ring : list WorkItem) : nat := length (frame_ids ring).

(** ** What the queue does to the outside *)

Inductive Effect :=
| NotifyWorkConsumed                 (* mConditionWorkConsumed.notify_all *)
| NotifyFrameReleased                (* mConditionFrameReleased.notify_all *)
| NotifyWork                         (* Worker::mWork.notify_all *)
| StartWorker                        (* new Worker *)
| BackendConsumeEvent (id : Z)       (* consumeWork( Event* ) *)
| BackendConsumeFrame (f : nat)      (* consumeWork( Frame* ) *)
| BackendSyncFlip                    (* syncFlip *)
| DeleteEvent (id : Z).              (* delete pEvent *)

(** DisplayQueue::Worker.  The declaration of mSignalled is not part of the
    sources; it is a counter of pending signals. *)
Record Worker := mkWorker { mSignalled : Z }.

(** Modelled from the spec: eBF_SYNC_BEFORE_FLIP is a bit of the behaviour
    flags; its declaration is in DisplayQueue.h. *)
Definition eBF_SYNC_BEFORE_FLIP : Z := 1.

(** ** DisplayQueue state *)

Record DisplayQueue := mkDisplayQueue {
  mBehaviourFlags : Z;
  mName : string;
  mpWorkQueue : list WorkItem;
  mQueuedWork : Z;
  mQueuedFrames : Z;
  mFramesLockedForDisplay : Z;
  mFramePoolUsed : Z;
  mFramePoolPeak : Z;
  mFramePoolLimit : Z;
  mConsumedWork : Z;
  mConsumedFramesSinceInit : Z;
  mbConsumerBlocked : bool;
  maFrames : list Frame;
  mLastQueuedFrame : FrameId;
  mLastIssuedFrame : FrameId;
  mLastDroppedFrame : FrameId;
  mpWorker : option Worker;
  mLog : list Effect
}.

Definition with_name (v : string) (s : DisplayQueue) : DisplayQueue :=
  mkDisplayQueue (mBehaviourFlags s) v (mpWorkQueue s) (mQueuedWork s) (mQueuedFrames s)
    (mFramesLockedForDisplay s) (mFramePoolUsed s) (mFramePoolPeak s) (mFramePoolLimit s)
    (mConsumedWork s) (mConsumedFramesSinceInit s) (mbConsumerBlocked s) (maFrames s)
    (mLastQueuedFrame s) (mLastIssuedFrame s) (mLastDroppedFrame s) (mpWorker s) (mLog s).

Definition with_ring (v : list WorkItem) (s : DisplayQueue) : DisplayQueue :=
  mkDisplayQueue (mBehaviourFlags s) (mName s) v (mQueuedWork s) (mQueuedFrames s)
    (mFramesLockedForDisplay s) (mFramePoolUsed s) (mFramePoolPeak s) (mFramePoolLimit s)
    (mConsumedWork s) (mConsumedFramesSinceInit s) (mbConsumerBlocked s) (maFrames s)
    (mLastQueuedFrame s) (mLastIssuedFrame s) (mLastDroppedFrame s) (mpWorker s) (mLog s).

Definition with_queuedWork (v : Z) (s : DisplayQueue) : DisplayQueue :=
  mkDisplayQueue (mBehaviourFlags s) (mName s) (mpWorkQueue s) v (mQueuedFrames s)
    (mFramesLockedForDisplay s) (mFramePoolUsed s) (mFramePoolPeak s) (mFramePoolLimit s)
    (mConsumedWork s) (mConsumedFramesSinceInit s) (mbConsumerBlocked s) (maFrames s)
    (mLastQueuedFrame s) (mLastIssuedFrame s) (mLastDroppedFrame s) (mpWorker s) (mLog s).

Definition with_queuedFrames (v : Z) (s : DisplayQueue) : DisplayQueue :=
  mkDisplayQueue (mBehaviourFlags s) (mName s) (mpWorkQueue s) (mQueuedWork s) v
    (mFramesLockedForDisplay s) (mFramePoolUsed s) (mFramePoolPeak s) (mFramePoolLimit s)
    (mConsumedWork s) (mConsumedFramesSinceInit s) (mbConsumerBlocked s) (maFrames s)
    (mLastQueuedFrame s) (mLastIssuedFrame s) (mLastDroppedFrame s) (mpWorker s) (mLog s).

Definition with_framesLocked (v : Z) (s : DisplayQueue) : DisplayQueue :=
  mkDisplayQueue (mBehaviourFlags s) (mName s) (mpWorkQueue s) (mQueuedWork s) (mQueuedFrames s)
    v (mFramePoolUsed s) (mFramePoolPeak s) (mFramePoolLimit s)
    (mConsumedWork s) (mConsumedFramesSinceInit s) (mbConsumerBlocked s) (maFrames s)
    (mLastQueuedFrame s) (mLastIssuedFrame s) (mLastDroppedFrame s) (mpWorker s) (mLog s).

Definition with_poolUsed (v : Z) (s : DisplayQueue) : DisplayQueue :=
  mkDisplayQueue (mBehaviourFlags s) (mName s) (mpWorkQueue s) (mQueuedWork s) (mQueuedFrames s)
    (mFramesLockedForDisplay s) v (mFramePoolPeak s) (mFramePoolLimit s)
    (mConsumedWork s) (mConsumedFramesSinceInit s) (mbConsumerBlocked s) (maFrames s)
    (mLastQueuedFrame s) (mLastIssuedFrame s) (mLastDroppedFrame s) (mpWorker s) (mLog s).

Definition with_poolPeak (v : Z) (s : DisplayQueue) : DisplayQueue :=
  mkDisplayQueue (mBehaviourFlags s) (mName s) (mpWorkQueue s) (mQueuedWork s) (mQueuedFrames s)
    (mFramesLockedForDisplay s) (mFramePoolUsed s) v (mFramePoolLimit s)
    (mConsumedWork s) (mConsumedFramesSinceInit s) (mbConsumerBlocked s) (maFrames s)
    (mLastQueuedFrame s) (mLastIssuedFrame s) (mLastDroppedFrame s) (mpWorker s) (mLog s).

Definition with_consumedWork (v : Z) (s : DisplayQueue) : DisplayQueue :=
  mkDisplayQueue (mBehaviourFlags s) (mName s) (mpWorkQueue s) (mQueuedWork s) (mQueuedFrames s)
    (mFramesLockedForDisplay s) (mFramePoolUsed s) (mFramePoolPeak s) (mFramePoolLimit s)
    v (mConsumedFramesSinceInit s) (mbConsumerBlocked s) (maFrames s)
    (mLastQueuedFrame s) (mLastIssuedFrame s) (mLastDroppedFrame s) (mpWorker s) (mLog s).

Definition with_consumedFrames (v : Z) (s : DisplayQueue) : DisplayQueue :=
  mkDisplayQueue (mBehaviourFlags s) (mName s) (mpWorkQueue s) (mQueuedWork s) (mQueuedFrames s)
    (mFramesLockedForDisplay s) (mFramePoolUsed s) (mFramePoolPeak s) (mFramePoolLimit s)
    (mConsumedWork s) v (mbConsumerBlocked s) (maFrames s)
    (mLastQueuedFrame s) (mLastIssuedFrame s) (mLastDroppedFrame s) (mpWorker s) (mLog s).

Definition with_consumerBlocked (v : bool) (s : DisplayQueue) : DisplayQueue :=
  mkDisplayQueue (mBehaviourFlags s) (mName s) (mpWorkQueue s) (mQueuedWork s) (mQueuedFrames s)
    (mFramesLockedForDisplay s) (mFramePoolUsed s) (mFramePoolPeak s) (mFramePoolLimit s)
    (mConsumedWork s) (mConsumedFramesSinceInit s) v (maFrames s)
    (mLastQueuedFrame s) (mLastIssuedFrame s) (mLastDroppedFrame s) (mpWorker s) (mLog s).

Definition with_frames (v : list Frame) (s : DisplayQueue) : DisplayQueue :=
  mkDisplayQueue (mBehaviourFlags s) (mName s) (mpWorkQueue s) (mQueuedWork s) (mQueuedFrames s)
    (mFramesLockedForDisplay s) (mFramePoolUsed s) (mFramePoolPeak s) (mFramePoolLimit s)
    (mConsumedWork s) (mConsumedFramesSinceInit s) (mbConsumerBlocked s) v
    (mLastQueuedFrame s) (mLastIssuedFrame s) (mLastDroppedFrame s) (mpWorker s) (mLog s).

Definition with_lastQueued (v : FrameId) (s : DisplayQueue) : DisplayQueue :=
  mkDisplayQueue (mBehaviourFlags s) (mName s) (mpWorkQueue s) (mQueuedWork s) (mQueuedFrames s)
    (mFramesLockedForDisplay s) (mFramePoolUsed s) (mFramePoolPeak s) (mFramePoolLimit s)
    (mConsumedWork s) (mConsumedFramesSinceInit s) (mbConsumerBlocked s) (maFrames s)
    v (mLastIssuedFrame s) (mLastDroppedFrame s) (mpWorker s) (mLog s).

Definition with_lastIssued (v : FrameId) (s : DisplayQueue) : DisplayQueue :=
  mkDisplayQueue (mBehaviourFlags s) (mName s) (mpWorkQueue s) (mQueuedWork s) (mQueuedFrames s)
    (mFramesLockedForDisplay s) (mFramePoolUsed s) (mFramePoolPeak s) (mFramePoolLimit s)
    (mConsumedWork s) (mConsumedFramesSinceInit s) (mbConsumerBlocked s) (maFrames s)
    (mLastQueuedFrame s) v (mLastDroppedFrame s) (mpWorker s) (mLog s).

Definition with_lastDropped (v : FrameId) (s : DisplayQueue) : DisplayQueue :=
  mkDisplayQueue (mBehaviourFlags s) (mName s) (mpWorkQueue s) (mQueuedWork s) (mQueuedFrames s)
    (mFramesLockedForDisplay s) (mFramePoolUsed s) (mFramePoolPeak s) (mFramePoolLimit s)
    (mConsumedWork s) (mConsumedFramesSinceInit s) (mbConsumerBlocked s) (maFrames s)
    (mLastQueuedFrame s) (mLastIssuedFrame s) v (mpWorker s) (mLog s).

Definition with_worker (v : option Worker) (s : DisplayQueue) : DisplayQueue :=
  mkDisplayQueue (mBehaviourFlags s) (mName s) (mpWorkQueue s) (mQueuedWork s) (mQueuedFrames s)
    (mFramesLockedForDisplay s) (mFramePoolUsed s) (mFramePoolPeak s) (mFramePoolLimit s)
    (mConsumedWork s) (mConsumedFramesSinceInit s) (mbConsumerBlocked s) (maFrames s)
    (mLastQueuedFrame s) (mLastIssuedFrame s) (mLastDroppedFrame s) v (mLog s).

Definition with_log (v : list Effect) (s : DisplayQueue) : DisplayQueue :=
  mkDisplayQueue (mBehaviourFlags s) (mName s) (mpWorkQueue s) (mQueuedWork s) (mQueuedFrames s)
    (mFramesLockedForDisplay s) (mFramePoolUsed s) (mFramePoolPeak s) (mFramePoolLimit s)
    (mConsumedWork s) (mConsumedFramesSinceInit s) (mbConsumerBlocked s) (maFrames s)
    (mLastQueuedFrame s) (mLastIssuedFrame s) (mLastDroppedFrame s) (mpWorker s) v.

(** ** The state and error monad of the locked sections *)

Definition M (A : Type) : Type := DisplayQueue -> Result (A * DisplayQueue).

Definition ret {A} (a : A) : M A := fun s => Ok (a, s).

Definition bind {A B} (m : M A) (k : A -> M B) : M B :=
  fun s => match m s with
           | Ok (a, s') => k a s'
           | AssertFail => AssertFail
           | Spin => Spin
           end.

Definition gets {A} (f : DisplayQueue -> A) : M A := fun s => Ok (f s, s).
Definition modify (f : DisplayQueue -> DisplayQueue) : M unit := fun s => Ok (tt, f s).
Definition HWCASSERT (b : bool) : M unit := fun s => if b then Ok (tt, s) else AssertFail.
Definition emit (e : Effect) : M unit := modify (fun s => with_log (mLog s ++ [e]) s).

Declare Scope dq_scope.
Delimit Scope dq_scope with dq.
Notation "'let!' x ':=' m 'in' k" := (bind m (fun x => k))
  (at level 10, x name, m at level 100, k at level 200) : dq_scope.
Notation "m '>>' k" := (bind m (fun _ => k))
  (at level 100, k at level 200, right associativity) : dq_scope.
Open Scope dq_scope.

(** FrameId::validateFutureFrame as used on the queue's tracking ids. *)
Definition validateFutureFrame (last id : FrameId) : M unit :=
  HWCASSERT (futureFrame last id).

(** ** Access to the pool and to work items *)

(** Dereferencing a frame pointer; every pointer the code holds designates
    a pool frame. *)
Definition getFrame (i : nat) : M Frame :=
  fun s => match maFrames s !! i with
           | Some f => Ok (f, s)
           | None => AssertFail
           end.

Definition setFrame (i : nat) (f : Frame) : M unit :=
  modify (fun s => with_frames (<[i := f]> (maFrames s)) s).

Definition updFrame (i : nat) (g : Frame -> Frame) : M unit :=
  let! f := getFrame i in setFrame i (g f).

Definition Frame_withEffective (id : FrameId) (f : Frame) : Frame :=
  mkFrame id (mbLinked f) (mType f) (mLayerAllocCount f) (mLayerCount f) (maLayers f)
          (mZOrder f) (mFrameId f) (mConfig f) (mbLockedForDisplay f) (mbValid f).

Definition Frame_withLinked (b : bool) (f : Frame) : Frame :=
  mkFrame (mEffectiveFrame f) b (mType f) (mLayerAllocCount f) (mLayerCount f) (maLayers f)
          (mZOrder f) (mFrameId f) (mConfig f) (mbLockedForDisplay f) (mbValid f).

Definition Frame_withLocked (b : bool) (f : Frame) : Frame :=
  mkFrame (mEffectiveFrame f) (mbLinked f) (mType f) (mLayerAllocCount f) (mLayerCount f)
          (maLayers f) (mZOrder f) (mFrameId f) (mConfig f) b (mbValid f).

(** Frame::setType *)
Definition Frame_setType (t : FrameType) (f : Frame) : Frame :=
  mkFrame (mEffectiveFrame f) (mbLinked f) t (mLayerAllocCount f) (mLayerCount f)
          (maLayers f) (mZOrder f) (mFrameId f) (mConfig f) (mbLockedForDisplay f) (mbValid f).

(** Modelled from the spec: Frame::invalidate is declared in DisplayQueue.h;
    the spec has it mark the frame as not valid. *)
Definition Frame_invalidate (f : Frame) : Frame :=
  mkFrame (mEffectiveFrame f) (mbLinked f) (mType f) (mLayerAllocCount f) (mLayerCount f)
          (maLayers f) (mZOrder f) (mFrameId f) (mConfig f) (mbLockedForDisplay f) false.

Definition Event_withEffective (id : FrameId) (e : Event) : Event :=
  mkEvent (mId e) id (evLinked e).

Definition Event_withLinked (b : bool) (e : Event) : Event :=
  mkEvent (mId e) (evEffectiveFrame e) b.

(** WorkItem::isQueued *)
Definition isQueued (w : WorkItem) : M bool :=
  match w with
  | WFrame i => let! f := getFrame i in ret (mbLinked f)
  | WEvent e => ret (evLinked e)
  end.

(** WorkItem::getEffectiveFrame *)
Definition getEffectiveFrame (w : WorkItem) : M FrameId :=
  match w with
  | WFrame i => let! f := getFrame i in ret (mEffectiveFrame f)
  | WEvent e => ret (evEffectiveFrame e)
  end.

(** WorkItem::queue on mpWorkQueue: the new item becomes head->mpPrev. *)
Definition WorkItem_queue (pNewWork : WorkItem) : M unit :=
  let! q := isQueued pNewWork in
  HWCASSERT (negb q) >>
  match pNewWork with
  | WFrame i =>
      updFrame i (Frame_withLinked true) >>
      modify (fun s => with_ring (mpWorkQueue s ++ [WFrame i]) s)
  | WEvent e =>
      modify (fun s => with_ring (mpWorkQueue s ++ [WEvent (Event_withLinked true e)]) s)
  end.

(** WorkItem::dequeue on mpWorkQueue.  When the head goes its successor is
    the new head, which is the list without its first element. *)
Definition WorkItem_dequeue (pOldWork : WorkItem) : M unit :=
  let! q := isQueued pOldWork in
  HWCASSERT q >>
  let! ring := gets mpWorkQueue in
  HWCASSERT (negb (Nat.eqb (length ring) 0)) >>
  modify (with_ring (ring_remove pOldWork ring)) >>
  match pOldWork with
  | WFrame i => updFrame i (Frame_withLinked false)
  | WEvent _ => ret tt
  end.

(** ** DisplayQueue: construction *)

Definition DisplayQueue_new (poolCount : nat) (poolLimit : Z) (behaviourFlags : Z)
  : DisplayQueue :=
  mkDisplayQueue behaviourFlags EmptyString [] 0 0 0 0 0 poolLimit 0 0 false
    (repeat (Frame_setType eFT_DISPLAY_QUEUE Frame_new) poolCount)
    FrameId_zero FrameId_zero FrameId_zero None [].

(** ** Private helpers *)

(** The walk of doValidateQueue over adjacent items. *)
Fixpoint validate_adjacent (effs : list FrameId) : bool :=
  match effs with
  | a :: (b :: _) as rest => futureFrame a b && validate_adjacent rest
  | _ => true
  end.

Fixpoint ring_effective (ring : list WorkItem) : M (list FrameId) :=
  match ring with
  | [] => ret []
  | w :: rest =>
      let! e := getEffectiveFrame w in
      let! es := ring_effective rest in
      ret (e :: es)
  end.

(** DisplayQueue::doValidateQueue (internal build; the counter checks are
    compiled out in the source). *)
Definition doValidateQueue : M unit :=
  let! ring := gets mpWorkQueue in
  let! effs := ring_effective ring in
  HWCASSERT (validate_adjacent effs) >>
  let! issued := gets mLastIssuedFrame in
  let! queued := gets mLastQueuedFrame in
  validateFutureFrame issued queued.

(** DisplayQueue::startWorker *)
Definition startWorker : M unit :=
  let! w := gets mpWorker in
  match w with
  | None => modify (with_worker (Some (mkWorker 0))) >> emit StartWorker
  | Some _ => ret tt
  end.

(** Worker::signalWork *)
Definition signalWork (w : Worker) : M unit :=
  HWCASSERT (0 <=? mSignalled w) >>
  modify (with_worker (Some (mkWorker (mSignalled w + 1)))) >>
  emit NotifyWork.

(** DisplayQueue::getWorkerTid.  Worker::getId returns
    std::this_thread::get_id(), the id of the thread that asks; [None] is
    the default-constructed id, which is the id of no thread. *)
Definition getWorkerTid (this_id : nat) : M (option nat) :=
  let! w := gets mpWorker in
  match w with
  | None => ret None
  | Some _ => ret (Some this_id)
  end.

(** DisplayQueue::doAdvanceIssuedFrame *)
Definition doAdvanceIssuedFrame (id : FrameId) : M unit :=
  let! issued := gets mLastIssuedFrame in
  validateFutureFrame issued id >>
  modify (with_lastIssued id) >>
  emit NotifyWorkConsumed.

(** DisplayQueue::doQueueWork *)
Definition doQueueWork (pWork : WorkItem) : M unit :=
  let bIsAFrame := isFrameItem pWork in
  let! qw := gets mQueuedWork in
  let! ring := gets mpWorkQueue in
  HWCASSERT (((qw =? 0) && Nat.eqb (length ring) 0)
             || ((0 <? qw) && negb (Nat.eqb (length ring) 0))) >>
  let! issued := gets mLastIssuedFrame in
  let! eff := getEffectiveFrame pWork in
  validateFutureFrame issued eff >>
  WorkItem_queue pWork >>
  modify (fun s => with_queuedWork (incr32 (mQueuedWork s)) s) >>
  (if bIsAFrame
   then modify (fun s => with_queuedFrames (incr32 (mQueuedFrames s)) s)
   else ret tt) >>
  startWorker >>
  let! w := gets mpWorker in
  (match w with
   | Some wk => signalWork wk
   | None => ret tt
   end) >>
  doValidateQueue.

(** DisplayQueue::dropFrame *)
Definition dropFrame (i : nat) : M unit :=
  let! f := getFrame i in
  HWCASSERT (FrameType_eqb (mType f) eFT_DISPLAY_QUEUE) >>
  HWCASSERT (mbLinked f) >>
  HWCASSERT (negb (mbLockedForDisplay f)) >>
  modify (with_lastDropped (mFrameId f)) >>
  WorkItem_dequeue (WFrame i) >>
  let! qf := gets mQueuedFrames in
  let! qw := gets mQueuedWork in
  let! used := gets mFramePoolUsed in
  HWCASSERT (0 <? qf) >>
  HWCASSERT (0 <? qw) >>
  HWCASSERT (0 <? used) >>
  modify (with_queuedFrames (decr32 qf)) >>
  modify (with_queuedWork (decr32 qw)) >>
  modify (with_poolUsed (decr32 used)) >>
  updFrame i (Frame_reset true) >>
  emit NotifyWorkConsumed.

(** The body of the loop of doDropRedundantFrames for [pCurrent]; the
    result is the new value of bNewerComplete. *)
Definition dropRedundant_step (pCurrent : WorkItem) (bNewerComplete : bool) : M bool :=
  match pCurrent with
  | WFrame i =>
      let! pFrame := getFrame i in
      if bNewerComplete then
        (if negb (mbLockedForDisplay pFrame) then dropFrame i else ret tt) >>
        ret bNewerComplete
      else
        ret (Frame_isRenderingComplete pFrame)
  | WEvent _ => ret bNewerComplete
  end.

(** The loop of doDropRedundantFrames.  [older] holds pCurrent and the
    items reached from it through getLast, down to the head; the
    predecessor is read before pCurrent is dropped, so the walk is over the
    items that were linked when the loop was entered. *)
Fixpoint dropRedundant_loop (older : list WorkItem) (bNewerComplete : bool) : M unit :=
  match older with
  | [] => ret tt
  | pCurrent :: rest =>
      let! b := dropRedundant_step pCurrent bNewerComplete in
      dropRedundant_loop rest b
  end.

(** Is the newer item a completed frame? *)
Definition newerComplete_seed (pNewer : WorkItem) : M bool :=
  match pNewer with
  | WFrame i => let! f := getFrame i in ret (Frame_isRenderingComplete f)
  | WEvent _ => ret false
  end.

(** DisplayQueue::doDropRedundantFrames *)
Definition doDropRedundantFrames : M unit :=
  let! ring := gets mpWorkQueue in
  match rev ring with
  | [] => ret tt                                 (* mpWorkQueue == NULL *)
  | [_] => ret tt                                (* pNewer == mpWorkQueue *)
  | pNewer :: older =>
      let! bNewerComplete := newerComplete_seed pNewer in
      dropRedundant_loop older bNewerComplete
  end.

(** DisplayQueue::limitUsedFrames: the timed wait is compiled out, both
    branches of the test on the pool limit return. *)
Definition limitUsedFrames : M unit :=
  doDropRedundantFrames >>
  let! used := gets mFramePoolUsed in
  let! limit := gets mFramePoolLimit in
  if used <? limit then ret tt else ret tt.

(** The test [pOldest == NULL || int32_t( pOldest.timeline - pFrame.timeline ) > 0]. *)
Definition olderThanOldest (pOldest : option (nat * Frame)) (pFrame : Frame) : bool :=
  match pOldest with
  | None => true
  | Some (_, fo) =>
      0 <? s32 (mTimelineIndex (mFrameId fo) - mTimelineIndex (mFrameId pFrame))
  end.

(** The scan of findFree over maFrames[ f.. ]: [inl f] is the early return
    of an unused frame, [inr pOldest] the value of pOldest when the loop
    ends; pOldest is kept with the frame it points to. *)
Fixpoint findFree_scan (frames : list Frame) (f : nat) (pOldest : option (nat * Frame))
    : nat + option (nat * Frame) :=
  match frames with
  | [] => inr pOldest
  | pFrame :: rest =>
      if mbLockedForDisplay pFrame then findFree_scan rest (S f) pOldest
      else if negb (mbLinked pFrame) then inl f
      else findFree_scan rest (S f)
             (if olderThanOldest pOldest pFrame then Some (f, pFrame) else pOldest)
  end.

(** DisplayQueue::findFree *)
Definition findFree : M (option nat) :=
  let! pool := gets maFrames in
  match findFree_scan pool 0 None with
  | inl f => ret (Some f)
  | inr None => ret None
  | inr (Some (o, _)) => dropFrame o >> ret (Some o)
  end.

(** Modelled from the spec: lockFrameForDisplay and unlockFrameForDisplay
    are declared in DisplayQueue.h; the spec has them set (clear) the flag
    of the frame and count framesLockedForDisplay up (down). *)
Definition lockFrameForDisplay (i : nat) : M unit :=
  updFrame i (Frame_withLocked true) >>
  modify (fun s => with_framesLocked (incr32 (mFramesLockedForDisplay s)) s).

Definition unlockFrameForDisplay (i : nat) : M unit :=
  updFrame i (Frame_withLocked false) >>
  modify (fun s => with_framesLocked (decr32 (mFramesLockedForDisplay s)) s).

(** DisplayQueue::doReleaseFrame *)
Definition doReleaseFrame (i : nat) : M unit :=
  let! f := getFrame i in
  HWCASSERT (FrameType_eqb (mType f) eFT_DISPLAY_QUEUE) >>
  HWCASSERT (mbLockedForDisplay f) >>
  doValidateQueue >>
  updFrame i (Frame_reset false) >>
  let! locked := gets mFramesLockedForDisplay in
  let! used := gets mFramePoolUsed in
  HWCASSERT (0 <? locked) >>
  HWCASSERT (0 <? used) >>
  modify (with_framesLocked (decr32 locked)) >>
  modify (with_poolUsed (decr32 used)) >>
  doValidateQueue >>
  emit NotifyFrameReleased.

(** The body of the loops of dropAllFrames and doInvalidateFrames: [act]
    on the item if it is an unlocked display-queue frame. *)
Definition onUnlockedPoolFrame (act : nat -> M unit) (pWork : WorkItem) : M unit :=
  match pWork with
  | WFrame i =>
      let! f := getFrame i in
      if negb (mbLockedForDisplay f) && FrameType_eqb (mType f) eFT_DISPLAY_QUEUE
      then act i else ret tt
  | WEvent _ => ret tt
  end.

(** The walk from the head through getNext until the head is reached
    again: the successor is read before the item is dropped. *)
Fixpoint forEachWork (body : WorkItem -> M unit) (items : list WorkItem) : M unit :=
  match items with
  | [] => ret tt
  | pWork :: rest => body pWork >> forEachWork body rest
  end.

(** DisplayQueue::doInvalidateFrames *)
Definition doInvalidateFrames : M unit :=
  doValidateQueue >>
  let! ring := gets mpWorkQueue in
  forEachWork (onUnlockedPoolFrame (fun i => updFrame i Frame_invalidate)) ring >>
  doValidateQueue.

(** The condition of the loop of doFlush. *)
Definition doFlush_continue (frameIndex : Z) (maxConsume startConsumeCount : Z)
    (s : DisplayQueue) : bool :=
  negb (mbConsumerBlocked s)
  && negb (mQueuedWork s =? 0)
  && (s32 (mConsumedWork s - startConsumeCount) <? maxConsume)
  && ((frameIndex =? 0) || (0 <? s32 (frameIndex - mHwcIndex (mLastIssuedFrame s)))).

(** The loop of doFlush: the wait on mConditionWorkConsumed is compiled
    out, an iteration signals the worker and tests the condition again. *)
Fixpoint doFlush_loop (fuel : nat) (frameIndex maxConsume startConsumeCount : Z) : M unit :=
  fun s =>
    if doFlush_continue frameIndex maxConsume startConsumeCount s then
      match fuel with
      | O => Spin
      | S fuel' =>
          match mpWorker s with
          | Some w =>
              (signalWork w >>
               doFlush_loop fuel' frameIndex maxConsume startConsumeCount) s
          | None => AssertFail
          end
      end
    else Ok (tt, s).

(** DisplayQueue::doFlush *)
Definition doFlush (fuel : nat) (frameIndex : Z) (timeoutNs : Z) : M bool :=
  let! w := gets mpWorker in
  (match w with
   | Some _ =>
       let! qw := gets mQueuedWork in
       let! startConsumeCount := gets mConsumedWork in
       doFlush_loop fuel frameIndex (s32 qw) startConsumeCount
   | None => ret tt
   end) >>
  let! blocked := gets mbConsumerBlocked in
  if blocked then ret false
  else emit BackendSyncFlip >> ret true.

(** DisplayQueue::doConsumeEvent, the head of the ring is [pEvent]; run
    from entry to return with no other thread taking mLockQueue while the
    backend has the event.  The locked sections on their own are
    [doConsumeEvent_begin] and [doConsumeEvent_end] below. *)
Definition doConsumeEvent (pEvent : Event) : M unit :=
  let! qw := gets mQueuedWork in
  HWCASSERT (0 <? qw) >>
  let! issued := gets mLastIssuedFrame in
  validateFutureFrame issued (evEffectiveFrame pEvent) >>
  (* mLockQueue.unlock( ); consumeWork( pEvent ); mLockQueue.lock( ) *)
  emit (BackendConsumeEvent (mId pEvent)) >>
  doValidateQueue >>
  let! qw := gets mQueuedWork in
  HWCASSERT (0 <? qw) >>
  WorkItem_dequeue (WEvent pEvent) >>
  modify (with_queuedWork (decr32 qw)) >>
  modify (fun s => with_consumedWork (incr32 (mConsumedWork s)) s) >>
  doAdvanceIssuedFrame (evEffectiveFrame pEvent) >>
  emit (DeleteEvent (mId pEvent)).

(** The backend's consumeWork( Frame* ): a failed flip releases the frame
    through releaseFrame before it returns. *)
Definition backend_consumeFrame (bFlipOk : bool) (i : nat) : M unit :=
  emit (BackendConsumeFrame i) >>
  if bFlipOk then ret tt else doReleaseFrame i.

(** DisplayQueue::doConsumeFrame, the head of the ring is the frame [i];
    run from entry to return with no other thread taking mLockQueue in
    the two windows where doConsumeFrame releases it, around
    Frame::waitRendering and around the flip, but for the releaseFrame of
    a failed flip.  The locked sections on their own are
    [doConsumeFrame_lock], [doConsumeFrame_resync],
    [doConsumeFrame_dequeue] and [doConsumeFrame_end] below, and
    [run_steps] runs them with the operations of other threads in
    between. *)
Definition doConsumeFrame (bFlipOk : bool) (i : nat) : M unit :=
  let! qw := gets mQueuedWork in
  let! qf := gets mQueuedFrames in
  let! locked := gets mFramesLockedForDisplay in
  HWCASSERT (0 <? qw) >>
  HWCASSERT (0 <? qf) >>
  HWCASSERT (locked <=? 1) >>
  let! f := getFrame i in
  HWCASSERT (FrameType_eqb (mType f) eFT_DISPLAY_QUEUE) >>
  let! issued := gets mLastIssuedFrame in
  validateFutureFrame issued (mEffectiveFrame f) >>
  validateFutureFrame issued (mFrameId f) >>
  lockFrameForDisplay i >>
  let! flags := gets mBehaviourFlags in
  let! pFrame :=
    (if negb (Z.land flags eBF_SYNC_BEFORE_FLIP =? 0) then
       (* mLockQueue.unlock( ); pFrame->waitRendering( ); mLockQueue.lock( ).
          Frame::waitRendering: the wait on the layers is compiled out. *)
       doValidateQueue >>
       (* mpWorkQueue == pFrame: no other thread ran since the head was read. *)
       let! f := getFrame i in
       HWCASSERT (mbLockedForDisplay f) >>
       unlockFrameForDisplay i >>
       doDropRedundantFrames >>
       let! ring := gets mpWorkQueue in
       HWCASSERT (negb (Nat.eqb (length ring) 0)) >>
       match ring with
       | WFrame j :: _ =>
           lockFrameForDisplay j >>
           let! fj := getFrame j in
           HWCASSERT (FrameType_eqb (mType fj) eFT_DISPLAY_QUEUE) >>
           ret (Some j)
       | _ => ret None
       end
     else ret (Some i)) in
  match pFrame with
  | None => ret tt
  | Some j =>
      let! qf := gets mQueuedFrames in
      let! qw := gets mQueuedWork in
      HWCASSERT (0 <? qf) >>
      HWCASSERT (0 <? qw) >>
      WorkItem_dequeue (WFrame j) >>
      modify (with_queuedFrames (decr32 qf)) >>
      modify (with_queuedWork (decr32 qw)) >>
      modify (fun s => with_consumedFrames (incr32 (mConsumedFramesSinceInit s)) s) >>
      modify (fun s => with_consumedWork (incr32 (mConsumedWork s)) s) >>
      let! fj := getFrame j in
      let effectiveIssuedFrame := mEffectiveFrame fj in
      HWCASSERT (0 <=? s32 (mHwcIndex effectiveIssuedFrame - mHwcIndex (mFrameId fj))) >>
      (* mLockQueue.unlock( ); consumeWork( pFrame ); mLockQueue.lock( ) *)
      backend_consumeFrame bFlipOk j >>
      doValidateQueue >>
      doAdvanceIssuedFrame effectiveIssuedFrame
  end.

(** DisplayQueue::doConsumeWork *)
Definition doConsumeWork (bFlipOk : bool) : M bool :=
  doValidateQueue >>
  let! ring := gets mpWorkQueue in
  match ring with
  | [] =>
      let! qw := gets mQueuedWork in
      HWCASSERT (qw =? 0) >> ret false
  | pWork :: _ =>
      let! qw := gets mQueuedWork in
      HWCASSERT (0 <? qw) >>
      (match pWork with
       | WFrame i => doConsumeFrame bFlipOk i
       | WEvent e => doConsumeEvent e
       end) >>
      ret true
  end.

(** ** Public operations *)

(** Running a fallible operation of Frame on the pool frame [i]. *)
Definition liftFrame {A} (i : nat) (op : Frame -> Result (A * Frame)) : M A :=
  let! f := getFrame i in
  fun s => match op f with
           | Ok (a, f') => Ok (a, with_frames (<[i := f']> (maFrames s)) s)
           | AssertFail => AssertFail
           | Spin => Spin
           end.

(** DisplayQueue::init *)
Definition init (threadName : string) : M unit :=
  modify (with_name threadName) >>
  modify (with_consumedFrames 0).

(** DisplayQueue::queueEvent *)
Definition queueEvent (pEvent : Event) : M Z :=
  let! queued := gets mLastQueuedFrame in
  doQueueWork (WEvent (Event_withEffective queued pEvent)) >>
  ret OK.

(** DisplayQueue::queueFrame *)
Definition queueFrame (bAlloc : bool) (stack : list Layer) (zorder : Z) (id : FrameId)
    (config : Z) : M Z :=
  let! queued := gets mLastQueuedFrame in
  validateFutureFrame queued id >>
  limitUsedFrames >>
  let! pNewFrame := findFree in
  match pNewFrame with
  | None => ret (- ENOSYS)
  | Some i =>
      let! f := getFrame i in
      HWCASSERT (FrameType_eqb (mType f) eFT_DISPLAY_QUEUE) >>
      modify (fun s => with_poolUsed (incr32 (mFramePoolUsed s)) s) >>
      let! used := gets mFramePoolUsed in
      let! peak := gets mFramePoolPeak in
      (if peak <? used then modify (with_poolPeak used) else ret tt) >>
      let! bSet := liftFrame i (Frame_set bAlloc stack zorder id config) in
      if negb bSet then ret (- ENOSYS)
      else
        updFrame i (Frame_withEffective id) >>
        modify (with_lastQueued id) >>
        doQueueWork (WFrame i) >>
        ret OK
  end.

(** DisplayQueue::queueDrop *)
Definition queueDrop (id : FrameId) : M unit :=
  let! queued := gets mLastQueuedFrame in
  validateFutureFrame queued id >>
  let! ring := gets mpWorkQueue in
  (match last ring with
   | None => doAdvanceIssuedFrame id
   | Some (WFrame i) => updFrame i (Frame_withEffective id)
   | Some (WEvent e) =>
       modify (with_ring (removelast ring ++ [WEvent (Event_withEffective id e)]))
   end) >>
  modify (with_lastQueued id) >>
  doValidateQueue.

(** DisplayQueue::dropAllFrames *)
Definition dropAllFrames : M unit :=
  doValidateQueue >>
  let! ring := gets mpWorkQueue in
  forEachWork (onUnlockedPoolFrame dropFrame) ring >>
  doValidateQueue.

(** DisplayQueue::dropRedundantFrames *)
Definition dropRedundantFrames : M unit := doDropRedundantFrames.

(** DisplayQueue::consumeWork *)
Definition consumeWork (bFlipOk : bool) : M bool := doConsumeWork bFlipOk.

(** DisplayQueue::flush, called by the thread [this_id].  The function is
    declared void: bFlushed stays local. *)
Definition flush (fuel : nat) (this_id : nat) (frameIndex : Z) (timeoutNs : Z) : M unit :=
  let! tid := getWorkerTid this_id in
  let! blocked := gets mbConsumerBlocked in
  let! bFlushed :=
    (if negb (match tid with Some t => Nat.eqb t this_id | None => false end)
     then (if negb blocked then doFlush fuel frameIndex timeoutNs else ret false)
     else ret false) in
  if negb bFlushed then doInvalidateFrames else ret tt.

(** DisplayQueue::consumerBlocked *)
Definition consumerBlocked : M unit :=
  modify (with_consumerBlocked true) >> emit NotifyWorkConsumed.

(** DisplayQueue::consumerUnblocked *)
Definition consumerUnblocked : M unit :=
  let! blocked := gets mbConsumerBlocked in
  HWCASSERT blocked >>
  modify (with_consumerBlocked false) >> emit NotifyWorkConsumed.

(** DisplayQueue::notifyReady *)
Definition notifyReady : M unit :=
  let! w := gets mpWorker in
  match w with
  | Some wk => signalWork wk
  | None => ret tt
  end.

(** DisplayQueue::releaseFrame *)
Definition releaseFrame (i : nat) : M unit := doReleaseFrame i.

(** ** The queue as a state machine over its public operations *)

Inductive Op :=
| OpInit (threadName : string)
| OpQueueEvent (id : Z)
| OpQueueFrame (bAlloc : bool) (stack : list Layer) (zorder : Z) (id : FrameId) (config : Z)
| OpQueueDrop (id : FrameId)
| OpDropAllFrames
| OpDropRedundantFrames
| OpConsumeWork (bFlipOk : bool)
| OpFlush (this_id : nat) (frameIndex : Z) (timeoutNs : Z)
| OpConsumerBlocked
| OpConsumerUnblocked
| OpNotifyReady
| OpReleaseFrame (i : nat).

(** What a C++ call hands back to its caller. *)
Inductive Ret :=
| RVoid
| RBool (b : bool)
| RInt (z : Z).

Definition returning {A} (f : A -> Ret) (m : M A) : M Ret :=
  let! a := m in ret (f a).

Definition run_op (fuel : nat) (op : Op) : M Ret :=
  match op with
  | OpInit n => returning (fun _ => RVoid) (init n)
  | OpQueueEvent id => returning RInt (queueEvent (Event_new id))
  | OpQueueFrame bAlloc stack zorder id config =>
      returning RInt (queueFrame bAlloc stack zorder id config)
  | OpQueueDrop id => returning (fun _ => RVoid) (queueDrop id)
  | OpDropAllFrames => returning (fun _ => RVoid) dropAllFrames
  | OpDropRedundantFrames => returning (fun _ => RVoid) dropRedundantFrames
  | OpConsumeWork bFlipOk => returning RBool (consumeWork bFlipOk)
  | OpFlush this_id frameIndex timeoutNs =>
      returning (fun _ => RVoid) (flush fuel this_id frameIndex timeoutNs)
  | OpConsumerBlocked => returning (fun _ => RVoid) consumerBlocked
  | OpConsumerUnblocked => returning (fun _ => RVoid) consumerUnblocked
  | OpNotifyReady => returning (fun _ => RVoid) notifyReady
  | OpReleaseFrame i => returning (fun _ => RVoid) (releaseFrame i)
  end.

(** Running a sequence of operations; the states after each completed
    operation, up to the first one that does not complete. *)
Fixpoint run_ops (fuel : nat) (ops : list Op) (s : DisplayQueue) : list DisplayQueue :=
  match ops with
  | [] => []
  | op :: rest =>
      match run_op fuel op s with
      | Ok (_, s') => s' :: run_ops fuel rest s'
      | _ => []
      end
  end.

(** ** consumeWork, one locked section at a time

    doConsumeEvent and doConsumeFrame release mLockQueue around the calls
    of the backend and around Frame::waitRendering; operations of other
    threads run from lock to unlock in these windows.  [doConsumeEvent]
    and [doConsumeFrame] above are the sections run back to back, no
    other thread taking the lock in between.  Here the sections are
    computations of their own, and a run interleaves them with the
    operations of other threads. *)

(** doConsumeEvent up to mLockQueue.unlock( ); the call of the backend
    follows the unlock. *)
Definition doConsumeEvent_begin (pEvent : Event) : M unit :=
  let! qw := gets mQueuedWork in
  HWCASSERT (0 <? qw) >>
  let! issued := gets mLastIssuedFrame in
  validateFutureFrame issued (evEffectiveFrame pEvent) >>
  emit (BackendConsumeEvent (mId pEvent)).

(** doConsumeEvent from mLockQueue.lock( ) on.  pEvent is the head of the
    ring: it was when the lock was released, and no operation links an
    item before the head or unlinks an event but this one; its effective
    frame is read now. *)
Definition doConsumeEvent_end : M unit :=
  doValidateQueue >>
  let! qw := gets mQueuedWork in
  HWCASSERT (0 <? qw) >>
  let! ring := gets mpWorkQueue in
  match ring with
  | WEvent pEvent :: _ =>
      WorkItem_dequeue (WEvent pEvent) >>
      modify (with_queuedWork (decr32 qw)) >>
      modify (fun s => with_consumedWork (incr32 (mConsumedWork s)) s) >>
      doAdvanceIssuedFrame (evEffectiveFrame pEvent) >>
      emit (DeleteEvent (mId pEvent))
  | _ => HWCASSERT false
  end.

(** doConsumeFrame up to lockFrameForDisplay( pFrame ). *)
Definition doConsumeFrame_lock (i : nat) : M unit :=
  let! qw := gets mQueuedWork in
  let! qf := gets mQueuedFrames in
  let! locked := gets mFramesLockedForDisplay in
  HWCASSERT (0 <? qw) >>
  HWCASSERT (0 <? qf) >>
  HWCASSERT (locked <=? 1) >>
  let! f := getFrame i in
  HWCASSERT (FrameType_eqb (mType f) eFT_DISPLAY_QUEUE) >>
  let! issued := gets mLastIssuedFrame in
  validateFutureFrame issued (mEffectiveFrame f) >>
  validateFutureFrame issued (mFrameId f) >>
  lockFrameForDisplay i.

(** doConsumeFrame under eBF_SYNC_BEFORE_FLIP, from the mLockQueue.lock( )
    that follows waitRendering to the frame that will be flipped: NULL is
    the return on a head that is no frame. *)
Definition doConsumeFrame_resync (i : nat) : M (option nat) :=
  doValidateQueue >>
  let! ring := gets mpWorkQueue in
  HWCASSERT (match ring with WFrame h :: _ => Nat.eqb h i | _ => false end) >>
  let! f := getFrame i in
  HWCASSERT (mbLockedForDisplay f) >>
  unlockFrameForDisplay i >>
  doDropRedundantFrames >>
  let! ring := gets mpWorkQueue in
  HWCASSERT (negb (Nat.eqb (length ring) 0)) >>
  match ring with
  | WFrame j :: _ =>
      lockFrameForDisplay j >>
      let! fj := getFrame j in
      HWCASSERT (FrameType_eqb (mType fj) eFT_DISPLAY_QUEUE) >>
      ret (Some j)
  | _ => ret None
  end.

(** doConsumeFrame from the dequeue of pFrame to the mLockQueue.unlock( )
    before the flip; the result is effectiveIssuedFrame, and the call of
    the backend follows the unlock. *)
Definition doConsumeFrame_dequeue (j : nat) : M FrameId :=
  let! qf := gets mQueuedFrames in
  let! qw := gets mQueuedWork in
  HWCASSERT (0 <? qf) >>
  HWCASSERT (0 <? qw) >>
  WorkItem_dequeue (WFrame j) >>
  modify (with_queuedFrames (decr32 qf)) >>
  modify (with_queuedWork (decr32 qw)) >>
  modify (fun s => with_consumedFrames (incr32 (mConsumedFramesSinceInit s)) s) >>
  modify (fun s => with_consumedWork (incr32 (mConsumedWork s)) s) >>
  let! fj := getFrame j in
  let effectiveIssuedFrame := mEffectiveFrame fj in
  HWCASSERT (0 <=? s32 (mHwcIndex effectiveIssuedFrame - mHwcIndex (mFrameId fj))) >>
  emit (BackendConsumeFrame j) >>
  ret effectiveIssuedFrame.

(** doConsumeFrame from the mLockQueue.lock( ) after the flip on. *)
Definition doConsumeFrame_end (effectiveIssuedFrame : FrameId) : M unit :=
  doValidateQueue >>
  doAdvanceIssuedFrame effectiveIssuedFrame.

(** Where the thread that called consumeWork is while mLockQueue is free,
    with the locals it keeps. *)
Inductive Consumer :=
| CIdle                                              (* outside consumeWork *)
| CWaitRendering (pFrame : nat)                      (* in pFrame->waitRendering( ) *)
| CFlip (pFrame : nat) (effectiveIssuedFrame : FrameId)   (* in consumeWork( pFrame ) *)
| CEvent.                                            (* in consumeWork( pEvent ) *)

(** The next locked section of consumeWork: from CIdle the entry of
    consumeWork, else the section after the window; CIdle as a result is
    the return of consumeWork. *)
Definition consumer_step (c : Consumer) : M Consumer :=
  match c with
  | CIdle =>
      doValidateQueue >>
      let! ring := gets mpWorkQueue in
      match ring with
      | [] =>
          let! qw := gets mQueuedWork in
          HWCASSERT (qw =? 0) >> ret CIdle
      | pWork :: _ =>
          let! qw := gets mQueuedWork in
          HWCASSERT (0 <? qw) >>
          match pWork with
          | WFrame i =>
              doConsumeFrame_lock i >>
              let! flags := gets mBehaviourFlags in
              if negb (Z.land flags eBF_SYNC_BEFORE_FLIP =? 0) then ret (CWaitRendering i)
              else
                let! effectiveIssuedFrame := doConsumeFrame_dequeue i in
                ret (CFlip i effectiveIssuedFrame)
          | WEvent e => doConsumeEvent_begin e >> ret CEvent
          end
      end
  | CWaitRendering i =>
      let! pFrame := doConsumeFrame_resync i in
      match pFrame with
      | None => ret CIdle
      | Some j =>
          let! effectiveIssuedFrame := doConsumeFrame_dequeue j in
          ret (CFlip j effectiveIssuedFrame)
      end
  | CFlip _ effectiveIssuedFrame => doConsumeFrame_end effectiveIssuedFrame >> ret CIdle
  | CEvent => doConsumeEvent_end >> ret CIdle
  end.

(** A step of the queue and its threads: a public operation another thread
    runs from lock to unlock (the backend's releaseFrame after a failed
    flip is one), or the next section of the thread inside consumeWork. *)
Inductive Step :=
| SOther (op : Op)
| SWorker.

(** consumeWork has one caller, the worker or the thread that drives a
    queue without one: a consumeWork as [SOther] is this caller running it
    from entry to return with no other thread in its windows, and it is a
    step only while the caller is outside consumeWork.  (A second caller in
    the window of doConsumeEvent would delete the event the first one
    still holds as pEvent.) *)
Definition oneConsumer (st : Step) (c : Consumer) : bool :=
  match st with
  | SOther op =>
      match op with
      | OpConsumeWork _ => match c with CIdle => true | _ => false end
      | _ => true
      end
  | SWorker => true
  end.

Definition run_step (fuel : nat) (st : Step) (cs : Consumer * DisplayQueue)
  : Result (Consumer * DisplayQueue) :=
  match st with
  | SOther op =>
      match run_op fuel op (snd cs) with
      | Ok (_, s') => Ok (fst cs, s')
      | AssertFail => AssertFail
      | Spin => Spin
      end
  | SWorker => consumer_step (fst cs) (snd cs)
  end.

(** Running a sequence of steps; the states after each completed step, up
    to the first step that does not complete or is none of the one
    consumer. *)
Fixpoint run_steps (fuel : nat) (steps : list Step) (cs : Consumer * DisplayQueue)
  : list (Consumer * DisplayQueue) :=
  match steps with
  | [] => []
  | st :: rest =>
      if oneConsumer st (fst cs) then
        match run_step fuel st cs with
        | Ok cs' => cs' :: run_steps fuel rest cs'
        | _ => []
        end
      else []
  end.

(** * Reasoning about the embedding *)

(** ** 32-bit arithmetic *)

Lemma u32_range z : 0 <= u32 z < 2 ^ 32.
Proof. unfold u32. apply Z.mod_pos_bound. lia. Qed.

Lemma u32_small z : 0 <= z < 2 ^ 32 -> u32 z = z.
Proof. intros H. unfold u32. apply Z.mod_small. exact H. Qed.

Lemma u32_idem z : u32 (u32 z) = u32 z.
Proof. apply u32_small, u32_range. Qed.

Lemma u32_add_l a b : u32 (u32 a + b) = u32 (a + b).
Proof. unfold u32. apply Zplus_mod_idemp_l. Qed.

Lemma u32_sub_l a b : u32 (u32 a - b) = u32 (a - b).
Proof. unfold u32. apply Zminus_mod_idemp_l. Qed.

Lemma s32_zero : s32 0 = 0.
Proof. reflexivity. Qed.

Lemma s32_range z : - 2 ^ 31 <= s32 z < 2 ^ 31.
Proof.
  unfold s32. pose proof (u32_range z) as H.
  destruct (u32 z <? 2 ^ 31) eqn:E.
  - apply Z.ltb_lt in E. lia.
  - apply Z.ltb_ge in E. lia.
Qed.

(** A difference that is congruent to a small signed value has that value
    as an [int32_t]. *)
Lemma s32_congr z y :
  - 2 ^ 31 <= y < 2 ^ 31 -> (z - y) mod 2 ^ 32 = 0 -> s32 z = y.
Proof.
  intros Hy Hm.
  apply Z.mod_divide in Hm; [ | lia ].
  destruct Hm as [k Hk].
  assert (Hz : z = y + k * 2 ^ 32) by lia.
  unfold s32, u32. subst z.
  rewrite Z.mod_add by lia.
  destruct (Z_lt_le_dec y 0) as [Hneg | Hpos].
  - assert (E : y mod 2 ^ 32 = y + 2 ^ 32).
    { symmetry. apply Z.mod_unique with (q := -1); lia. }
    rewrite E.
    destruct (y + 2 ^ 32 <? 2 ^ 31) eqn:C.
    + apply Z.ltb_lt in C. lia.
    + lia.
  - rewrite Z.mod_small by lia.
    destruct (y <? 2 ^ 31) eqn:C.
    + reflexivity.
    + apply Z.ltb_ge in C. lia.
Qed.

Lemma incr32_small z : 0 <= z -> z + 1 < 2 ^ 32 -> incr32 z = z + 1.
Proof. intros. unfold incr32. apply u32_small. lia. Qed.

Lemma decr32_small z : 0 < z < 2 ^ 32 -> decr32 z = z - 1.
Proof. intros. unfold decr32. apply u32_small. lia. Qed.

(** ** FrameId order *)

Lemma futureFrame_refl id : futureFrame id id = true.
Proof.
  unfold futureFrame. rewrite !Z.sub_diag. reflexivity.
Qed.

Lemma FrameId_eqb_eq a b : FrameId_eqb a b = true <-> a = b.
Proof.
  unfold FrameId_eqb. destruct a as [t h], b as [t' h']; simpl.
  rewrite andb_true_iff, !Z.eqb_eq. split.
  - intros [-> ->]. reflexivity.
  - intros E. injection E as -> ->. split; reflexivity.
Qed.

Lemma Event_eqb_eq a b : Event_eqb a b = true <-> a = b.
Proof.
  unfold Event_eqb. destruct a as [i e l], b as [i' e' l']; simpl.
  rewrite !andb_true_iff, Z.eqb_eq, FrameId_eqb_eq, Bool.eqb_true_iff. split.
  - intros [[-> ->] ->]. reflexivity.
  - intros E. injection E as -> -> ->. repeat split.
Qed.

Lemma WorkItem_eqb_eq a b : WorkItem_eqb a b = true <-> a = b.
Proof.
  destruct a as [i | e], b as [j | e']; simpl.
  - rewrite Nat.eqb_eq. split; [ intros -> | intros E; injection E ]; auto.
  - split; discriminate.
  - split; discriminate.
  - rewrite Event_eqb_eq. split; [ intros -> | intros E; injection E ]; auto.
Qed.

Lemma WorkItem_eqb_refl a : WorkItem_eqb a a = true.
Proof. apply WorkItem_eqb_eq. reflexivity. Qed.

(** ** Inversion of completed computations *)

Lemma bind_inv {A B} (m : M A) (k : A -> M B) s b s' :
  bind m k s = Ok (b, s') -> exists a s1, m s = Ok (a, s1) /\ k a s1 = Ok (b, s').
Proof.
  unfold bind. destruct (m s) as [[a s1] | | ]; try discriminate.
  intros H. exists a, s1. split; [ reflexivity | exact H ].
Qed.

Lemma ret_inv {A} (a : A) s b s' : ret a s = Ok (b, s') -> b = a /\ s' = s.
Proof. unfold ret. intros H. injection H as <- <-. split; reflexivity. Qed.

Lemma gets_inv {A} (f : DisplayQueue -> A) s b s' :
  gets f s = Ok (b, s') -> b = f s /\ s' = s.
Proof. unfold gets. intros H. injection H as <- <-. split; reflexivity. Qed.

Lemma modify_inv f s b s' : modify f s = Ok (b, s') -> s' = f s.
Proof. unfold modify. intros H. injection H as _ <-. reflexivity. Qed.

Lemma emit_inv e s b s' : emit e s = Ok (b, s') -> s' = with_log (mLog s ++ [e]) s.
Proof. unfold emit. intros H. apply modify_inv in H. exact H. Qed.

Lemma HWCASSERT_inv c s b s' : HWCASSERT c s = Ok (b, s') -> c = true /\ s' = s.
Proof.
  unfold HWCASSERT. destruct c; [ | discriminate ].
  intros H. injection H as _ <-. split; reflexivity.
Qed.

Lemma validateFutureFrame_inv last id s b s' :
  validateFutureFrame last id s = Ok (b, s') -> futureFrame last id = true /\ s' = s.
Proof. apply HWCASSERT_inv. Qed.

Lemma getFrame_inv i s f s' :
  getFrame i s = Ok (f, s') -> maFrames s !! i = Some f /\ s' = s.
Proof.
  unfold getFrame. destruct (maFrames s !! i); [ | discriminate ].
  intros H. injection H as <- <-. split; reflexivity.
Qed.

(** One step of inversion on a hypothesis that says a computation completed. *)
Ltac minv_step :=
  match goal with
  | H : AssertFail = Ok _ |- _ => discriminate H
  | H : Spin = Ok _ |- _ => discriminate H
  | H : Ok _ = Ok _ |- _ => injection H as H; try subst
  | H : bind _ _ _ = Ok _ |- _ =>
      let a := fresh "a" in let s1 := fresh "s" in let H1 := fresh "Hm" in
      apply bind_inv in H; destruct H as (a & s1 & H1 & H)
  | H : ret _ _ = Ok _ |- _ => apply ret_inv in H; destruct H; subst
  | H : gets _ _ = Ok _ |- _ => apply gets_inv in H; destruct H; subst
  | H : modify _ _ = Ok _ |- _ => apply modify_inv in H; subst
  | H : emit _ _ = Ok _ |- _ => apply emit_inv in H; subst
  | H : HWCASSERT _ _ = Ok _ |- _ =>
      let Hc := fresh "Hc" in apply HWCASSERT_inv in H; destruct H as [Hc H]; subst
  | H : validateFutureFrame _ _ _ = Ok _ |- _ =>
      let Hc := fresh "Hv" in
      apply validateFutureFrame_inv in H; destruct H as [Hc H]; subst
  | H : getFrame _ _ = Ok _ |- _ =>
      let Hf := fresh "Hf" in apply getFrame_inv in H; destruct H as [Hf H]; subst
  end.

Ltac minv := repeat minv_step.

(** ** Frame conditions: computations that leave a component alone *)

Definition preserves {A X} (proj : DisplayQueue -> X) (m : M A) : Prop :=
  forall s a s', m s = Ok (a, s') -> proj s' = proj s.

Lemma preserves_ret {A X} (proj : DisplayQueue -> X) (a : A) : preserves proj (ret a).
Proof. intros s b s' H. minv. reflexivity. Qed.

Lemma preserves_gets {A X} (proj : DisplayQueue -> X) (f : DisplayQueue -> A) :
  preserves proj (gets f).
Proof. intros s b s' H. minv. reflexivity. Qed.

Lemma preserves_assert {X} (proj : DisplayQueue -> X) c : preserves proj (HWCASSERT c).
Proof. intros s b s' H. minv. reflexivity. Qed.

Lemma preserves_validate {X} (proj : DisplayQueue -> X) a b :
  preserves proj (validateFutureFrame a b).
Proof. apply preserves_assert. Qed.

Lemma preserves_getFrame {X} (proj : DisplayQueue -> X) i : preserves proj (getFrame i).
Proof. intros s b s' H. minv. reflexivity. Qed.

Lemma preserves_modify {X} (proj : DisplayQueue -> X) f :
  (forall s, proj (f s) = proj s) -> preserves proj (modify f).
Proof. intros Hf s b s' H. minv. apply Hf. Qed.

Lemma preserves_bind {A B X} (proj : DisplayQueue -> X) (m : M A) (k : A -> M B) :
  preserves proj m -> (forall a, preserves proj (k a)) -> preserves proj (bind m k).
Proof.
  intros Hm Hk s b s' H. minv.
  rewrite (Hk _ _ _ _ H). eapply Hm. eassumption.
Qed.

Create HintDb pres discriminated.

(** Structural proof of a frame condition: the monad's combinators are
    taken apart, named helpers are looked up in the [pres] database. *)
Ltac pres_step :=
  lazymatch goal with
  | |- preserves _ (bind _ _) => apply preserves_bind; [ | intros ? ]
  | |- preserves _ (ret _) => apply preserves_ret
  | |- preserves _ (gets _) => apply preserves_gets
  | |- preserves _ (HWCASSERT _) => apply preserves_assert
  | |- preserves _ (validateFutureFrame _ _) => apply preserves_validate
  | |- preserves _ (getFrame _) => apply preserves_getFrame
  | |- preserves _ (modify _) => apply preserves_modify; intros; reflexivity
  | |- preserves _ (emit _) => apply preserves_modify; intros; reflexivity
  | |- preserves _ (match ?x with _ => _ end) => destruct x
  | |- preserves _ _ => solve [ auto with pres ]
  end.

Ltac pres := repeat pres_step.

(** The tracking ids that only queueFrame, queueDrop and
    doAdvanceIssuedFrame assign. *)
Definition ids (s : DisplayQueue) : FrameId * FrameId :=
  (mLastQueuedFrame s, mLastIssuedFrame s).

Lemma preserves_ids_queued {A} (m : M A) :
  preserves ids m -> preserves mLastQueuedFrame m.
Proof. intros H s a s' E. apply H in E. unfold ids in E. congruence. Qed.

Lemma preserves_ids_issued {A} (m : M A) :
  preserves ids m -> preserves mLastIssuedFrame m.
Proof. intros H s a s' E. apply H in E. unfold ids in E. congruence. Qed.

#[export] Hint Resolve preserves_ids_queued preserves_ids_issued : pres.

Lemma setFrame_ids i f : preserves ids (setFrame i f).
Proof. unfold setFrame. pres. Qed.
#[export] Hint Resolve setFrame_ids : pres.

Lemma updFrame_ids i g : preserves ids (updFrame i g).
Proof. unfold updFrame. pres. Qed.
#[export] Hint Resolve updFrame_ids : pres.

Lemma isQueued_ids w : preserves ids (isQueued w).
Proof. unfold isQueued. pres. Qed.
#[export] Hint Resolve isQueued_ids : pres.

Lemma getEffectiveFrame_ids w : preserves ids (getEffectiveFrame w).
Proof. unfold getEffectiveFrame. pres. Qed.
#[export] Hint Resolve getEffectiveFrame_ids : pres.

Lemma WorkItem_queue_ids w : preserves ids (WorkItem_queue w).
Proof. unfold WorkItem_queue. pres. Qed.
#[export] Hint Resolve WorkItem_queue_ids : pres.

Lemma WorkItem_dequeue_ids w : preserves ids (WorkItem_dequeue w).
Proof. unfold WorkItem_dequeue. pres. Qed.
#[export] Hint Resolve WorkItem_dequeue_ids : pres.

Lemma ring_effective_ids ring : preserves ids (ring_effective ring).
Proof. induction ring as [ | w rest IH ]; simpl; pres. Qed.
#[export] Hint Resolve ring_effective_ids : pres.

Lemma doValidateQueue_ids : preserves ids doValidateQueue.
Proof. unfold doValidateQueue. pres. Qed.
#[export] Hint Resolve doValidateQueue_ids : pres.

Lemma startWorker_ids : preserves ids startWorker.
Proof. unfold startWorker. pres. Qed.
#[export] Hint Resolve startWorker_ids : pres.

Lemma signalWork_ids w : preserves ids (signalWork w).
Proof. unfold signalWork. pres. Qed.
#[export] Hint Resolve signalWork_ids : pres.

Lemma getWorkerTid_ids t : preserves ids (getWorkerTid t).
Proof. unfold getWorkerTid. pres. Qed.
#[export] Hint Resolve getWorkerTid_ids : pres.

Lemma doQueueWork_ids w : preserves ids (doQueueWork w).
Proof. unfold doQueueWork. pres. Qed.
#[export] Hint Resolve doQueueWork_ids : pres.

Lemma dropFrame_ids i : preserves ids (dropFrame i).
Proof. unfold dropFrame. pres. Qed.
#[export] Hint Resolve dropFrame_ids : pres.

Lemma dropRedundant_step_ids w b : preserves ids (dropRedundant_step w b).
Proof. unfold dropRedundant_step. pres. Qed.
#[export] Hint Resolve dropRedundant_step_ids : pres.

Lemma dropRedundant_loop_ids older b : preserves ids (dropRedundant_loop older b).
Proof. revert b. induction older as [ | w rest IH ]; intros b; simpl; pres. Qed.
#[export] Hint Resolve dropRedundant_loop_ids : pres.

Lemma newerComplete_seed_ids w : preserves ids (newerComplete_seed w).
Proof. unfold newerComplete_seed. pres. Qed.
#[export] Hint Resolve newerComplete_seed_ids : pres.

Lemma doDropRedundantFrames_ids : preserves ids doDropRedundantFrames.
Proof. unfold doDropRedundantFrames. pres. Qed.
#[export] Hint Resolve doDropRedundantFrames_ids : pres.

Lemma limitUsedFrames_ids : preserves ids limitUsedFrames.
Proof. unfold limitUsedFrames. pres. Qed.
#[export] Hint Resolve limitUsedFrames_ids : pres.

Lemma findFree_ids : preserves ids findFree.
Proof. unfold findFree. pres. Qed.
#[export] Hint Resolve findFree_ids : pres.

Lemma lockFrameForDisplay_ids i : preserves ids (lockFrameForDisplay i).
Proof. unfold lockFrameForDisplay. pres. Qed.
#[export] Hint Resolve lockFrameForDisplay_ids : pres.

Lemma unlockFrameForDisplay_ids i : preserves ids (unlockFrameForDisplay i).
Proof. unfold unlockFrameForDisplay. pres. Qed.
#[export] Hint Resolve unlockFrameForDisplay_ids : pres.

Lemma doReleaseFrame_ids i : preserves ids (doReleaseFrame i).
Proof. unfold doReleaseFrame. pres. Qed.
#[export] Hint Resolve doReleaseFrame_ids : pres.

Lemma onUnlockedPoolFrame_ids act w :
  (forall i, preserves ids (act i)) -> preserves ids (onUnlockedPoolFrame act w).
Proof. intros Hact. unfold onUnlockedPoolFrame. pres. Qed.

Lemma forEachWork_ids body items :
  (forall w, preserves ids (body w)) -> preserves ids (forEachWork body items).
Proof. intros Hb. induction items as [ | w rest IH ]; simpl; pres. Qed.

Lemma doInvalidateFrames_ids : preserves ids doInvalidateFrames.
Proof.
  unfold doInvalidateFrames. pres.
  apply forEachWork_ids. intros w. apply onUnlockedPoolFrame_ids. intros i. pres.
Qed.
#[export] Hint Resolve doInvalidateFrames_ids : pres.

Lemma doFlush_loop_ids fuel fi mc sc : preserves ids (doFlush_loop fuel fi mc sc).
Proof.
  induction fuel as [ | n IH ]; intros s a s' H; simpl in H.
  - destruct (doFlush_continue fi mc sc s); [ discriminate | ]. minv. reflexivity.
  - destruct (doFlush_continue fi mc sc s).
    + destruct (mpWorker s) as [ w | ]; [ | discriminate ].
      minv. apply IH in H. rewrite H.
      eapply signalWork_ids. eassumption.
    + minv. reflexivity.
Qed.
#[export] Hint Resolve doFlush_loop_ids : pres.

Lemma doFlush_ids fuel fi tn : preserves ids (doFlush fuel fi tn).
Proof. unfold doFlush. pres. Qed.
#[export] Hint Resolve doFlush_ids : pres.

Lemma liftFrame_ids {A} i (op : Frame -> Result (A * Frame)) : preserves ids (liftFrame i op).
Proof.
  intros s a s' H. unfold liftFrame in H. minv.
  destruct (op a0) as [[x f'] | | ]; try discriminate.
  injection H as <- <-. reflexivity.
Qed.
#[export] Hint Resolve liftFrame_ids : pres.

#[export] Hint Resolve onUnlockedPoolFrame_ids forEachWork_ids : pres.

Lemma init_ids n : preserves ids (init n).
Proof. unfold init. pres. Qed.
#[export] Hint Resolve init_ids : pres.

Lemma queueEvent_ids e : preserves ids (queueEvent e).
Proof. unfold queueEvent. pres. Qed.
#[export] Hint Resolve queueEvent_ids : pres.

Lemma dropAllFrames_ids : preserves ids dropAllFrames.
Proof. unfold dropAllFrames. pres. Qed.
#[export] Hint Resolve dropAllFrames_ids : pres.

Lemma dropRedundantFrames_ids : preserves ids dropRedundantFrames.
Proof. unfold dropRedundantFrames. pres. Qed.
#[export] Hint Resolve dropRedundantFrames_ids : pres.

Lemma flush_ids fuel t fi tn : preserves ids (flush fuel t fi tn).
Proof. unfold flush. pres. Qed.
#[export] Hint Resolve flush_ids : pres.

Lemma consumerBlocked_ids : preserves ids consumerBlocked.
Proof. unfold consumerBlocked. pres. Qed.
#[export] Hint Resolve consumerBlocked_ids : pres.

Lemma consumerUnblocked_ids : preserves ids consumerUnblocked.
Proof. unfold consumerUnblocked. pres. Qed.
#[export] Hint Resolve consumerUnblocked_ids : pres.

Lemma notifyReady_ids : preserves ids notifyReady.
Proof. unfold notifyReady. pres. Qed.
#[export] Hint Resolve notifyReady_ids : pres.

Lemma releaseFrame_ids i : preserves ids (releaseFrame i).
Proof. unfold releaseFrame. pres. Qed.
#[export] Hint Resolve releaseFrame_ids : pres.

Lemma queueFrame_issued bAlloc stack zorder id config :
  preserves mLastIssuedFrame (queueFrame bAlloc stack zorder id config).
Proof. unfold queueFrame. pres. Qed.
#[export] Hint Resolve queueFrame_issued : pres.

(** Case analysis on the branch a completed computation took. *)
Ltac mcase :=
  match goal with
  | H : (match ?x with _ => _ end) _ = Ok _ |- _ => destruct x eqn:?
  end.

Ltac minv_all := repeat (minv_step || mcase).

(** Every completed computation in the context that leaves [proj] alone is
    replaced by the equation it gives. *)
Ltac use_pres proj :=
  repeat match goal with
  | H : ?m ?s = Ok (?a, ?s') |- _ =>
      let E := fresh "E" in
      assert (E : proj s' = proj s)
        by (apply (fun P : preserves proj m => P s a s' H); solve [ pres ]);
      clear H
  end.

(** ** The issued frame only moves forward *)

Definition FrameId_le (a b : FrameId) : Prop := futureFrame a b = true.

Definition advances {A} (m : M A) : Prop :=
  forall s a s', m s = Ok (a, s') ->
    FrameId_le (mLastIssuedFrame s) (mLastIssuedFrame s').

Lemma doAdvanceIssuedFrame_advances id : advances (doAdvanceIssuedFrame id).
Proof.
  intros s a s' H. unfold doAdvanceIssuedFrame in H. minv. simpl. assumption.
Qed.

Ltac adv_finish :=
  use_pres mLastIssuedFrame;
  try match goal with
      | H : doAdvanceIssuedFrame _ _ = Ok _ |- _ =>
          apply doAdvanceIssuedFrame_advances in H
      end;
  unfold FrameId_le in *; simpl in *;
  first [ congruence
        | match goal with
          | |- futureFrame ?a ?b = true =>
              replace b with a by congruence; apply futureFrame_refl
          end ].

Lemma doConsumeEvent_advances e : advances (doConsumeEvent e).
Proof. intros s a s' H. unfold doConsumeEvent in H. minv_all; adv_finish. Qed.

Lemma doConsumeFrame_advances b i : advances (doConsumeFrame b i).
Proof.
  intros s a s' H. unfold doConsumeFrame, backend_consumeFrame in H.
  minv_all; adv_finish.
Qed.

Lemma doConsumeWork_advances b : advances (doConsumeWork b).
Proof.
  intros s a s' H. unfold doConsumeWork in H. minv_all.
  all: try match goal with
           | H : doConsumeFrame _ _ _ = Ok _ |- _ => apply doConsumeFrame_advances in H
           | H : doConsumeEvent _ _ = Ok _ |- _ => apply doConsumeEvent_advances in H
           end.
  all: adv_finish.
Qed.

Lemma queueDrop_advances id : advances (queueDrop id).
Proof. intros s a s' H. unfold queueDrop in H. minv_all; adv_finish. Qed.

Lemma run_op_advances fuel op : advances (run_op fuel op).
Proof.
  intros s a s' H. destruct op; simpl in H; unfold returning in H; minv.
  all: try match goal with
           | H : queueDrop _ _ = Ok _ |- _ => apply queueDrop_advances in H
           | H : consumeWork _ _ = Ok _ |- _ => apply doConsumeWork_advances in H
           end.
  all: adv_finish.
Qed.

(** ** Computations that only read the state *)

Definition whole (s : DisplayQueue) : DisplayQueue := s.

Lemma isQueued_ro w : preserves whole (isQueued w).
Proof. unfold isQueued. pres. Qed.
#[export] Hint Resolve isQueued_ro : pres.

Lemma getEffectiveFrame_ro w : preserves whole (getEffectiveFrame w).
Proof. unfold getEffectiveFrame. pres. Qed.
#[export] Hint Resolve getEffectiveFrame_ro : pres.

Lemma ring_effective_ro ring : preserves whole (ring_effective ring).
Proof. induction ring as [ | w rest IH ]; simpl; pres. Qed.
#[export] Hint Resolve ring_effective_ro : pres.

Lemma doValidateQueue_ro : preserves whole doValidateQueue.
Proof. unfold doValidateQueue. pres. Qed.
#[export] Hint Resolve doValidateQueue_ro : pres.

Lemma getWorkerTid_ro t : preserves whole (getWorkerTid t).
Proof. unfold getWorkerTid. pres. Qed.
#[export] Hint Resolve getWorkerTid_ro : pres.

Lemma newerComplete_seed_ro w : preserves whole (newerComplete_seed w).
Proof. unfold newerComplete_seed. pres. Qed.
#[export] Hint Resolve newerComplete_seed_ro : pres.

(** Read-only computations in the context are replaced by the equality of
    the states around them. *)
Ltac use_ro :=
  repeat match goal with
  | H : ?m ?s = Ok (?a, ?s') |- _ =>
      let E := fresh "E" in
      assert (E : whole s' = whole s)
        by (apply (fun P : preserves whole m => P s a s' H); solve [ pres ]);
      unfold whole in E; clear H; subst s'
  end.

(** The effective frame of a ring entry, read off a state. *)
Definition itemEffective (s : DisplayQueue) (w : WorkItem) : option FrameId :=
  match w with
  | WFrame i => mEffectiveFrame <$> maFrames s !! i
  | WEvent e => Some (evEffectiveFrame e)
  end.

(** ** Running computations forward *)

Lemma run_bind {A B} (m : M A) (k : A -> M B) s a s1 :
  m s = Ok (a, s1) -> bind m k s = k a s1.
Proof. intros H. unfold bind. rewrite H. reflexivity. Qed.

Lemma bind_assoc {A B C} (m : M A) (k1 : A -> M B) (k2 : B -> M C) s :
  bind (bind m k1) k2 s = bind m (fun a => bind (k1 a) k2) s.
Proof. unfold bind. destruct (m s) as [[a s1] | | ]; reflexivity. Qed.

Lemma bind_ret {A B} (a : A) (k : A -> M B) s : bind (ret a) k s = k a s.
Proof. reflexivity. Qed.

Lemma bind_gets {A B} (f : DisplayQueue -> A) (k : A -> M B) s :
  bind (gets f) k s = k (f s) s.
Proof. reflexivity. Qed.

Lemma bind_modify {B} (f : DisplayQueue -> DisplayQueue) (k : unit -> M B) s :
  bind (modify f) k s = k tt (f s).
Proof. reflexivity. Qed.

Lemma bind_emit {B} (e : Effect) (k : unit -> M B) s :
  bind (emit e) k s = k tt (with_log (mLog s ++ [e]) s).
Proof. reflexivity. Qed.

Lemma bind_assert {B} (c : bool) (k : unit -> M B) s :
  c = true -> bind (HWCASSERT c) k s = k tt s.
Proof. intros ->. reflexivity. Qed.

Lemma bind_validate {B} (a b : FrameId) (k : unit -> M B) s :
  futureFrame a b = true -> bind (validateFutureFrame a b) k s = k tt s.
Proof. intros H. unfold validateFutureFrame. apply bind_assert. exact H. Qed.

Lemma bind_getFrame {B} (i : nat) (k : Frame -> M B) s f :
  maFrames s !! i = Some f -> bind (getFrame i) k s = k f s.
Proof. intros H. unfold bind, getFrame. rewrite H. reflexivity. Qed.

Lemma bind_updFrame {B} (i : nat) (g : Frame -> Frame) (k : unit -> M B) s f :
  maFrames s !! i = Some f ->
  bind (updFrame i g) k s = k tt (with_frames (<[i := g f]> (maFrames s)) s).
Proof.
  intros H. unfold updFrame, setFrame. rewrite bind_assoc.
  rewrite (bind_getFrame _ _ _ _ H). reflexivity.
Qed.

(** Projections of updated states. *)
Ltac dq_simpl :=
  cbn [mBehaviourFlags mName mpWorkQueue mQueuedWork mQueuedFrames
       mFramesLockedForDisplay mFramePoolUsed mFramePoolPeak mFramePoolLimit
       mConsumedWork mConsumedFramesSinceInit mbConsumerBlocked maFrames
       mLastQueuedFrame mLastIssuedFrame mLastDroppedFrame mpWorker mLog
       with_name with_ring with_queuedWork with_queuedFrames with_framesLocked
       with_poolUsed with_poolPeak with_consumedWork with_consumedFrames
       with_consumerBlocked with_frames with_lastQueued with_lastIssued
       with_lastDropped with_worker with_log].

Ltac dq_simpl_in H :=
  cbn [mBehaviourFlags mName mpWorkQueue mQueuedWork mQueuedFrames
       mFramesLockedForDisplay mFramePoolUsed mFramePoolPeak mFramePoolLimit
       mConsumedWork mConsumedFramesSinceInit mbConsumerBlocked maFrames
       mLastQueuedFrame mLastIssuedFrame mLastDroppedFrame mpWorker mLog
       with_name with_ring with_queuedWork with_queuedFrames with_framesLocked
       with_poolUsed with_poolPeak with_consumedWork with_consumedFrames
       with_consumerBlocked with_frames with_lastQueued with_lastIssued
       with_lastDropped with_worker with_log] in H.

(** One step of a forward run of the computation on the left of the goal;
    the steps that need a fact leave it as a side goal or take it as an
    argument. *)
Ltac mrun_step :=
  lazymatch goal with
  | |- bind (bind ?m ?k1) ?k2 ?s = _ => rewrite (bind_assoc m k1 k2 s)
  | |- bind (ret ?a) ?k ?s = _ => change (bind (ret a) k s) with (k a s); cbv beta
  | |- bind (gets ?f) ?k ?s = _ => change (bind (gets f) k s) with (k (f s) s); cbv beta
  | |- bind (modify ?f) ?k ?s = _ => change (bind (modify f) k s) with (k tt (f s)); cbv beta
  | |- bind (emit ?e) ?k ?s = _ =>
      change (bind (emit e) k s) with (k tt (with_log (mLog s ++ [e]) s)); cbv beta
  end.

Ltac mrun := repeat first [ mrun_step | progress dq_simpl ].

Ltac run_assert :=
  lazymatch goal with
  | |- bind (HWCASSERT ?c) ?k ?s = _ => rewrite (bind_assert c k s); [ mrun | ]
  | |- bind (validateFutureFrame ?a ?b) ?k ?s = _ =>
      rewrite (bind_validate a b k s); [ mrun | ]
  end.

Ltac run_getFrame H :=
  lazymatch goal with
  | |- bind (getFrame ?i) ?k ?s = _ => rewrite (bind_getFrame i k s _ H); mrun
  end.

Ltac run_updFrame H :=
  lazymatch goal with
  | |- bind (updFrame ?i ?g) ?k ?s = _ => rewrite (bind_updFrame i g k s _ H); mrun
  end.

Ltac run_with H :=
  lazymatch goal with
  | |- bind ?m ?k ?s = _ => rewrite (run_bind m k s _ _ H); mrun
  end.

(** ** dropFrame, run forward *)

(** The state dropFrame leaves when it drops the frame [f] at index [i]. *)
Definition dropFrame_state (i : nat) (f : Frame) (s : DisplayQueue) : DisplayQueue :=
  mkDisplayQueue (mBehaviourFlags s) (mName s)
    (ring_remove (WFrame i) (mpWorkQueue s))
    (decr32 (mQueuedWork s)) (decr32 (mQueuedFrames s))
    (mFramesLockedForDisplay s) (decr32 (mFramePoolUsed s)) (mFramePoolPeak s)
    (mFramePoolLimit s) (mConsumedWork s) (mConsumedFramesSinceInit s)
    (mbConsumerBlocked s)
    (<[i := Frame_reset true (Frame_withLinked false f)]> (maFrames s))
    (mLastQueuedFrame s) (mLastIssuedFrame s) (mFrameId f) (mpWorker s)
    (mLog s ++ [NotifyWorkConsumed]).

Lemma dropFrame_run i f s :
  maFrames s !! i = Some f ->
  mType f = eFT_DISPLAY_QUEUE ->
  mbLinked f = true ->
  mbLockedForDisplay f = false ->
  mpWorkQueue s <> [] ->
  0 < mQueuedFrames s -> 0 < mQueuedWork s -> 0 < mFramePoolUsed s ->
  dropFrame i s = Ok (tt, dropFrame_state i f s).
Proof.
  intros Hf Ht Hl Hk Hring Hqf Hqw Hu.
  assert (Hi : (i < length (maFrames s))%nat) by (eapply lookup_lt_Some; eassumption).
  unfold dropFrame.
  run_getFrame Hf.
  run_assert; [ | rewrite Ht; reflexivity ].
  run_assert; [ | exact Hl ].
  run_assert; [ | rewrite Hk; reflexivity ].
  unfold WorkItem_dequeue, isQueued. mrun.
  run_getFrame Hf.
  run_assert; [ | exact Hl ].
  run_assert; [ | destruct (mpWorkQueue s); [ congruence | reflexivity ] ].
  run_updFrame Hf.
  run_assert; [ | apply Z.ltb_lt; exact Hqf ].
  run_assert; [ | apply Z.ltb_lt; exact Hqw ].
  run_assert; [ | apply Z.ltb_lt; exact Hu ].
  erewrite bind_updFrame by (dq_simpl; apply list_lookup_insert_eq; exact Hi).
  mrun. unfold emit, modify, dropFrame_state. dq_simpl.
  rewrite list_insert_insert_eq. reflexivity.
Qed.

(** ** The ring and the pool fit together *)

(** The frame a pointer to maFrames[ i ] designates. *)
Definition poolFrame (pool : list Frame) (i : nat) : Frame :=
  match pool !! i with
  | Some f => f
  | None => Frame_new
  end.

Definition frameAt (s : DisplayQueue) (i : nat) : Frame := poolFrame (maFrames s) i.

(** The frame [i] is a pool frame that is linked and of display-queue type. *)
Definition linkedPoolFrame (s : DisplayQueue) (i : nat) : Prop :=
  is_Some (maFrames s !! i)
  /\ mbLinked (frameAt s i) = true
  /\ mType (frameAt s i) = eFT_DISPLAY_QUEUE.

(** The representation invariant of the ring: its frames are linked pool
    frames, no frame is linked twice, the linked pool frames are the frames
    of the ring, and the counters cover the frames of the ring. *)
Definition RingOk (s : DisplayQueue) : Prop :=
  Forall (linkedPoolFrame s) (frame_ids (mpWorkQueue s))
  /\ NoDup (frame_ids (mpWorkQueue s))
  /\ Forall (fun i => mbLinked (frameAt s i) = true -> i ∈ frame_ids (mpWorkQueue s))
            (seq 0 (length (maFrames s)))
  /\ (Z.of_nat (ring_frames (mpWorkQueue s)) <= mQueuedFrames s < 2 ^ 32)
  /\ (Z.of_nat (ring_frames (mpWorkQueue s)) <= mQueuedWork s < 2 ^ 32)
  /\ (Z.of_nat (ring_frames (mpWorkQueue s)) <= mFramePoolUsed s < 2 ^ 32).

#[export] Instance FrameType_eq_dec : EqDecision FrameType.
Proof. solve_decision. Defined.

#[export] Instance linkedPoolFrame_dec s i : Decision (linkedPoolFrame s i).
Proof. unfold linkedPoolFrame. apply _. Defined.

#[export] Instance RingOk_dec s : Decision (RingOk s).
Proof. unfold RingOk. apply _. Defined.

Lemma frame_ids_app r1 r2 : frame_ids (r1 ++ r2) = frame_ids r1 ++ frame_ids r2.
Proof. unfold frame_ids. apply omap_app. Qed.

Lemma elem_of_frame_ids i ring : i ∈ frame_ids ring <-> WFrame i ∈ ring.
Proof.
  unfold frame_ids. rewrite list_elem_of_omap. split.
  - intros (w & Hw & E). destruct w as [ j | e ]; [ | discriminate ].
    injection E as ->. exact Hw.
  - intros H. exists (WFrame i). split; [ exact H | reflexivity ].
Qed.

(** Unlinking a frame that is not in the first part of the ring. *)
Lemma ring_remove_app i r1 r2 :
  WFrame i ∉ r1 -> ring_remove (WFrame i) (r1 ++ (WFrame i :: r2)) = r1 ++ r2.
Proof.
  induction r1 as [ | x r1 IH ]; intros Hn.
  - simpl. rewrite Nat.eqb_refl. reflexivity.
  - cbn [ring_remove app].
    destruct (WorkItem_eqb (WFrame i) x) eqn:E.
    + apply WorkItem_eqb_eq in E. subst x. exfalso. apply Hn. left.
    + f_equal. apply IH. intros Hin. apply Hn. right. exact Hin.
Qed.

Lemma poolFrame_lookup pool i f : pool !! i = Some f -> poolFrame pool i = f.
Proof. intros H. unfold poolFrame. rewrite H. reflexivity. Qed.

Lemma poolFrame_insert_ne pool i j g :
  j <> i -> poolFrame (<[i := g]> pool) j = poolFrame pool j.
Proof.
  intros Hne. unfold poolFrame. rewrite list_lookup_insert_ne by congruence. reflexivity.
Qed.

Lemma frameAt_lookup s i f : maFrames s !! i = Some f -> frameAt s i = f.
Proof. apply poolFrame_lookup. Qed.

Lemma linkedPoolFrame_lookup s i :
  linkedPoolFrame s i -> maFrames s !! i = Some (frameAt s i).
Proof.
  intros [[f Hf] _]. rewrite (frameAt_lookup _ _ _ Hf). exact Hf.
Qed.

(** The number of items that left the ring between two states. *)
Definition unlinked (s s' : DisplayQueue) : Z :=
  Z.of_nat (length (mpWorkQueue s)) - Z.of_nat (length (mpWorkQueue s')).

(** The counters went down by the number of items that left the ring. *)
Definition countersFollow (s s' : DisplayQueue) : Prop :=
  mQueuedWork s' = mQueuedWork s - unlinked s s'
  /\ mQueuedFrames s' = mQueuedFrames s - unlinked s s'
  /\ mFramePoolUsed s' = mFramePoolUsed s - unlinked s s'.

Lemma countersFollow_refl s : countersFollow s s.
Proof. unfold countersFollow, unlinked. lia. Qed.

Lemma countersFollow_trans s1 s2 s3 :
  countersFollow s1 s2 -> countersFollow s2 s3 -> countersFollow s1 s3.
Proof. unfold countersFollow, unlinked. lia. Qed.

Lemma frame_ids_frame i r : frame_ids (WFrame i :: r) = i :: frame_ids r.
Proof. reflexivity. Qed.

Lemma frame_ids_event e r : frame_ids (WEvent e :: r) = frame_ids r.
Proof. reflexivity. Qed.

Lemma dropFrame_ok s i r1 r2 :
  RingOk s ->
  mpWorkQueue s = r1 ++ (WFrame i :: r2) ->
  mbLockedForDisplay (frameAt s i) = false ->
  dropFrame i s = Ok (tt, dropFrame_state i (frameAt s i) s)
  /\ mpWorkQueue (dropFrame_state i (frameAt s i) s) = r1 ++ r2
  /\ RingOk (dropFrame_state i (frameAt s i) s)
  /\ countersFollow s (dropFrame_state i (frameAt s i) s).
Proof.
  intros (Hfr & Hnd & Hlk & Hqf & Hqw & Hu) Hring Hunl.
  unfold ring_frames in *.
  rewrite Hring in Hfr, Hnd, Hlk, Hqf, Hqw, Hu.
  rewrite frame_ids_app in Hfr, Hnd, Hlk, Hqf, Hqw, Hu.
  rewrite frame_ids_frame in Hfr, Hnd, Hlk, Hqf, Hqw, Hu.
  rewrite length_app in Hqf, Hqw, Hu. cbn [length] in Hqf, Hqw, Hu.
  apply NoDup_app in Hnd. destruct Hnd as (Hnd1 & Hdisj & Hnd2).
  apply NoDup_cons in Hnd2. destruct Hnd2 as [Hi2 Hnd2].
  assert (Hi1 : i ∉ frame_ids r1).
  { intros Hin. apply (Hdisj _ Hin). left. }
  apply Forall_app in Hfr. destruct Hfr as [Hfr1 Hfr2].
  apply Forall_cons in Hfr2. destruct Hfr2 as [Hfi Hfr2].
  pose proof (linkedPoolFrame_lookup _ _ Hfi) as Hlook.
  destruct Hfi as (_ & Hlinked & Htype).
  assert (Hrem : ring_remove (WFrame i) (mpWorkQueue s) = r1 ++ r2).
  { rewrite Hring. apply ring_remove_app. rewrite <- elem_of_frame_ids. exact Hi1. }
  assert (Hlen : length (maFrames (dropFrame_state i (frameAt s i) s))
                 = length (maFrames s)).
  { cbn [dropFrame_state maFrames]. apply length_insert. }
  assert (Hother : forall j, j <> i ->
            frameAt (dropFrame_state i (frameAt s i) s) j = frameAt s j
            /\ (is_Some (maFrames s !! j) ->
                is_Some (maFrames (dropFrame_state i (frameAt s i) s) !! j))).
  { intros j Hne. unfold frameAt. cbn [dropFrame_state maFrames].
    rewrite poolFrame_insert_ne by exact Hne.
    rewrite list_lookup_insert_ne by congruence. split; [ reflexivity | tauto ]. }
  assert (Hkeep : forall j, j <> i -> linkedPoolFrame s j ->
            linkedPoolFrame (dropFrame_state i (frameAt s i) s) j).
  { intros j Hne (Hs & Hl & Ht). destruct (Hother j Hne) as [E Hs'].
    unfold linkedPoolFrame. rewrite E. split_and!; auto. }
  split_and!.
  - apply dropFrame_run; try assumption; try lia.
    rewrite Hring. destruct r1; discriminate.
  - exact Hrem.
  - unfold RingOk, ring_frames. rewrite Hlen.
    cbn [dropFrame_state mpWorkQueue mQueuedFrames mQueuedWork mFramePoolUsed].
    rewrite Hrem, frame_ids_app, length_app.
    rewrite !decr32_small by lia.
    split_and!; try lia.
    + apply Forall_app. split.
      * apply Forall_forall. intros j Hj. apply Hkeep.
        -- intros ->. contradiction.
        -- rewrite Forall_forall in Hfr1. apply Hfr1. exact Hj.
      * apply Forall_forall. intros j Hj. apply Hkeep.
        -- intros ->. contradiction.
        -- rewrite Forall_forall in Hfr2. apply Hfr2. exact Hj.
    + apply NoDup_app. split_and!; [ exact Hnd1 | | exact Hnd2 ].
      intros x Hx Hx2. apply (Hdisj x Hx). right. exact Hx2.
    + apply Forall_forall. intros j Hj Hl.
      destruct (decide (j = i)) as [ -> | Hne ].
      * exfalso. unfold frameAt, poolFrame in Hl. cbn [dropFrame_state maFrames] in Hl.
        rewrite list_lookup_insert_eq in Hl by (eapply lookup_lt_Some; exact Hlook).
        discriminate Hl.
      * destruct (Hother j Hne) as [E _]. rewrite E in Hl.
        rewrite Forall_forall in Hlk. specialize (Hlk j Hj Hl).
        apply elem_of_app in Hlk. apply elem_of_app.
        destruct Hlk as [ H1 | H2 ]; [ left; exact H1 | right ].
        apply elem_of_cons in H2. destruct H2 as [ -> | H2 ]; [ contradiction | exact H2 ].
  - unfold countersFollow, unlinked.
    cbn [dropFrame_state mpWorkQueue mQueuedFrames mQueuedWork mFramePoolUsed].
    rewrite Hrem, Hring, !length_app. cbn [length].
    rewrite !decr32_small by lia. lia.
Qed.

(** ** dropRedundantFrames in the words of the specification *)

(** The events of a ring, in ring order. *)
Definition ring_events (ring : list WorkItem) : list Event :=
  omap (fun w => match w with WEvent e => Some e | WFrame _ => None end) ring.

(** Whether the rendering of the tail item is complete, for a tail that
    is a frame. *)
Definition spec_tailComplete (pool : list Frame) (tail : WorkItem) : bool :=
  match tail with
  | WFrame i => Frame_isRenderingComplete (poolFrame pool i)
  | WEvent _ => false
  end.

(** The walk of the specification over the items before the tail, newest
    first: a frame with a complete newer frame is dropped unless it is
    locked for display, any other frame updates newerComplete, events stay.
    The result lists the items that stay, newest first. *)
Fixpoint spec_redundantWalk (pool : list Frame) (earlier : list WorkItem)
    (newerComplete : bool) : list WorkItem :=
  match earlier with
  | [] => []
  | WEvent e :: rest => WEvent e :: spec_redundantWalk pool rest newerComplete
  | WFrame i :: rest =>
      let frame := poolFrame pool i in
      if newerComplete then
        if mbLockedForDisplay frame
        then WFrame i :: spec_redundantWalk pool rest newerComplete
        else spec_redundantWalk pool rest newerComplete
      else
        WFrame i :: spec_redundantWalk pool rest (Frame_isRenderingComplete frame)
  end.

(** The ring the specification asks for after dropRedundantFrames. *)
Definition spec_dropRedundantFrames (pool : list Frame) (ring : list WorkItem)
  : list WorkItem :=
  match rev ring with
  | [] => []
  | tail :: earlier =>
      rev (spec_redundantWalk pool earlier (spec_tailComplete pool tail)) ++ [tail]
  end.

Lemma spec_redundantWalk_insert pool i g earlier b :
  i ∉ frame_ids earlier ->
  spec_redundantWalk (<[i := g]> pool) earlier b = spec_redundantWalk pool earlier b.
Proof.
  revert b. induction earlier as [ | w rest IH ]; intros b Hn; [ reflexivity | ].
  destruct w as [ j | e ].
  - rewrite frame_ids_frame in Hn. apply not_elem_of_cons in Hn. destruct Hn as [Hne Hn].
    cbn [spec_redundantWalk].
    rewrite poolFrame_insert_ne by congruence.
    rewrite !IH by exact Hn. reflexivity.
  - rewrite frame_ids_event in Hn. cbn [spec_redundantWalk]. rewrite IH by exact Hn.
    reflexivity.
Qed.

Lemma RingOk_frame s i r1 r2 :
  RingOk s -> mpWorkQueue s = r1 ++ (WFrame i :: r2) ->
  maFrames s !! i = Some (frameAt s i) /\ (i ∉ frame_ids r1) /\ (i ∉ frame_ids r2).
Proof.
  intros (Hfr & Hnd & _) Hring. rewrite Hring in Hfr, Hnd.
  rewrite frame_ids_app, frame_ids_frame in Hfr, Hnd.
  apply NoDup_app in Hnd. destruct Hnd as (_ & Hdisj & Hnd2).
  apply NoDup_cons in Hnd2. destruct Hnd2 as [Hi2 _].
  apply Forall_app in Hfr. destruct Hfr as [_ Hfr2].
  apply Forall_cons in Hfr2. destruct Hfr2 as [Hfi _].
  split_and!.
  - apply linkedPoolFrame_lookup. exact Hfi.
  - intros Hin. apply (Hdisj _ Hin). left.
  - exact Hi2.
Qed.

Lemma dropRedundant_loop_ok earlier : forall b s K,
  RingOk s ->
  mpWorkQueue s = rev earlier ++ K ->
  exists s',
    dropRedundant_loop earlier b s = Ok (tt, s')
    /\ mpWorkQueue s' = rev (spec_redundantWalk (maFrames s) earlier b) ++ K
    /\ RingOk s'
    /\ countersFollow s s'.
Proof.
  induction earlier as [ | w rest IH ]; intros b s K Hok Hring.
  - exists s. split_and!; [ reflexivity | exact Hring | exact Hok | apply countersFollow_refl ].
  - cbn [rev] in Hring. rewrite <- app_assoc in Hring. cbn [app] in Hring.
    cbn [dropRedundant_loop spec_redundantWalk]. destruct w as [ i | e ].
    + destruct (RingOk_frame _ _ _ _ Hok Hring) as (Hlook & Hi1 & Hi2).
      fold (frameAt s i). cbv zeta.
      destruct b; cbv iota.
      * destruct (mbLockedForDisplay (frameAt s i)) eqn:Hlck; cbv iota.
        -- destruct (IH true s (WFrame i :: K) Hok Hring) as (s' & Hrun & Hr & Hok' & Hc).
           exists s'. split_and!; [ | | exact Hok' | exact Hc ].
           ++ unfold dropRedundant_step. rewrite bind_assoc. run_getFrame Hlook.
              rewrite Hlck. cbn [negb]. mrun. exact Hrun.
           ++ rewrite Hr. cbn [rev]. rewrite <- app_assoc. reflexivity.
        -- destruct (dropFrame_ok _ _ _ _ Hok Hring Hlck) as (Hrun & Hr1 & Hok1 & Hc1).
           destruct (IH true _ K Hok1 Hr1) as (s' & Hrun' & Hr & Hok' & Hc).
           exists s'. split_and!; [ | | exact Hok' | ].
           ++ unfold dropRedundant_step. rewrite bind_assoc. run_getFrame Hlook.
              rewrite Hlck. cbn [negb]. mrun. run_with Hrun. exact Hrun'.
           ++ rewrite Hr. cbn [dropFrame_state maFrames].
              rewrite spec_redundantWalk_insert; [ reflexivity | ].
              intros Hin. apply Hi1. apply elem_of_frame_ids.
              apply elem_of_frame_ids in Hin.
              apply list_elem_of_In. rewrite <- in_rev. apply list_elem_of_In. exact Hin.
           ++ eapply countersFollow_trans; eassumption.
      * destruct (IH (Frame_isRenderingComplete (frameAt s i)) s (WFrame i :: K) Hok Hring)
          as (s' & Hrun & Hr & Hok' & Hc).
        exists s'. split_and!; [ | | exact Hok' | exact Hc ].
        -- unfold dropRedundant_step. rewrite bind_assoc. run_getFrame Hlook. exact Hrun.
        -- rewrite Hr. cbn [rev]. rewrite <- app_assoc. reflexivity.
    + destruct (IH b s (WEvent e :: K) Hok Hring) as (s' & Hrun & Hr & Hok' & Hc).
      exists s'. split_and!; [ | | exact Hok' | exact Hc ].
      * unfold dropRedundant_step. mrun. exact Hrun.
      * rewrite Hr. cbn [rev]. rewrite <- app_assoc. reflexivity.
Qed.

Lemma ring_events_app r1 r2 : ring_events (r1 ++ r2) = ring_events r1 ++ ring_events r2.
Proof. unfold ring_events. apply omap_app. Qed.

Lemma ring_events_rev r : ring_events (rev r) = rev (ring_events r).
Proof.
  induction r as [ | w r IH ]; [ reflexivity | ].
  cbn [rev]. rewrite ring_events_app, IH. destruct w as [ i | e ].
  - change (ring_events (WFrame i :: r)) with (ring_events r).
    change (ring_events [WFrame i]) with (@nil Event). apply app_nil_r.
  - reflexivity.
Qed.

(** The walk of the specification keeps every event. *)
Lemma spec_redundantWalk_events pool earlier : forall b,
  ring_events (spec_redundantWalk pool earlier b) = ring_events earlier.
Proof.
  induction earlier as [ | w rest IH ]; intros b; [ reflexivity | ].
  destruct w as [ i | e ]; cbn [spec_redundantWalk].
  - change (ring_events (WFrame i :: rest)) with (ring_events rest).
    destruct b; [ destruct (mbLockedForDisplay (poolFrame pool i)) | ];
      try change (ring_events (WFrame i :: ?x)) with (ring_events x); apply IH.
  - change (ring_events (WEvent e :: ?x)) with (e :: ring_events x).
    rewrite IH. reflexivity.
Qed.

Lemma spec_dropRedundantFrames_events pool ring :
  ring_events (spec_dropRedundantFrames pool ring) = ring_events ring.
Proof.
  unfold spec_dropRedundantFrames.
  destruct (rev ring) as [ | tail earlier ] eqn:E.
  - apply (f_equal (@rev WorkItem)) in E. rewrite rev_involutive in E. subst ring.
    reflexivity.
  - apply (f_equal (@rev WorkItem)) in E. rewrite rev_involutive in E. subst ring.
    cbn [rev]. rewrite !ring_events_app, !ring_events_rev.
    rewrite spec_redundantWalk_events. reflexivity.
Qed.

Lemma doDropRedundantFrames_unfold s :
  doDropRedundantFrames s =
  match rev (mpWorkQueue s) with
  | [] => ret tt s
  | [_] => ret tt s
  | pNewer :: older =>
      (let! bNewerComplete := newerComplete_seed pNewer in
       dropRedundant_loop older bNewerComplete) s
  end.
Proof.
  unfold doDropRedundantFrames. mrun.
  destruct (rev (mpWorkQueue s)) as [ | x [ | y r ] ]; reflexivity.
Qed.


(** ** findFree *)

Lemma s32_eq z : exists k, s32 z = z + k * 2 ^ 32.
Proof.
  unfold s32, u32. pose proof (Z.div_mod z (2 ^ 32)) as H.
  destruct (z mod 2 ^ 32 <? 2 ^ 31).
  - exists (- (z / 2 ^ 32)). lia.
  - exists (- (z / 2 ^ 32) - 1). lia.
Qed.

(** Differences of values that are ahead of a common base are exact. *)
Lemma s32_diff base a b :
  0 <= s32 (a - base) -> 0 <= s32 (b - base) ->
  s32 (a - b) = s32 (a - base) - s32 (b - base).
Proof.
  intros Ha Hb.
  pose proof (s32_range (a - base)) as Ra. pose proof (s32_range (b - base)) as Rb.
  apply s32_congr; [ lia | ].
  destruct (s32_eq (a - base)) as [k1 E1]. destruct (s32_eq (b - base)) as [k2 E2].
  rewrite E1, E2.
  replace (a - b - (a - base + k1 * 2 ^ 32 - (b - base + k2 * 2 ^ 32)))
    with ((k2 - k1) * 2 ^ 32) by lia.
  apply Z_mod_mult.
Qed.

(** A frame findFree may take: not locked for display. *)
Definition unusedFrame (f : Frame) : Prop :=
  mbLockedForDisplay f = false /\ mbLinked f = false.

Definition candidateFrame (f : Frame) : Prop :=
  mbLockedForDisplay f = false /\ mbLinked f = true.

(** The timeline index of [f] is not behind [base]. *)
Definition aheadOf (base : Z) (f : Frame) : Prop :=
  0 <= s32 (mTimelineIndex (mFrameId f) - base).

(** [f] is not newer than [g] in the order of findFree. *)
Definition notNewer (f g : Frame) : Prop :=
  s32 (mTimelineIndex (mFrameId f) - mTimelineIndex (mFrameId g)) <= 0.

Lemma notNewer_offsets base a b :
  aheadOf base a -> aheadOf base b ->
  (notNewer a b <->
   s32 (mTimelineIndex (mFrameId a) - base) <= s32 (mTimelineIndex (mFrameId b) - base)).
Proof.
  unfold aheadOf, notNewer. intros Ha Hb. rewrite (s32_diff base) by assumption. lia.
Qed.

Lemma olderThanOldest_offsets base po fp fr :
  aheadOf base fp -> aheadOf base fr ->
  (olderThanOldest (Some (po, fp)) fr = true <->
   s32 (mTimelineIndex (mFrameId fr) - base) < s32 (mTimelineIndex (mFrameId fp) - base)).
Proof.
  unfold aheadOf, olderThanOldest. intros Ha Hb.
  rewrite (s32_diff base) by assumption. rewrite Z.ltb_lt. lia.
Qed.

Lemma findFree_scan_inl frames : forall f p k,
  findFree_scan frames f p = inl k ->
  exists n fr, k = (f + n)%nat /\ frames !! n = Some fr /\ unusedFrame fr.
Proof.
  induction frames as [ | fr rest IH ]; intros f p k H; cbn [findFree_scan] in H.
  - discriminate.
  - destruct (mbLockedForDisplay fr) eqn:Hl.
    + apply IH in H. destruct H as (n & g & -> & Hn & Hu).
      exists (S n), g. split_and!; [ lia | exact Hn | exact Hu ].
    + destruct (mbLinked fr) eqn:Hq; cbn [negb] in H.
      * apply IH in H. destruct H as (n & g & -> & Hn & Hu).
        exists (S n), g. split_and!; [ lia | exact Hn | exact Hu ].
      * injection H as <-. exists 0%nat, fr.
        split_and!; [ lia | reflexivity | split; assumption ].
Qed.

Lemma findFree_scan_inr frames : forall f p r,
  findFree_scan frames f p = inr r ->
  (forall n fr, frames !! n = Some fr -> ~ unusedFrame fr)
  /\ (r = None <-> p = None /\ forall n fr, frames !! n = Some fr -> mbLockedForDisplay fr = true)
  /\ (forall o fo, r = Some (o, fo) ->
        (p = Some (o, fo)
         \/ exists n, o = (f + n)%nat /\ frames !! n = Some fo /\ candidateFrame fo)
        /\ forall base,
             (forall po fp, p = Some (po, fp) -> aheadOf base fp) ->
             (forall n g, frames !! n = Some g -> candidateFrame g -> aheadOf base g) ->
             (forall po fp, p = Some (po, fp) -> notNewer fo fp)
             /\ (forall n g, frames !! n = Some g -> candidateFrame g -> notNewer fo g)).
Proof.
  induction frames as [ | fr rest IH ]; intros f p r H; cbn [findFree_scan] in H.
  - injection H as <-. split_and!.
    + intros n g Hn. discriminate.
    + split; [ intros ->; split; [ reflexivity | intros n g Hn; discriminate ] | tauto ].
    + intros o fo ->. split; [ left; reflexivity | ].
      intros base Hp Hc. split.
      * intros po fp E. injection E as <- <-. unfold notNewer. rewrite Z.sub_diag. 
        rewrite s32_zero. lia.
      * intros n g Hn. discriminate.
  - destruct (mbLockedForDisplay fr) eqn:Hl.
    + (* locked for display: skipped *)
      destruct (IH _ _ _ H) as (Hnu & Hnone & Hsome). split_and!.
      * intros [ | n ] g Hn; [ | exact (Hnu n g Hn) ].
        injection Hn as <-. intros [Hu _]. congruence.
      * rewrite Hnone. split; intros [Hp Hall]; (split; [ exact Hp | ]).
        -- intros [ | n ] g Hn; [ injection Hn as <-; exact Hl | exact (Hall n g Hn) ].
        -- intros n g Hn. exact (Hall (S n) g Hn).
      * intros o fo Er. destruct (Hsome o fo Er) as [Hfrom Hbase]. split.
        -- destruct Hfrom as [ Hp | (n & -> & Hn & Hc) ]; [ left; exact Hp | right ].
           exists (S n). split_and!; [ lia | exact Hn | exact Hc ].
        -- intros base Hp Hc.
           destruct (Hbase base Hp (fun n g Hn => Hc (S n) g Hn)) as [H1 H2]. split.
           ++ exact H1.
           ++ intros [ | n ] g Hn Hcg; [ | exact (H2 n g Hn Hcg) ].
              injection Hn as <-. destruct Hcg as [Hu _]. congruence.
    + destruct (mbLinked fr) eqn:Hq; cbn [negb] in H; [ | discriminate ].
      (* queued and not locked: a candidate for pOldest *)
      assert (Hcand : candidateFrame fr) by (split; assumption).
      set (p' := if olderThanOldest p fr then Some (f, fr) else p) in *.
      assert (Hp' : p' = Some (f, fr) /\ olderThanOldest p fr = true
                    \/ p' = p /\ olderThanOldest p fr = false /\ p <> None).
      { unfold p'. destruct (olderThanOldest p fr) eqn:E; [ left; tauto | right ].
        split_and!; try reflexivity. intros ->. discriminate E. }
      destruct (IH _ _ _ H) as (Hnu & Hnone & Hsome). split_and!.
      * intros [ | n ] g Hn; [ | exact (Hnu n g Hn) ].
        injection Hn as <-. intros [_ Hu]. congruence.
      * split.
        -- intros Er. apply Hnone in Er. destruct Er as [Er _].
           destruct Hp' as [ [E _] | (E & _ & Hne) ]; congruence.
        -- intros [_ Hall]. specialize (Hall 0%nat fr eq_refl). congruence.
      * intros o fo Er. destruct (Hsome o fo Er) as [Hfrom Hbase]. split.
        -- destruct Hfrom as [ Hfp | (n & -> & Hn & Hc) ].
           ++ destruct Hp' as [ [E _] | (E & _ & _) ].
              ** right. exists 0%nat. rewrite E in Hfp. injection Hfp as <- <-.
                 split_and!; [ lia | reflexivity | exact Hcand ].
              ** left. congruence.
           ++ right. exists (S n). split_and!; [ lia | exact Hn | exact Hc ].
        -- intros base Hp Hc.
           assert (Hfr : aheadOf base fr) by exact (Hc 0%nat fr eq_refl Hcand).
           assert (Hp'a : forall po fp, p' = Some (po, fp) -> aheadOf base fp).
           { intros po fp E'. destruct Hp' as [ [E _] | (E & _ & _) ].
             - rewrite E in E'. injection E' as <- <-. exact Hfr.
             - rewrite E in E'. exact (Hp po fp E'). }
           destruct (Hbase base Hp'a (fun n g Hn => Hc (S n) g Hn)) as [H1 H2].
           assert (Hfo : aheadOf base fo).
           { destruct Hfrom as [ Hfp | (n & _ & Hn & Hcf) ].
             - exact (Hp'a o fo Hfp).
             - exact (Hc (S n) fo Hn Hcf). }
           assert (Hfofr : notNewer fo fr /\ forall po fp, p = Some (po, fp) -> notNewer fo fp).
           { destruct Hp' as [ [E Eo] | (E & Eo & Hne) ].
             - specialize (H1 f fr E). split; [ exact H1 | ].
               intros po fp Ep. subst p. pose proof (Hp po fp eq_refl) as Hfp.
               apply (olderThanOldest_offsets base) in Eo; [ | assumption | assumption ].
               apply (notNewer_offsets base) in H1; [ | assumption | assumption ].
               apply (notNewer_offsets base); [ assumption | assumption | lia ].
             - destruct p as [ [po fp] | ]; [ | congruence ].
               pose proof (Hp po fp eq_refl) as Hfp.
               rewrite E in H1. specialize (H1 po fp eq_refl).
               split.
               + apply (notNewer_offsets base); [ assumption | assumption | ].
                 apply (notNewer_offsets base) in H1; [ | assumption | assumption ].
                 assert (Hno : ~ s32 (mTimelineIndex (mFrameId fr) - base)
                                 < s32 (mTimelineIndex (mFrameId fp) - base)).
                 { intros Hlt. apply (olderThanOldest_offsets base po) in Hlt;
                     [ congruence | assumption | assumption ]. }
                 lia.
               + intros po' fp' Ep. injection Ep as <- <-. exact H1. }
           destruct Hfofr as [Hfr' Hpp]. split.
           ++ exact Hpp.
           ++ intros [ | n ] g Hn Hcg; [ | exact (H2 n g Hn Hcg) ].
              injection Hn as <-. exact Hfr'.
Qed.

Lemma findFree_unfold s :
  findFree s =
  match findFree_scan (maFrames s) 0 None with
  | inl f => Ok (Some f, s)
  | inr None => Ok (None, s)
  | inr (Some (o, _)) => (dropFrame o >> ret (Some o)) s
  end.
Proof.
  unfold findFree. mrun.
  destruct (findFree_scan (maFrames s) 0 None) as [ f | [ [o fo] | ] ]; reflexivity.
Qed.

Lemma RingOk_linked s i f :
  RingOk s -> maFrames s !! i = Some f -> mbLinked f = true ->
  exists r1 r2, mpWorkQueue s = r1 ++ (WFrame i :: r2).
Proof.
  intros (_ & _ & Hlk & _) Hf Hl.
  rewrite Forall_forall in Hlk.
  assert (Hin : i ∈ seq 0 (length (maFrames s))).
  { apply elem_of_seq. apply lookup_lt_Some in Hf. lia. }
  specialize (Hlk i Hin). rewrite (frameAt_lookup _ _ _ Hf) in Hlk.
  specialize (Hlk Hl). apply elem_of_frame_ids in Hlk.
  apply list_elem_of_split in Hlk. exact Hlk.
Qed.


(** ** Inversion of the larger helpers *)

Lemma liftFrame_inv {A} i (op : Frame -> Result (A * Frame)) s a s' :
  liftFrame i op s = Ok (a, s') ->
  exists f f', maFrames s !! i = Some f /\ op f = Ok (a, f')
               /\ s' = with_frames (<[i := f']> (maFrames s)) s.
Proof.
  intros H. unfold liftFrame in H. minv.
  destruct (op a0) as [[x f'] | | ] eqn:E; try discriminate.
  injection H as <- <-. exists a0, f'. split_and!; [ assumption | exact E | reflexivity ].
Qed.

Lemma Frame_set_fields bAlloc stack zorder id config f b f' :
  Frame_set bAlloc stack zorder id config f = Ok (b, f') ->
  mbLinked f = false /\ mbLockedForDisplay f = false
  /\ mFrameId f' = id /\ mZOrder f' = zorder /\ mbValid f' = true
  /\ mbLinked f' = false /\ mbLockedForDisplay f' = false
  /\ mEffectiveFrame f' = mEffectiveFrame f /\ mType f' = mType f.
Proof.
  intros H. unfold Frame_set in H.
  destruct (mbLinked f) eqn:Hl; cbn [negb rassert rbind] in H; [ discriminate | ].
  destruct (mbLockedForDisplay f) eqn:Hk; cbn [negb rassert rbind] in H; [ discriminate | ].
  destruct (_ && negb bAlloc) in H.
  - injection H as <- <-. cbn. split_and!; reflexivity.
  - destruct (_ <? _) in H.
    + injection H as <- <-. cbn. split_and!; reflexivity.
    + destruct (set_layers _ _) as [ ls | | ] in H; cbn [rbind] in H; try discriminate.
      injection H as <- <-. cbn. split_and!; reflexivity.
Qed.

Ltac dq_simpl_all :=
  dq_simpl; repeat match goal with H : _ |- _ => progress dq_simpl_in H end.

Lemma doQueueWork_frame_inv i s u s' :
  doQueueWork (WFrame i) s = Ok (u, s') ->
  exists f, maFrames s !! i = Some f
    /\ mbLinked f = false
    /\ mpWorkQueue s' = mpWorkQueue s ++ [WFrame i]
    /\ maFrames s' = <[i := Frame_withLinked true f]> (maFrames s)
    /\ mLastQueuedFrame s' = mLastQueuedFrame s
    /\ mLastIssuedFrame s' = mLastIssuedFrame s.
Proof.
  intros H.
  unfold doQueueWork, WorkItem_queue, isQueued, getEffectiveFrame, updFrame, setFrame,
    startWorker, signalWork in H.
  minv_all; use_ro; dq_simpl_all.
  all: cbn [isFrameItem] in *; try discriminate.
  all: repeat match goal with
       | Ha : maFrames ?s0 !! ?j = Some ?a, Hb : maFrames ?s0 !! ?j = Some ?b |- _ =>
           rewrite Ha in Hb; injection Hb as <-
       end.
  all: eexists; split_and!; [ eassumption | | reflexivity | reflexivity | reflexivity | reflexivity ].
  all: apply negb_true_iff; assumption.
Qed.


Lemma Event_eqb_refl e : Event_eqb e e = true.
Proof. apply Event_eqb_eq. reflexivity. Qed.


(** ** Queue validation and invalidation *)

(** The effective frames of the items of a ring, when all its frames are
    pool frames. *)
Fixpoint effectivesOf (s : DisplayQueue) (ring : list WorkItem) : option (list FrameId) :=
  match ring with
  | [] => Some []
  | w :: rest =>
      match itemEffective s w, effectivesOf s rest with
      | Some e, Some es => Some (e :: es)
      | _, _ => None
      end
  end.

Lemma ring_effective_run ring s :
  ring_effective ring s =
  match effectivesOf s ring with
  | Some effs => Ok (effs, s)
  | None => AssertFail
  end.
Proof.
  induction ring as [ | w rest IH ]; [ reflexivity | ].
  cbn [ring_effective effectivesOf]. unfold bind at 1.
  destruct w as [ i | e ]; cbn [getEffectiveFrame itemEffective].
  - unfold bind at 1, getFrame.
    destruct (maFrames s !! i) as [ f | ]; cbn [fmap option_fmap option_map]; [ | reflexivity ].
    unfold ret at 1. unfold bind. rewrite IH.
    destruct (effectivesOf s rest); reflexivity.
  - unfold ret at 1. unfold bind. rewrite IH.
    destruct (effectivesOf s rest); reflexivity.
Qed.

(** What doValidateQueue checks. *)
Definition queueValid (s : DisplayQueue) : bool :=
  match effectivesOf s (mpWorkQueue s) with
  | Some effs =>
      validate_adjacent effs && futureFrame (mLastIssuedFrame s) (mLastQueuedFrame s)
  | None => false
  end.

Lemma doValidateQueue_run s :
  doValidateQueue s = if queueValid s then Ok (tt, s) else AssertFail.
Proof.
  unfold doValidateQueue, queueValid. mrun.
  unfold bind at 1. rewrite ring_effective_run.
  destruct (effectivesOf s (mpWorkQueue s)) as [ effs | ]; [ | reflexivity ].
  unfold bind, HWCASSERT, gets, validateFutureFrame, HWCASSERT.
  destruct (validate_adjacent effs); [ | reflexivity ].
  destruct (futureFrame _ _); reflexivity.
Qed.

Lemma with_frames_eta s : with_frames (maFrames s) s = s.
Proof. destruct s. reflexivity. Qed.

(** The pool after the body of the loop of doInvalidateFrames ran on the
    frame [i]. *)
Definition invalidateAt (pool : list Frame) (i : nat) : list Frame :=
  match pool !! i with
  | Some f =>
      if negb (mbLockedForDisplay f) && FrameType_eqb (mType f) eFT_DISPLAY_QUEUE
      then <[i := Frame_invalidate f]> pool
      else pool
  | None => pool
  end.

Definition invalidatePool (ring : list WorkItem) (pool : list Frame) : list Frame :=
  fold_left invalidateAt (frame_ids ring) pool.

(** A frame and what invalidation may have made of it. *)
Definition validCleared (f g : Frame) : Prop := g = f \/ g = Frame_invalidate f.

Lemma invalidateAt_length pool i : length (invalidateAt pool i) = length pool.
Proof.
  unfold invalidateAt. destruct (pool !! i) as [ f | ]; [ | reflexivity ].
  destruct (_ && _); [ apply length_insert | reflexivity ].
Qed.

Lemma invalidateAt_lookup pool i j f :
  pool !! j = Some f ->
  exists g, invalidateAt pool i !! j = Some g /\ validCleared f g
            /\ (j = i -> mbLockedForDisplay f = false -> mType f = eFT_DISPLAY_QUEUE ->
                mbValid g = false).
Proof.
  intros Hj. unfold invalidateAt.
  destruct (decide (j = i)) as [ -> | Hne ].
  - rewrite Hj.
    destruct (negb (mbLockedForDisplay f) && FrameType_eqb (mType f) eFT_DISPLAY_QUEUE) eqn:E.
    + exists (Frame_invalidate f). split_and!.
      * apply list_lookup_insert_eq. eapply lookup_lt_Some. exact Hj.
      * right. reflexivity.
      * reflexivity.
    + exists f. split_and!; [ exact Hj | left; reflexivity | ].
      intros _ Hl Ht. rewrite Hl, Ht in E. discriminate E.
  - exists f. split_and!; [ | left; reflexivity | congruence ].
    destruct (pool !! i) as [ fi | ]; [ | exact Hj ].
    destruct (_ && _); [ | exact Hj ].
    rewrite list_lookup_insert_ne by congruence. exact Hj.
Qed.

Lemma validCleared_fields f g :
  validCleared f g ->
  mEffectiveFrame g = mEffectiveFrame f /\ mbLockedForDisplay g = mbLockedForDisplay f
  /\ mType g = mType f /\ mbLinked g = mbLinked f /\ mFrameId g = mFrameId f
  /\ (mbValid f = false -> mbValid g = false).
Proof. intros [ -> | -> ]; cbn; tauto. Qed.

Lemma validCleared_trans f g h : validCleared f g -> validCleared g h -> validCleared f h.
Proof.
  intros [ -> | -> ] [ -> | -> ]; unfold validCleared; auto.
Qed.

Lemma invalidatePool_lookup ids : forall pool j f,
  pool !! j = Some f ->
  exists g, fold_left invalidateAt ids pool !! j = Some g /\ validCleared f g
            /\ (j ∈ ids -> mbLockedForDisplay f = false -> mType f = eFT_DISPLAY_QUEUE ->
                mbValid g = false).
Proof.
  induction ids as [ | i ids IH ]; intros pool j f Hj; cbn [fold_left].
  - exists f. split_and!; [ exact Hj | left; reflexivity | ].
    intros Hin. apply elem_of_nil in Hin. contradiction.
  - destruct (invalidateAt_lookup pool i j f Hj) as (g & Hg & Hfg & Hi).
    destruct (IH _ _ _ Hg) as (h & Hh & Hgh & Hin).
    exists h. split_and!; [ exact Hh | eapply validCleared_trans; eassumption | ].
    intros Hj' Hl Ht.
    destruct (validCleared_fields _ _ Hfg) as (_ & Hl' & Ht' & _).
    destruct (validCleared_fields _ _ Hgh) as (_ & _ & _ & _ & _ & Hv).
    apply elem_of_cons in Hj'. destruct Hj' as [ -> | Hj' ].
    + apply Hv. apply Hi; [ reflexivity | exact Hl | exact Ht ].
    + apply Hin; [ exact Hj' | congruence | congruence ].
Qed.

Lemma invalidate_loop_run items : forall s,
  (forall i, WFrame i ∈ items -> is_Some (maFrames s !! i)) ->
  forEachWork (onUnlockedPoolFrame (fun i => updFrame i Frame_invalidate)) items s
  = Ok (tt, with_frames (invalidatePool items (maFrames s)) s).
Proof.
  induction items as [ | w rest IH ]; intros s Hin.
  - cbn. unfold ret. rewrite with_frames_eta. reflexivity.
  - cbn [forEachWork]. destruct w as [ i | e ].
    + destruct (Hin i) as [f Hf]; [ left | ].
      unfold onUnlockedPoolFrame. rewrite bind_assoc. run_getFrame Hf.
      unfold invalidatePool. rewrite frame_ids_frame. cbn [fold_left].
      unfold invalidateAt at 2. rewrite Hf.
      destruct (negb (mbLockedForDisplay f) && FrameType_eqb (mType f) eFT_DISPLAY_QUEUE).
      * run_updFrame Hf. rewrite IH.
        -- reflexivity.
        -- intros j Hj. dq_simpl.
           apply lookup_lt_is_Some. rewrite length_insert. apply lookup_lt_is_Some.
           apply Hin. right. exact Hj.
      * mrun. rewrite IH; [ reflexivity | ].
        intros j Hj. apply Hin. right. exact Hj.
    + unfold onUnlockedPoolFrame. mrun. rewrite IH.
      * reflexivity.
      * intros j Hj. apply Hin. right. exact Hj.
Qed.

Lemma effectivesOf_lookup s ring effs :
  effectivesOf s ring = Some effs ->
  forall i, WFrame i ∈ ring -> is_Some (maFrames s !! i).
Proof.
  revert effs. induction ring as [ | w rest IH ]; intros effs H i Hi.
  - apply elem_of_nil in Hi. contradiction.
  - cbn [effectivesOf] in H.
    destruct (itemEffective s w) as [ e | ] eqn:Ew; [ | discriminate ].
    destruct (effectivesOf s rest) as [ es | ] eqn:Er; [ | discriminate ].
    apply elem_of_cons in Hi. destruct Hi as [ <- | Hi ].
    + cbn [itemEffective] in Ew. destruct (maFrames s !! i); [ eauto | discriminate ].
    + eapply IH; [ reflexivity | exact Hi ].
Qed.

Lemma effectivesOf_ext s s' ring :
  (forall i, WFrame i ∈ ring ->
     mEffectiveFrame <$> maFrames s' !! i = mEffectiveFrame <$> maFrames s !! i) ->
  effectivesOf s' ring = effectivesOf s ring.
Proof.
  induction ring as [ | w rest IH ]; intros H; [ reflexivity | ].
  cbn [effectivesOf]. rewrite IH by (intros i Hi; apply H; right; exact Hi).
  destruct w as [ i | e ]; cbn [itemEffective]; [ | reflexivity ].
  rewrite H by left. reflexivity.
Qed.

Lemma invalidatePool_effective ring pool i :
  mEffectiveFrame <$> invalidatePool ring pool !! i = mEffectiveFrame <$> pool !! i.
Proof.
  unfold invalidatePool. destruct (pool !! i) as [ f | ] eqn:Hf.
  - destruct (invalidatePool_lookup (frame_ids ring) pool i f Hf) as (g & Hg & Hfg & _).
    rewrite Hg. cbn. f_equal. apply validCleared_fields. exact Hfg.
  - assert (Hlen : length (fold_left invalidateAt (frame_ids ring) pool) = length pool).
    { generalize (frame_ids ring) as ids. clear. revert pool.
      intros pool ids. revert pool.
      induction ids as [ | j ids IH ]; intros pool; [ reflexivity | ].
      cbn [fold_left]. rewrite IH. apply invalidateAt_length. }
    apply lookup_ge_None in Hf.
    rewrite (proj2 (lookup_ge_None _ _)) by lia. reflexivity.
Qed.

Lemma doInvalidateFrames_run s :
  queueValid s = true ->
  doInvalidateFrames s
  = Ok (tt, with_frames (invalidatePool (mpWorkQueue s) (maFrames s)) s).
Proof.
  intros Hv. unfold doInvalidateFrames.
  assert (Hrun : doValidateQueue s = Ok (tt, s)) by (rewrite doValidateQueue_run, Hv; reflexivity).
  run_with Hrun.
  assert (Hin : forall i, WFrame i ∈ mpWorkQueue s -> is_Some (maFrames s !! i)).
  { unfold queueValid in Hv.
    destruct (effectivesOf s (mpWorkQueue s)) as [ effs | ] eqn:E; [ | discriminate ].
    eapply effectivesOf_lookup. exact E. }
  rewrite (run_bind _ _ _ _ _ (invalidate_loop_run _ _ Hin)).
  rewrite doValidateQueue_run.
  replace (queueValid (with_frames (invalidatePool (mpWorkQueue s) (maFrames s)) s))
    with true; [ reflexivity | ].
  symmetry. rewrite <- Hv. unfold queueValid. dq_simpl.
  rewrite (effectivesOf_ext s); [ reflexivity | ].
  intros i _. dq_simpl. apply invalidatePool_effective.
Qed.


(** doFlush tells its caller it flushed only after syncFlip was called. *)
Lemma doFlush_true_after_syncFlip fuel frameIndex timeoutNs s b s' :
  doFlush fuel frameIndex timeoutNs s = Ok (b, s') ->
  (b = true -> mbConsumerBlocked s' = false
               /\ exists pre, mLog s' = pre ++ [BackendSyncFlip])
  /\ (b = false -> mbConsumerBlocked s' = true).
Proof.
  intros H. unfold doFlush in H. minv_all; dq_simpl.
  all: split; intros E; try discriminate E.
  all: try assumption.
  all: split; [ assumption | eexists; reflexivity ].
Qed.

(** The loop of doFlush has no timed wait: once its condition holds it
    holds after every iteration, whatever the timeout. *)
Lemma doFlush_loop_spins fuel : forall frameIndex maxConsume startConsumeCount s w,
  doFlush_continue frameIndex maxConsume startConsumeCount s = true ->
  mpWorker s = Some w -> 0 <= mSignalled w ->
  doFlush_loop fuel frameIndex maxConsume startConsumeCount s = Spin.
Proof.
  induction fuel as [ | n IH ]; intros fi mc sc s w Hc Hw Hs; cbn [doFlush_loop].
  - rewrite Hc. reflexivity.
  - rewrite Hc, Hw. unfold signalWork.
    rewrite bind_assoc. rewrite bind_assert by (apply Z.leb_le; exact Hs).
    mrun. apply (IH _ _ _ _ (mkWorker (mSignalled w + 1))).
    + exact Hc.
    + reflexivity.
    + cbn. lia.
Qed.

(** ** The layer array of a frame *)

(** The layer array of a frame: mLayerAllocCount is its length and
    mLayerCount does not exceed it. *)
Definition Frame_ok (f : Frame) : Prop :=
  mLayerAllocCount f = Z.of_nat (length (maLayers f))
  /\ 0 <= mLayerCount f <= mLayerAllocCount f.

#[export] Instance Frame_ok_dec f : Decision (Frame_ok f).
Proof. unfold Frame_ok. apply _. Defined.

Lemma Frame_new_ok : Frame_ok Frame_new.
Proof. unfold Frame_ok. simpl. lia. Qed.

Lemma reset_layers_length b n ls : length (reset_layers b n ls) = length ls.
Proof.
  unfold reset_layers. rewrite length_app, length_map, length_take, length_drop. lia.
Qed.

Lemma Frame_reset_ok b f : Frame_ok f -> Frame_ok (Frame_reset b f).
Proof.
  unfold Frame_ok. simpl. rewrite reset_layers_length. tauto.
Qed.

Lemma set_layers_length stack : forall ls ls',
  set_layers stack ls = Ok ls' -> length ls' = length ls.
Proof.
  induction stack as [ | l stack IH ]; intros ls ls' H; simpl in H.
  - injection H as <-. reflexivity.
  - destruct ls as [ | fl ls ]; [ discriminate | ].
    destruct (FrameLayer_set l fl) as [ fl' | | ]; simpl in H; try discriminate.
    destruct (set_layers stack ls) as [ rest | | ] eqn:E; simpl in H; try discriminate.
    injection H as <-. simpl. f_equal. apply IH. exact E.
Qed.

Lemma Frame_set_ok bAlloc stack zorder id config f b f' :
  Frame_ok f ->
  Frame_set bAlloc stack zorder id config f = Ok (b, f') ->
  Frame_ok f'.
Proof.
  intros [Hlen Hcnt] H. unfold Frame_set in H.
  destruct (negb (mbLinked f)); simpl in H; [ | discriminate ].
  destruct (negb (mbLockedForDisplay f)); simpl in H; [ | discriminate ].
  pose proof (u32_range (Z.of_nat (length stack))) as Hs.
  set (stackSize := u32 (Z.of_nat (length stack))) in *.
  unfold cMinimumLayerAllocCount in H.
  destruct (mLayerAllocCount f <? stackSize) eqn:Ere.
  - (* the array is reallocated *)
    apply Z.ltb_lt in Ere.
    destruct bAlloc; simpl in H.
    + assert (Hmax : stackSize <= (if 8 <? stackSize then stackSize else 8)).
      { destruct (8 <? stackSize) eqn:E8; [ lia | apply Z.ltb_ge in E8; lia ]. }
      destruct ((if 8 <? stackSize then stackSize else 8) <? stackSize) eqn:Elt.
      { apply Z.ltb_lt in Elt. lia. }
      destruct (set_layers stack _) as [ ls | | ] eqn:Es; simpl in H; try discriminate.
      injection H as <- <-. apply set_layers_length in Es.
      unfold Frame_ok. simpl. rewrite Es, repeat_length. lia.
    + injection H as <- <-. unfold Frame_ok. simpl. lia.
  - (* the array is kept *)
    apply Z.ltb_ge in Ere. simpl in H. rewrite (proj2 (Z.ltb_ge _ _) Ere) in H.
    destruct (set_layers stack (maLayers f)) as [ ls | | ] eqn:Es; simpl in H;
      try discriminate.
    injection H as <- <-. apply set_layers_length in Es.
    unfold Frame_ok. simpl. rewrite Es. lia.
Qed.

(** ** Invariants of the pool that every completed computation keeps *)

Definition keeps {A} (P : DisplayQueue -> Prop) (m : M A) : Prop :=
  forall s a s', P s -> m s = Ok (a, s') -> P s'.

Lemma keeps_ret {A} P (a : A) : keeps P (ret a).
Proof. intros s b s' HP H. minv. exact HP. Qed.

Lemma keeps_gets {A} P (f : DisplayQueue -> A) : keeps P (gets f).
Proof. intros s b s' HP H. minv. exact HP. Qed.

Lemma keeps_assert P c : keeps P (HWCASSERT c).
Proof. intros s b s' HP H. minv. exact HP. Qed.

Lemma keeps_getFrame P i : keeps P (getFrame i).
Proof. intros s b s' HP H. minv. exact HP. Qed.

Lemma keeps_modify P f : (forall s, P s -> P (f s)) -> keeps P (modify f).
Proof. intros Hf s b s' HP H. minv. apply Hf. exact HP. Qed.

Lemma keeps_bind {A B} P (m : M A) (k : A -> M B) :
  keeps P m -> (forall a, keeps P (k a)) -> keeps P (bind m k).
Proof.
  intros Hm Hk s b s' HP H. minv. eapply Hk; [ | eassumption ].
  eapply Hm; eassumption.
Qed.

(** Every frame of the pool has a sound layer array. *)
Definition poolFramesOk (s : DisplayQueue) : Prop := Forall Frame_ok (maFrames s).

Lemma keeps_frames_updFrame i g :
  (forall f, Frame_ok f -> Frame_ok (g f)) -> keeps poolFramesOk (updFrame i g).
Proof.
  intros Hg s b s' HP H. unfold updFrame, setFrame in H. minv.
  unfold poolFramesOk in *. dq_simpl.
  apply Forall_insert; [ exact HP | ]. apply Hg.
  eapply Forall_lookup_1; eassumption.
Qed.

Lemma keeps_frames_liftFrame {A} i (op : Frame -> Result (A * Frame)) :
  (forall f a f', Frame_ok f -> op f = Ok (a, f') -> Frame_ok f') ->
  keeps poolFramesOk (liftFrame i op).
Proof.
  intros Hop s b s' HP H. apply liftFrame_inv in H.
  destruct H as (f & f' & Hf & Hrun & ->).
  unfold poolFramesOk in *. dq_simpl.
  apply Forall_insert; [ exact HP | ]. eapply Hop; [ | exact Hrun ].
  eapply Forall_lookup_1; eassumption.
Qed.

Create HintDb keeps discriminated.

Ltac keeps_step :=
  lazymatch goal with
  | |- keeps _ (bind _ _) => apply keeps_bind; [ | intros ? ]
  | |- keeps _ (ret _) => apply keeps_ret
  | |- keeps _ (gets _) => apply keeps_gets
  | |- keeps _ (HWCASSERT _) => apply keeps_assert
  | |- keeps _ (validateFutureFrame _ _) => apply keeps_assert
  | |- keeps _ (getFrame _) => apply keeps_getFrame
  | |- keeps poolFramesOk (modify _) => apply keeps_modify; intros ? HP; exact HP
  | |- keeps poolFramesOk (emit _) => apply keeps_modify; intros ? HP; exact HP
  | |- keeps poolFramesOk (updFrame _ _) =>
      apply keeps_frames_updFrame; intros ? ?;
      first [ apply Frame_reset_ok; assumption | assumption ]
  | |- keeps _ (match ?x with _ => _ end) => destruct x
  | |- keeps _ _ => solve [ auto with keeps ]
  end.

Ltac keeps_tac := repeat keeps_step.

Lemma WorkItem_queue_frames w : keeps poolFramesOk (WorkItem_queue w).
Proof. unfold WorkItem_queue, isQueued. keeps_tac. Qed.
#[export] Hint Resolve WorkItem_queue_frames : keeps.

Lemma WorkItem_dequeue_frames w : keeps poolFramesOk (WorkItem_dequeue w).
Proof. unfold WorkItem_dequeue, isQueued. keeps_tac. Qed.
#[export] Hint Resolve WorkItem_dequeue_frames : keeps.

Lemma ring_effective_frames ring : keeps poolFramesOk (ring_effective ring).
Proof. induction ring as [ | w rest IH ]; simpl; unfold getEffectiveFrame; keeps_tac. Qed.
#[export] Hint Resolve ring_effective_frames : keeps.

Lemma doValidateQueue_frames : keeps poolFramesOk doValidateQueue.
Proof. unfold doValidateQueue. keeps_tac. Qed.
#[export] Hint Resolve doValidateQueue_frames : keeps.

Lemma doQueueWork_frames w : keeps poolFramesOk (doQueueWork w).
Proof.
  unfold doQueueWork, getEffectiveFrame, startWorker, signalWork. keeps_tac.
Qed.
#[export] Hint Resolve doQueueWork_frames : keeps.

Lemma dropFrame_frames i : keeps poolFramesOk (dropFrame i).
Proof.
  unfold dropFrame. keeps_tac.
Qed.
#[export] Hint Resolve dropFrame_frames : keeps.

Lemma doReleaseFrame_frames i : keeps poolFramesOk (doReleaseFrame i).
Proof.
  unfold doReleaseFrame. keeps_tac.
Qed.
#[export] Hint Resolve doReleaseFrame_frames : keeps.

Lemma dropRedundant_loop_frames older : forall b,
  keeps poolFramesOk (dropRedundant_loop older b).
Proof.
  induction older as [ | w rest IH ]; intros b; simpl; unfold dropRedundant_step;
    keeps_tac.
Qed.
#[export] Hint Resolve dropRedundant_loop_frames : keeps.

Lemma doDropRedundantFrames_frames : keeps poolFramesOk doDropRedundantFrames.
Proof. unfold doDropRedundantFrames, newerComplete_seed. keeps_tac. Qed.
#[export] Hint Resolve doDropRedundantFrames_frames : keeps.

Lemma limitUsedFrames_frames : keeps poolFramesOk limitUsedFrames.
Proof. unfold limitUsedFrames. keeps_tac. Qed.
#[export] Hint Resolve limitUsedFrames_frames : keeps.

Lemma findFree_frames : keeps poolFramesOk findFree.
Proof. unfold findFree. keeps_tac. Qed.
#[export] Hint Resolve findFree_frames : keeps.

Lemma lockFrameForDisplay_frames i : keeps poolFramesOk (lockFrameForDisplay i).
Proof. unfold lockFrameForDisplay. keeps_tac. Qed.
#[export] Hint Resolve lockFrameForDisplay_frames : keeps.

Lemma unlockFrameForDisplay_frames i : keeps poolFramesOk (unlockFrameForDisplay i).
Proof. unfold unlockFrameForDisplay. keeps_tac. Qed.
#[export] Hint Resolve unlockFrameForDisplay_frames : keeps.

Lemma forEachWork_frames body items :
  (forall w, keeps poolFramesOk (body w)) -> keeps poolFramesOk (forEachWork body items).
Proof. intros Hb. induction items as [ | w rest IH ]; simpl; keeps_tac. Qed.

Lemma onUnlockedPoolFrame_frames act w :
  (forall i, keeps poolFramesOk (act i)) -> keeps poolFramesOk (onUnlockedPoolFrame act w).
Proof. intros Ha. unfold onUnlockedPoolFrame. keeps_tac. Qed.
#[export] Hint Resolve forEachWork_frames onUnlockedPoolFrame_frames : keeps.

Lemma updFrame_invalidate_frames i : keeps poolFramesOk (updFrame i Frame_invalidate).
Proof. keeps_tac. Qed.
#[export] Hint Resolve updFrame_invalidate_frames : keeps.

Lemma doInvalidateFrames_frames : keeps poolFramesOk doInvalidateFrames.
Proof.
  unfold doInvalidateFrames. keeps_tac.
Qed.
#[export] Hint Resolve doInvalidateFrames_frames : keeps.

Lemma doFlush_loop_frames fuel fi mc sc : keeps poolFramesOk (doFlush_loop fuel fi mc sc).
Proof.
  induction fuel as [ | n IH ]; intros s a s' HP H; simpl in H.
  - destruct (doFlush_continue fi mc sc s); [ discriminate | ]. minv. exact HP.
  - destruct (doFlush_continue fi mc sc s).
    + destruct (mpWorker s) as [ w | ]; [ | discriminate ].
      unfold signalWork in H. minv. eapply IH; [ | exact H ]. exact HP.
    + minv. exact HP.
Qed.
#[export] Hint Resolve doFlush_loop_frames : keeps.

Lemma doFlush_frames fuel fi tn : keeps poolFramesOk (doFlush fuel fi tn).
Proof. unfold doFlush. keeps_tac. Qed.
#[export] Hint Resolve doFlush_frames : keeps.

Lemma doConsumeWork_frames b : keeps poolFramesOk (doConsumeWork b).
Proof.
  unfold doConsumeWork, doConsumeFrame, doConsumeEvent, backend_consumeFrame,
    doAdvanceIssuedFrame. keeps_tac.
Qed.
#[export] Hint Resolve doConsumeWork_frames : keeps.

Lemma queueFrame_frames bAlloc stack zorder id config :
  keeps poolFramesOk (queueFrame bAlloc stack zorder id config).
Proof.
  unfold queueFrame. keeps_tac.
  match goal with
  | |- keeps _ (liftFrame ?i ?op) => apply (keeps_frames_liftFrame i op)
  end.
  intros f b f' Hf Hs. eapply Frame_set_ok; eassumption.
Qed.

(** Every public operation keeps the layer arrays of the pool sound. *)
Lemma run_op_frames fuel op : keeps poolFramesOk (run_op fuel op).
Proof.
  destruct op; cbn [run_op]; unfold returning.
  all: try (apply keeps_bind; [ | intros ?; apply keeps_ret ]).
  - unfold init. keeps_tac.
  - unfold queueEvent. keeps_tac.
  - apply queueFrame_frames.
  - unfold queueDrop, doAdvanceIssuedFrame. keeps_tac.
  - unfold dropAllFrames. keeps_tac.
  - unfold dropRedundantFrames. keeps_tac.
  - unfold consumeWork. keeps_tac.
  - unfold flush, getWorkerTid. keeps_tac.
  - unfold consumerBlocked. keeps_tac.
  - unfold consumerUnblocked. keeps_tac.
  - unfold notifyReady, signalWork. keeps_tac.
  - unfold releaseFrame. keeps_tac.
Qed.

Lemma DisplayQueue_new_frames poolCount poolLimit flags :
  poolFramesOk (DisplayQueue_new poolCount poolLimit flags).
Proof.
  unfold poolFramesOk. cbn [DisplayQueue_new maFrames].
  apply Forall_forall. intros f Hf. apply list_elem_of_In, repeat_spec in Hf. subst f.
  unfold Frame_ok. cbn. lia.
Qed.

(** The pool of every state a run of public operations reaches from a new
    queue holds frames with sound layer arrays. *)
Lemma run_ops_frames fuel ops : forall s,
  poolFramesOk s -> Forall poolFramesOk (run_ops fuel ops s).
Proof.
  induction ops as [ | op rest IH ]; intros s HP; cbn [run_ops]; [ constructor | ].
  destruct (run_op fuel op s) as [[r s1] | | ] eqn:E; try constructor.
  - exact (run_op_frames fuel op s r s1 HP E).
  - apply IH. exact (run_op_frames fuel op s r s1 HP E).
Qed.

(** ** Pool accounting *)

(** The display-queue frames linked in the ring. *)
Definition ring_pool_frames (s : DisplayQueue) : nat :=
  length (filter (fun i => mType (frameAt s i) = eFT_DISPLAY_QUEUE)
                 (frame_ids (mpWorkQueue s))).

(** framePoolUsed counts the pool frames in the ring and the frames locked
    for display. *)
Definition poolAccounting (s : DisplayQueue) : Prop :=
  mFramePoolUsed s = Z.of_nat (ring_pool_frames s) + mFramesLockedForDisplay s.

#[export] Instance poolAccounting_dec s : Decision (poolAccounting s).
Proof. unfold poolAccounting. apply _. Defined.

(** ** Pool accounting is kept where Frame::set does not fail *)

(** Arithmetic on 32-bit counters, by the equations of division. *)
Ltac u32_arith :=
  unfold incr32, decr32, u32 in *; Z.div_mod_to_equations; lia.

(** What framePoolUsed counts beyond the frames of the ring and the frames
    locked for display. *)
Definition slack (s : DisplayQueue) : Z :=
  mFramePoolUsed s - Z.of_nat (ring_frames (mpWorkQueue s)) - mFramesLockedForDisplay s.

(** The structure the accounting relies on: a linked pool frame is in the
    ring, every pool frame is of display-queue type, the frames of the ring
    are pool frames. *)
Definition Struct (s : DisplayQueue) : Prop :=
  (forall i f, maFrames s !! i = Some f -> mbLinked f = true ->
               i ∈ frame_ids (mpWorkQueue s))
  /\ (forall i f, maFrames s !! i = Some f -> mType f = eFT_DISPLAY_QUEUE)
  /\ (forall i, i ∈ frame_ids (mpWorkQueue s) -> (i < length (maFrames s))%nat).

Lemma Struct_same s s' :
  frame_ids (mpWorkQueue s') = frame_ids (mpWorkQueue s) ->
  maFrames s' = maFrames s ->
  Struct s -> Struct s'.
Proof. unfold Struct. intros -> ->. tauto. Qed.

Lemma Struct_insert s s' i f g :
  Struct s -> maFrames s !! i = Some f ->
  mbLinked g = mbLinked f -> mType g = mType f ->
  frame_ids (mpWorkQueue s') = frame_ids (mpWorkQueue s) ->
  maFrames s' = <[i := g]> (maFrames s) ->
  Struct s'.
Proof.
  intros (HL & HP & HR) Hf Hl Ht Hring Hpool. unfold Struct. rewrite Hring, Hpool.
  split_and!.
  - intros j h Hj Hlj. destruct (decide (j = i)) as [ -> | Hne ].
    + rewrite list_lookup_insert_eq in Hj by (eapply lookup_lt_Some; exact Hf).
      injection Hj as <-. apply (HL i f Hf). congruence.
    + rewrite list_lookup_insert_ne in Hj by congruence. exact (HL j h Hj Hlj).
  - intros j h Hj. destruct (decide (j = i)) as [ -> | Hne ].
    + rewrite list_lookup_insert_eq in Hj by (eapply lookup_lt_Some; exact Hf).
      injection Hj as <-. rewrite Ht. exact (HP i f Hf).
    + rewrite list_lookup_insert_ne in Hj by congruence. exact (HP j h Hj).
  - intros j Hj. rewrite length_insert. exact (HR j Hj).
Qed.

Lemma frame_ids_remove_event e ring :
  frame_ids (ring_remove (WEvent e) ring) = frame_ids ring.
Proof.
  induction ring as [ | w rest IH ]; [ reflexivity | ].
  cbn [ring_remove]. destruct (WorkItem_eqb (WEvent e) w) eqn:E.
  - apply WorkItem_eqb_eq in E. subst w. reflexivity.
  - destruct w as [ i | e' ].
    + rewrite !frame_ids_frame, IH. reflexivity.
    + rewrite !frame_ids_event, IH. reflexivity.
Qed.

(** Unlinking a frame takes one occurrence of it out of the frames of the
    ring. *)
Lemma frame_ids_remove_frame i ring :
  i ∈ frame_ids ring ->
  length (frame_ids (ring_remove (WFrame i) ring)) = pred (length (frame_ids ring))
  /\ (0 < length (frame_ids ring))%nat
  /\ (forall j, j ∈ frame_ids (ring_remove (WFrame i) ring) -> j ∈ frame_ids ring)
  /\ (forall j, j ∈ frame_ids ring -> j <> i -> j ∈ frame_ids (ring_remove (WFrame i) ring)).
Proof.
  induction ring as [ | w rest IH ]; intros Hin.
  - apply elem_of_nil in Hin. contradiction.
  - cbn [ring_remove]. destruct (WorkItem_eqb (WFrame i) w) eqn:E.
    + apply WorkItem_eqb_eq in E. subst w. rewrite frame_ids_frame. cbn [length].
      split_and!; [ reflexivity | lia | | ].
      * intros j Hj. right. exact Hj.
      * intros j Hj Hne. apply elem_of_cons in Hj. destruct Hj; [ congruence | assumption ].
    + destruct w as [ k | e ].
      * assert (Hne : k <> i).
        { intros ->. cbn in E. rewrite Nat.eqb_refl in E. discriminate E. }
        rewrite !frame_ids_frame in *. apply elem_of_cons in Hin.
        destruct Hin as [ -> | Hin ]; [ congruence | ].
        destruct (IH Hin) as (Hlen & Hpos & H1 & H2). cbn [length].
        split_and!; [ lia | lia | | ].
        -- intros j Hj. apply elem_of_cons in Hj. destruct Hj as [ -> | Hj ];
             [ left | right; apply H1; exact Hj ].
        -- intros j Hj Hji. apply elem_of_cons in Hj. destruct Hj as [ -> | Hj ];
             [ left | right; apply H2; assumption ].
      * rewrite !frame_ids_event in *. exact (IH Hin).
Qed.

Lemma Struct_unlink s s' i f g :
  Struct s -> maFrames s !! i = Some f -> mbLinked f = true ->
  mbLinked g = false -> mType g = mType f ->
  mpWorkQueue s' = ring_remove (WFrame i) (mpWorkQueue s) ->
  maFrames s' = <[i := g]> (maFrames s) ->
  Struct s'
  /\ Z.of_nat (ring_frames (mpWorkQueue s')) = Z.of_nat (ring_frames (mpWorkQueue s)) - 1.
Proof.
  intros (HL & HP & HR) Hf Hlf Hl Ht Hring Hpool.
  destruct (frame_ids_remove_frame i (mpWorkQueue s) (HL i f Hf Hlf)) as (Hlen & Hpos & H1 & H2).
  split.
  - unfold Struct. rewrite Hring, Hpool. split_and!.
    + intros j h Hj Hlj. destruct (decide (j = i)) as [ -> | Hne ].
      * rewrite list_lookup_insert_eq in Hj by (eapply lookup_lt_Some; exact Hf).
        injection Hj as <-. congruence.
      * rewrite list_lookup_insert_ne in Hj by congruence.
        apply H2; [ exact (HL j h Hj Hlj) | exact Hne ].
    + intros j h Hj. destruct (decide (j = i)) as [ -> | Hne ].
      * rewrite list_lookup_insert_eq in Hj by (eapply lookup_lt_Some; exact Hf).
        injection Hj as <-. rewrite Ht. exact (HP i f Hf).
      * rewrite list_lookup_insert_ne in Hj by congruence. exact (HP j h Hj).
    + intros j Hj. rewrite length_insert. apply HR. apply H1. exact Hj.
  - unfold ring_frames. rewrite Hring, Hlen. lia.
Qed.

Lemma Struct_link s s' i f g :
  Struct s -> maFrames s !! i = Some f ->
  mType g = mType f ->
  mpWorkQueue s' = mpWorkQueue s ++ [WFrame i] ->
  maFrames s' = <[i := g]> (maFrames s) ->
  Struct s'
  /\ Z.of_nat (ring_frames (mpWorkQueue s')) = Z.of_nat (ring_frames (mpWorkQueue s)) + 1.
Proof.
  intros (HL & HP & HR) Hf Ht Hring Hpool. split.
  - unfold Struct. rewrite Hring, Hpool, frame_ids_app. split_and!.
    + intros j h Hj Hlj. destruct (decide (j = i)) as [ -> | Hne ].
      * apply elem_of_app. right. cbn. left.
      * rewrite list_lookup_insert_ne in Hj by congruence.
        apply elem_of_app. left. exact (HL j h Hj Hlj).
    + intros j h Hj. destruct (decide (j = i)) as [ -> | Hne ].
      * rewrite list_lookup_insert_eq in Hj by (eapply lookup_lt_Some; exact Hf).
        injection Hj as <-. rewrite Ht. exact (HP i f Hf).
      * rewrite list_lookup_insert_ne in Hj by congruence. exact (HP j h Hj).
    + intros j Hj. rewrite length_insert. apply elem_of_app in Hj.
      destruct Hj as [ Hj | Hj ]; [ exact (HR j Hj) | ].
      cbn in Hj. apply list_elem_of_singleton in Hj. subst j.
      eapply lookup_lt_Some. exact Hf.
  - unfold ring_frames. rewrite Hring, frame_ids_app, length_app. cbn. lia.
Qed.

(** A computation that keeps the structure and the slack. *)
Definition good {A} (m : M A) : Prop :=
  forall s a s', Struct s -> m s = Ok (a, s') ->
    Struct s' /\ u32 (slack s') = u32 (slack s).

Lemma good_ret {A} (a : A) : good (ret a).
Proof. intros s b s' HS H. minv. split; [ exact HS | reflexivity ]. Qed.

Lemma good_gets {A} (f : DisplayQueue -> A) : good (gets f).
Proof. intros s b s' HS H. minv. split; [ exact HS | reflexivity ]. Qed.

Lemma good_assert c : good (HWCASSERT c).
Proof. intros s b s' HS H. minv. split; [ exact HS | reflexivity ]. Qed.

Lemma good_getFrame i : good (getFrame i).
Proof. intros s b s' HS H. minv. split; [ exact HS | reflexivity ]. Qed.

Lemma good_modify f :
  (forall s, Struct s -> Struct (f s) /\ u32 (slack (f s)) = u32 (slack s)) ->
  good (modify f).
Proof. intros Hf s b s' HS H. minv. apply Hf. exact HS. Qed.

Lemma good_bind {A B} (m : M A) (k : A -> M B) :
  good m -> (forall a, good (k a)) -> good (bind m k).
Proof.
  intros Hm Hk s b s' HS H. minv.
  destruct (Hm _ _ _ HS Hm0) as [HS1 E1].
  destruct (Hk _ _ _ _ HS1 H) as [HS2 E2].
  split; [ exact HS2 | congruence ].
Qed.

Lemma good_updFrame i g :
  (forall f, mbLinked (g f) = mbLinked f /\ mType (g f) = mType f) ->
  good (updFrame i g).
Proof.
  intros Hg s b s' HS H. unfold updFrame, setFrame in H.
  apply bind_inv in H. destruct H as (f & s1 & Hf & H).
  apply getFrame_inv in Hf. destruct Hf as [Hf ->].
  apply modify_inv in H. subst s'.
  destruct (Hg f) as [Hl Ht]. split; [ | reflexivity ].
  eapply (Struct_insert s _ i f (g f)); try eassumption; reflexivity.
Qed.

Create HintDb good discriminated.

Ltac good_step :=
  lazymatch goal with
  | |- good (bind _ _) => apply good_bind; [ | intros ? ]
  | |- good (ret _) => apply good_ret
  | |- good (gets _) => apply good_gets
  | |- good (HWCASSERT _) => apply good_assert
  | |- good (validateFutureFrame _ _) => apply good_assert
  | |- good (getFrame _) => apply good_getFrame
  | |- good (modify _) =>
      let h := fresh in apply good_modify; intros ? h; split; [ exact h | reflexivity ]
  | |- good (emit _) =>
      let h := fresh in apply good_modify; intros ? h; split; [ exact h | reflexivity ]
  | |- good (updFrame _ _) => apply good_updFrame; intros ?; split; reflexivity
  | |- good (match ?x with _ => _ end) => destruct x
  | |- good _ => solve [ auto with good ]
  end.

Ltac good_tac := repeat good_step.

Ltac pool_norm :=
  repeat match goal with
  | Ha : ?l !! ?j = Some ?a, Hb : ?l !! ?j = Some ?b |- _ =>
      rewrite Ha in Hb; injection Hb as <-
  | H : <[?i := ?x]> ?l !! ?i = Some ?y |- _ =>
      rewrite list_lookup_insert_eq in H
        by (rewrite ?length_insert; eapply lookup_lt_Some; eassumption);
      injection H as <-
  end.

Lemma dropFrame_good i : good (dropFrame i).
Proof.
  intros s a s' HS H.
  unfold dropFrame, WorkItem_dequeue, isQueued, updFrame, setFrame in H.
  minv_all. dq_simpl_all. pool_norm.
  match goal with
  | Hf : maFrames s !! i = Some ?f |- _ =>
      destruct (Struct_unlink s
                  (with_frames (<[i := Frame_reset true (Frame_withLinked false f)]> (maFrames s))
                     (with_ring (ring_remove (WFrame i) (mpWorkQueue s)) s))
                  i f (Frame_reset true (Frame_withLinked false f)) HS Hf)
        as [HS' Hn]; try reflexivity; try assumption
  end.
  split.
  - revert HS'. apply Struct_same; dq_simpl; [ reflexivity | ].
    rewrite list_insert_insert_eq. reflexivity.
  - unfold slack in *. dq_simpl_all. rewrite Hn. u32_arith.
Qed.
#[export] Hint Resolve dropFrame_good : good.

Lemma dropRedundant_step_good w b : good (dropRedundant_step w b).
Proof. unfold dropRedundant_step. good_tac. Qed.
#[export] Hint Resolve dropRedundant_step_good : good.

Lemma dropRedundant_loop_good older : forall b, good (dropRedundant_loop older b).
Proof. induction older as [ | w rest IH ]; intros b; cbn [dropRedundant_loop]; good_tac. Qed.
#[export] Hint Resolve dropRedundant_loop_good : good.

Lemma doDropRedundantFrames_good : good doDropRedundantFrames.
Proof. unfold doDropRedundantFrames, newerComplete_seed. good_tac. Qed.
#[export] Hint Resolve doDropRedundantFrames_good : good.

Lemma limitUsedFrames_good : good limitUsedFrames.
Proof. unfold limitUsedFrames. good_tac. Qed.
#[export] Hint Resolve limitUsedFrames_good : good.

Lemma findFree_good : good findFree.
Proof. unfold findFree. good_tac. Qed.
#[export] Hint Resolve findFree_good : good.

Lemma ring_effective_good ring : good (ring_effective ring).
Proof.
  induction ring as [ | w rest IH ]; cbn [ring_effective]; unfold getEffectiveFrame; good_tac.
Qed.
#[export] Hint Resolve ring_effective_good : good.

Lemma doValidateQueue_good : good doValidateQueue.
Proof. unfold doValidateQueue. good_tac. Qed.
#[export] Hint Resolve doValidateQueue_good : good.

Lemma startWorker_good : good startWorker.
Proof. unfold startWorker. good_tac. Qed.
#[export] Hint Resolve startWorker_good : good.

Lemma signalWork_good w : good (signalWork w).
Proof. unfold signalWork. good_tac. Qed.
#[export] Hint Resolve signalWork_good : good.

Lemma getWorkerTid_good t : good (getWorkerTid t).
Proof. unfold getWorkerTid. good_tac. Qed.
#[export] Hint Resolve getWorkerTid_good : good.

Lemma doAdvanceIssuedFrame_good id : good (doAdvanceIssuedFrame id).
Proof. unfold doAdvanceIssuedFrame. good_tac. Qed.
#[export] Hint Resolve doAdvanceIssuedFrame_good : good.

Lemma forEachWork_good body items :
  (forall w, good (body w)) -> good (forEachWork body items).
Proof. intros Hb. induction items as [ | w rest IH ]; cbn [forEachWork]; good_tac. Qed.

Lemma onUnlockedPoolFrame_good act w :
  (forall i, good (act i)) -> good (onUnlockedPoolFrame act w).
Proof. intros Ha. unfold onUnlockedPoolFrame. good_tac. Qed.

Lemma doInvalidateFrames_good : good doInvalidateFrames.
Proof.
  unfold doInvalidateFrames. good_tac.
  apply forEachWork_good. intros w. apply onUnlockedPoolFrame_good. intros i. good_tac.
Qed.
#[export] Hint Resolve doInvalidateFrames_good : good.

Lemma dropAllFrames_good : good dropAllFrames.
Proof.
  unfold dropAllFrames. good_tac.
  apply forEachWork_good. intros w. apply onUnlockedPoolFrame_good. intros i. good_tac.
Qed.

Lemma doFlush_loop_good fuel fi mc sc : good (doFlush_loop fuel fi mc sc).
Proof.
  induction fuel as [ | fuel IH ]; intros s a s' HS H; cbn [doFlush_loop] in H.
  - destruct (doFlush_continue fi mc sc s); [ discriminate | ].
    injection H as _ <-. split; [ exact HS | reflexivity ].
  - destruct (doFlush_continue fi mc sc s).
    + destruct (mpWorker s) as [ w | ]; [ | discriminate ].
      revert s a s' HS H. change (good (signalWork w >> doFlush_loop fuel fi mc sc)).
      good_tac.
    + injection H as _ <-. split; [ exact HS | reflexivity ].
Qed.
#[export] Hint Resolve doFlush_loop_good : good.

Lemma doFlush_good fuel fi t : good (doFlush fuel fi t).
Proof. unfold doFlush. good_tac. Qed.
#[export] Hint Resolve doFlush_good : good.

Lemma flush_good fuel this fi t : good (flush fuel this fi t).
Proof. unfold flush. good_tac. Qed.

Lemma init_good n : good (init n).
Proof. unfold init. good_tac. Qed.

Lemma consumerBlocked_good : good consumerBlocked.
Proof. unfold consumerBlocked. good_tac. Qed.

Lemma consumerUnblocked_good : good consumerUnblocked.
Proof. unfold consumerUnblocked. good_tac. Qed.

Lemma notifyReady_good : good notifyReady.
Proof. unfold notifyReady. good_tac. Qed.

(** A computation that keeps the structure and moves the slack by [d]. *)
Definition shifts {A} (d : Z) (m : M A) : Prop :=
  forall s a s', Struct s -> m s = Ok (a, s') ->
    Struct s' /\ u32 (slack s') = u32 (slack s + d).

Lemma good_shifts {A} (m : M A) : good m -> shifts 0 m.
Proof.
  intros G s a s' HS H. destruct (G s a s' HS H) as [HS' E].
  split; [ exact HS' | ]. rewrite E, Z.add_0_r. reflexivity.
Qed.

Ltac struct_insert g :=
  match goal with
  | HS : Struct ?s, Hf : maFrames ?s !! ?i = Some ?f |- Struct _ =>
      apply (Struct_insert s _ i f (g f) HS Hf); reflexivity
  end.

Lemma lockFrameForDisplay_shifts i : shifts (-1) (lockFrameForDisplay i).
Proof.
  intros s a s' HS H. unfold lockFrameForDisplay, updFrame, setFrame in H.
  minv_all. dq_simpl_all. split.
  - struct_insert (Frame_withLocked true).
  - unfold slack. dq_simpl. u32_arith.
Qed.

Lemma unlockFrameForDisplay_shifts i : shifts 1 (unlockFrameForDisplay i).
Proof.
  intros s a s' HS H. unfold unlockFrameForDisplay, updFrame, setFrame in H.
  minv_all. dq_simpl_all. split.
  - struct_insert (Frame_withLocked false).
  - unfold slack. dq_simpl. u32_arith.
Qed.

Lemma WorkItem_dequeue_frame_shifts i : shifts 1 (WorkItem_dequeue (WFrame i)).
Proof.
  intros s a s' HS H. unfold WorkItem_dequeue, isQueued, updFrame, setFrame in H.
  minv_all. dq_simpl_all. pool_norm.
  match goal with
  | Hf : maFrames s !! i = Some ?f |- _ =>
      destruct (Struct_unlink s
                  (with_frames (<[i := Frame_withLinked false f]> (maFrames s))
                     (with_ring (ring_remove (WFrame i) (mpWorkQueue s)) s))
                  i f (Frame_withLinked false f) HS Hf)
        as [HS' Hn]; try reflexivity; try assumption
  end.
  split; [ exact HS' | ].
  unfold slack in *. dq_simpl_all. rewrite Hn. u32_arith.
Qed.

Lemma WorkItem_dequeue_event_good e : good (WorkItem_dequeue (WEvent e)).
Proof.
  intros s a s' HS H. unfold WorkItem_dequeue, isQueued in H.
  minv_all. dq_simpl_all. split.
  - revert HS. apply Struct_same; dq_simpl; [ apply frame_ids_remove_event | reflexivity ].
  - unfold slack, ring_frames. dq_simpl. rewrite frame_ids_remove_event. reflexivity.
Qed.
#[export] Hint Resolve WorkItem_dequeue_event_good : good.

Lemma frame_ids_snoc_event ring e : frame_ids (ring ++ [WEvent e]) = frame_ids ring.
Proof. rewrite frame_ids_app. cbn. apply app_nil_r. Qed.

Lemma WorkItem_queue_event_good e : good (WorkItem_queue (WEvent e)).
Proof.
  intros s a s' HS H. unfold WorkItem_queue, isQueued in H.
  minv_all. dq_simpl_all. split.
  - revert HS. apply Struct_same; dq_simpl; [ apply frame_ids_snoc_event | reflexivity ].
  - unfold slack, ring_frames. dq_simpl. rewrite frame_ids_snoc_event. reflexivity.
Qed.
#[export] Hint Resolve WorkItem_queue_event_good : good.

Lemma WorkItem_queue_frame_shifts i : shifts (-1) (WorkItem_queue (WFrame i)).
Proof.
  intros s a s' HS H. unfold WorkItem_queue, isQueued, updFrame, setFrame in H.
  minv_all. dq_simpl_all. pool_norm.
  match goal with
  | Hf : maFrames s !! i = Some ?f |- _ =>
      destruct (Struct_link s
                  (with_ring (mpWorkQueue s ++ [WFrame i])
                     (with_frames (<[i := Frame_withLinked true f]> (maFrames s)) s))
                  i f (Frame_withLinked true f) HS Hf)
        as [HS' Hn]; try reflexivity
  end.
  split; [ exact HS' | ].
  unfold slack in *. dq_simpl_all. rewrite Hn. u32_arith.
Qed.

Lemma incr_poolUsed_shifts :
  shifts 1 (modify (fun s => with_poolUsed (incr32 (mFramePoolUsed s)) s)).
Proof.
  intros s a s' HS H. minv. split; [ exact HS | ].
  unfold slack. dq_simpl. u32_arith.
Qed.

Create HintDb shifts discriminated.
#[export] Hint Resolve lockFrameForDisplay_shifts unlockFrameForDisplay_shifts
  WorkItem_dequeue_frame_shifts WorkItem_queue_frame_shifts incr_poolUsed_shifts : shifts.

(** Splitting a completed computation at its binds and branches. *)
Ltac binv :=
  repeat match goal with
  | H : AssertFail = Ok _ |- _ => discriminate H
  | H : Spin = Ok _ |- _ => discriminate H
  | H : bind _ _ _ = Ok _ |- _ =>
      let a := fresh "a" in let s1 := fresh "s" in let H1 := fresh "Hm" in
      apply bind_inv in H; destruct H as (a & s1 & H1 & H)
  | H : ret _ _ = Ok _ |- _ =>
      let E := fresh "E" in
      apply ret_inv in H; destruct H as [E H]; try discriminate E; subst
  | H : (match ?x with _ => _ end) _ = Ok _ |- _ => destruct x eqn:?
  end.

(** Every completed step from a state with the structure gives the structure
    and the slack of the state it ends in. *)
Ltac use_shifts :=
  repeat match goal with
  | HS : Struct ?s, H : ?m ?s = Ok (?a, ?s') |- _ =>
      let HS' := fresh "HS" in let E := fresh "Es" in
      first
        [ destruct ((fun G : good m => G s a s' HS H) ltac:(solve [ good_tac ])) as [HS' E]
        | destruct ((fun G : shifts 1 m => G s a s' HS H) ltac:(solve [ auto with shifts ]))
            as [HS' E]
        | destruct ((fun G : shifts (-1) m => G s a s' HS H) ltac:(solve [ auto with shifts ]))
            as [HS' E] ];
      clear H
  end.

Lemma doQueueWork_event_good e : good (doQueueWork (WEvent e)).
Proof. unfold doQueueWork, getEffectiveFrame. good_tac. Qed.
#[export] Hint Resolve doQueueWork_event_good : good.

Lemma doQueueWork_frame_shifts i : shifts (-1) (doQueueWork (WFrame i)).
Proof.
  intros s a s' HS H. unfold doQueueWork, getEffectiveFrame in H. cbn [isFrameItem] in H.
  binv; use_shifts. all: split; [ assumption | u32_arith ].
Qed.
#[export] Hint Resolve doQueueWork_frame_shifts : shifts.

Lemma queueEvent_good e : good (queueEvent e).
Proof. unfold queueEvent. good_tac. Qed.

Lemma doConsumeEvent_good e : good (doConsumeEvent e).
Proof. unfold doConsumeEvent. good_tac. Qed.
#[export] Hint Resolve doConsumeEvent_good : good.

Lemma doReleaseFrame_good i : good (doReleaseFrame i).
Proof.
  intros s a s' HS H. unfold doReleaseFrame, updFrame, setFrame in H.
  minv_all; use_ro; dq_simpl_all. split.
  - struct_insert (Frame_reset false).
  - unfold slack. dq_simpl. u32_arith.
Qed.
#[export] Hint Resolve doReleaseFrame_good : good.

Lemma backend_consumeFrame_good b i : good (backend_consumeFrame b i).
Proof. unfold backend_consumeFrame. good_tac. Qed.
#[export] Hint Resolve backend_consumeFrame_good : good.

Lemma doConsumeFrame_good b i : good (doConsumeFrame b i).
Proof.
  intros s a s' HS H. unfold doConsumeFrame in H.
  binv; use_shifts. all: split; [ assumption | u32_arith ].
Qed.
#[export] Hint Resolve doConsumeFrame_good : good.

Lemma doConsumeWork_good b : good (doConsumeWork b).
Proof. unfold doConsumeWork. good_tac. Qed.

(** Frame::set fails only where the layers cannot be allocated. *)
Lemma Frame_set_allocates stack zorder id config f b f' :
  Frame_set true stack zorder id config f = Ok (b, f') -> b = true.
Proof.
  intros H. unfold Frame_set in H.
  destruct (mbLinked f); cbn [negb rassert rbind] in H; [ discriminate | ].
  destruct (mbLockedForDisplay f); cbn [negb rassert rbind] in H; [ discriminate | ].
  rewrite andb_false_r in H.
  match type of H with
  | (if ?c then _ else _) = _ => destruct c eqn:Hc
  end.
  - exfalso. apply Z.ltb_lt in Hc.
    destruct (mLayerAllocCount f <? u32 (Z.of_nat (length stack))) eqn:Hr.
    + destruct (cMinimumLayerAllocCount <? u32 (Z.of_nat (length stack))) eqn:Hm.
      * lia.
      * apply Z.ltb_ge in Hm. lia.
    + apply Z.ltb_ge in Hr. lia.
  - destruct (set_layers _ _) as [ ls | | ] in H; cbn [rbind] in H; try discriminate.
    injection H as <- _. reflexivity.
Qed.

Lemma liftFrame_set_good bAlloc stack zorder id config i :
  good (liftFrame i (Frame_set bAlloc stack zorder id config)).
Proof.
  intros s a s' HS H. apply liftFrame_inv in H. destruct H as (f & f' & Hf & Hset & ->).
  apply Frame_set_fields in Hset.
  destruct Hset as (Hl & _ & _ & _ & _ & Hl' & _ & _ & Ht). split.
  - apply (Struct_insert s _ i f f' HS Hf); [ congruence | exact Ht | reflexivity | reflexivity ].
  - reflexivity.
Qed.
#[export] Hint Resolve liftFrame_set_good : good.

Lemma queueFrame_good stack zorder id config :
  good (queueFrame true stack zorder id config).
Proof.
  intros s a s' HS H. unfold queueFrame in H. binv.
  all: try match goal with
       | Hl : liftFrame _ (Frame_set true _ _ _ _) _ = Ok (?b, _) |- _ =>
           let Hb := fresh "Hb" in
           assert (Hb : b = true)
             by (apply liftFrame_inv in Hl; destruct Hl as (? & ? & _ & Hl & _);
                 exact (Frame_set_allocates _ _ _ _ _ _ _ Hl));
           subst b
       end.
  all: try match goal with Hn : negb true = true |- _ => discriminate Hn end.
  all: use_shifts.
  all: split; [ assumption | u32_arith ].
Qed.

Lemma last_snoc_inv {A} (l : list A) (x : A) :
  last l = Some x -> l = removelast l ++ [x].
Proof.
  intros H. destruct (decide (l = [])) as [ -> | Hne ]; [ discriminate H | ].
  rewrite (app_removelast_last x Hne) at 1. f_equal. f_equal.
  clear Hne. induction l as [ | y [ | z l ] IH ]; [ discriminate H | | ].
  - cbn in H. injection H as <-. reflexivity.
  - cbn [List.last]. apply IH. exact H.
Qed.

Lemma queueDrop_good id : good (queueDrop id).
Proof.
  intros s a s' HS H. unfold queueDrop in H. binv.
  all: try match goal with
       | Hg : gets mpWorkQueue ?s0 = Ok (?ring, ?s1),
         Hl : last ?ring = Some (WEvent ?e),
         Hm : modify (with_ring ?ring') ?s2 = Ok (?u, ?s3) |- _ =>
           apply gets_inv in Hg; destruct Hg as [Hg ->];
           apply modify_inv in Hm;
           assert (Hids : frame_ids (mpWorkQueue s3) = frame_ids (mpWorkQueue s0))
             by (rewrite Hm; dq_simpl; rewrite frame_ids_snoc_event;
                 rewrite <- Hg; rewrite (last_snoc_inv _ _ Hl) at 2;
                 rewrite frame_ids_snoc_event; reflexivity);
           assert (Hpool : maFrames s3 = maFrames s0) by (rewrite Hm; reflexivity);
           assert (Hused : mFramePoolUsed s3 = mFramePoolUsed s0) by (rewrite Hm; reflexivity);
           assert (Hlocked : mFramesLockedForDisplay s3 = mFramesLockedForDisplay s0)
             by (rewrite Hm; reflexivity);
           clear Hm
       end.
  all: use_shifts.
  all: try match goal with
       | HS1 : Struct ?s1, Hids : frame_ids (mpWorkQueue ?s3) = frame_ids (mpWorkQueue ?s1),
         Hpool : maFrames ?s3 = maFrames ?s1 |- _ =>
           assert (HS3 : Struct s3) by exact (Struct_same s1 s3 Hids Hpool HS1);
           assert (Es3 : slack s3 = slack s1)
             by (unfold slack, ring_frames; congruence)
       end.
  all: use_shifts.
  all: split; [ assumption | u32_arith ].
Qed.

(** The accounting of the claim, on the 32-bit values of the counters. *)
Definition poolAccounting32 (s : DisplayQueue) : Prop :=
  u32 (mFramePoolUsed s)
  = u32 (Z.of_nat (ring_pool_frames s) + mFramesLockedForDisplay s).

#[export] Instance poolAccounting32_dec s : Decision (poolAccounting32 s).
Proof. unfold poolAccounting32. apply _. Defined.

Lemma filter_all {A} (P : A -> Prop) `{forall x, Decision (P x)} (l : list A) :
  Forall P l -> filter P l = l.
Proof.
  induction 1 as [ | x l Hx Hl IH ]; [ reflexivity | ].
  rewrite filter_cons_True by exact Hx. f_equal. exact IH.
Qed.

Lemma Struct_ring_pool_frames s :
  Struct s -> ring_pool_frames s = ring_frames (mpWorkQueue s).
Proof.
  intros (_ & HP & HR). unfold ring_pool_frames, ring_frames.
  f_equal. apply filter_all. apply Forall_forall. intros i Hi.
  destruct (lookup_lt_is_Some_2 _ _ (HR i Hi)) as [f Hf].
  unfold frameAt, poolFrame. rewrite Hf. exact (HP i f Hf).
Qed.

Lemma poolAccounting32_slack s :
  Struct s -> (poolAccounting32 s <-> u32 (slack s) = 0).
Proof.
  intros HS. unfold poolAccounting32, slack.
  rewrite (Struct_ring_pool_frames s HS). split; intros H; u32_arith.
Qed.

Lemma DisplayQueue_new_Struct poolCount poolLimit flags :
  Struct (DisplayQueue_new poolCount poolLimit flags).
Proof.
  unfold Struct, DisplayQueue_new. dq_simpl. split_and!.
  - intros i f Hf. apply list_elem_of_lookup_2, list_elem_of_In, repeat_spec in Hf.
    subst f. discriminate.
  - intros i f Hf. apply list_elem_of_lookup_2, list_elem_of_In, repeat_spec in Hf.
    subst f. reflexivity.
  - intros i Hi. cbn in Hi. apply elem_of_nil in Hi. contradiction.
Qed.

Lemma DisplayQueue_new_poolAccounting32 poolCount poolLimit flags :
  poolAccounting32 (DisplayQueue_new poolCount poolLimit flags).
Proof. reflexivity. Qed.

(** The operation does not run out of memory for the layers of a frame. *)
Definition opAllocates (op : Op) : Prop :=
  match op with
  | OpQueueFrame bAlloc _ _ _ _ => bAlloc = true
  | _ => True
  end.

#[export] Instance opAllocates_dec op : Decision (opAllocates op).
Proof. destruct op; cbn; apply _. Defined.

Lemma returning_good {A} (f : A -> Ret) (m : M A) : good m -> good (returning f m).
Proof. intros G. unfold returning. good_tac. Qed.

Lemma run_op_good fuel op : opAllocates op -> good (run_op fuel op).
Proof.
  intros Ha. destruct op; cbn [run_op]; apply returning_good.
  - apply init_good.
  - apply queueEvent_good.
  - cbn in Ha. subst bAlloc. apply queueFrame_good.
  - apply queueDrop_good.
  - apply dropAllFrames_good.
  - apply doDropRedundantFrames_good.
  - apply doConsumeWork_good.
  - apply flush_good.
  - apply consumerBlocked_good.
  - apply consumerUnblocked_good.
  - apply notifyReady_good.
  - apply doReleaseFrame_good.
Qed.

(** Where no allocation of layers fails, every completed public operation
    keeps the pool accounting it finds; consumeWork is here the call with
    no other thread in its windows, see [run_step_slack] for the sections. *)
Theorem run_op_keeps_poolAccounting32 fuel op s r s' :
  Struct s -> poolAccounting32 s -> opAllocates op ->
  run_op fuel op s = Ok (r, s') ->
  Struct s' /\ poolAccounting32 s'.
Proof.
  intros HS HA Hop H.
  destruct (run_op_good fuel op Hop s r s' HS H) as [HS' E].
  split; [ exact HS' | ].
  apply (poolAccounting32_slack s' HS'). rewrite E.
  apply (poolAccounting32_slack s HS). exact HA.
Qed.

Theorem run_ops_keep_poolAccounting32 fuel ops :
  forall s, Struct s -> poolAccounting32 s -> Forall opAllocates ops ->
  Forall poolAccounting32 (run_ops fuel ops s).
Proof.
  induction ops as [ | op rest IH ]; intros s HS HA Hops; cbn [run_ops]; [ constructor | ].
  apply Forall_cons in Hops. destruct Hops as [Hop Hrest].
  destruct (run_op fuel op s) as [[r s1] | | ] eqn:E; try constructor.
  - exact (proj2 (run_op_keeps_poolAccounting32 fuel op s r s1 HS HA Hop E)).
  - destruct (run_op_keeps_poolAccounting32 fuel op s r s1 HS HA Hop E) as [HS1 HA1].
    apply IH; assumption.
Qed.

(** ** The sections, back to back *)

(** doConsumeEvent is its two sections with nothing in between. *)
Lemma doConsumeEvent_sections (e : Event) (rest : list WorkItem) (s : DisplayQueue) :
  mpWorkQueue s = WEvent e :: rest ->
  doConsumeEvent e s = (doConsumeEvent_begin e >> doConsumeEvent_end) s.
Proof.
  intros Hring. unfold doConsumeEvent, doConsumeEvent_begin, doConsumeEvent_end.
  cbv [bind gets modify emit HWCASSERT validateFutureFrame ret].
  destruct (0 <? mQueuedWork s); [ | reflexivity ].
  destruct (futureFrame (mLastIssuedFrame s) (evEffectiveFrame e)); [ | reflexivity ].
  rewrite doValidateQueue_run.
  destruct (queueValid _); [ | reflexivity ].
  dq_simpl. destruct (0 <? mQueuedWork s); [ | reflexivity ].
  dq_simpl. rewrite Hring. reflexivity.
Qed.

(** doConsumeFrame is its sections with nothing in between but the
    releaseFrame of the backend after a failed flip. *)
Lemma doConsumeFrame_sections (bFlipOk : bool) (i : nat) (rest : list WorkItem)
    (s : DisplayQueue) :
  mpWorkQueue s = WFrame i :: rest ->
  doConsumeFrame bFlipOk i s =
  (doConsumeFrame_lock i >>
   let! flags := gets mBehaviourFlags in
   let! pFrame :=
     (if negb (Z.land flags eBF_SYNC_BEFORE_FLIP =? 0)
      then doConsumeFrame_resync i else ret (Some i)) in
   match pFrame with
   | None => ret tt
   | Some j =>
       let! effectiveIssuedFrame := doConsumeFrame_dequeue j in
       (if bFlipOk then ret tt else doReleaseFrame j) >>
       doConsumeFrame_end effectiveIssuedFrame
   end) s.
Proof.
  intros Hring.
  unfold doConsumeFrame, doConsumeFrame_lock, doConsumeFrame_resync, doConsumeFrame_dequeue,
    doConsumeFrame_end, backend_consumeFrame, lockFrameForDisplay, updFrame, setFrame.
  cbv [bind gets modify emit HWCASSERT validateFutureFrame ret getFrame].
  repeat first
    [ reflexivity
    | progress dq_simpl
    | rewrite doValidateQueue_run
    | rewrite Hring
    | rewrite Nat.eqb_refl
    | rewrite list_lookup_insert_eq by (eapply lookup_lt_Some; eassumption)
    | match goal with
      | |- context [match maFrames ?s !! ?i with Some _ => _ | None => _ end] =>
          destruct (maFrames s !! i) eqn:?
      | |- context [if ?c then _ else _] => destruct c eqn:?
      | |- context [match ?m ?s with Ok _ => _ | AssertFail => _ | Spin => _ end] =>
          destruct (m s) as [[? ?] | | ] eqn:?
      | |- context [match mpWorkQueue ?s with [] => _ | _ :: _ => _ end] =>
          destruct (mpWorkQueue s) as [ | [ ? | ? ] ? ] eqn:?
      | |- context [match ?x with Some _ => _ | None => _ end] => is_var x; destruct x
      end
    | progress cbv beta ].
Qed.

(** The sections of one call of consumeWork, run back to back by
    [consumer_step]; the backend releases the frame in the window of a
    failed flip. *)
Definition consumeWork_sections (bFlipOk : bool) : M unit :=
  let flip (c : Consumer) : M unit :=
    match c with
    | CFlip j _ =>
        (if bFlipOk then ret tt else releaseFrame j) >>
        consumer_step c >> ret tt
    | _ => ret tt
    end in
  let! c1 := consumer_step CIdle in
  match c1 with
  | CIdle => ret tt
  | CWaitRendering _ => let! c2 := consumer_step c1 in flip c2
  | CFlip _ _ => flip c1
  | CEvent => consumer_step c1 >> ret tt
  end.

(** consumeWork is its sections back to back. *)
Lemma consumeWork_is_its_sections (bFlipOk : bool) (s : DisplayQueue) :
  (consumeWork bFlipOk >> ret tt) s = consumeWork_sections bFlipOk s.
Proof.
  unfold consumeWork, doConsumeWork, consumeWork_sections, releaseFrame.
  cbv [consumer_step bind gets ret HWCASSERT].
  rewrite doValidateQueue_run. destruct (queueValid s); [ | reflexivity ].
  destruct (mpWorkQueue s) as [ | [ i | e ] rest ] eqn:Hring.
  - destruct (mQueuedWork s =? 0); reflexivity.
  - destruct (0 <? mQueuedWork s); [ | reflexivity ].
    rewrite (doConsumeFrame_sections bFlipOk i rest s Hring).
    cbv [bind gets ret].
    repeat first
      [ reflexivity
      | match goal with
        | |- context [match ?x with Some _ => _ | None => _ end] => is_var x; destruct x
        | |- context [if ?c then _ else _] => destruct c eqn:?
        | |- context [match ?m ?s with Ok _ => _ | AssertFail => _ | Spin => _ end] =>
            destruct (m s) as [[? ?] | | ] eqn:?
        end
      | progress cbv beta iota ].
  - destruct (0 <? mQueuedWork s); [ | reflexivity ].
    rewrite (doConsumeEvent_sections e rest s Hring).
    cbv [bind gets ret].
    repeat first
      [ reflexivity
      | match goal with
        | |- context [match ?m ?s with Ok _ => _ | AssertFail => _ | Spin => _ end] =>
            destruct (m s) as [[? ?] | | ] eqn:?
        end
      | progress cbv beta iota ].
Qed.

(** What getWorkerTid yields. *)
Lemma getWorkerTid_inv this_id s tid s' :
  getWorkerTid this_id s = Ok (tid, s') ->
  s' = s /\ tid = match mpWorker s with Some _ => Some this_id | None => None end.
Proof.
  intros H. unfold getWorkerTid in H.
  apply bind_inv in H. destruct H as (w & s0 & Hg & H).
  apply gets_inv in Hg. destruct Hg as [-> ->].
  destruct (mpWorker s); apply ret_inv in H; destruct H as [-> ->]; split; reflexivity.
Qed.

(** A queueFrame that returns OK leaves its id as lastQueuedFrame. *)
Lemma queueFrame_OK_lastQueued bAlloc stack zorder id config s s' :
  queueFrame bAlloc stack zorder id config s = Ok (OK, s') -> mLastQueuedFrame s' = id.
Proof.
  intros H. unfold queueFrame in H.
  apply bind_inv in H. destruct H as (q & s0 & Hq & H).
  apply gets_inv in Hq. destruct Hq as [-> ->].
  apply bind_inv in H. destruct H as (u0 & s0 & _ & H).
  apply bind_inv in H. destruct H as ([] & s1 & _ & H).
  apply bind_inv in H. destruct H as (pNewFrame & s2 & _ & H).
  destruct pNewFrame as [ i | ]; [ | apply ret_inv in H; destruct H as [E _]; discriminate E ].
  apply bind_inv in H. destruct H as (f & s3 & _ & H).
  apply bind_inv in H. destruct H as (u1 & s4 & _ & H).
  apply bind_inv in H. destruct H as (u2 & s5 & _ & H).
  apply bind_inv in H. destruct H as (used & s6 & _ & H).
  apply bind_inv in H. destruct H as (peak & s7 & _ & H).
  apply bind_inv in H. destruct H as (u3 & s8 & _ & H).
  apply bind_inv in H. destruct H as (bSet & s9 & _ & H).
  destruct bSet; cbn [negb] in H;
    [ | apply ret_inv in H; destruct H as [E _]; discriminate E ].
  apply bind_inv in H. destruct H as (u4 & s10 & _ & H).
  apply bind_inv in H. destruct H as (u5 & s11 & Hm & H).
  apply modify_inv in Hm. subst s11.
  apply bind_inv in H. destruct H as (u6 & s12 & Hqw & H).
  apply ret_inv in H. destruct H as [_ ->].
  apply doQueueWork_frame_inv in Hqw.
  destruct Hqw as (f2 & Hf2 & Hl2 & Hring & Hpool & Hlq & _).
  exact Hlq.
Qed.

(** ** Pool accounting, section by section *)

Lemma doConsumeEvent_begin_good e : good (doConsumeEvent_begin e).
Proof. unfold doConsumeEvent_begin. good_tac. Qed.
#[export] Hint Resolve doConsumeEvent_begin_good : good.

Lemma doConsumeEvent_end_good : good doConsumeEvent_end.
Proof. unfold doConsumeEvent_end. good_tac. Qed.
#[export] Hint Resolve doConsumeEvent_end_good : good.

Lemma doConsumeFrame_end_good eff : good (doConsumeFrame_end eff).
Proof. unfold doConsumeFrame_end. good_tac. Qed.
#[export] Hint Resolve doConsumeFrame_end_good : good.

Lemma doConsumeFrame_lock_shifts i : shifts (-1) (doConsumeFrame_lock i).
Proof.
  intros s a s' HS H. unfold doConsumeFrame_lock in H.
  binv; use_shifts. all: split; [ assumption | u32_arith ].
Qed.
#[export] Hint Resolve doConsumeFrame_lock_shifts : shifts.

Lemma doConsumeFrame_dequeue_shifts j : shifts 1 (doConsumeFrame_dequeue j).
Proof.
  intros s a s' HS H. unfold doConsumeFrame_dequeue in H.
  binv; use_shifts. all: split; [ assumption | u32_arith ].
Qed.
#[export] Hint Resolve doConsumeFrame_dequeue_shifts : shifts.

(** The section after waitRendering unlocks the old head; it locks the new
    one if it returns a frame. *)
Lemma doConsumeFrame_resync_shifts i s pFrame s' :
  Struct s -> doConsumeFrame_resync i s = Ok (pFrame, s') ->
  Struct s'
  /\ u32 (slack s') = u32 (slack s + match pFrame with Some _ => 0 | None => 1 end).
Proof.
  intros HS H. unfold doConsumeFrame_resync in H.
  binv; use_shifts. all: split; [ assumption | u32_arith ].
Qed.

(** The thread inside consumeWork holds one frame that is both in the ring
    and locked for display while it waits for the rendering. *)
Definition inWaitRendering (c : Consumer) : Z :=
  match c with
  | CWaitRendering _ => 1
  | _ => 0
  end.

Lemma consumer_step_slack c s c' s' :
  Struct s -> u32 (slack s + inWaitRendering c) = 0 ->
  consumer_step c s = Ok (c', s') ->
  Struct s' /\ u32 (slack s' + inWaitRendering c') = 0.
Proof.
  intros HS E H. destruct c; cbn [consumer_step inWaitRendering] in *.
  - binv; use_shifts.
    all: cbn [inWaitRendering]; split; [ assumption | u32_arith ].
  - apply bind_inv in H. destruct H as (pFrame0 & s1 & Hr & H).
    destruct (doConsumeFrame_resync_shifts _ _ _ _ HS Hr) as [HS1 E1].
    destruct pFrame0 as [ j | ].
    + binv; use_shifts. cbn [inWaitRendering]. split; [ assumption | u32_arith ].
    + apply ret_inv in H. destruct H as [-> ->]. cbn [inWaitRendering].
      split; [ assumption | u32_arith ].
  - binv; use_shifts. cbn [inWaitRendering]. split; [ assumption | u32_arith ].
  - binv; use_shifts. cbn [inWaitRendering]. split; [ assumption | u32_arith ].
Qed.

(** The operations of a step do not run out of memory for frame layers. *)
Definition stepAllocates (st : Step) : Prop :=
  match st with
  | SOther op => opAllocates op
  | SWorker => True
  end.

#[export] Instance stepAllocates_dec st : Decision (stepAllocates st).
Proof. destruct st; cbn; apply _. Defined.

Lemma run_step_slack fuel st c s c' s' :
  stepAllocates st ->
  Struct s -> u32 (slack s + inWaitRendering c) = 0 ->
  run_step fuel st (c, s) = Ok (c', s') ->
  Struct s' /\ u32 (slack s' + inWaitRendering c') = 0.
Proof.
  intros Ha HS E H. destruct st as [ op | ]; cbn [run_step fst snd] in H.
  - destruct (run_op fuel op s) as [[r s1] | | ] eqn:Hop; try discriminate.
    injection H as <- <-.
    destruct (run_op_good fuel op Ha s r s1 HS Hop) as [HS1 E1].
    split; [ exact HS1 | u32_arith ].
  - exact (consumer_step_slack c s c' s' HS E H).
Qed.

(** The accounting of framePoolUsed while mLockQueue is free: the frame the
    consumer waits for is counted once, in the ring and as locked. *)
Definition poolAccountingAt (c : Consumer) (s : DisplayQueue) : Prop :=
  u32 (mFramePoolUsed s + inWaitRendering c)
  = u32 (Z.of_nat (ring_pool_frames s) + mFramesLockedForDisplay s).

#[export] Instance poolAccountingAt_dec c s : Decision (poolAccountingAt c s).
Proof. unfold poolAccountingAt. apply _. Defined.

Lemma poolAccountingAt_slack c s :
  Struct s -> (poolAccountingAt c s <-> u32 (slack s + inWaitRendering c) = 0).
Proof.
  intros HS. unfold poolAccountingAt, slack.
  rewrite (Struct_ring_pool_frames s HS). split; intros H; u32_arith.
Qed.

Lemma poolAccountingAt_idle c s :
  inWaitRendering c = 0 -> (poolAccountingAt c s <-> poolAccounting32 s).
Proof.
  intros E. unfold poolAccountingAt, poolAccounting32. rewrite E, Z.add_0_r. tauto.
Qed.

Lemma poolAccountingAt_waiting i s :
  poolAccountingAt (CWaitRendering i) s -> ~ poolAccounting32 s.
Proof.
  unfold poolAccountingAt, poolAccounting32. cbn [inWaitRendering]. intros H1 H2.
  u32_arith.
Qed.

(** ** Properties of the ring that survive everything but events

    The operations on frames change the ring in two ways only: a frame is
    linked at the tail, or a frame is unlinked.  A property [Q] of the ring
    that survives both survives every computation that does not queue,
    rewrite or consume an event. *)

Create HintDb ringinv discriminated.

Ltac ring_step :=
  lazymatch goal with
  | |- keeps _ (bind _ _) => apply keeps_bind; [ | intros ? ]
  | |- keeps _ (ret _) => apply keeps_ret
  | |- keeps _ (gets _) => apply keeps_gets
  | |- keeps _ (HWCASSERT _) => apply keeps_assert
  | |- keeps _ (validateFutureFrame _ _) => apply keeps_assert
  | |- keeps _ (getFrame _) => apply keeps_getFrame
  | |- keeps _ (modify _) =>
      let h := fresh in apply keeps_modify; intros ? h; exact h
  | |- keeps _ (emit _) =>
      let h := fresh in apply keeps_modify; intros ? h; exact h
  | |- keeps _ (match ?x with _ => _ end) => destruct x
  | |- keeps _ _ => solve [ auto with ringinv ]
  end.

Ltac ring_tac := repeat ring_step.

Section RingInvariant.

Variable Q : list WorkItem -> Prop.
Hypothesis Q_link_frame : forall ring i, Q ring -> Q (ring ++ [WFrame i]).
Hypothesis Q_unlink_frame : forall ring i, Q ring -> Q (ring_remove (WFrame i) ring).

Definition ringIs (s : DisplayQueue) : Prop := Q (mpWorkQueue s).

Lemma updFrame_ringIs i g : keeps ringIs (updFrame i g).
Proof. unfold updFrame, setFrame. ring_tac. Qed.
Hint Resolve updFrame_ringIs : ringinv.

Lemma WorkItem_queue_frame_ringIs i : keeps ringIs (WorkItem_queue (WFrame i)).
Proof.
  unfold WorkItem_queue, isQueued. apply keeps_bind; [ ring_tac | intros q ].
  apply keeps_bind; [ ring_tac | intros _ ].
  apply keeps_bind; [ ring_tac | intros _ ].
  apply keeps_modify. intros s HQ. unfold ringIs in *. dq_simpl.
  apply Q_link_frame. exact HQ.
Qed.
Hint Resolve WorkItem_queue_frame_ringIs : ringinv.

Lemma WorkItem_dequeue_frame_ringIs i : keeps ringIs (WorkItem_dequeue (WFrame i)).
Proof.
  unfold WorkItem_dequeue, isQueued. apply keeps_bind; [ ring_tac | intros q ].
  apply keeps_bind; [ ring_tac | intros _ ].
  intros s a s' HQ H. minv_all.
  revert H. apply updFrame_ringIs. unfold ringIs in *. dq_simpl.
  apply Q_unlink_frame. exact HQ.
Qed.
Hint Resolve WorkItem_dequeue_frame_ringIs : ringinv.

Lemma ring_effective_ringIs ring : keeps ringIs (ring_effective ring).
Proof. induction ring as [ | w rest IH ]; simpl; unfold getEffectiveFrame; ring_tac. Qed.
Hint Resolve ring_effective_ringIs : ringinv.

Lemma doValidateQueue_ringIs : keeps ringIs doValidateQueue.
Proof. unfold doValidateQueue. ring_tac. Qed.
Hint Resolve doValidateQueue_ringIs : ringinv.

Lemma startWorker_ringIs : keeps ringIs startWorker.
Proof. unfold startWorker. ring_tac. Qed.
Hint Resolve startWorker_ringIs : ringinv.

Lemma signalWork_ringIs w : keeps ringIs (signalWork w).
Proof. unfold signalWork. ring_tac. Qed.
Hint Resolve signalWork_ringIs : ringinv.

Lemma getWorkerTid_ringIs t : keeps ringIs (getWorkerTid t).
Proof. unfold getWorkerTid. ring_tac. Qed.
Hint Resolve getWorkerTid_ringIs : ringinv.

Lemma doAdvanceIssuedFrame_ringIs id : keeps ringIs (doAdvanceIssuedFrame id).
Proof. unfold doAdvanceIssuedFrame. ring_tac. Qed.
Hint Resolve doAdvanceIssuedFrame_ringIs : ringinv.

Lemma doQueueWork_frame_ringIs i : keeps ringIs (doQueueWork (WFrame i)).
Proof. unfold doQueueWork, getEffectiveFrame. cbn [isFrameItem]. ring_tac. Qed.
Hint Resolve doQueueWork_frame_ringIs : ringinv.

Lemma dropFrame_ringIs i : keeps ringIs (dropFrame i).
Proof. unfold dropFrame. ring_tac. Qed.
Hint Resolve dropFrame_ringIs : ringinv.

Lemma dropRedundant_loop_ringIs older : forall b, keeps ringIs (dropRedundant_loop older b).
Proof.
  induction older as [ | w rest IH ]; intros b; simpl; unfold dropRedundant_step; ring_tac.
Qed.
Hint Resolve dropRedundant_loop_ringIs : ringinv.

Lemma doDropRedundantFrames_ringIs : keeps ringIs doDropRedundantFrames.
Proof. unfold doDropRedundantFrames, newerComplete_seed. ring_tac. Qed.
Hint Resolve doDropRedundantFrames_ringIs : ringinv.

Lemma limitUsedFrames_ringIs : keeps ringIs limitUsedFrames.
Proof. unfold limitUsedFrames. ring_tac. Qed.
Hint Resolve limitUsedFrames_ringIs : ringinv.

Lemma findFree_ringIs : keeps ringIs findFree.
Proof. unfold findFree. ring_tac. Qed.
Hint Resolve findFree_ringIs : ringinv.

Lemma lockFrameForDisplay_ringIs i : keeps ringIs (lockFrameForDisplay i).
Proof. unfold lockFrameForDisplay. ring_tac. Qed.
Hint Resolve lockFrameForDisplay_ringIs : ringinv.

Lemma unlockFrameForDisplay_ringIs i : keeps ringIs (unlockFrameForDisplay i).
Proof. unfold unlockFrameForDisplay. ring_tac. Qed.
Hint Resolve unlockFrameForDisplay_ringIs : ringinv.

Lemma doReleaseFrame_ringIs i : keeps ringIs (doReleaseFrame i).
Proof. unfold doReleaseFrame. ring_tac. Qed.
Hint Resolve doReleaseFrame_ringIs : ringinv.

Lemma forEachWork_ringIs body items :
  (forall w, keeps ringIs (body w)) -> keeps ringIs (forEachWork body items).
Proof. intros Hb. induction items as [ | w rest IH ]; simpl; ring_tac. Qed.

Lemma onUnlockedPoolFrame_ringIs act w :
  (forall i, keeps ringIs (act i)) -> keeps ringIs (onUnlockedPoolFrame act w).
Proof. intros Ha. unfold onUnlockedPoolFrame. ring_tac. Qed.

Lemma doInvalidateFrames_ringIs : keeps ringIs doInvalidateFrames.
Proof.
  unfold doInvalidateFrames. ring_tac.
  apply forEachWork_ringIs. intros w. apply onUnlockedPoolFrame_ringIs. intros i.
  apply updFrame_ringIs.
Qed.
Hint Resolve doInvalidateFrames_ringIs : ringinv.

Lemma doFlush_loop_ringIs fuel fi mc sc : keeps ringIs (doFlush_loop fuel fi mc sc).
Proof.
  induction fuel as [ | n IH ]; intros s a s' HQ H; cbn [doFlush_loop] in H.
  - destruct (doFlush_continue fi mc sc s); [ discriminate | ].
    injection H as _ <-. exact HQ.
  - destruct (doFlush_continue fi mc sc s); [ | injection H as _ <-; exact HQ ].
    destruct (mpWorker s) as [ w | ]; [ | discriminate ].
    revert s a s' HQ H. change (keeps ringIs (signalWork w >> doFlush_loop n fi mc sc)).
    ring_tac.
Qed.
Hint Resolve doFlush_loop_ringIs : ringinv.

Lemma doFlush_ringIs fuel fi tn : keeps ringIs (doFlush fuel fi tn).
Proof. unfold doFlush. ring_tac. Qed.
Hint Resolve doFlush_ringIs : ringinv.

Lemma liftFrame_ringIs {A} i (op : Frame -> Result (A * Frame)) : keeps ringIs (liftFrame i op).
Proof.
  intros s a s' HQ H. apply liftFrame_inv in H.
  destruct H as (f & f' & _ & _ & ->). exact HQ.
Qed.
Hint Resolve liftFrame_ringIs : ringinv.

Lemma doConsumeFrame_ringIs b i : keeps ringIs (doConsumeFrame b i).
Proof. unfold doConsumeFrame, backend_consumeFrame. ring_tac. Qed.
Hint Resolve doConsumeFrame_ringIs : ringinv.

Lemma doConsumeFrame_lock_ringIs i : keeps ringIs (doConsumeFrame_lock i).
Proof. unfold doConsumeFrame_lock. ring_tac. Qed.
Hint Resolve doConsumeFrame_lock_ringIs : ringinv.

Lemma doConsumeFrame_resync_ringIs i : keeps ringIs (doConsumeFrame_resync i).
Proof. unfold doConsumeFrame_resync. ring_tac. Qed.
Hint Resolve doConsumeFrame_resync_ringIs : ringinv.

Lemma doConsumeFrame_dequeue_ringIs j : keeps ringIs (doConsumeFrame_dequeue j).
Proof. unfold doConsumeFrame_dequeue. ring_tac. Qed.
Hint Resolve doConsumeFrame_dequeue_ringIs : ringinv.

Lemma doConsumeFrame_end_ringIs eff : keeps ringIs (doConsumeFrame_end eff).
Proof. unfold doConsumeFrame_end. ring_tac. Qed.
Hint Resolve doConsumeFrame_end_ringIs : ringinv.

Lemma doConsumeEvent_begin_ringIs e : keeps ringIs (doConsumeEvent_begin e).
Proof. unfold doConsumeEvent_begin. ring_tac. Qed.
Hint Resolve doConsumeEvent_begin_ringIs : ringinv.

(** The operations that leave the events of the ring alone. *)
Definition leavesEvents (op : Op) : bool :=
  match op with
  | OpQueueEvent _ | OpQueueDrop _ | OpConsumeWork _ => false
  | _ => true
  end.

Lemma run_op_ringIs fuel op : leavesEvents op = true -> keeps ringIs (run_op fuel op).
Proof.
  intros Hop. destruct op; try discriminate Hop; cbn [run_op]; unfold returning.
  - unfold init. ring_tac.
  - unfold queueFrame. ring_tac.
  - unfold dropAllFrames. ring_tac.
    apply forEachWork_ringIs. intros w. apply onUnlockedPoolFrame_ringIs. intros i.
    apply dropFrame_ringIs.
  - unfold dropRedundantFrames. ring_tac.
  - unfold flush. ring_tac.
  - unfold consumerBlocked. ring_tac.
  - unfold consumerUnblocked. ring_tac.
  - unfold notifyReady. ring_tac.
  - unfold releaseFrame. ring_tac.
Qed.

(** consumeWork when the computations on the head event keep [Q]. *)
Lemma doConsumeWork_ringIs b :
  (forall e, keeps ringIs (doConsumeEvent e)) -> keeps ringIs (doConsumeWork b).
Proof. intros He. unfold doConsumeWork. ring_tac. Qed.

Lemma consumer_step_ringIs c :
  keeps ringIs doConsumeEvent_end -> keeps ringIs (consumer_step c).
Proof. intros He. destruct c; cbn [consumer_step]; ring_tac. Qed.

End RingInvariant.

(** ** The effective frame of a queued event *)

(** The ids of the events in the ring, in ring order. *)
Definition eventIds (ring : list WorkItem) : list Z := map mId (ring_events ring).

(** What a completed queueEvent did. *)
Lemma queueEvent_inv pEvent s r s' :
  queueEvent pEvent s = Ok (r, s') ->
  r = OK
  /\ evLinked pEvent = false
  /\ mpWorkQueue s'
     = mpWorkQueue s ++ [WEvent (mkEvent (mId pEvent) (mLastQueuedFrame s) true)]
  /\ maFrames s' = maFrames s
  /\ mLastQueuedFrame s' = mLastQueuedFrame s
  /\ mLastIssuedFrame s' = mLastIssuedFrame s.
Proof.
  intros H.
  unfold queueEvent, doQueueWork, WorkItem_queue, isQueued, getEffectiveFrame,
    startWorker, signalWork in H.
  minv_all; use_ro; dq_simpl.
  all: cbn [isFrameItem] in *; try discriminate.
  all: split_and!; try reflexivity.
  all: apply negb_true_iff; assumption.
Qed.

(** What a completed doConsumeEvent did with the event at the head. *)
Lemma doConsumeEvent_inv pEvent rest s u s' :
  mpWorkQueue s = WEvent pEvent :: rest ->
  doConsumeEvent pEvent s = Ok (u, s') ->
  mLastIssuedFrame s' = evEffectiveFrame pEvent
  /\ mpWorkQueue s' = rest
  /\ mLog s' = mLog s ++ [BackendConsumeEvent (mId pEvent);
                          NotifyWorkConsumed;
                          DeleteEvent (mId pEvent)].
Proof.
  intros Hring H.
  unfold doConsumeEvent, WorkItem_dequeue, isQueued, doAdvanceIssuedFrame in H.
  minv_all; use_ro; dq_simpl.
  rewrite Hring. cbn [ring_remove WorkItem_eqb]. rewrite Event_eqb_refl.
  split_and!; try reflexivity.
  rewrite <- !app_assoc. reflexivity.
Qed.

(** What a completed doConsumeEvent_end did: the event at the head goes, with
    the effective frame it has now. *)
Lemma doConsumeEvent_end_inv s u s' :
  doConsumeEvent_end s = Ok (u, s') ->
  exists pEvent rest,
    mpWorkQueue s = WEvent pEvent :: rest
    /\ mLastIssuedFrame s' = evEffectiveFrame pEvent
    /\ mpWorkQueue s' = rest
    /\ mLog s' = mLog s ++ [NotifyWorkConsumed; DeleteEvent (mId pEvent)].
Proof.
  intros H. unfold doConsumeEvent_end in H.
  apply bind_inv in H. destruct H as (u0 & s0 & Hv & H).
  apply doValidateQueue_ro in Hv. unfold whole in Hv. subst s0.
  apply bind_inv in H. destruct H as (qw & s0 & Hg & H).
  apply gets_inv in Hg. destruct Hg as [-> ->].
  apply bind_inv in H. destruct H as (u1 & s0 & Ha & H).
  apply HWCASSERT_inv in Ha. destruct Ha as [Ha ->].
  apply bind_inv in H. destruct H as (ring & s0 & Hg & H).
  apply gets_inv in Hg. destruct Hg as [-> ->].
  destruct (mpWorkQueue s) as [ | [ i | pEvent ] rest ] eqn:Hring;
    try (apply HWCASSERT_inv in H; destruct H as [H _]; discriminate H).
  exists pEvent, rest. split; [ reflexivity | ].
  unfold WorkItem_dequeue, isQueued, doAdvanceIssuedFrame in H.
  minv_all; use_ro; dq_simpl.
  rewrite Hring. cbn [ring_remove WorkItem_eqb]. rewrite Event_eqb_refl.
  split_and!; try reflexivity.
  rewrite <- !app_assoc. reflexivity.
Qed.

(** What a completed queueDrop did to the ring: nothing, or the event at
    the tail has the dropped id as its effective frame. *)
Lemma queueDrop_ring id s u s' :
  queueDrop id s = Ok (u, s') ->
  mpWorkQueue s' = mpWorkQueue s
  \/ exists e, last (mpWorkQueue s) = Some (WEvent e)
       /\ mpWorkQueue s'
          = removelast (mpWorkQueue s) ++ [WEvent (Event_withEffective id e)].
Proof.
  intros H. unfold queueDrop, doAdvanceIssuedFrame, updFrame, setFrame in H.
  minv_all; use_ro; dq_simpl.
  all: try (left; reflexivity).
  right. eexists. split; reflexivity.
Qed.

Lemma elem_of_ring_remove w x ring : w ∈ ring_remove x ring -> w ∈ ring.
Proof.
  induction ring as [ | y rest IH ]; cbn [ring_remove]; [ tauto | ].
  destruct (WorkItem_eqb x y).
  - intros H. apply elem_of_cons. right. exact H.
  - intros H. apply elem_of_cons in H. apply elem_of_cons. destruct H as [ -> | H ]; auto.
Qed.

(** Every event of the ring with the id [id] has an effective frame in [V]. *)
Definition effectiveIn (id : Z) (V : FrameId -> Prop) (ring : list WorkItem) : Prop :=
  forall ev, WEvent ev ∈ ring -> mId ev = id -> V (evEffectiveFrame ev).

Lemma effectiveIn_mono id (V V' : FrameId -> Prop) ring :
  (forall x, V x -> V' x) -> effectiveIn id V ring -> effectiveIn id V' ring.
Proof. intros HV H ev Hev Hid. apply HV. exact (H ev Hev Hid). Qed.

Lemma effectiveIn_link_frame id V ring i :
  effectiveIn id V ring -> effectiveIn id V (ring ++ [WFrame i]).
Proof.
  intros H ev Hev Hid. apply elem_of_app in Hev. destruct Hev as [ Hev | Hev ].
  - exact (H ev Hev Hid).
  - apply list_elem_of_singleton in Hev. discriminate Hev.
Qed.

Lemma effectiveIn_unlink id V ring w :
  effectiveIn id V ring -> effectiveIn id V (ring_remove w ring).
Proof. intros H ev Hev Hid. apply elem_of_ring_remove in Hev. exact (H ev Hev Hid). Qed.

Lemma effectiveIn_new id ring q :
  id ∉ eventIds ring ->
  effectiveIn id (fun x => x = q) (ring ++ [WEvent (mkEvent id q true)]).
Proof.
  intros Hnew ev Hev Hid. apply elem_of_app in Hev. destruct Hev as [ Hev | Hev ].
  - exfalso. apply Hnew. unfold eventIds. apply list_elem_of_fmap.
    exists ev. split; [ symmetry; exact Hid | ].
    unfold ring_events. apply list_elem_of_omap. exists (WEvent ev). split; [ exact Hev | reflexivity ].
  - apply list_elem_of_singleton in Hev. injection Hev as ->. reflexivity.
Qed.

Ltac effectiveIn_sides :=
  try (let h := fresh in
       intros ? ? h; first [ apply effectiveIn_link_frame | apply effectiveIn_unlink ];
       exact h).

Lemma WorkItem_dequeue_effectiveIn id V w :
  keeps (ringIs (effectiveIn id V)) (WorkItem_dequeue w).
Proof.
  destruct w as [ i | e ].
  - apply WorkItem_dequeue_frame_ringIs; effectiveIn_sides.
  - intros s a s' HQ H. unfold WorkItem_dequeue, isQueued in H. minv_all.
    unfold ringIs in *. dq_simpl. apply effectiveIn_unlink. exact HQ.
Qed.

Lemma doConsumeEvent_effectiveIn id V e :
  keeps (ringIs (effectiveIn id V)) (doConsumeEvent e).
Proof.
  pose proof (WorkItem_dequeue_effectiveIn id V (WEvent e)) as Hd.
  assert (Hv : keeps (ringIs (effectiveIn id V)) doValidateQueue)
    by (apply doValidateQueue_ringIs; effectiveIn_sides).
  assert (Ha : forall x, keeps (ringIs (effectiveIn id V)) (doAdvanceIssuedFrame x))
    by (intros x; apply doAdvanceIssuedFrame_ringIs; effectiveIn_sides).
  unfold doConsumeEvent. ring_tac.
Qed.

Lemma doConsumeEvent_end_effectiveIn id V :
  keeps (ringIs (effectiveIn id V)) doConsumeEvent_end.
Proof.
  pose proof (WorkItem_dequeue_effectiveIn id V) as Hd.
  assert (Hv : keeps (ringIs (effectiveIn id V)) doValidateQueue)
    by (apply doValidateQueue_ringIs; effectiveIn_sides).
  assert (Ha : forall x, keeps (ringIs (effectiveIn id V)) (doAdvanceIssuedFrame x))
    by (intros x; apply doAdvanceIssuedFrame_ringIs; effectiveIn_sides).
  unfold doConsumeEvent_end. ring_tac.
Qed.

(** The step is queueEvent of an event with the id [id]. *)
Definition queuesEvent (id : Z) (st : Step) : bool :=
  match st with
  | SOther (OpQueueEvent id') => id' =? id
  | _ => false
  end.

(** The id a step drops through queueDrop. *)
Definition dropOf (st : Step) : option FrameId :=
  match st with
  | SOther (OpQueueDrop d) => Some d
  | _ => None
  end.

(** The ids dropped through queueDrop by the steps, in their order. *)
Definition dropIds (steps : list Step) : list FrameId := omap dropOf steps.

Lemma run_step_effectiveIn fuel id (V : FrameId -> Prop) st c s c' s' :
  queuesEvent id st = false ->
  effectiveIn id V (mpWorkQueue s) ->
  run_step fuel st (c, s) = Ok (c', s') ->
  effectiveIn id (fun x => V x \/ dropOf st = Some x) (mpWorkQueue s').
Proof.
  intros Hq HV H.
  assert (Hkeep : forall A (m : M A) (a : A),
            keeps (ringIs (effectiveIn id V)) m -> m s = Ok (a, s') ->
            effectiveIn id (fun x => V x \/ dropOf st = Some x) (mpWorkQueue s')).
  { intros A m a K Hm. apply (effectiveIn_mono id V); [ intros x Hx; left; exact Hx | ].
    exact (K s a s' HV Hm). }
  destruct st as [ op | ]; cbn [run_step fst snd] in H.
  - destruct (run_op fuel op s) as [[r s1] | | ] eqn:Hop; try discriminate.
    injection H as <- <-.
    destruct (leavesEvents op) eqn:Hl.
    + apply (Hkeep _ (run_op fuel op) r); [ | exact Hop ].
      apply run_op_ringIs; effectiveIn_sides. exact Hl.
    + destruct op; try discriminate Hl; cbn [run_op] in Hop; unfold returning in Hop.
      * (* queueEvent of another event *)
        apply bind_inv in Hop. destruct Hop as (z & s2 & Hop & Hr).
        apply ret_inv in Hr. destruct Hr as [_ ->].
        apply queueEvent_inv in Hop. destruct Hop as (_ & _ & Hring & _).
        cbn [queuesEvent] in Hq. apply Z.eqb_neq in Hq.
        intros ev Hev Hid. left. rewrite Hring in Hev.
        apply elem_of_app in Hev. destruct Hev as [ Hev | Hev ].
        -- exact (HV ev Hev Hid).
        -- apply list_elem_of_singleton in Hev. injection Hev as ->.
           cbn in Hid. contradiction.
      * (* queueDrop *)
        apply bind_inv in Hop. destruct Hop as (z & s2 & Hop & Hr).
        apply ret_inv in Hr. destruct Hr as [_ ->].
        apply queueDrop_ring in Hop. destruct Hop as [ Hring | (e & Hlast & Hring) ].
        -- rewrite Hring. intros ev Hev Hid. left. exact (HV ev Hev Hid).
        -- rewrite Hring. intros ev Hev Hid.
           apply elem_of_app in Hev. destruct Hev as [ Hev | Hev ].
           ++ left. apply (HV ev); [ | exact Hid ].
              rewrite (last_snoc_inv _ _ Hlast). apply elem_of_app. left. exact Hev.
           ++ right. apply list_elem_of_singleton in Hev. injection Hev as ->.
              reflexivity.
      * (* consumeWork *)
        apply bind_inv in Hop. destruct Hop as (z & s2 & Hop & Hr).
        apply ret_inv in Hr. destruct Hr as [_ ->].
        apply (Hkeep _ (doConsumeWork bFlipOk) z); [ | exact Hop ].
        apply doConsumeWork_ringIs; effectiveIn_sides.
        intros e. apply doConsumeEvent_effectiveIn.
  - apply (Hkeep _ (consumer_step c) c'); [ | exact H ].
    apply consumer_step_ringIs; effectiveIn_sides.
    apply doConsumeEvent_end_effectiveIn.
Qed.

Lemma dropIds_cons st steps x :
  dropOf st = Some x \/ x ∈ dropIds steps -> x ∈ dropIds (st :: steps).
Proof.
  unfold dropIds. cbn [omap list_omap]. intros [ E | H ].
  - rewrite E. apply elem_of_cons. left. reflexivity.
  - destruct (dropOf st); [ apply elem_of_cons; right; exact H | exact H ].
Qed.

(** Along a run that queues no event with the id [id], the events with this
    id keep an effective frame of [V] or get one dropped by the run. *)
Lemma run_steps_effectiveIn fuel id steps : forall (V : FrameId -> Prop) c s,
  forallb (fun st => negb (queuesEvent id st)) steps = true ->
  effectiveIn id V (mpWorkQueue s) ->
  Forall (fun cs => effectiveIn id (fun x => V x \/ x ∈ dropIds steps) (mpWorkQueue (snd cs)))
         (run_steps fuel steps (c, s)).
Proof.
  induction steps as [ | st rest IH ]; intros V c s Hq HV; cbn [run_steps]; [ constructor | ].
  cbn [forallb] in Hq. apply andb_true_iff in Hq. destruct Hq as [Hq Hrest].
  apply negb_true_iff in Hq.
  destruct (oneConsumer st (fst (c, s))); [ | constructor ].
  destruct (run_step fuel st (c, s)) as [[c1 s1] | | ] eqn:Hst; try constructor.
  - cbn [snd]. eapply effectiveIn_mono;
      [ | exact (run_step_effectiveIn fuel id V st c s c1 s1 Hq HV Hst) ].
    intros x [ Hx | Hx ]; [ left; exact Hx | right; apply dropIds_cons; left; exact Hx ].
  - eapply Forall_impl;
      [ exact (IH _ c1 s1 Hrest (run_step_effectiveIn fuel id V st c s c1 s1 Hq HV Hst)) | ].
    intros cs Hcs. cbv beta in Hcs. eapply effectiveIn_mono; [ | exact Hcs ].
    intros x [ [ Hx | Hx ] | Hx ].
    + left. exact Hx.
    + right. apply dropIds_cons. left. exact Hx.
    + right. apply dropIds_cons. right. exact Hx.
Qed.

(** ** The event the backend works on stays the head *)

(** The head of the ring is an event with the id [id]. *)
Definition headEvent (id : Z) (ring : list WorkItem) : Prop :=
  exists ev rest, ring = WEvent ev :: rest /\ mId ev = id.

Lemma headEvent_link id ring w : headEvent id ring -> headEvent id (ring ++ [w]).
Proof. intros (ev & rest & -> & Hid). exists ev, (rest ++ [w]). split; [ reflexivity | exact Hid ]. Qed.

Lemma headEvent_unlink_frame id ring i :
  headEvent id ring -> headEvent id (ring_remove (WFrame i) ring).
Proof.
  intros (ev & rest & -> & Hid). cbn [ring_remove WorkItem_eqb].
  exists ev, (ring_remove (WFrame i) rest). split; [ reflexivity | exact Hid ].
Qed.

(** While the worker is in the backend's consumeWork( pEvent ), no operation
    of another thread takes pEvent from the head of the ring: frames are
    dropped, items are linked at the tail, and queueDrop rewrites the
    effective frame of the tail, which is pEvent when it is alone.  This is
    why [doConsumeEvent_end] finds pEvent at the head. *)
Lemma head_event_stays fuel op x s r s' :
  (forall bFlipOk, op <> OpConsumeWork bFlipOk) ->
  headEvent x (mpWorkQueue s) ->
  run_op fuel op s = Ok (r, s') ->
  headEvent x (mpWorkQueue s').
Proof.
  intros Hop Hh H. destruct (leavesEvents op) eqn:Hl.
  - revert H. apply (run_op_ringIs (headEvent x)); try assumption.
    + intros ring i. apply headEvent_link.
    + intros ring i. apply headEvent_unlink_frame.
  - destruct op; try discriminate Hl; cbn [run_op] in H; unfold returning in H.
    + apply bind_inv in H. destruct H as (z & s2 & H & Hr).
      apply ret_inv in Hr. destruct Hr as [_ ->].
      apply queueEvent_inv in H. destruct H as (_ & _ & -> & _).
      apply headEvent_link. exact Hh.
    + apply bind_inv in H. destruct H as (z & s2 & H & Hr).
      apply ret_inv in Hr. destruct Hr as [_ ->].
      apply queueDrop_ring in H. destruct H as [ -> | (e & Hlast & ->) ]; [ exact Hh | ].
      destruct Hh as (ev & rest & Hring & Hid). rewrite Hring in *.
      destruct rest as [ | w rest ].
      * cbn in Hlast. injection Hlast as <-.
        exists (Event_withEffective id ev), []. split; [ reflexivity | exact Hid ].
      * exists ev, (removelast (w :: rest) ++ [WEvent (Event_withEffective id e)]).
        split; [ reflexivity | exact Hid ].
    + exfalso. exact (Hop bFlipOk eq_refl).
Qed.


(** * The properties of the specification *)

(** ** Concrete queues used as examples *)

(** A visible layer with a buffer whose rendering is complete. *)
Definition exLayer : Layer := mkLayer false 1 true (Some 7) 5 true true true.

(** A visible layer whose rendering is still going on. *)
Definition exLayerBusy : Layer := mkLayer false 1 true (Some 8) 6 true true false.

(** A queue with a pool of four frames. *)
Definition exQueue : DisplayQueue := DisplayQueue_new 4 3 0.

(** The state a completed computation leaves; the initial state otherwise. *)
Definition stateAfter {A} (m : M A) (s : DisplayQueue) : DisplayQueue :=
  match m s with
  | Ok (_, s') => s'
  | _ => s
  end.

Definition afterOps (ops : list Op) (s : DisplayQueue) : DisplayQueue :=
  fold_left (fun st op => stateAfter (run_op 0 op) st) ops s.

(** One frame queued. *)
Definition exQueue1 : DisplayQueue :=
  afterOps [OpQueueFrame true [exLayer] 0 (mkFrameId 1 1) 0] exQueue.

(** One frame and one event queued. *)
Definition exQueueFE : DisplayQueue :=
  afterOps [OpQueueFrame true [exLayer] 0 (mkFrameId 1 1) 0; OpQueueEvent 42] exQueue.

(** ** C2: the issued frame never moves backwards *)

(** C2.  For every sequence of public operations, every operation that
    completes leaves lastIssuedFrame at a FrameId that is not behind the one
    before it, in the order of signed 32-bit subtraction: the values of
    lastIssuedFrame along the run form a chain of that order. *)
Theorem lastIssuedFrame_never_decreases (fuel : nat) (ops : list Op) (s : DisplayQueue) :
  Sorted FrameId_le (map mLastIssuedFrame (s :: run_ops fuel ops s)).
Proof.
  revert s. induction ops as [ | op rest IH ]; intros s.
  - simpl. repeat constructor.
  - simpl. destruct (run_op fuel op s) as [[r s1] | | ] eqn:E.
    + specialize (IH s1). simpl in IH. constructor.
      * exact IH.
      * constructor. exact (run_op_advances fuel op s r s1 E).
    + simpl. repeat constructor.
    + simpl. repeat constructor.
Qed.

(** ** C3: queueDrop *)

(** C3.  queueDrop( id ) with id not behind lastQueuedFrame: on an empty
    ring lastIssuedFrame becomes id and workConsumed is signalled; on a
    non-empty ring the effective frame of the tail item becomes id and
    lastIssuedFrame stays; in both cases lastQueuedFrame becomes id and the
    ring holds as many items as before. *)
Theorem queueDrop_coalesces (id : FrameId) (s s' : DisplayQueue) :
  futureFrame (mLastQueuedFrame s) id = true ->
  queueDrop id s = Ok (tt, s') ->
  mLastQueuedFrame s' = id
  /\ length (mpWorkQueue s') = length (mpWorkQueue s)
  /\ mQueuedWork s' = mQueuedWork s
  /\ mQueuedFrames s' = mQueuedFrames s
  /\ (mpWorkQueue s = [] ->
        mpWorkQueue s' = []
        /\ mLastIssuedFrame s' = id
        /\ mLog s' = mLog s ++ [NotifyWorkConsumed])
  /\ (forall pLastItem, last (mpWorkQueue s) = Some pLastItem ->
        mLastIssuedFrame s' = mLastIssuedFrame s
        /\ mLog s' = mLog s
        /\ removelast (mpWorkQueue s') = removelast (mpWorkQueue s)
        /\ exists w, last (mpWorkQueue s') = Some w
                     /\ getWorkItemType w = getWorkItemType pLastItem
                     /\ itemEffective s' w = Some id).
Proof.
  intros Hval H. unfold queueDrop, updFrame, setFrame, doAdvanceIssuedFrame in H.
  minv_all; use_ro; simpl.
  - (* the tail is a frame *)
    split_and!; try reflexivity.
    + intros E. rewrite E in Heqo. discriminate.
    + intros p Hp. injection Hp as <-.
      split_and!; try reflexivity.
      exists (WFrame f). split_and!; [ assumption | reflexivity | ].
      simpl. rewrite list_lookup_insert_eq by (eapply lookup_lt_Some; eassumption).
      reflexivity.
  - (* the tail is an event *)
    apply last_Some in Heqo. destruct Heqo as [l' El]. rewrite El.
    rewrite removelast_last.
    split_and!; try reflexivity.
    + rewrite !length_app. reflexivity.
    + intros E. destruct l'; discriminate.
    + intros p Hp. injection Hp as <-.
      split_and!; try reflexivity.
      * rewrite removelast_last. reflexivity.
      * exists (WEvent (Event_withEffective id e)). rewrite last_snoc.
        split_and!; reflexivity.
  - (* the ring is empty *)
    apply last_None in Heqo.
    split_and!; try reflexivity.
    + intros _. split_and!; [ assumption | reflexivity | reflexivity ].
    + intros p Hp. discriminate Hp.
Qed.

(** ** C10: a failed queueFrame leaves lastQueuedFrame alone *)

(** C10.  When queueFrame returns an error, be it for want of a free frame
    or because Frame::set failed, lastQueuedFrame is what it was before the
    call. *)
Theorem queueFrame_error_keeps_lastQueued
    (bAlloc : bool) (stack : list Layer) (zorder : Z) (id : FrameId) (config : Z)
    (s : DisplayQueue) (r : Z) (s' : DisplayQueue) :
  queueFrame bAlloc stack zorder id config s = Ok (r, s') ->
  r <> OK ->
  mLastQueuedFrame s' = mLastQueuedFrame s.
Proof.
  intros H Hr. unfold queueFrame in H.
  minv_all; try congruence; use_pres mLastQueuedFrame; simpl in *; congruence.
Qed.

(** ** C4: dropRedundantFrames *)

(** C4.  On a well-formed ring doDropRedundantFrames completes and leaves
    the ring that the walk of the specification describes: from the tail
    backwards, with newerComplete seeded from the tail, a frame is dropped
    when newerComplete holds unless it is locked for display, any other
    frame sets newerComplete to its own isRenderingComplete, the walk ends
    with the head, and events are never removed.  The counters go down by
    the number of frames dropped. *)
Theorem doDropRedundantFrames_follows_spec (s : DisplayQueue) :
  RingOk s ->
  exists s',
    doDropRedundantFrames s = Ok (tt, s')
    /\ mpWorkQueue s' = spec_dropRedundantFrames (maFrames s) (mpWorkQueue s)
    /\ ring_events (mpWorkQueue s') = ring_events (mpWorkQueue s)
    /\ countersFollow s s'
    /\ RingOk s'.
Proof.
  intros Hok.
  assert (Hgoal : exists s',
    doDropRedundantFrames s = Ok (tt, s')
    /\ mpWorkQueue s' = spec_dropRedundantFrames (maFrames s) (mpWorkQueue s)
    /\ countersFollow s s' /\ RingOk s').
  { rewrite doDropRedundantFrames_unfold. unfold spec_dropRedundantFrames.
    destruct (rev (mpWorkQueue s)) as [ | pNewer earlier ] eqn:E.
    - apply (f_equal (@rev WorkItem)) in E. rewrite rev_involutive in E.
      exists s. split_and!; [ reflexivity | exact E | apply countersFollow_refl | exact Hok ].
    - apply (f_equal (@rev WorkItem)) in E. rewrite rev_involutive in E. cbn [rev] in E.
      destruct earlier as [ | pCurrent rest ].
      + exists s. split_and!; [ reflexivity | exact E | apply countersFollow_refl | exact Hok ].
      + destruct (dropRedundant_loop_ok (pCurrent :: rest)
                    (spec_tailComplete (maFrames s) pNewer) s [pNewer] Hok E)
          as (s' & Hrun & Hr & Hok' & Hc).
        exists s'. split_and!; [ | exact Hr | exact Hc | exact Hok' ].
        destruct pNewer as [ i | e ]; cbn [newerComplete_seed spec_tailComplete] in *.
        * destruct (RingOk_frame _ _ _ _ Hok E) as (Hlook & _ & _).
          rewrite bind_assoc. run_getFrame Hlook. exact Hrun.
        * mrun. exact Hrun. }
  destruct Hgoal as (s' & Hrun & Hr & Hc & Hok').
  exists s'. split_and!; try assumption.
  rewrite Hr. apply spec_dropRedundantFrames_events.
Qed.

(** A frame that is still rendering followed by a frame that is complete. *)
Definition exQueueBusyDone : DisplayQueue :=
  afterOps [OpQueueFrame true [exLayerBusy] 0 (mkFrameId 1 1) 0;
            OpQueueFrame true [exLayer] 0 (mkFrameId 2 2) 0] exQueue.

Lemma doDropRedundantFrames_follows_spec_witness :
  exists s',
    doDropRedundantFrames exQueueBusyDone = Ok (tt, s')
    /\ mpWorkQueue s'
       = spec_dropRedundantFrames (maFrames exQueueBusyDone) (mpWorkQueue exQueueBusyDone)
    /\ ring_events (mpWorkQueue s') = ring_events (mpWorkQueue exQueueBusyDone)
    /\ countersFollow exQueueBusyDone s'
    /\ RingOk s'.
Proof.
  apply (doDropRedundantFrames_follows_spec exQueueBusyDone).
  apply (bool_decide_unpack _). vm_compute. exact I.
Defined.

(** The older frame goes, the newer one stays. *)
Example dropRedundantFrames_example :
  mpWorkQueue exQueueBusyDone = [WFrame 0; WFrame 1]
  /\ mpWorkQueue (stateAfter dropRedundantFrames exQueueBusyDone) = [WFrame 1].
Proof. split; vm_compute; reflexivity. Qed.

(** ** C5: findFree *)

(** C5.  On a well-formed queue findFree completes.  It returns nil exactly
    when every pool frame is locked for display.  If some pool frame is
    neither queued nor locked for display it returns such a frame and
    changes nothing.  Otherwise it returns a queued frame that is not
    locked, drops it from the ring, and that frame is not newer, by its
    timeline index under signed 32-bit subtraction, than any queued
    unlocked frame, as long as the timeline indices of these frames are
    ahead of a common base, which is what makes the order of signed
    subtraction an order on them. *)
Theorem findFree_spec (s : DisplayQueue) :
  RingOk s ->
  exists r s',
    findFree s = Ok (r, s')
    /\ (r = None <->
        forall i f, maFrames s !! i = Some f -> mbLockedForDisplay f = true)
    /\ ((exists i f, maFrames s !! i = Some f /\ unusedFrame f) ->
        exists i f, r = Some i /\ maFrames s !! i = Some f /\ unusedFrame f /\ s' = s)
    /\ ((forall i f, maFrames s !! i = Some f -> ~ unusedFrame f) ->
        forall i, r = Some i ->
          exists f, maFrames s !! i = Some f
            /\ candidateFrame f
            /\ s' = dropFrame_state i f s
            /\ (WFrame i ∉ mpWorkQueue s')
            /\ forall base,
                 (forall j g, maFrames s !! j = Some g -> candidateFrame g -> aheadOf base g) ->
                 forall j g, maFrames s !! j = Some g -> candidateFrame g -> notNewer f g).
Proof.
  intros Hok. rewrite findFree_unfold.
  destruct (findFree_scan (maFrames s) 0 None) as [ k | [ [o fo] | ] ] eqn:Hscan.
  - (* an unused frame *)
    apply findFree_scan_inl in Hscan. destruct Hscan as (n & fr & -> & Hn & Hu).
    exists (Some (0 + n)%nat), s. split_and!; [ reflexivity | | | ].
    + split; [ discriminate | ]. intros Hall. specialize (Hall n fr Hn).
      destruct Hu as [Hu _]. congruence.
    + intros _. exists n, fr. split_and!; try assumption; reflexivity.
    + intros Hnone. exfalso. exact (Hnone n fr Hn Hu).
  - (* the oldest queued frame *)
    apply findFree_scan_inr in Hscan. destruct Hscan as (Hnu & Hnone & Hsome).
    destruct (Hsome o fo eq_refl) as [Hfrom Hbase].
    destruct Hfrom as [ Hp | (n & -> & Hn & Hc) ]; [ discriminate | ].
    cbn [Nat.add] in *. destruct Hc as [Hunl Hlinked].
    destruct (RingOk_linked _ _ _ Hok Hn Hlinked) as (r1 & r2 & Hring).
    pose proof (frameAt_lookup _ _ _ Hn) as Efr.
    assert (Hunl' : mbLockedForDisplay (frameAt s n) = false) by (rewrite Efr; exact Hunl).
    destruct (dropFrame_ok _ _ _ _ Hok Hring Hunl') as (Hrun & Hr1 & Hok1 & Hc1).
    destruct (RingOk_frame _ _ _ _ Hok Hring) as (_ & Hi1 & Hi2).
    rewrite Efr in Hrun, Hr1.
    exists (Some n), (dropFrame_state n fo s). split_and!.
    + run_with Hrun. reflexivity.
    + split; [ discriminate | ]. intros Hall. specialize (Hall n fo Hn). congruence.
    + intros (i & f & Hf & Hu). exfalso. exact (Hnu i f Hf Hu).
    + intros _ i Ei. injection Ei as <-. exists fo.
      split_and!; [ exact Hn | split; assumption | reflexivity | | ].
      * rewrite Hr1. rewrite <- elem_of_frame_ids, frame_ids_app.
        intros Hin. apply elem_of_app in Hin. tauto.
      * intros base Hahead j g Hg Hcg.
        destruct (Hbase base) as [_ H2].
        -- intros po fp E. discriminate E.
        -- exact Hahead.
        -- exact (H2 j g Hg Hcg).
  - (* every frame is locked for display *)
    apply findFree_scan_inr in Hscan. destruct Hscan as (Hnu & Hnone & _).
    destruct (proj1 Hnone eq_refl) as [_ Hall].
    exists None, s. split_and!; [ reflexivity | | | ].
    + split; [ intros _; exact Hall | reflexivity ].
    + intros (i & f & Hf & Hu). exfalso. exact (Hnu i f Hf Hu).
    + intros _ i Ei. discriminate Ei.
Qed.

(** Four frames that are still rendering: the pool is used up. *)
Definition exQueueFull : DisplayQueue :=
  afterOps [OpQueueFrame true [exLayerBusy] 0 (mkFrameId 1 1) 0;
            OpQueueFrame true [exLayerBusy] 0 (mkFrameId 2 2) 0;
            OpQueueFrame true [exLayerBusy] 0 (mkFrameId 3 3) 0;
            OpQueueFrame true [exLayerBusy] 0 (mkFrameId 4 4) 0] exQueue.

Lemma findFree_spec_witness :
  exists r s',
    findFree exQueueFull = Ok (r, s')
    /\ (r = None <->
        forall i f, maFrames exQueueFull !! i = Some f -> mbLockedForDisplay f = true)
    /\ ((exists i f, maFrames exQueueFull !! i = Some f /\ unusedFrame f) ->
        exists i f, r = Some i /\ maFrames exQueueFull !! i = Some f /\ unusedFrame f
                    /\ s' = exQueueFull)
    /\ ((forall i f, maFrames exQueueFull !! i = Some f -> ~ unusedFrame f) ->
        forall i, r = Some i ->
          exists f, maFrames exQueueFull !! i = Some f
            /\ candidateFrame f
            /\ s' = dropFrame_state i f exQueueFull
            /\ (WFrame i ∉ mpWorkQueue s')
            /\ forall base,
                 (forall j g, maFrames exQueueFull !! j = Some g ->
                              candidateFrame g -> aheadOf base g) ->
                 forall j g, maFrames exQueueFull !! j = Some g ->
                             candidateFrame g -> notNewer f g).
Proof.
  apply (findFree_spec exQueueFull).
  apply (bool_decide_unpack _). vm_compute. exact I.
Defined.

(** With the pool used up findFree takes the frame queued first. *)
Example findFree_example :
  mpWorkQueue exQueueFull = [WFrame 0; WFrame 1; WFrame 2; WFrame 3]
  /\ mpWorkQueue (stateAfter findFree exQueueFull) = [WFrame 1; WFrame 2; WFrame 3]
  /\ (exists s', findFree exQueueFull = Ok (Some 0%nat, s')).
Proof.
  split_and!.
  - vm_compute. reflexivity.
  - vm_compute. reflexivity.
  - eexists. vm_compute. reflexivity.
Qed.

(** ** C7: the status queueFrame returns *)

(** C7, as the code has it.  queueFrame returns OK when the frame is set up
    and queued, and the one error code -ENOSYS on failure, both when
    findFree yields no frame and when Frame::set fails: the return value
    does not tell the two kinds of failure apart. *)
Theorem queueFrame_status
    (bAlloc : bool) (stack : list Layer) (zorder : Z) (id : FrameId) (config : Z)
    (s : DisplayQueue) (r : Z) (s' : DisplayQueue) :
  queueFrame bAlloc stack zorder id config s = Ok (r, s') ->
  (r = OK \/ r = - ENOSYS)
  /\ (r = OK ->
      mLastQueuedFrame s' = id
      /\ (exists i f, last (mpWorkQueue s') = Some (WFrame i)
                      /\ maFrames s' !! i = Some f
                      /\ mFrameId f = id /\ mEffectiveFrame f = id /\ mbLinked f = true)
      /\ (exists s1 s2 i f f',
            limitUsedFrames s = Ok (tt, s1)
            /\ findFree s1 = Ok (Some i, s2)
            /\ maFrames s2 !! i = Some f
            /\ Frame_set bAlloc stack zorder id config f = Ok (true, f')))
  /\ (r = - ENOSYS ->
      exists s1 s2 pNewFrame,
        limitUsedFrames s = Ok (tt, s1)
        /\ findFree s1 = Ok (pNewFrame, s2)
        /\ match pNewFrame with
           | None => s' = s2
           | Some i =>
               exists f f', maFrames s2 !! i = Some f
                 /\ Frame_set bAlloc stack zorder id config f = Ok (false, f')
           end).
Proof.
  intros H. unfold queueFrame in H.
  apply bind_inv in H. destruct H as (q & s0 & Hq & H).
  apply gets_inv in Hq. destruct Hq as [-> ->].
  apply bind_inv in H. destruct H as (u0 & s0 & Hv & H).
  apply validateFutureFrame_inv in Hv. destruct Hv as [Hv ->].
  apply bind_inv in H. destruct H as ([] & s1 & Hlimit & H).
  apply bind_inv in H. destruct H as (pNewFrame & s2 & Hfind & H).
  destruct pNewFrame as [ i | ].
  - apply bind_inv in H. destruct H as (f & s3 & Hf & H).
    apply getFrame_inv in Hf. destruct Hf as [Hf ->].
    apply bind_inv in H. destruct H as (u1 & s3 & Ht & H).
    apply HWCASSERT_inv in Ht. destruct Ht as [Ht ->].
    apply bind_inv in H. destruct H as (u2 & s3 & Hm & H).
    apply modify_inv in Hm. subst s3.
    apply bind_inv in H. destruct H as (used & s3 & Hg & H).
    apply gets_inv in Hg. destruct Hg as [-> ->].
    apply bind_inv in H. destruct H as (peak & s3 & Hg & H).
    apply gets_inv in Hg. destruct Hg as [-> ->].
    apply bind_inv in H. destruct H as (u3 & s4 & Hpeak & H).
    assert (Epool : maFrames s4 = maFrames s2).
    { destruct (_ <? _) in Hpeak; minv; reflexivity. }
    apply bind_inv in H. destruct H as (bSet & s5 & Hset & H).
    apply liftFrame_inv in Hset. destruct Hset as (f0 & f' & Hf0 & Hop & ->).
    rewrite Epool in Hf0.
    destruct bSet; cbn [negb] in H.
    + (* the frame is set up and queued *)
      apply bind_inv in H. destruct H as (u4 & s6 & Hupd & H).
      unfold updFrame, setFrame in Hupd.
      apply bind_inv in Hupd. destruct Hupd as (f1 & s7 & Hf1 & Hupd).
      apply getFrame_inv in Hf1. destruct Hf1 as [Hf1 ->].
      apply modify_inv in Hupd. subst s6.
      apply bind_inv in H. destruct H as (u5 & s6 & Hm & H).
      apply modify_inv in Hm. subst s6.
      apply bind_inv in H. destruct H as (u6 & s6 & Hqw & H).
      apply ret_inv in H. destruct H as [-> ->].
      apply doQueueWork_frame_inv in Hqw.
      destruct Hqw as (f2 & Hf2 & Hl2 & Hring & Hpool & Hlq & _).
      dq_simpl_all.
      assert (Hi : (i < length (maFrames s4))%nat).
      { rewrite Epool. eapply lookup_lt_Some. exact Hf. }
      rewrite list_lookup_insert_eq in Hf1 by exact Hi. injection Hf1 as <-.
      rewrite list_lookup_insert_eq in Hf2 by (rewrite length_insert; exact Hi).
      injection Hf2 as <-.
      split_and!.
      * left. reflexivity.
      * intros _. split_and!; [ exact Hlq | | ].
        -- exists i, (Frame_withLinked true (Frame_withEffective id f')).
           split_and!.
           ++ rewrite Hring. apply last_snoc.
           ++ rewrite Hpool. apply list_lookup_insert_eq.
              rewrite !length_insert. exact Hi.
           ++ cbn. apply Frame_set_fields in Hop. tauto.
           ++ reflexivity.
           ++ reflexivity.
        -- exists s1, s2, i, f0, f'. split_and!; assumption.
      * intros E. discriminate E.
    + minv. split_and!.
      * right. reflexivity.
      * intros E. discriminate E.
      * intros _. exists s1, s2, (Some i). split_and!; [ assumption | assumption | ].
        exists f0, f'. split; assumption.
  - minv. split_and!.
    + right. reflexivity.
    + intros E. discriminate E.
    + intros _. exists s1, s2, None. split_and!; [ assumption | assumption | reflexivity ].
Qed.

(** ** C8: events *)

(** C8, as the code has it.  queueEvent stores the value lastQueuedFrame has
    at enqueue time as the effective frame of the event and links the event
    at the tail of the ring.  Until the event is consumed, with the steps
    of other threads and the sections of consumeWork in any order, its
    effective frame is that value or the id of a queueDrop that was run
    since: queueDrop writes the dropped id into the item at the tail.  When
    the event is consumed, by the last section of doConsumeEvent or by a
    consumeWork run in one piece, lastIssuedFrame becomes the effective
    frame the event has then, the event is unlinked and the event object is
    deleted.  In a run without queueDrop this is the value lastQueuedFrame
    had at enqueue time, and the id of the frame before the event when a
    queueFrame that returned OK was the operation before the queueEvent,
    whatever is queued behind the event.  The event is told from other
    events by its id, which no event of the ring and no other queueEvent of
    the run has. *)
Theorem queueEvent_effectiveFrame (fuel : nat) (id : Z) (c : Consumer) (s : DisplayQueue)
    (steps : list Step) (c2 : Consumer) (s2 : DisplayQueue) (pEvent : Event)
    (rest : list WorkItem) :
  id ∉ eventIds (mpWorkQueue s) ->
  forallb (fun st => negb (queuesEvent id st)) steps = true ->
  last (run_steps fuel (SOther (OpQueueEvent id) :: steps) (c, s)) = Some (c2, s2) ->
  mpWorkQueue s2 = WEvent pEvent :: rest ->
  mId pEvent = id ->
  (exists s1,
     queueEvent (Event_new id) s = Ok (OK, s1)
     /\ mpWorkQueue s1
        = mpWorkQueue s ++ [WEvent (mkEvent id (mLastQueuedFrame s) true)])
  /\ (evEffectiveFrame pEvent = mLastQueuedFrame s
      \/ evEffectiveFrame pEvent ∈ dropIds steps)
  /\ (forall st cs3,
        (st = SWorker /\ c2 = CEvent)
        \/ (c2 = CIdle /\ exists bFlipOk, st = SOther (OpConsumeWork bFlipOk)) ->
        run_step fuel st (c2, s2) = Ok cs3 ->
        mLastIssuedFrame (snd cs3) = evEffectiveFrame pEvent
        /\ (dropIds steps = [] ->
            mLastIssuedFrame (snd cs3) = mLastQueuedFrame s
            /\ forall bAlloc stack zorder frameId config s0,
                 queueFrame bAlloc stack zorder frameId config s0 = Ok (OK, s) ->
                 mLastIssuedFrame (snd cs3) = frameId)
        /\ mpWorkQueue (snd cs3) = rest
        /\ exists pre, mLog (snd cs3) = mLog s2 ++ pre ++ [NotifyWorkConsumed; DeleteEvent id]).
Proof.
  intros Hnew Hq Hlast Hring Hid.
  cbn [run_steps oneConsumer run_step fst snd run_op] in Hlast. unfold returning in Hlast.
  unfold bind at 1 in Hlast.
  destruct (queueEvent (Event_new id) s) as [[r s1] | | ] eqn:Hqe; try discriminate Hlast.
  cbn [ret] in Hlast.
  destruct (queueEvent_inv _ _ _ _ Hqe) as (-> & _ & Hring1 & _). cbn [Event_new mId] in Hring1.
  assert (HV1 : effectiveIn id (fun x => x = mLastQueuedFrame s) (mpWorkQueue s1)).
  { rewrite Hring1. apply effectiveIn_new. exact Hnew. }
  assert (HV2 : effectiveIn id (fun x => x = mLastQueuedFrame s \/ x ∈ dropIds steps)
                  (mpWorkQueue s2)).
  { pose proof (run_steps_effectiveIn fuel id steps _ c s1 Hq HV1) as Hall.
    rewrite last_cons in Hlast.
    destruct (last (run_steps fuel steps (c, s1))) as [ cs' | ] eqn:Hl.
    - injection Hlast as ->. apply last_Some_elem_of in Hl.
      rewrite Forall_forall in Hall. exact (Hall _ Hl).
    - injection Hlast as <- <-.
      eapply effectiveIn_mono; [ | exact HV1 ]. intros x Hx. left. exact Hx. }
  assert (Heff : evEffectiveFrame pEvent = mLastQueuedFrame s
                 \/ evEffectiveFrame pEvent ∈ dropIds steps).
  { apply (HV2 pEvent); [ | exact Hid ]. rewrite Hring. apply elem_of_cons. left. reflexivity. }
  split_and!.
  - exists s1. split; [ reflexivity | exact Hring1 ].
  - exact Heff.
  - intros st cs3 Hst Hrun.
    assert (Hcons : mLastIssuedFrame (snd cs3) = evEffectiveFrame pEvent
                    /\ mpWorkQueue (snd cs3) = rest
                    /\ exists pre, mLog (snd cs3)
                                   = mLog s2 ++ pre ++ [NotifyWorkConsumed; DeleteEvent id]).
    { destruct cs3 as [c3 s3'].
      destruct Hst as [ [-> ->] | [-> [bFlipOk ->]] ]; cbn [run_step fst snd] in Hrun.
      - cbn [consumer_step] in Hrun.
        apply bind_inv in Hrun. destruct Hrun as (u & s3 & Hend & Hr).
        apply ret_inv in Hr. destruct Hr as [-> ->]. cbn [snd].
        apply doConsumeEvent_end_inv in Hend.
        destruct Hend as (e & rest' & Hring' & Hissued & Hring3 & Hlog).
        rewrite Hring in Hring'. injection Hring' as <- <-.
        split_and!; [ exact Hissued | exact Hring3 | ].
        exists []. rewrite Hlog, Hid. reflexivity.
      - destruct (run_op fuel (OpConsumeWork bFlipOk) s2) as [[r s3] | | ] eqn:Hop;
          try discriminate Hrun.
        injection Hrun as <- <-. cbn [snd].
        cbn [run_op] in Hop. unfold returning, consumeWork, doConsumeWork in Hop.
        apply bind_inv in Hop. destruct Hop as (b & s4 & Hop & Hr).
        apply ret_inv in Hr. destruct Hr as [_ ->].
        apply bind_inv in Hop. destruct Hop as (u & s5 & Hv & Hop).
        apply doValidateQueue_ro in Hv. unfold whole in Hv. subst s5.
        apply bind_inv in Hop. destruct Hop as (ring & s5 & Hg & Hop).
        apply gets_inv in Hg. destruct Hg as [-> ->]. rewrite Hring in Hop.
        apply bind_inv in Hop. destruct Hop as (qw & s5 & Hg & Hop).
        apply gets_inv in Hg. destruct Hg as [-> ->].
        apply bind_inv in Hop. destruct Hop as (u1 & s5 & Ha & Hop).
        apply HWCASSERT_inv in Ha. destruct Ha as [_ ->].
        apply bind_inv in Hop. destruct Hop as (u2 & s5 & Hce & Hr).
        apply ret_inv in Hr. destruct Hr as [_ ->].
        destruct (doConsumeEvent_inv _ _ _ _ _ Hring Hce) as (Hissued & Hring3 & Hlog).
        split_and!; [ exact Hissued | exact Hring3 | ].
        exists [BackendConsumeEvent id]. rewrite Hlog, Hid. reflexivity. }
    destruct Hcons as (Hissued & Hring3 & Hlog).
    split_and!; try assumption.
    intros Hnone.
    assert (Hq0 : mLastIssuedFrame (snd cs3) = mLastQueuedFrame s).
    { rewrite Hissued. destruct Heff as [ E | E ]; [ exact E | ].
      rewrite Hnone in E. apply elem_of_nil in E. contradiction. }
    split; [ exact Hq0 | ].
    intros bAlloc stack zorder frameId config s0 Hqf. rewrite Hq0.
    exact (queueFrame_OK_lastQueued _ _ _ _ _ _ _ Hqf).
Qed.

(** ** C6: flush *)

(** C6, as the code has it.  flush hands nothing back to its caller.  On a
    queue that passes its validation: when the consumer is blocked, or when
    getWorkerTid( ) is the id of the calling thread, flush completes
    without a wait and without a call of syncFlip, and it marks every
    unlocked display-queue frame of the ring invalid.  In the other case
    flush is doFlush: it completes only with doFlush reporting true, with
    the state doFlush leaves, the frames as they were and syncFlip the last
    call made; on a queue without a worker it does complete.  doFlush
    reports success only after the call of syncFlip. *)
Theorem flush_outcomes (fuel : nat) (this_id : nat) (frameIndex timeoutNs : Z)
    (s : DisplayQueue) (tid : option nat) :
  queueValid s = true ->
  getWorkerTid this_id s = Ok (tid, s) ->
  ((mbConsumerBlocked s = true \/ tid = Some this_id) ->
     exists s',
       run_op fuel (OpFlush this_id frameIndex timeoutNs) s = Ok (RVoid, s')
       /\ mLog s' = mLog s
       /\ mpWorkQueue s' = mpWorkQueue s
       /\ forall i f, WFrame i ∈ mpWorkQueue s ->
            maFrames s !! i = Some f ->
            mbLockedForDisplay f = false -> mType f = eFT_DISPLAY_QUEUE ->
            exists f', maFrames s' !! i = Some f' /\ mbValid f' = false)
  /\ ((mbConsumerBlocked s = false /\ tid <> Some this_id) ->
      (forall r s',
         run_op fuel (OpFlush this_id frameIndex timeoutNs) s = Ok (r, s') ->
         r = RVoid
         /\ doFlush fuel frameIndex timeoutNs s = Ok (true, s')
         /\ maFrames s' = maFrames s
         /\ exists pre, mLog s' = pre ++ [BackendSyncFlip])
      /\ (mpWorker s = None ->
          run_op fuel (OpFlush this_id frameIndex timeoutNs) s
          = Ok (RVoid, with_log (mLog s ++ [BackendSyncFlip]) s)))
  /\ (forall s0 s1, doFlush fuel frameIndex timeoutNs s0 = Ok (true, s1) ->
        exists pre, mLog s1 = pre ++ [BackendSyncFlip]).
Proof.
  intros Hv Htid.
  assert (HdoFlush : forall s0 s1, doFlush fuel frameIndex timeoutNs s0 = Ok (true, s1) ->
            exists pre, mLog s1 = pre ++ [BackendSyncFlip]).
  { intros s0 s1 H. apply doFlush_true_after_syncFlip in H.
    destruct H as [H _]. destruct (H eq_refl) as [_ Hpre]. exact Hpre. }
  split_and!; [ | | exact HdoFlush ].
  - intros Hcase.
    exists (with_frames (invalidatePool (mpWorkQueue s) (maFrames s)) s).
    split_and!; try reflexivity.
    + cbn [run_op]. unfold returning, flush. rewrite bind_assoc. run_with Htid.
      destruct Hcase as [ Hb | -> ].
      * rewrite Hb. cbn [negb].
        destruct (negb match tid with Some t => (t =? this_id)%nat | None => false end);
          mrun; rewrite (run_bind _ _ _ _ _ (doInvalidateFrames_run s Hv)); reflexivity.
      * rewrite Nat.eqb_refl. cbn [negb]. mrun.
        rewrite (run_bind _ _ _ _ _ (doInvalidateFrames_run s Hv)). reflexivity.
    + intros i f Hi Hf Hl Ht.
      destruct (invalidatePool_lookup (frame_ids (mpWorkQueue s)) _ _ _ Hf)
        as (g & Hg & _ & Hval).
      exists g. split; [ exact Hg | ].
      apply Hval; [ apply elem_of_frame_ids; exact Hi | exact Hl | exact Ht ].
  - intros [Hb Hne].
    destruct (getWorkerTid_inv _ _ _ _ Htid) as [_ Etid].
    assert (Hw : mpWorker s = None).
    { destruct (mpWorker s); [ congruence | reflexivity ]. }
    assert (Hnone : tid = None).
    { rewrite Etid, Hw. reflexivity. }
    assert (Hflush : doFlush fuel frameIndex timeoutNs s
                     = Ok (true, with_log (mLog s ++ [BackendSyncFlip]) s)).
    { unfold doFlush. mrun. rewrite Hw. mrun. rewrite Hb. mrun. reflexivity. }
    assert (Hop : run_op fuel (OpFlush this_id frameIndex timeoutNs) s
                  = Ok (RVoid, with_log (mLog s ++ [BackendSyncFlip]) s)).
    { cbn [run_op]. unfold returning, flush. rewrite bind_assoc. run_with Htid.
      rewrite Hnone, Hb. cbn [negb].
      rewrite (run_bind _ _ _ _ _ Hflush). reflexivity. }
    split.
    + intros r s' H. rewrite Hop in H. injection H as <- <-.
      split_and!; [ reflexivity | exact Hflush | reflexivity | ].
      exists (mLog s). reflexivity.
    + intros _. exact Hop.
Qed.

(** ** C9: the layer accessor stays inside the layer array *)

(** C9.  Frame::getLayer and Frame::editLayer are the same total function.
    For a frame with a sound layer array, which is what Frame::Frame gives
    and Frame::set and Frame::reset keep, and an index ly: the result is
    NULL exactly when mLayerCount is zero or ly >= mLayerCount; any other
    result points to the layer ly < mLayerCount, which lies inside the
    array. *)
Theorem Frame_getLayer_in_bounds (f : Frame) (ly : Z) :
  Frame_ok f ->
  0 <= ly < 2 ^ 32 ->
  Frame_editLayer f ly = Frame_getLayer f ly
  /\ (Frame_getLayer f ly = None <-> mLayerCount f = 0 \/ mLayerCount f <= ly)
  /\ (forall p, Frame_getLayer f ly = Some p ->
        p = ly /\ ly < mLayerCount f
        /\ exists fl, Frame_layerAt f p = Some fl).
Proof.
  intros [Hlen Hcnt] Hly. unfold Frame_getLayer, Frame_editLayer.
  split; [ reflexivity | ].
  destruct (mLayerCount f =? 0) eqn:E0; simpl.
  - apply Z.eqb_eq in E0. split.
    + split; [ intros _; left; exact E0 | reflexivity ].
    + intros p Hp. discriminate.
  - apply Z.eqb_neq in E0.
    destruct (ly <? mLayerCount f) eqn:E1.
    + apply Z.ltb_lt in E1. split.
      * split; [ discriminate | intros [ H | H ]; lia ].
      * intros p Hp. injection Hp as <-. split_and!; [ reflexivity | exact E1 | ].
        unfold Frame_layerAt.
        destruct (ly <? 0) eqn:En; [ apply Z.ltb_lt in En; lia | ].
        apply lookup_lt_is_Some_2. lia.
    + apply Z.ltb_ge in E1. split.
      * split; [ intros _; right; exact E1 | reflexivity ].
      * intros p Hp. discriminate.
Qed.

(** The frame queued in [exQueue1]: one layer in use, eight allocated. *)
Lemma Frame_getLayer_in_bounds_witness :
  Frame_editLayer (frameAt exQueue1 0) 0 = Frame_getLayer (frameAt exQueue1 0) 0
  /\ (Frame_getLayer (frameAt exQueue1 0) 0 = None <->
      mLayerCount (frameAt exQueue1 0) = 0 \/ mLayerCount (frameAt exQueue1 0) <= 0)
  /\ (forall p, Frame_getLayer (frameAt exQueue1 0) 0 = Some p ->
        p = 0 /\ 0 < mLayerCount (frameAt exQueue1 0)
        /\ exists fl, Frame_layerAt (frameAt exQueue1 0) p = Some fl).
Proof.
  apply (Frame_getLayer_in_bounds (frameAt exQueue1 0) 0).
  - apply (bool_decide_unpack _). vm_compute. exact I.
  - lia.
Defined.

Example Frame_getLayer_example :
  Frame_getLayer (frameAt exQueue1 0) 0 = Some 0
  /\ Frame_getLayer (frameAt exQueue1 0) 1 = None
  /\ Frame_getLayer (frameAt exQueue 0) 0 = None.
Proof. split_and!; vm_compute; reflexivity. Qed.

(** ** Witnesses at concrete queues *)

Definition exAfterDrop : DisplayQueue := stateAfter (queueDrop (mkFrameId 2 2)) exQueue1.

(** queueDrop on a ring that holds one frame. *)
Lemma queueDrop_coalesces_witness :
  mLastQueuedFrame exAfterDrop = mkFrameId 2 2
  /\ length (mpWorkQueue exAfterDrop) = length (mpWorkQueue exQueue1)
  /\ mQueuedWork exAfterDrop = mQueuedWork exQueue1
  /\ mQueuedFrames exAfterDrop = mQueuedFrames exQueue1
  /\ (mpWorkQueue exQueue1 = [] ->
        mpWorkQueue exAfterDrop = []
        /\ mLastIssuedFrame exAfterDrop = mkFrameId 2 2
        /\ mLog exAfterDrop = mLog exQueue1 ++ [NotifyWorkConsumed])
  /\ (forall pLastItem, last (mpWorkQueue exQueue1) = Some pLastItem ->
        mLastIssuedFrame exAfterDrop = mLastIssuedFrame exQueue1
        /\ mLog exAfterDrop = mLog exQueue1
        /\ removelast (mpWorkQueue exAfterDrop) = removelast (mpWorkQueue exQueue1)
        /\ exists w, last (mpWorkQueue exAfterDrop) = Some w
                     /\ getWorkItemType w = getWorkItemType pLastItem
                     /\ itemEffective exAfterDrop w = Some (mkFrameId 2 2)).
Proof.
  apply (queueDrop_coalesces (mkFrameId 2 2) exQueue1 exAfterDrop).
  - vm_compute. reflexivity.
  - vm_compute. reflexivity.
Defined.

(** queueDrop on an empty ring and on a ring with one frame. *)
Example queueDrop_example :
  mLastIssuedFrame (stateAfter (queueDrop (mkFrameId 7 7)) exQueue) = mkFrameId 7 7
  /\ mpWorkQueue (stateAfter (queueDrop (mkFrameId 7 7)) exQueue) = []
  /\ mLastIssuedFrame exAfterDrop = FrameId_zero
  /\ mEffectiveFrame (frameAt exAfterDrop 0) = mkFrameId 2 2
  /\ mFrameId (frameAt exAfterDrop 0) = mkFrameId 1 1.
Proof. split_and!; vm_compute; reflexivity. Qed.

(** A failed allocation in Frame::set on a new queue. *)
Definition exAfterAllocFailure : DisplayQueue :=
  stateAfter (queueFrame false [exLayer] 0 (mkFrameId 1 1) 0) exQueue.

Lemma queueFrame_error_keeps_lastQueued_witness :
  mLastQueuedFrame exAfterAllocFailure = mLastQueuedFrame exQueue.
Proof.
  apply (queueFrame_error_keeps_lastQueued false [exLayer] 0 (mkFrameId 1 1) 0 exQueue
           (- ENOSYS) exAfterAllocFailure).
  - vm_compute. reflexivity.
  - intros E. vm_compute in E. discriminate E.
Defined.

(** A queue with a single pool frame, which is locked for display. *)
Definition exQueueLocked : DisplayQueue :=
  afterOps [OpQueueFrame true [exLayer] 0 (mkFrameId 1 1) 0; OpConsumeWork true]
    (DisplayQueue_new 1 1 0).

(** C7 as stated fails: with no free frame and with a failed allocation
    queueFrame hands back the same value, -ENOSYS. *)
Lemma queueFrame_failures_share_code :
  exists code sa sb f',
    findFree exQueueLocked = Ok (None, exQueueLocked)
    /\ queueFrame true [exLayer] 0 (mkFrameId 2 2) 0 exQueueLocked = Ok (code, sa)
    /\ Frame_set false [exLayer] 0 (mkFrameId 1 1) 0 (frameAt exQueue 0) = Ok (false, f')
    /\ queueFrame false [exLayer] 0 (mkFrameId 1 1) 0 exQueue = Ok (code, sb)
    /\ code = - ENOSYS.
Proof.
  exists (- ENOSYS). do 3 eexists. split_and!; vm_compute; reflexivity.
Qed.

Lemma queueFrame_status_witness :
  (OK = OK \/ OK = - ENOSYS)
  /\ (OK = OK ->
      mLastQueuedFrame exQueue1 = mkFrameId 1 1
      /\ (exists i f, last (mpWorkQueue exQueue1) = Some (WFrame i)
                      /\ maFrames exQueue1 !! i = Some f
                      /\ mFrameId f = mkFrameId 1 1 /\ mEffectiveFrame f = mkFrameId 1 1
                      /\ mbLinked f = true)
      /\ (exists s1 s2 i f f',
            limitUsedFrames exQueue = Ok (tt, s1)
            /\ findFree s1 = Ok (Some i, s2)
            /\ maFrames s2 !! i = Some f
            /\ Frame_set true [exLayer] 0 (mkFrameId 1 1) 0 f = Ok (true, f')))
  /\ (OK = - ENOSYS ->
      exists s1 s2 pNewFrame,
        limitUsedFrames exQueue = Ok (tt, s1)
        /\ findFree s1 = Ok (pNewFrame, s2)
        /\ match pNewFrame with
           | None => exQueue1 = s2
           | Some i =>
               exists f f', maFrames s2 !! i = Some f
                 /\ Frame_set true [exLayer] 0 (mkFrameId 1 1) 0 f = Ok (false, f')
           end).
Proof.
  apply (queueFrame_status true [exLayer] 0 (mkFrameId 1 1) 0 exQueue OK exQueue1).
  vm_compute. reflexivity.
Defined.

(** The state the last completed step of a run leaves; the initial state
    if no step completes. *)
Definition afterSteps (steps : list Step) (cs : Consumer * DisplayQueue)
  : Consumer * DisplayQueue :=
  match last (run_steps 0 steps cs) with
  | Some cs' => cs'
  | None => cs
  end.

(** The frame (5,5) was queued, flipped and released. *)
Definition exQueueIssued : DisplayQueue :=
  afterOps [OpQueueFrame true [exLayer] 0 (mkFrameId 5 5) 0;
            OpConsumeWork true; OpReleaseFrame 0] exQueue.

(** After the event 42 is queued: the worker hands it to the backend, and a
    producer drops the frame (6,6) while the backend works on it. *)
Definition exStepsEvent : list Step :=
  [SWorker; SOther (OpQueueDrop (mkFrameId 6 6))].

(** The state of that run before the event is taken from the ring. *)
Definition exQueueInEvent : Consumer * DisplayQueue :=
  afterSteps (SOther (OpQueueEvent 42) :: exStepsEvent) (CIdle, exQueueIssued).

(** The event as it is then. *)
Definition exEvent : Event := mkEvent 42 (mkFrameId 6 6) true.

Lemma queueEvent_effectiveFrame_witness :
  (exists s1,
     queueEvent (Event_new 42) exQueueIssued = Ok (OK, s1)
     /\ mpWorkQueue s1
        = mpWorkQueue exQueueIssued
          ++ [WEvent (mkEvent 42 (mLastQueuedFrame exQueueIssued) true)])
  /\ (evEffectiveFrame exEvent = mLastQueuedFrame exQueueIssued
      \/ evEffectiveFrame exEvent ∈ dropIds exStepsEvent)
  /\ (forall st cs3,
        (st = SWorker /\ fst exQueueInEvent = CEvent)
        \/ (fst exQueueInEvent = CIdle
            /\ exists bFlipOk, st = SOther (OpConsumeWork bFlipOk)) ->
        run_step 0 st (fst exQueueInEvent, snd exQueueInEvent) = Ok cs3 ->
        mLastIssuedFrame (snd cs3) = evEffectiveFrame exEvent
        /\ (dropIds exStepsEvent = [] ->
            mLastIssuedFrame (snd cs3) = mLastQueuedFrame exQueueIssued
            /\ forall bAlloc stack zorder frameId config s0,
                 queueFrame bAlloc stack zorder frameId config s0 = Ok (OK, exQueueIssued) ->
                 mLastIssuedFrame (snd cs3) = frameId)
        /\ mpWorkQueue (snd cs3) = []
        /\ exists pre,
             mLog (snd cs3)
             = mLog (snd exQueueInEvent) ++ pre ++ [NotifyWorkConsumed; DeleteEvent 42]).
Proof.
  apply (queueEvent_effectiveFrame 0 42 CIdle exQueueIssued exStepsEvent
           (fst exQueueInEvent) (snd exQueueInEvent) exEvent []).
  - apply (bool_decide_unpack _). vm_compute. exact I.
  - vm_compute. reflexivity.
  - vm_compute. reflexivity.
  - vm_compute. reflexivity.
  - vm_compute. reflexivity.
Defined.

(** C8 as stated fails.  The frame (5,5) is queued, then an event, then the
    frame (6,6) is dropped, then the frame (7,7) is queued: the event lies
    between two frames and lastQueuedFrame was (5,5) when it was queued.
    The seven operations complete; when the event is consumed, by the last
    one, lastIssuedFrame goes to (6,6), the drop that queueDrop wrote into
    the event, which is neither the value at enqueue time nor the id of the
    frame before the event. *)
Lemma event_takes_the_coalesced_drop :
  mLastQueuedFrame
    (afterOps [OpQueueFrame true [exLayerBusy] 0 (mkFrameId 5 5) 0] exQueue)
  = mkFrameId 5 5
  /\ map (fun s => (eventIds (mpWorkQueue s), frame_ids (mpWorkQueue s), mLastIssuedFrame s))
       (run_ops 0 [OpQueueFrame true [exLayerBusy] 0 (mkFrameId 5 5) 0;
                   OpQueueEvent 42;
                   OpQueueDrop (mkFrameId 6 6);
                   OpQueueFrame true [exLayerBusy] 0 (mkFrameId 7 7) 0;
                   OpConsumeWork true;
                   OpReleaseFrame 0;
                   OpConsumeWork true] exQueue)
     = [([], [0%nat], FrameId_zero);
        ([42], [0%nat], FrameId_zero);
        ([42], [0%nat], FrameId_zero);
        ([42], [0%nat; 1%nat], FrameId_zero);
        ([42], [1%nat], mkFrameId 5 5);
        ([42], [1%nat], mkFrameId 5 5);
        ([], [1%nat], mkFrameId 6 6)]
  /\ mkFrameId 6 6 <> mkFrameId 5 5.
Proof. split_and!; [ vm_compute; reflexivity | vm_compute; reflexivity | discriminate ]. Qed.

(** The same with the sections of consumeWork: the drop that lands while
    the backend works on the event is the frame the event issues. *)
Example event_drop_during_consumeWork :
  map (fun cs => (fst cs, eventIds (mpWorkQueue (snd cs)), mLastQueuedFrame (snd cs),
                  mLastIssuedFrame (snd cs)))
      (run_steps 0 (SOther (OpQueueEvent 42) :: exStepsEvent ++ [SWorker])
         (CIdle, exQueueIssued))
  = [(CIdle, [42], mkFrameId 5 5, mkFrameId 5 5);
     (CEvent, [42], mkFrameId 5 5, mkFrameId 5 5);
     (CEvent, [42], mkFrameId 6 6, mkFrameId 5 5);
     (CIdle, [], mkFrameId 6 6, mkFrameId 6 6)].
Proof. vm_compute. reflexivity. Qed.

(** An event between two frames: lastIssuedFrame goes (0,0), (5,5), (5,5),
    (6,6) as the three items are consumed. *)
Example event_between_frames :
  map mLastIssuedFrame
    (run_ops 0 [OpQueueFrame true [exLayerBusy] 0 (mkFrameId 5 5) 0;
                OpQueueEvent 42;
                OpQueueFrame true [exLayerBusy] 0 (mkFrameId 6 6) 0;
                OpConsumeWork true; OpReleaseFrame 0;
                OpConsumeWork true;
                OpConsumeWork true] exQueue)
  = [FrameId_zero; FrameId_zero; FrameId_zero;
     mkFrameId 5 5; mkFrameId 5 5; mkFrameId 5 5; mkFrameId 6 6].
Proof. vm_compute. reflexivity. Qed.

(** ** C1: pool accounting *)

(** C1 at the input on which the code breaks it.  On a new queue the
    accounting holds.  queueFrame with a failing allocation in Frame::set
    returns -ENOSYS after it counted the frame into framePoolUsed: the ring
    is empty, no frame is locked for display, and framePoolUsed is 1, so
    the accounting fails, on the integers and on the 32-bit values. *)
Theorem queueFrame_alloc_failure_breaks_poolAccounting :
  poolAccounting exQueue
  /\ run_op 0 (OpQueueFrame false [exLayer] 0 (mkFrameId 1 1) 0) exQueue
     = Ok (RInt (- ENOSYS), exAfterAllocFailure)
  /\ mFramePoolUsed exAfterAllocFailure = 1
  /\ mpWorkQueue exAfterAllocFailure = []
  /\ mFramesLockedForDisplay exAfterAllocFailure = 0
  /\ ~ poolAccounting exAfterAllocFailure
  /\ ~ poolAccounting32 exAfterAllocFailure.
Proof.
  split_and!.
  - vm_compute. reflexivity.
  - vm_compute. reflexivity.
  - vm_compute. reflexivity.
  - vm_compute. reflexivity.
  - vm_compute. reflexivity.
  - intros H. vm_compute in H. discriminate H.
  - intros H. vm_compute in H. discriminate H.
Qed.

(** The same call with a working allocator keeps the accounting. *)
Example queueFrame_success_keeps_poolAccounting :
  poolAccounting exQueue1 /\ mFramePoolUsed exQueue1 = 1 /\ mpWorkQueue exQueue1 = [WFrame 0].
Proof. split_and!; vm_compute; reflexivity. Qed.

(** Along a run in which every allocation works the accounting holds after
    each operation: frames queued, dropped, consumed with a failed and with
    a good flip, and released. *)
Example poolAccounting32_along_a_run :
  Forall poolAccounting32
    (run_ops 4 [OpQueueFrame true [exLayer] 0 (mkFrameId 1 1) 0;
                OpQueueEvent 7;
                OpQueueFrame true [exLayer; exLayer] 0 (mkFrameId 2 2) 0;
                OpQueueDrop (mkFrameId 3 3);
                OpDropRedundantFrames;
                OpConsumeWork false;
                OpConsumeWork true;
                OpConsumeWork true;
                OpReleaseFrame 1;
                OpDropAllFrames] exQueue)
  /\ length (run_ops 4 [OpQueueFrame true [exLayer] 0 (mkFrameId 1 1) 0;
                        OpQueueEvent 7;
                        OpQueueFrame true [exLayer; exLayer] 0 (mkFrameId 2 2) 0;
                        OpQueueDrop (mkFrameId 3 3);
                        OpDropRedundantFrames;
                        OpConsumeWork false;
                        OpConsumeWork true;
                        OpConsumeWork true;
                        OpReleaseFrame 1;
                        OpDropAllFrames] exQueue) = 10%nat.
Proof.
  split.
  - apply run_ops_keep_poolAccounting32.
    + apply DisplayQueue_new_Struct.
    + reflexivity.
    + repeat constructor.
  - vm_compute. reflexivity.
Qed.

(** ** C6 at concrete queues *)

(** One frame queued, then the consumer blocked. *)
Definition exQueueBlocked : DisplayQueue :=
  afterOps [OpQueueFrame true [exLayer] 0 (mkFrameId 1 1) 0; OpConsumerBlocked] exQueue.

(** C6 as stated fails: with the consumer blocked flush invalidates the
    queued frame, but what it hands back is not the value false, flush is
    void. *)
Lemma flush_returns_no_status :
  mbConsumerBlocked exQueueBlocked = true
  /\ mbValid (frameAt exQueueBlocked 0) = true
  /\ exists s', run_op 0 (OpFlush 1 0 10000000) exQueueBlocked = Ok (RVoid, s')
                /\ mbValid (frameAt s' 0) = false
                /\ RVoid <> RBool false.
Proof.
  split_and!; [ vm_compute; reflexivity | vm_compute; reflexivity | ].
  eexists. split_and!; [ vm_compute; reflexivity | vm_compute; reflexivity | discriminate ].
Qed.

Lemma flush_outcomes_witness :
  ((mbConsumerBlocked exQueueBlocked = true \/ Some 1%nat = Some 1%nat) ->
     exists s',
       run_op 0 (OpFlush 1 0 10000000) exQueueBlocked = Ok (RVoid, s')
       /\ mLog s' = mLog exQueueBlocked
       /\ mpWorkQueue s' = mpWorkQueue exQueueBlocked
       /\ forall i f, WFrame i ∈ mpWorkQueue exQueueBlocked ->
            maFrames exQueueBlocked !! i = Some f ->
            mbLockedForDisplay f = false -> mType f = eFT_DISPLAY_QUEUE ->
            exists f', maFrames s' !! i = Some f' /\ mbValid f' = false)
  /\ ((mbConsumerBlocked exQueueBlocked = false /\ Some 1%nat <> Some 1%nat) ->
      (forall r s',
         run_op 0 (OpFlush 1 0 10000000) exQueueBlocked = Ok (r, s') ->
         r = RVoid
         /\ doFlush 0 0 10000000 exQueueBlocked = Ok (true, s')
         /\ maFrames s' = maFrames exQueueBlocked
         /\ exists pre, mLog s' = pre ++ [BackendSyncFlip])
      /\ (mpWorker exQueueBlocked = None ->
          run_op 0 (OpFlush 1 0 10000000) exQueueBlocked
          = Ok (RVoid, with_log (mLog exQueueBlocked ++ [BackendSyncFlip]) exQueueBlocked)))
  /\ (forall s0 s1, doFlush 0 0 10000000 s0 = Ok (true, s1) ->
        exists pre, mLog s1 = pre ++ [BackendSyncFlip]).
Proof.
  apply (flush_outcomes 0 1 0 10000000 exQueueBlocked (Some 1%nat)).
  - vm_compute. reflexivity.
  - vm_compute. reflexivity.
Defined.

(** flush on a queue without a worker calls syncFlip.  On a queue with a
    worker getWorkerTid( ) is the id of the thread that calls, and flush
    invalidates the queued frame at once. *)
Example flush_example :
  mLog (stateAfter (flush 0 1 0 10000000) exQueue) = [BackendSyncFlip]
  /\ mpWorker exQueue1 = Some (mkWorker 1)
  /\ mbValid (frameAt exQueue1 0) = true
  /\ mbValid (frameAt (stateAfter (flush 0 1 0 10000000) exQueue1) 0) = false
  /\ mLog (stateAfter (flush 0 1 0 10000000) exQueue1) = mLog exQueue1.
Proof. split_and!; vm_compute; reflexivity. Qed.

(** * The rest of DisplayQueue.cpp *)

(** ** The intrusive ring of WorkItem, at the level of its pointers

    WorkItem::queue and WorkItem::dequeue work on the two pointers mpPrev
    and mpNext of every item.  An item is its address; the heap gives the
    two pointers of every address, [None] is NULL.  The virtual onDequeue
    hook of the header does not touch the pointers and is left out. *)

Module Ptr.

Record Links := mkLinks {
  mpPrev : option nat;
  mpNext : option nat
}.

Definition Heap := nat -> Links.

(** WorkItem::WorkItem: both pointers NULL. *)
Definition WorkItem_new : Links := mkLinks None None.

Definition setPrev (p : nat) (v : option nat) (h : Heap) : Heap :=
  fun q => if Nat.eqb q p then mkLinks v (mpNext (h q)) else h q.

Definition setNext (p : nat) (v : option nat) (h : Heap) : Heap :=
  fun q => if Nat.eqb q p then mkLinks (mpPrev (h q)) v else h q.

(** WorkItem::getNext *)
Definition getNext (h : Heap) (p : nat) : option nat := mpNext (h p).

(** WorkItem::getLast *)
Definition getLast (h : Heap) (p : nat) : option nat := mpPrev (h p).

(** WorkItem::isQueued *)
Definition isQueued (h : Heap) (p : nat) : bool :=
  match mpPrev (h p), mpNext (h p) with
  | Some _, Some _ => true
  | _, _ => false
  end.

(** WorkItem::queue( pQueue, pNewWork ): the result is the new value of
    *pQueue and the heap.  Going through a NULL pointer ends the run like a
    failed assertion. *)
Definition queue (pQueue : option nat) (pNewWork : nat) (h : Heap)
    : Result (option nat * Heap) :=
  rbind (rassert (negb (isQueued h pNewWork))) (fun _ =>
  match pQueue with
  | None =>
      let h1 := setNext pNewWork (Some pNewWork) h in
      let h2 := setPrev pNewWork (Some pNewWork) h1 in
      Ok (Some pNewWork, h2)
  | Some head =>
      match mpPrev (h head) with
      | None => AssertFail
      | Some tail =>
          let h1 := setNext tail (Some pNewWork) h in
          let h2 := setPrev pNewWork (mpPrev (h1 head)) h1 in
          let h3 := setNext pNewWork (Some head) h2 in
          let h4 := setPrev head (Some pNewWork) h3 in
          Ok (Some head, h4)
      end
  end).

(** WorkItem::dequeue( pQueue, pOldWork ) *)
Definition dequeue (pQueue : option nat) (pOldWork : nat) (h : Heap)
    : Result (option nat * Heap) :=
  rbind (rassert (isQueued h pOldWork)) (fun _ =>
  match pQueue with
  | None => AssertFail
  | Some head =>
      let pNext := mpNext (h pOldWork) in
      match mpPrev (h pOldWork) with
      | None => AssertFail
      | Some prev =>
          let h1 := setNext prev (mpNext (h pOldWork)) h in
          match mpNext (h1 pOldWork) with
          | None => AssertFail
          | Some next =>
              let h2 := setPrev next (mpPrev (h1 pOldWork)) h1 in
              let h3 := setPrev pOldWork None h2 in
              let h4 := setNext pOldWork None h3 in
              Ok (if Nat.eqb pOldWork head
                  then (if decide (pNext = Some pOldWork) then None else pNext)
                  else Some head,
                  h4)
          end
      end
  end).

(** The links a ring with the items [a :: r], closed by [z], consists of:
    every item with its successor. *)
Fixpoint path (a : nat) (r : list nat) (z : nat) : list (nat * nat) :=
  match r with
  | [] => [(a, z)]
  | b :: r' => (a, b) :: path b r' z
  end.

Definition cyc (l : list nat) : list (nat * nat) :=
  match l with
  | [] => []
  | x :: r => path x r x
  end.

(** The heap holds the ring of the items [l], head first, and *pQueue is
    its head. *)
Definition ringRep (h : Heap) (pQueue : option nat) (l : list nat) : Prop :=
  NoDup l
  /\ pQueue = head l
  /\ Forall (fun ab => getNext h (fst ab) = Some (snd ab)
                       /\ getLast h (snd ab) = Some (fst ab)) (cyc l).

#[export] Instance ringRep_dec h q l : Decision (ringRep h q l).
Proof. unfold ringRep. apply _. Defined.

End Ptr.

Section PtrFacts.
Import Ptr.

Lemma getNext_setNext p v h q :
  getNext (setNext p v h) q = if Nat.eqb q p then v else getNext h q.
Proof. unfold getNext, setNext. destruct (Nat.eqb q p); reflexivity. Qed.

Lemma getNext_setPrev p v h q : getNext (setPrev p v h) q = getNext h q.
Proof. unfold getNext, setPrev. destruct (Nat.eqb q p); reflexivity. Qed.

Lemma getLast_setPrev p v h q :
  getLast (setPrev p v h) q = if Nat.eqb q p then v else getLast h q.
Proof. unfold getLast, setPrev. destruct (Nat.eqb q p); reflexivity. Qed.

Lemma getLast_setNext p v h q : getLast (setNext p v h) q = getLast h q.
Proof. unfold getLast, setNext. destruct (Nat.eqb q p); reflexivity. Qed.

Lemma isQueued_links h p :
  isQueued h p = true <-> exists a b, getLast h p = Some a /\ getNext h p = Some b.
Proof.
  unfold isQueued, getLast, getNext.
  destruct (mpPrev (h p)) as [ a | ], (mpNext (h p)) as [ b | ]; split;
    try discriminate; try (intros (? & ? & ? & ?); discriminate).
  - intros _. exists a, b. split; reflexivity.
  - intros _. reflexivity.
Qed.

Lemma path_app a r1 b r2 z : path a (r1 ++ b :: r2) z = path a r1 b ++ path b r2 z.
Proof. revert a. induction r1 as [ | c r1 IH ]; intros a; cbn; [ | rewrite IH ]; reflexivity. Qed.

Lemma path_fst a r z : map fst (path a r z) = a :: r.
Proof. revert a. induction r as [ | b r IH ]; intros a; cbn; [ | rewrite IH ]; reflexivity. Qed.

Lemma path_snd a r z : map snd (path a r z) = r ++ [z].
Proof. revert a. induction r as [ | b r IH ]; intros a; cbn; [ | rewrite IH ]; reflexivity. Qed.

(** The last link of a path is the one that closes it. *)
Lemma path_last a r : exists init t,
  last (a :: r) = Some t /\ forall z, path a r z = init ++ [(t, z)].
Proof.
  revert a. induction r as [ | b r IH ]; intros a.
  - exists [], a. split; [ reflexivity | intros z; reflexivity ].
  - destruct (IH b) as (init & t & Ht & Hp). exists ((a, b) :: init), t. split.
    + rewrite last_cons. rewrite Ht. reflexivity.
    + intros z. cbn. rewrite Hp. reflexivity.
Qed.

Lemma cyc_fst l : map fst (cyc l) = l.
Proof. destruct l as [ | x r ]; [ reflexivity | apply path_fst ]. Qed.

Lemma cyc_snd l : map snd (cyc l) ≡ₚ l.
Proof.
  destruct l as [ | x r ]; [ reflexivity | ]. cbn [cyc]. rewrite path_snd.
  symmetry. apply Permutation_cons_append.
Qed.

Lemma cyc_elem l a b : (a, b) ∈ cyc l -> a ∈ l /\ b ∈ l.
Proof.
  intros H. split.
  - rewrite <- (cyc_fst l). apply (list_elem_of_fmap_2 fst) in H. exact H.
  - rewrite <- (cyc_snd l). apply (list_elem_of_fmap_2 snd) in H. exact H.
Qed.

Lemma pairs_functional (ps : list (nat * nat)) a b b' :
  NoDup (map fst ps) -> (a, b) ∈ ps -> (a, b') ∈ ps -> b = b'.
Proof.
  induction ps as [ | [c d] ps IH ]; intros Hnd H1 H2.
  - apply elem_of_nil in H1. contradiction.
  - cbn in Hnd. apply NoDup_cons in Hnd. destruct Hnd as [Hc Hnd].
    apply elem_of_cons in H1. apply elem_of_cons in H2.
    destruct H1 as [ E1 | H1 ], H2 as [ E2 | H2 ].
    + congruence.
    + injection E1 as -> ->. exfalso. apply Hc.
      apply (list_elem_of_fmap_2 fst) in H2. exact H2.
    + injection E2 as -> ->. exfalso. apply Hc.
      apply (list_elem_of_fmap_2 fst) in H1. exact H1.
    + exact (IH Hnd H1 H2).
Qed.

Lemma pairs_injective (ps : list (nat * nat)) a a' b :
  NoDup (map snd ps) -> (a, b) ∈ ps -> (a', b) ∈ ps -> a = a'.
Proof.
  induction ps as [ | [c d] ps IH ]; intros Hnd H1 H2.
  - apply elem_of_nil in H1. contradiction.
  - cbn in Hnd. apply NoDup_cons in Hnd. destruct Hnd as [Hc Hnd].
    apply elem_of_cons in H1. apply elem_of_cons in H2.
    destruct H1 as [ E1 | H1 ], H2 as [ E2 | H2 ].
    + congruence.
    + injection E1 as -> ->. exfalso. apply Hc.
      apply (list_elem_of_fmap_2 snd) in H2. exact H2.
    + injection E2 as -> ->. exfalso. apply Hc.
      apply (list_elem_of_fmap_2 snd) in H1. exact H1.
    + exact (IH Hnd H1 H2).
Qed.

Lemma cyc_functional l a b b' :
  NoDup l -> (a, b) ∈ cyc l -> (a, b') ∈ cyc l -> b = b'.
Proof. intros Hnd. apply pairs_functional. rewrite cyc_fst. exact Hnd. Qed.

Lemma cyc_injective l a a' b :
  NoDup l -> (a, b) ∈ cyc l -> (a', b) ∈ cyc l -> a = a'.
Proof. intros Hnd. apply pairs_injective. rewrite cyc_snd. exact Hnd. Qed.

Lemma cyc_succ l a : a ∈ l -> exists b, (a, b) ∈ cyc l.
Proof.
  intros H. rewrite <- (cyc_fst l) in H. apply list_elem_of_fmap in H.
  destruct H as ([a' b] & -> & H). exists b. exact H.
Qed.

Lemma cyc_pred l b : b ∈ l -> exists a, (a, b) ∈ cyc l.
Proof.
  intros H. rewrite <- (cyc_snd l) in H. apply list_elem_of_fmap in H.
  destruct H as ([a b'] & -> & H). exists a. exact H.
Qed.


Lemma cyc_snoc l n a b :
  l <> [] -> (a, b) ∈ cyc (l ++ [n]) ->
  (a, b) ∈ cyc l \/ (last l = Some a /\ b = n) \/ (a = n /\ head l = Some b).
Proof.
  intros Hne H. destruct l as [ | x r ]; [ congruence | ].
  cbn [app cyc] in H. rewrite (path_app x r n [] x) in H. cbn [path] in H.
  destruct (path_last x r) as (init & t & Ht & Hp).
  rewrite (Hp n) in H. cbn [cyc]. rewrite (Hp x).
  rewrite !elem_of_app in H. rewrite !list_elem_of_singleton in H.
  destruct H as [ [ H | H ] | H ].
  - left. apply elem_of_app. left. exact H.
  - injection H as -> ->. right. left. split; [ exact Ht | reflexivity ].
  - injection H as -> ->. right. right. split; reflexivity.
Qed.

Lemma cyc_snoc_links l n t x :
  last l = Some t -> head l = Some x ->
  (t, n) ∈ cyc (l ++ [n]) /\ (n, x) ∈ cyc (l ++ [n]).
Proof.
  intros Ht Hx. destruct l as [ | y r ]; [ discriminate | ].
  cbn in Hx. injection Hx as ->.
  cbn [app cyc]. rewrite (path_app x r n [] x). cbn [path].
  destruct (path_last x r) as (init & t' & Ht' & Hp).
  rewrite Ht in Ht'. injection Ht' as <-. rewrite (Hp n).
  rewrite !elem_of_app, !list_elem_of_singleton. split; [ left; right | right ]; reflexivity.
Qed.

(** The links of the ring without [n]: the links that do not touch [n],
    and the link from the predecessor of [n] to its successor. *)
Lemma cyc_delete l1 n l2 a b :
  (a, b) ∈ cyc (l1 ++ l2) ->
  (a, b) ∈ cyc (l1 ++ n :: l2)
  \/ ((a, n) ∈ cyc (l1 ++ n :: l2) /\ (n, b) ∈ cyc (l1 ++ n :: l2)).
Proof.
  intros H. destruct l1 as [ | x r1 ].
  - cbn [app] in *. destruct l2 as [ | c l2 ].
    + apply elem_of_nil in H. contradiction.
    + cbn [cyc path] in *.
      destruct (path_last c l2) as (init & t & Ht & Hp).
      rewrite (Hp c) in H. rewrite (Hp n).
      rewrite elem_of_app, list_elem_of_singleton in H.
      rewrite !elem_of_cons, !elem_of_app, !list_elem_of_singleton.
      destruct H as [ H | H ].
      * left. right. left. exact H.
      * injection H as -> ->. right. split; [ right; right | left ]; reflexivity.
  - cbn [app cyc] in *. rewrite (path_app x r1 n l2 x).
    destruct (path_last x r1) as (init & t & Ht & Hp). rewrite (Hp n).
    destruct l2 as [ | c l2 ].
    + rewrite app_nil_r in H. rewrite (Hp x) in H. cbn [path].
      rewrite elem_of_app, list_elem_of_singleton in H.
      rewrite !elem_of_app, !list_elem_of_singleton.
      destruct H as [ H | H ].
      * left. left. left. exact H.
      * injection H as -> ->. right. split; [ left; right | right ]; reflexivity.
    + rewrite (path_app x r1 c l2 x) in H. rewrite (Hp c) in H. cbn [path].
      rewrite !elem_of_app, list_elem_of_singleton in H.
      rewrite !elem_of_app, !list_elem_of_singleton, !elem_of_cons.
      destruct H as [ [ H | H ] | H ].
      * left. left. left. exact H.
      * injection H as -> ->. right. split; [ left; right | right; left ]; reflexivity.
      * left. right. right. exact H.
Qed.

Lemma ringRep_links h q l a b :
  ringRep h q l -> (a, b) ∈ cyc l -> getNext h a = Some b /\ getLast h b = Some a.
Proof.
  intros (_ & _ & HF) H. rewrite Forall_forall in HF. exact (HF (a, b) H).
Qed.

Lemma ringRep_isQueued h q l p : ringRep h q l -> p ∈ l -> isQueued h p = true.
Proof.
  intros HR Hp. apply isQueued_links.
  destruct (cyc_succ l p Hp) as [b Hb]. destruct (cyc_pred l p Hp) as [a Ha].
  exists a, b. split.
  - exact (proj2 (ringRep_links h q l a p HR Ha)).
  - exact (proj1 (ringRep_links h q l p b HR Hb)).
Qed.

Lemma ringRep_head_last h q l x t :
  ringRep h q l -> head l = Some x -> last l = Some t ->
  getLast h x = Some t /\ getNext h t = Some x.
Proof.
  intros HR Hx Ht. destruct l as [ | y r ]; [ discriminate | ].
  cbn in Hx. injection Hx as ->.
  assert (Hin : (t, x) ∈ cyc (x :: r)).
  { cbn [cyc]. destruct (path_last x r) as (init & t' & Ht' & Hp).
    rewrite Ht in Ht'. injection Ht' as <-. rewrite (Hp x).
    apply elem_of_app. right. apply list_elem_of_singleton. reflexivity. }
  destruct (ringRep_links h q _ t x HR Hin) as [Hn Hl]. split; assumption.
Qed.


Ltac links_simpl :=
  repeat first [ rewrite getNext_setNext | rewrite getNext_setPrev
               | rewrite getLast_setPrev | rewrite getLast_setNext ].

Ltac eqb_cases :=
  repeat match goal with
  | |- context [Nat.eqb ?a ?b] => destruct (Nat.eqb_spec a b); try subst
  end.

Lemma queue_run h pQueue l n :
  ringRep h pQueue l -> isQueued h n = false ->
  exists h',
    queue pQueue n h = Ok (head (l ++ [n]), h')
    /\ ringRep h' (head (l ++ [n])) (l ++ [n])
    /\ (forall p, p ∉ l -> p <> n -> h' p = h p).
Proof.
  intros HR Hq.
  assert (Hn : n ∉ l).
  { intros Hin. rewrite (ringRep_isQueued h pQueue l n HR Hin) in Hq. discriminate Hq. }
  pose proof HR as (Hnd & Hhead & _).
  assert (Hnd' : NoDup (l ++ [n])).
  { apply NoDup_app. split_and!; [ exact Hnd | | apply NoDup_singleton ].
    intros y Hy Hy'. apply list_elem_of_singleton in Hy'. subst y. exact (Hn Hy). }
  unfold queue. rewrite Hq. cbn [negb rassert rbind].
  destruct l as [ | x r ].
  - cbn in Hhead. subst pQueue. eexists. split; [ reflexivity | ]. split.
    + unfold ringRep. split_and!; [ exact Hnd' | reflexivity | ].
      cbn. constructor; [ | constructor ]. cbn. links_simpl.
      rewrite Nat.eqb_refl. split; reflexivity.
    + intros p _ Hp. unfold setPrev, setNext.
      destruct (Nat.eqb_spec p n); [ congruence | reflexivity ].
  - cbn in Hhead. subst pQueue.
    destruct (last (x :: r)) as [ t | ] eqn:Ht;
      [ | rewrite last_cons in Ht; destruct (last r); discriminate ].
    destruct (ringRep_head_last h _ _ x t HR eq_refl Ht) as [Hxt Htx].
    assert (Htl : t ∈ x :: r) by (apply last_Some_elem_of; exact Ht).
    change (mpPrev (h x)) with (getLast h x). rewrite Hxt.
    change (mpPrev (setNext t (Some n) h x)) with (getLast (setNext t (Some n) h) x).
    rewrite getLast_setNext, Hxt.
    eexists. split; [ reflexivity | ]. split.
    + unfold ringRep. split_and!; [ exact Hnd' | reflexivity | ].
      destruct (cyc_snoc_links (x :: r) n t x Ht eq_refl) as [Htn Hnx].
      apply Forall_forall. intros [a b] Hab. cbn [fst snd]. links_simpl.
      destruct (cyc_snoc (x :: r) n a b ltac:(discriminate) Hab)
        as [ Hold | [ [Hat ->] | [-> Hbx] ] ].
      * destruct (cyc_elem _ _ _ Hold) as [Ha Hb].
        destruct (ringRep_links h _ _ a b HR Hold) as [Hna Hlb].
        assert (a <> n) by (intros ->; exact (Hn Ha)).
        assert (b <> n) by (intros ->; exact (Hn Hb)).
        assert (a <> t).
        { intros ->. apply (cyc_functional _ _ _ _ Hnd' Hab) in Htn. congruence. }
        assert (b <> x).
        { intros ->. apply (cyc_injective _ _ _ _ Hnd' Hab) in Hnx. congruence. }
        eqb_cases; try congruence. split; assumption.
      * rewrite Ht in Hat. injection Hat as <-.
        assert (t <> n) by (intros ->; exact (Hn Htl)).
        assert (n <> x) by (intros ->; apply Hn; left).
        eqb_cases; try congruence. split; reflexivity.
      * cbn in Hbx. injection Hbx as <-.
        eqb_cases; try congruence. split; reflexivity.
    + intros p Hp Hpn. unfold setPrev, setNext.
      assert (p <> x) by (intros ->; apply Hp; left).
      assert (p <> t) by (intros ->; exact (Hp Htl)).
      eqb_cases; try congruence; reflexivity.
Qed.


Lemma dequeue_run h pQueue l1 n l2 :
  ringRep h pQueue (l1 ++ n :: l2) ->
  exists h',
    dequeue pQueue n h = Ok (head (l1 ++ l2), h')
    /\ ringRep h' (head (l1 ++ l2)) (l1 ++ l2)
    /\ h' n = WorkItem_new
    /\ (forall p, p ∉ l1 ++ n :: l2 -> h' p = h p).
Proof.
  intros HR. pose proof HR as (Hnd & Hhead & _).
  set (l := l1 ++ n :: l2) in *.
  assert (Hin : n ∈ l) by (apply elem_of_app; right; left).
  assert (Hnd' : NoDup (l1 ++ l2)).
  { unfold l in Hnd. apply NoDup_app in Hnd. destruct Hnd as (H1 & H12 & H2).
    apply NoDup_cons in H2. destruct H2 as [_ H2].
    apply NoDup_app. split_and!; [ exact H1 | | exact H2 ].
    intros y Hy Hy'. apply (H12 y Hy). right. exact Hy'. }
  assert (Hout : n ∉ l1 ++ l2).
  { unfold l in Hnd. apply NoDup_app in Hnd. destruct Hnd as (H1 & H12 & H2).
    apply NoDup_cons in H2. destruct H2 as [H2 _].
    intros Hn. apply elem_of_app in Hn. destruct Hn as [ Hn | Hn ]; [ | exact (H2 Hn) ].
    apply (H12 n Hn). left. }
  destruct (cyc_pred l n Hin) as [pp Hpp]. destruct (cyc_succ l n Hin) as [nn Hnn].
  destruct (ringRep_links h _ _ pp n HR Hpp) as [_ Hlast].
  destruct (ringRep_links h _ _ n nn HR Hnn) as [Hnext _].
  destruct (cyc_elem _ _ _ Hpp) as [Hppl _]. destruct (cyc_elem _ _ _ Hnn) as [_ Hnnl].
  unfold dequeue. rewrite (ringRep_isQueued h pQueue l n HR Hin). cbn [rassert rbind].
  destruct pQueue as [ x | ]; [ | unfold l in Hhead; destruct l1; discriminate ].
  change (mpPrev (h n)) with (getLast h n). rewrite Hlast.
  change (mpNext (h n)) with (getNext h n). rewrite Hnext.
  change (mpNext (setNext pp (Some nn) h n)) with (getNext (setNext pp (Some nn) h) n).
  change (mpPrev (setNext pp (Some nn) h n)) with (getLast (setNext pp (Some nn) h) n).
  rewrite getNext_setNext, getLast_setNext, Hlast.
  replace (if Nat.eqb n pp then Some nn else getNext h n) with (Some nn)
    by (destruct (Nat.eqb n pp); [ reflexivity | symmetry; exact Hnext ]).
  assert (Hhd : (if Nat.eqb n x
                 then (if decide (Some nn = Some n) then None else Some nn)
                 else Some x) = head (l1 ++ l2)).
  { destruct (Nat.eqb_spec n x) as [ <- | Hne ].
    - destruct l1 as [ | y r1 ].
      + cbn [app]. unfold l in Hnn. cbn [app] in Hnn. destruct l2 as [ | c l2 ].
        * cbn in Hnn. apply list_elem_of_singleton in Hnn. injection Hnn as ->.
          rewrite decide_True by reflexivity. reflexivity.
        * assert (Hc : (n, c) ∈ cyc (n :: c :: l2)) by (cbn; left).
          pose proof (cyc_functional _ _ _ _ Hnd Hnn Hc) as ->.
          rewrite decide_False; [ reflexivity | ].
          intros E. injection E as ->. apply Hout. left.
      + exfalso. unfold l in Hhead. cbn in Hhead. injection Hhead as <-.
        apply Hout. left.
    - destruct l1 as [ | y r1 ].
      + unfold l in Hhead. cbn in Hhead. congruence.
      + unfold l in Hhead. cbn in Hhead. cbn. congruence. }
  rewrite Hhd. eexists. split; [ reflexivity | ]. split_and!.
  - unfold ringRep. split_and!; [ exact Hnd' | reflexivity | ].
    apply Forall_forall. intros [a b] Hab. cbn [fst snd]. links_simpl.
    destruct (cyc_elem _ _ _ Hab) as [Ha Hb].
    assert (a <> n) by (intros ->; exact (Hout Ha)).
    assert (b <> n) by (intros ->; exact (Hout Hb)).
    destruct (cyc_delete l1 n l2 a b Hab) as [ Hold | [Han Hnb] ].
    + destruct (ringRep_links h _ _ a b HR Hold) as [Hna Hlb].
      assert (a <> pp).
      { intros ->. apply (cyc_functional _ _ _ _ Hnd Hold) in Hpp. congruence. }
      assert (b <> nn).
      { intros ->. apply (cyc_injective _ _ _ _ Hnd Hold) in Hnn. congruence. }
      eqb_cases; try congruence. split; assumption.
    + pose proof (cyc_injective _ _ _ _ Hnd Han Hpp) as ->.
      pose proof (cyc_functional _ _ _ _ Hnd Hnb Hnn) as ->.
      eqb_cases; try congruence. split; reflexivity.
  - unfold setNext, setPrev, WorkItem_new. rewrite !Nat.eqb_refl. reflexivity.
  - intros p Hp. unfold setNext, setPrev.
    assert (p <> n) by (intros ->; exact (Hp Hin)).
    assert (p <> pp) by (intros ->; exact (Hp Hppl)).
    assert (p <> nn) by (intros ->; exact (Hp Hnnl)).
    eqb_cases; try congruence; reflexivity.
Qed.


(** X1.  WorkItem::queue links the new item at the tail of the ring.  On a heap
    that holds the ring of the items [l] behind *pQueue, with an item [n]
    that is not queued, queue completes; the heap then holds the ring of
    [l ++ [n]], *pQueue is [n] if the ring was empty and is unchanged
    otherwise, [n] is queued, getLast of the head is [n] and getNext of [n]
    is the head, and no item outside the ring but [n] is written. *)
Theorem WorkItem_queue_links_at_tail (h : Heap) (pQueue : option nat) (l : list nat) (n : nat) :
  ringRep h pQueue l ->
  isQueued h n = false ->
  exists h',
    queue pQueue n h = Ok (head (l ++ [n]), h')
    /\ ringRep h' (head (l ++ [n])) (l ++ [n])
    /\ (l = [] -> head (l ++ [n]) = Some n)
    /\ (l <> [] -> head (l ++ [n]) = pQueue)
    /\ isQueued h' n = true
    /\ (forall x, head (l ++ [n]) = Some x ->
          getLast h' x = Some n /\ getNext h' n = Some x)
    /\ (forall p, p ∉ l -> p <> n -> h' p = h p).
Proof.
  intros HR Hq. destruct (queue_run h pQueue l n HR Hq) as (h' & Hrun & HR' & Hframe).
  exists h'. split_and!; try assumption.
  - intros ->. reflexivity.
  - intros Hne. destruct HR as (_ & -> & _). destruct l; [ congruence | reflexivity ].
  - apply (ringRep_isQueued h' _ _ n HR'). apply elem_of_app. right. left.
  - intros x Hx. apply (ringRep_head_last h' _ _ x n HR' Hx). apply last_snoc.
Qed.

(** X2.  WorkItem::dequeue unlinks an item of the ring.  On a heap that holds
    the ring [l1 ++ n :: l2], dequeue of [n] completes; the heap then holds
    the ring [l1 ++ l2] in the same order, *pQueue is the successor of [n]
    if [n] was the head, NULL if [n] was the only item, and unchanged
    otherwise; both pointers of [n] are NULL, so [n] is not queued, and no
    item outside the ring is written. *)
Theorem WorkItem_dequeue_unlinks (h : Heap) (pQueue : option nat) (l1 : list nat) (n : nat)
    (l2 : list nat) :
  ringRep h pQueue (l1 ++ n :: l2) ->
  exists h',
    dequeue pQueue n h = Ok (head (l1 ++ l2), h')
    /\ ringRep h' (head (l1 ++ l2)) (l1 ++ l2)
    /\ (l1 = [] -> head (l1 ++ l2) = head l2)
    /\ (l1 <> [] -> head (l1 ++ l2) = pQueue)
    /\ h' n = WorkItem_new
    /\ isQueued h' n = false
    /\ (forall p, p ∉ l1 ++ n :: l2 -> h' p = h p).
Proof.
  intros HR. destruct (dequeue_run h pQueue l1 n l2 HR) as (h' & Hrun & HR' & Hn & Hframe).
  exists h'. split_and!; try assumption.
  - intros ->. reflexivity.
  - intros Hne. destruct HR as (_ & -> & _). destruct l1; [ congruence | reflexivity ].
  - unfold isQueued. rewrite Hn. reflexivity.
Qed.

(** X3.  Queueing an item and dequeueing it again gives back the heap and the
    head pointer: queue on a ring [l] with a fresh item [n], then dequeue
    of [n], both complete and leave every pointer of every item as it was. *)
Theorem WorkItem_queue_dequeue_roundtrip (h : Heap) (pQueue : option nat) (l : list nat)
    (n : nat) :
  ringRep h pQueue l ->
  h n = WorkItem_new ->
  exists q1 h1 h2,
    queue pQueue n h = Ok (q1, h1)
    /\ dequeue q1 n h1 = Ok (pQueue, h2)
    /\ forall p, h2 p = h p.
Proof.
  intros HR Hn.
  assert (Hq : isQueued h n = false) by (unfold isQueued; rewrite Hn; reflexivity).
  assert (Hnl : n ∉ l).
  { intros Hin. rewrite (ringRep_isQueued h pQueue l n HR Hin) in Hq. discriminate Hq. }
  destruct (queue_run h pQueue l n HR Hq) as (h1 & Hrun1 & HR1 & Hframe1).
  destruct (dequeue_run h1 _ l n [] HR1) as (h2 & Hrun2 & HR2 & Hn2 & Hframe2).
  rewrite app_nil_r in Hrun2, HR2.
  assert (Hhd : head l = pQueue) by (destruct HR as (_ & -> & _); reflexivity).
  rewrite Hhd in Hrun2, HR2.
  exists (head (l ++ [n])), h1, h2. split_and!; [ exact Hrun1 | exact Hrun2 | ].
  intros p. destruct (decide (p = n)) as [ -> | Hpn ]; [ congruence | ].
  destruct (decide (p ∈ l)) as [ Hp | Hp ].
  - destruct (cyc_succ l p Hp) as [b Hb]. destruct (cyc_pred l p Hp) as [a Ha].
    destruct (ringRep_links h _ _ p b HR Hb) as [Hnx _].
    destruct (ringRep_links h _ _ a p HR Ha) as [_ Hlt].
    destruct (ringRep_links h2 _ _ p b HR2 Hb) as [Hnx2 _].
    destruct (ringRep_links h2 _ _ a p HR2 Ha) as [_ Hlt2].
    unfold getNext, getLast in *.
    destruct (h2 p) as [p2 n2], (h p) as [p0 n0]. cbn in *. congruence.
  - rewrite Hframe2.
    + apply Hframe1; assumption.
    + intros Hin. apply elem_of_app in Hin. destruct Hin as [ Hin | Hin ]; [ exact (Hp Hin) | ].
      apply list_elem_of_singleton in Hin. exact (Hpn Hin).
Qed.

End PtrFacts.

(** A heap with the ring of the items 1 and 2. *)
Definition exHeap : Ptr.Heap :=
  fun p => if Nat.eqb p 1 then Ptr.mkLinks (Some 2%nat) (Some 2%nat)
           else if Nat.eqb p 2 then Ptr.mkLinks (Some 1%nat) (Some 1%nat)
           else Ptr.WorkItem_new.

Lemma WorkItem_queue_links_at_tail_witness :
  exists h',
    Ptr.queue (Some 1%nat) 3 exHeap = Ok (Some 1%nat, h')
    /\ Ptr.ringRep h' (Some 1%nat) [1%nat; 2%nat; 3%nat]
    /\ Ptr.getLast h' 1 = Some 3%nat
    /\ Ptr.getNext h' 3 = Some 1%nat.
Proof.
  destruct (WorkItem_queue_links_at_tail exHeap (Some 1%nat) [1%nat; 2%nat] 3)
    as (h' & Hrun & HR & _ & _ & _ & Hl & _).
  - apply (bool_decide_unpack _). vm_compute. exact I.
  - reflexivity.
  - exists h'. destruct (Hl 1%nat eq_refl) as [H1 H2]. split_and!; assumption.
Defined.

Lemma WorkItem_dequeue_unlinks_witness :
  exists h',
    Ptr.dequeue (Some 1%nat) 1 exHeap = Ok (Some 2%nat, h')
    /\ Ptr.ringRep h' (Some 2%nat) [2%nat]
    /\ Ptr.isQueued h' 1 = false.
Proof.
  destruct (WorkItem_dequeue_unlinks exHeap (Some 1%nat) [] 1 [2%nat])
    as (h' & Hrun & HR & _ & _ & _ & Hq & _).
  - apply (bool_decide_unpack _). vm_compute. exact I.
  - exists h'. split_and!; assumption.
Defined.

Lemma WorkItem_queue_dequeue_roundtrip_witness :
  exists q1 h1 h2,
    Ptr.queue (Some 1%nat) 3 exHeap = Ok (q1, h1)
    /\ Ptr.dequeue q1 3 h1 = Ok (Some 1%nat, h2)
    /\ forall p, h2 p = exHeap p.
Proof.
  apply (WorkItem_queue_dequeue_roundtrip exHeap (Some 1%nat) [1%nat; 2%nat] 3).
  - apply (bool_decide_unpack _). vm_compute. exact I.
  - reflexivity.
Defined.

(** ** The queued frame only moves forward *)

Definition advancesQueued {A} (m : M A) : Prop :=
  forall s a s', m s = Ok (a, s') ->
    FrameId_le (mLastQueuedFrame s) (mLastQueuedFrame s').

Lemma queueFrame_advancesQueued bAlloc stack zorder id config :
  advancesQueued (queueFrame bAlloc stack zorder id config).
Proof.
  intros s a s' H. unfold queueFrame in H.
  apply bind_inv in H. destruct H as (q & s0 & Hq & H).
  apply gets_inv in Hq. destruct Hq as [-> ->].
  apply bind_inv in H. destruct H as (u & s1 & Hv & H).
  apply validateFutureFrame_inv in Hv. destruct Hv as [Hv ->].
  minv_all; use_pres mLastQueuedFrame; unfold FrameId_le; simpl in *.
  all: first [ congruence
             | match goal with
               | |- futureFrame ?a ?b = true =>
                   replace b with a by congruence; apply futureFrame_refl
               end ].
Qed.

Lemma queueDrop_advancesQueued id : advancesQueued (queueDrop id).
Proof.
  intros s a s' H. unfold queueDrop in H.
  minv_all; use_pres mLastQueuedFrame; unfold FrameId_le; simpl in *; congruence.
Qed.

Lemma doConsumeWork_queued b : preserves mLastQueuedFrame (doConsumeWork b).
Proof.
  unfold doConsumeWork, doConsumeFrame, doConsumeEvent, doAdvanceIssuedFrame,
    backend_consumeFrame.
  pres.
Qed.

Lemma run_op_advancesQueued fuel op : advancesQueued (run_op fuel op).
Proof.
  intros s a s' H. destruct op; simpl in H; unfold returning in H; minv.
  all: try match goal with
           | H : queueDrop _ _ = Ok _ |- _ => apply queueDrop_advancesQueued in H
           | H : queueFrame _ _ _ _ _ _ = Ok _ |- _ => apply queueFrame_advancesQueued in H
           end.
  all: try assumption.
  all: use_pres mLastQueuedFrame; unfold FrameId_le; simpl.
  all: try match goal with
           | H : consumeWork _ _ = Ok _ |- _ => apply doConsumeWork_queued in H
           end.
  all: first [ apply futureFrame_refl
             | match goal with
               | |- futureFrame ?a ?b = true =>
                   replace b with a by congruence; apply futureFrame_refl
               end ].
Qed.

(** X4.  Along every sequence of public operations lastQueuedFrame never moves
    to a FrameId behind the one it had: queueFrame and queueDrop assign it
    only after validateFutureFrame accepted the new id, and no other
    operation writes it. *)
Theorem lastQueuedFrame_never_decreases (fuel : nat) (ops : list Op) (s : DisplayQueue) :
  Sorted FrameId_le (map mLastQueuedFrame (s :: run_ops fuel ops s)).
Proof.
  revert s. induction ops as [ | op rest IH ]; intros s.
  - simpl. repeat constructor.
  - simpl. destruct (run_op fuel op s) as [[r s1] | | ] eqn:E.
    + specialize (IH s1). simpl in IH. constructor.
      * exact IH.
      * constructor. exact (run_op_advancesQueued fuel op s r s1 E).
    + simpl. repeat constructor.
    + simpl. repeat constructor.
Qed.

(** ** framePoolPeak is the high-water mark of framePoolUsed *)

(** framePoolUsed is not above framePoolPeak, and framePoolPeak is not
    below [c]. *)
Definition peakAbove (c : Z) (s : DisplayQueue) : Prop :=
  0 <= mFramePoolUsed s <= mFramePoolPeak s /\ c <= mFramePoolPeak s.

Ltac peak_step :=
  lazymatch goal with
  | |- keeps _ (bind _ _) => apply keeps_bind; [ | intros ? ]
  | |- keeps _ (ret _) => apply keeps_ret
  | |- keeps _ (gets _) => apply keeps_gets
  | |- keeps _ (HWCASSERT _) => apply keeps_assert
  | |- keeps _ (validateFutureFrame _ _) => apply keeps_assert
  | |- keeps _ (getFrame _) => apply keeps_getFrame
  | |- keeps (peakAbove _) (modify _) =>
      let h := fresh in apply keeps_modify; intros ? h; exact h
  | |- keeps (peakAbove _) (emit _) =>
      let h := fresh in apply keeps_modify; intros ? h; exact h
  | |- keeps (peakAbove _) (updFrame _ _) => unfold updFrame, setFrame
  | |- keeps _ (match ?x with _ => _ end) => destruct x
  | |- keeps _ _ => solve [ auto with keeps ]
  end.

Ltac peak_tac := repeat peak_step.

Lemma decr32_le z : 0 < z -> 0 <= decr32 z <= z - 1.
Proof.
  intros Hz. unfold decr32, u32. split.
  - apply Z.mod_pos_bound. lia.
  - apply Z.mod_le; lia.
Qed.

Lemma dropFrame_peak c i : keeps (peakAbove c) (dropFrame i).
Proof.
  intros s a s' HP H.
  unfold dropFrame, WorkItem_dequeue, isQueued, updFrame, setFrame in H.
  minv_all. dq_simpl_all. unfold peakAbove in *. dq_simpl.
  match goal with
  | Hc : (0 <? mFramePoolUsed s) = true |- _ => apply Z.ltb_lt in Hc; pose proof (decr32_le _ Hc)
  end.
  lia.
Qed.
#[export] Hint Resolve dropFrame_peak : keeps.

Lemma doReleaseFrame_peak c i : keeps (peakAbove c) (doReleaseFrame i).
Proof.
  intros s a s' HP H.
  unfold doReleaseFrame, updFrame, setFrame in H.
  minv_all; use_ro; dq_simpl_all. unfold peakAbove in *. dq_simpl.
  match goal with
  | Hc : (0 <? mFramePoolUsed s) = true |- _ => apply Z.ltb_lt in Hc; pose proof (decr32_le _ Hc)
  end.
  lia.
Qed.
#[export] Hint Resolve doReleaseFrame_peak : keeps.

Lemma ring_effective_peak c ring : keeps (peakAbove c) (ring_effective ring).
Proof.
  induction ring as [ | w rest IH ]; cbn [ring_effective]; unfold getEffectiveFrame; peak_tac.
Qed.
#[export] Hint Resolve ring_effective_peak : keeps.

Lemma doValidateQueue_peak c : keeps (peakAbove c) doValidateQueue.
Proof. unfold doValidateQueue. peak_tac. Qed.
#[export] Hint Resolve doValidateQueue_peak : keeps.

Lemma dropRedundant_loop_peak c older : forall b, keeps (peakAbove c) (dropRedundant_loop older b).
Proof.
  induction older as [ | w rest IH ]; intros b; cbn [dropRedundant_loop];
    unfold dropRedundant_step; peak_tac.
Qed.
#[export] Hint Resolve dropRedundant_loop_peak : keeps.

Lemma doDropRedundantFrames_peak c : keeps (peakAbove c) doDropRedundantFrames.
Proof. unfold doDropRedundantFrames, newerComplete_seed. peak_tac. Qed.
#[export] Hint Resolve doDropRedundantFrames_peak : keeps.

Lemma forEachWork_peak c body items :
  (forall w, keeps (peakAbove c) (body w)) -> keeps (peakAbove c) (forEachWork body items).
Proof. intros Hb. induction items as [ | w rest IH ]; cbn [forEachWork]; peak_tac. Qed.

Lemma doQueueWork_peak c w : keeps (peakAbove c) (doQueueWork w).
Proof.
  unfold doQueueWork, getEffectiveFrame, WorkItem_queue, isQueued, startWorker, signalWork.
  peak_tac.
Qed.
#[export] Hint Resolve doQueueWork_peak : keeps.

Lemma doFlush_loop_peak c fuel fi mc sc : keeps (peakAbove c) (doFlush_loop fuel fi mc sc).
Proof.
  induction fuel as [ | fuel IH ]; intros s a s' HP H; cbn [doFlush_loop] in H.
  - destruct (doFlush_continue fi mc sc s); [ discriminate | ].
    injection H as _ <-. exact HP.
  - destruct (doFlush_continue fi mc sc s).
    + destruct (mpWorker s) as [ w | ]; [ | discriminate ].
      revert s a s' HP H.
      change (keeps (peakAbove c) (signalWork w >> doFlush_loop fuel fi mc sc)).
      unfold signalWork. peak_tac.
    + injection H as _ <-. exact HP.
Qed.
#[export] Hint Resolve doFlush_loop_peak : keeps.

Lemma liftFrame_peak {A} c i (op : Frame -> Result (A * Frame)) :
  keeps (peakAbove c) (liftFrame i op).
Proof.
  intros s a s' HP H. apply liftFrame_inv in H. destruct H as (f & f' & _ & _ & ->).
  exact HP.
Qed.
#[export] Hint Resolve liftFrame_peak : keeps.

Lemma queueFrame_peak c bAlloc stack zorder id config :
  keeps (peakAbove c) (queueFrame bAlloc stack zorder id config).
Proof.
  unfold queueFrame, limitUsedFrames, findFree.
  apply keeps_bind; [ peak_tac | intros queued ].
  apply keeps_bind; [ peak_tac | intros _ ].
  apply keeps_bind; [ peak_tac | intros _ ].
  apply keeps_bind; [ peak_tac | intros pNewFrame ].
  destruct pNewFrame as [ i | ]; [ | peak_tac ].
  apply keeps_bind; [ peak_tac | intros f ].
  apply keeps_bind; [ peak_tac | intros _ ].
  intros s a s' HP H.
  apply bind_inv in H. destruct H as (u & s1 & Hm & H). apply modify_inv in Hm. subst s1.
  apply bind_inv in H. destruct H as (used & s1 & Hg & H). apply gets_inv in Hg.
  destruct Hg as [-> ->].
  apply bind_inv in H. destruct H as (peak & s1 & Hg & H). apply gets_inv in Hg.
  destruct Hg as [-> ->].
  apply bind_inv in H. destruct H as (u1 & s1 & Hif & H).
  dq_simpl_in Hif.
  assert (HP1 : peakAbove c s1).
  { pose proof (u32_range (mFramePoolUsed s + 1)) as Hr.
    unfold peakAbove in *. fold (incr32 (mFramePoolUsed s)) in Hr.
    destruct (mFramePoolPeak s <? incr32 (mFramePoolUsed s)) eqn:Hlt.
    - apply Z.ltb_lt in Hlt. apply modify_inv in Hif. subst s1. dq_simpl. lia.
    - apply Z.ltb_ge in Hlt. apply ret_inv in Hif. destruct Hif as [_ ->]. dq_simpl. lia. }
  revert H. match goal with
  | |- ?m s1 = Ok _ -> _ =>
      assert (K : keeps (peakAbove c) m); [ | intros H; exact (K s1 a s' HP1 H) ]
  end.
  peak_tac.
Qed.

Lemma run_op_peak c fuel op : keeps (peakAbove c) (run_op fuel op).
Proof.
  destruct op; cbn [run_op]; unfold returning.
  all: try (apply keeps_bind; [ | intros ?; apply keeps_ret ]).
  - unfold init. peak_tac.
  - unfold queueEvent. peak_tac.
  - apply queueFrame_peak.
  - unfold queueDrop, doAdvanceIssuedFrame. peak_tac.
  - unfold dropAllFrames. peak_tac. apply forEachWork_peak. intros w.
    unfold onUnlockedPoolFrame. peak_tac.
  - unfold dropRedundantFrames. peak_tac.
  - unfold consumeWork, doConsumeWork, doConsumeFrame, doConsumeEvent, backend_consumeFrame,
      doAdvanceIssuedFrame, lockFrameForDisplay, unlockFrameForDisplay, WorkItem_dequeue,
      isQueued.
    peak_tac.
  - unfold flush, getWorkerTid, doFlush, doInvalidateFrames. peak_tac.
    all: apply forEachWork_peak; intros w; unfold onUnlockedPoolFrame; peak_tac.
  - unfold consumerBlocked. peak_tac.
  - unfold consumerUnblocked. peak_tac.
  - unfold notifyReady, signalWork. peak_tac.
  - unfold releaseFrame. peak_tac.
Qed.

(** X5.  framePoolPeak is a high-water mark.  In a state where framePoolUsed is
    not above framePoolPeak, every public operation that completes leaves
    framePoolUsed not above framePoolPeak, and framePoolPeak not below its
    value before the operation. *)
Theorem framePoolPeak_high_water (fuel : nat) (op : Op) (s : DisplayQueue) (r : Ret)
    (s' : DisplayQueue) :
  0 <= mFramePoolUsed s <= mFramePoolPeak s ->
  run_op fuel op s = Ok (r, s') ->
  0 <= mFramePoolUsed s' <= mFramePoolPeak s'
  /\ mFramePoolPeak s <= mFramePoolPeak s'.
Proof.
  intros HU H.
  apply (run_op_peak (mFramePoolPeak s) fuel op s r s'); [ | exact H ].
  split; [ exact HU | lia ].
Qed.

(** ** The counters of queued work follow the ring

    doValidateQueue counts the items and the frames of the ring and, in
    lines that are compiled out, compares the counts with mQueuedWork and
    mQueuedFrames; dump asserts the same.  The comparison is between 32-bit
    values. *)

(** Struct, on the indices of the pool and the frames of the ring. *)
Definition StructList (s : DisplayQueue) : Prop :=
  Forall (fun i =>
            (mbLinked (frameAt s i) = true -> i ∈ frame_ids (mpWorkQueue s))
            /\ mType (frameAt s i) = eFT_DISPLAY_QUEUE)
         (seq 0 (length (maFrames s)))
  /\ Forall (fun i => (i < length (maFrames s))%nat) (frame_ids (mpWorkQueue s)).

Lemma Struct_StructList s : Struct s <-> StructList s.
Proof.
  unfold Struct, StructList. split.
  - intros (HL & HP & HR). split.
    + apply Forall_forall. intros i Hi. apply elem_of_seq in Hi.
      destruct (lookup_lt_is_Some_2 (maFrames s) i ltac:(lia)) as [f Hf].
      rewrite (frameAt_lookup s i f Hf). split; [ exact (HL i f Hf) | exact (HP i f Hf) ].
    + apply Forall_forall. exact HR.
  - intros [H1 H2]. rewrite Forall_forall in H1. rewrite Forall_forall in H2.
    assert (Hi : forall i f, maFrames s !! i = Some f -> i ∈ seq 0 (length (maFrames s))).
    { intros i f Hf. apply elem_of_seq. apply lookup_lt_Some in Hf. lia. }
    split_and!.
    + intros i f Hf Hl. apply (H1 i (Hi i f Hf)). rewrite (frameAt_lookup s i f Hf). exact Hl.
    + intros i f Hf. rewrite <- (frameAt_lookup s i f Hf). apply (H1 i (Hi i f Hf)).
    + exact H2.
Qed.

#[export] Instance StructList_dec s : Decision (StructList s).
Proof. unfold StructList. apply _. Defined.

#[export] Instance Struct_dec s : Decision (Struct s).
Proof.
  destruct (decide (StructList s)) as [ H | H ].
  - left. apply Struct_StructList. exact H.
  - right. intros HS. apply H. apply Struct_StructList. exact HS.
Defined.

Definition countsOk (s : DisplayQueue) : Prop :=
  u32 (mQueuedWork s) = u32 (Z.of_nat (length (mpWorkQueue s)))
  /\ u32 (mQueuedFrames s) = u32 (Z.of_nat (ring_frames (mpWorkQueue s))).

#[export] Instance countsOk_dec s : Decision (countsOk s).
Proof. unfold countsOk. apply _. Defined.

(** The ring and the pool fit together and the counters follow the ring. *)
Definition ringCounted (s : DisplayQueue) : Prop := Struct s /\ countsOk s.

Lemma ringCounted_updFrame i g :
  (forall f, mbLinked (g f) = mbLinked f /\ mType (g f) = mType f) ->
  keeps ringCounted (updFrame i g).
Proof.
  intros Hg s b s' [HS HC] H.
  destruct (good_updFrame i g Hg s b s' HS H) as [HS' _]. split; [ exact HS' | ].
  unfold updFrame, setFrame in H. minv. exact HC.
Qed.

Lemma ringCounted_liftFrame_set bAlloc stack zorder id config i :
  keeps ringCounted (liftFrame i (Frame_set bAlloc stack zorder id config)).
Proof.
  intros s b s' [HS HC] H.
  destruct (liftFrame_set_good bAlloc stack zorder id config i s b s' HS H) as [HS' _].
  split; [ exact HS' | ].
  apply liftFrame_inv in H. destruct H as (f & f' & _ & _ & ->). exact HC.
Qed.
#[export] Hint Resolve ringCounted_liftFrame_set : keeps.

Lemma ring_remove_length w ring :
  w ∈ ring -> length (ring_remove w ring) = pred (length ring) /\ (0 < length ring)%nat.
Proof.
  induction ring as [ | x rest IH ]; intros Hin.
  - apply elem_of_nil in Hin. contradiction.
  - cbn [ring_remove]. destruct (WorkItem_eqb w x) eqn:E.
    + cbn. split; [ reflexivity | lia ].
    + apply elem_of_cons in Hin. destruct Hin as [ -> | Hin ].
      * rewrite WorkItem_eqb_refl in E. discriminate E.
      * destruct (IH Hin) as [Hl Hp]. cbn [length]. split; lia.
Qed.

(** dropFrame takes the frame out of the ring and counts it out of
    mQueuedWork and mQueuedFrames. *)
Lemma dropFrame_counted i : keeps ringCounted (dropFrame i).
Proof.
  intros s a s' [HS HC] H.
  destruct (dropFrame_good i s a s' HS H) as [HS' _]. split; [ exact HS' | ].
  unfold dropFrame, WorkItem_dequeue, isQueued, updFrame, setFrame in H.
  minv_all. dq_simpl_all. pool_norm.
  match goal with
  | Hf : maFrames s !! i = Some ?f, Hl : mbLinked ?f = true |- _ =>
      pose proof (proj1 HS i f Hf Hl) as Hin
  end.
  destruct (frame_ids_remove_frame i _ Hin) as (Hlen & Hpos & _ & _).
  apply elem_of_frame_ids in Hin.
  destruct (ring_remove_length _ _ Hin) as [Hlen' Hpos'].
  destruct HC as [HW HF]. unfold countsOk, ring_frames in *. dq_simpl.
  rewrite Hlen, Hlen'. split; u32_arith.
Qed.
#[export] Hint Resolve dropFrame_counted : keeps.

Ltac counted_step :=
  lazymatch goal with
  | |- keeps _ (bind _ _) => apply keeps_bind; [ | intros ? ]
  | |- keeps _ (ret _) => apply keeps_ret
  | |- keeps _ (gets _) => apply keeps_gets
  | |- keeps _ (HWCASSERT _) => apply keeps_assert
  | |- keeps _ (validateFutureFrame _ _) => apply keeps_assert
  | |- keeps _ (getFrame _) => apply keeps_getFrame
  | |- keeps ringCounted (modify _) =>
      let h := fresh in apply keeps_modify; intros ? h; exact h
  | |- keeps ringCounted (emit _) =>
      let h := fresh in apply keeps_modify; intros ? h; exact h
  | |- keeps ringCounted (updFrame _ _) =>
      apply ringCounted_updFrame; intros ?; split; reflexivity
  | |- keeps _ (match ?x with _ => _ end) => destruct x
  | |- keeps _ _ => solve [ auto with keeps ]
  end.

Ltac counted_tac := repeat counted_step.

Lemma ring_effective_counted ring : keeps ringCounted (ring_effective ring).
Proof.
  induction ring as [ | w rest IH ]; cbn [ring_effective]; unfold getEffectiveFrame;
    counted_tac.
Qed.
#[export] Hint Resolve ring_effective_counted : keeps.

Lemma doValidateQueue_counted : keeps ringCounted doValidateQueue.
Proof. unfold doValidateQueue. counted_tac. Qed.
#[export] Hint Resolve doValidateQueue_counted : keeps.

Lemma dropRedundant_loop_counted older :
  forall b, keeps ringCounted (dropRedundant_loop older b).
Proof.
  induction older as [ | w rest IH ]; intros b; cbn [dropRedundant_loop];
    unfold dropRedundant_step; counted_tac.
Qed.
#[export] Hint Resolve dropRedundant_loop_counted : keeps.

Lemma doDropRedundantFrames_counted : keeps ringCounted doDropRedundantFrames.
Proof. unfold doDropRedundantFrames, newerComplete_seed. counted_tac. Qed.
#[export] Hint Resolve doDropRedundantFrames_counted : keeps.

Lemma forEachWork_counted body items :
  (forall w, keeps ringCounted (body w)) -> keeps ringCounted (forEachWork body items).
Proof. intros Hb. induction items as [ | w rest IH ]; cbn [forEachWork]; counted_tac. Qed.

Lemma doReleaseFrame_counted i : keeps ringCounted (doReleaseFrame i).
Proof. unfold doReleaseFrame. counted_tac. Qed.
#[export] Hint Resolve doReleaseFrame_counted : keeps.

Lemma doFlush_loop_counted fuel fi mc sc : keeps ringCounted (doFlush_loop fuel fi mc sc).
Proof.
  induction fuel as [ | fuel IH ]; intros s a s' HP H; cbn [doFlush_loop] in H.
  - destruct (doFlush_continue fi mc sc s); [ discriminate | ].
    injection H as _ <-. exact HP.
  - destruct (doFlush_continue fi mc sc s).
    + destruct (mpWorker s) as [ w | ]; [ | discriminate ].
      revert s a s' HP H.
      change (keeps ringCounted (signalWork w >> doFlush_loop fuel fi mc sc)).
      unfold signalWork. counted_tac.
    + injection H as _ <-. exact HP.
Qed.
#[export] Hint Resolve doFlush_loop_counted : keeps.

(** doQueueWork from the call of WorkItem::queue on: the item is linked at
    the tail and counted in. *)
Lemma queue_window_counted w (rest : M unit) :
  keeps ringCounted rest ->
  keeps ringCounted
    (WorkItem_queue w >>
     modify (fun s => with_queuedWork (incr32 (mQueuedWork s)) s) >>
     (if isFrameItem w
      then modify (fun s => with_queuedFrames (incr32 (mQueuedFrames s)) s)
      else ret tt) >>
     rest).
Proof.
  intros Hrest s a s' [HS HC] H.
  apply bind_inv in H. destruct H as (u1 & s1 & Hq & H).
  apply bind_inv in H. destruct H as (u2 & s2 & Hm1 & H).
  apply bind_inv in H. destruct H as (u3 & s3 & Hm2 & H).
  apply (Hrest s3 a s'); [ | exact H ]. clear H.
  apply modify_inv in Hm1. subst s2.
  destruct w as [ i | e ]; cbn [isFrameItem] in Hm2.
  - destruct (WorkItem_queue_frame_shifts i s u1 s1 HS Hq) as [HS1 _].
    apply modify_inv in Hm2. subst s3. split; [ exact HS1 | ].
    unfold WorkItem_queue, isQueued, updFrame, setFrame in Hq. minv_all. dq_simpl_all.
    destruct HC as [HW HF]. unfold countsOk, ring_frames in *. dq_simpl.
    rewrite frame_ids_app, (frame_ids_frame i []), !length_app.
    change (frame_ids []) with (@nil nat). cbn [length]. split; u32_arith.
  - destruct (WorkItem_queue_event_good e s u1 s1 HS Hq) as [HS1 _].
    apply ret_inv in Hm2. destruct Hm2 as [_ ->]. split; [ exact HS1 | ].
    unfold WorkItem_queue, isQueued in Hq. minv_all. dq_simpl_all.
    destruct HC as [HW HF]. unfold countsOk, ring_frames in *. dq_simpl.
    rewrite frame_ids_snoc_event, length_app. cbn [length]. split; u32_arith.
Qed.

Lemma doQueueWork_counted w : keeps ringCounted (doQueueWork w).
Proof.
  unfold doQueueWork.
  do 6 (apply keeps_bind; [ unfold getEffectiveFrame; counted_tac | intros ? ]).
  apply queue_window_counted. unfold startWorker, signalWork. counted_tac.
Qed.
#[export] Hint Resolve doQueueWork_counted : keeps.

(** doConsumeFrame from the reading of the counters on: the frame is
    unlinked and counted out. *)
Lemma dequeue_window_counted j (rest : M unit) :
  keeps ringCounted rest ->
  keeps ringCounted
    (let! qf := gets mQueuedFrames in
     let! qw := gets mQueuedWork in
     HWCASSERT (0 <? qf) >>
     HWCASSERT (0 <? qw) >>
     WorkItem_dequeue (WFrame j) >>
     modify (with_queuedFrames (decr32 qf)) >>
     modify (with_queuedWork (decr32 qw)) >>
     rest).
Proof.
  intros Hrest s a s' [HS HC] H.
  apply bind_inv in H. destruct H as (qf & s0 & Hg & H).
  apply gets_inv in Hg. destruct Hg as [-> ->].
  apply bind_inv in H. destruct H as (qw & s0 & Hg & H).
  apply gets_inv in Hg. destruct Hg as [-> ->].
  apply bind_inv in H. destruct H as (u & s0 & Hg & H).
  apply HWCASSERT_inv in Hg. destruct Hg as [_ ->].
  apply bind_inv in H. destruct H as (u0 & s0 & Hg & H).
  apply HWCASSERT_inv in Hg. destruct Hg as [_ ->].
  apply bind_inv in H. destruct H as (u1 & s1 & Hd & H).
  apply bind_inv in H. destruct H as (u2 & s2 & Hm1 & H).
  apply bind_inv in H. destruct H as (u3 & s3 & Hm2 & H).
  apply (Hrest s3 a s'); [ | exact H ]. clear H.
  apply modify_inv in Hm1. apply modify_inv in Hm2. subst s2 s3.
  destruct (WorkItem_dequeue_frame_shifts j s u1 s1 HS Hd) as [HS1 _].
  split; [ exact HS1 | ].
  unfold WorkItem_dequeue, isQueued, updFrame, setFrame in Hd. minv_all. dq_simpl_all.
  pool_norm.
  match goal with
  | Hf : maFrames s !! j = Some ?f, Hl : mbLinked ?f = true |- _ =>
      pose proof (proj1 HS j f Hf Hl) as Hin
  end.
  destruct (frame_ids_remove_frame j _ Hin) as (Hlen & Hpos & _ & _).
  apply elem_of_frame_ids in Hin.
  destruct (ring_remove_length _ _ Hin) as [Hlen' Hpos'].
  destruct HC as [HW HF]. unfold countsOk, ring_frames in *. dq_simpl.
  rewrite Hlen, Hlen'. split; u32_arith.
Qed.

Lemma doConsumeFrame_counted b i : keeps ringCounted (doConsumeFrame b i).
Proof.
  unfold doConsumeFrame, lockFrameForDisplay, unlockFrameForDisplay.
  do 14 (apply keeps_bind; [ counted_tac | intros ? ]).
  match goal with
  | |- keeps _ (match ?x with _ => _ end) => destruct x
  end; [ | counted_tac ].
  apply dequeue_window_counted.
  unfold backend_consumeFrame, doAdvanceIssuedFrame. counted_tac.
Qed.
#[export] Hint Resolve doConsumeFrame_counted : keeps.

(** doConsumeEvent on the event at the head of the ring. *)
Lemma doConsumeEvent_counted e rest s u s' :
  mpWorkQueue s = WEvent e :: rest ->
  ringCounted s ->
  doConsumeEvent e s = Ok (u, s') ->
  ringCounted s'.
Proof.
  intros Hring [HS HC] H.
  unfold doConsumeEvent, WorkItem_dequeue, isQueued, doAdvanceIssuedFrame in H.
  minv_all; use_ro; dq_simpl_all.
  assert (Hrem : ring_remove (WEvent e) (mpWorkQueue s) = rest).
  { rewrite Hring. cbn [ring_remove]. rewrite WorkItem_eqb_refl. reflexivity. }
  split.
  - revert HS. apply Struct_same; dq_simpl; [ | reflexivity ].
    apply frame_ids_remove_event.
  - destruct HC as [HW HF]. unfold countsOk, ring_frames in *. dq_simpl.
    rewrite frame_ids_remove_event. rewrite Hrem.
    rewrite Hring in HW. cbn [length] in HW. split; [ u32_arith | exact HF ].
Qed.

Lemma doConsumeWork_counted b : keeps ringCounted (doConsumeWork b).
Proof.
  unfold doConsumeWork. apply keeps_bind; [ counted_tac | intros _ ].
  intros s a s' HQ H.
  apply bind_inv in H. destruct H as (ring & s0 & Hg & H).
  apply gets_inv in Hg. destruct Hg as [-> ->].
  destruct (mpWorkQueue s) as [ | pWork rest ] eqn:Hring.
  - revert H. match goal with
    | |- ?m s = Ok _ -> _ =>
        assert (K : keeps ringCounted m) by counted_tac; intros H; exact (K s a s' HQ H)
    end.
  - apply bind_inv in H. destruct H as (qw & s0 & Hg & H).
    apply gets_inv in Hg. destruct Hg as [-> ->].
    apply bind_inv in H. destruct H as (u & s0 & Hg & H).
    apply HWCASSERT_inv in Hg. destruct Hg as [_ ->].
    apply bind_inv in H. destruct H as (u1 & s1 & Hc & H).
    apply ret_inv in H. destruct H as [_ ->].
    destruct pWork as [ i | e ].
    + exact (doConsumeFrame_counted b i s u1 s1 HQ Hc).
    + exact (doConsumeEvent_counted e rest s u1 s1 Hring HQ Hc).
Qed.
#[export] Hint Resolve doConsumeWork_counted : keeps.

Lemma queueFrame_counted bAlloc stack zorder id config :
  keeps ringCounted (queueFrame bAlloc stack zorder id config).
Proof. unfold queueFrame, limitUsedFrames, findFree. counted_tac. Qed.

Lemma queueDrop_counted id : keeps ringCounted (queueDrop id).
Proof.
  unfold queueDrop.
  apply keeps_bind; [ counted_tac | intros queued ].
  apply keeps_bind; [ counted_tac | intros _ ].
  intros s a s' HQ H.
  apply bind_inv in H. destruct H as (ring & s0 & Hg & H).
  apply gets_inv in Hg. destruct Hg as [-> ->].
  apply bind_inv in H. destruct H as (u & s1 & Hm & H).
  assert (HQ1 : ringCounted s1).
  { destruct (last (mpWorkQueue s)) as [ [ i | e ] | ] eqn:Hlast.
    - revert Hm. apply ringCounted_updFrame; [ | exact HQ ]. intros f. split; reflexivity.
    - apply modify_inv in Hm. subst s1. destruct HQ as [HS [HW HF]].
      assert (Hids : frame_ids (removelast (mpWorkQueue s) ++ [WEvent (Event_withEffective id e)])
                     = frame_ids (mpWorkQueue s)).
      { rewrite frame_ids_snoc_event. rewrite (last_snoc_inv _ _ Hlast) at 2.
        rewrite frame_ids_snoc_event. reflexivity. }
      assert (Hlen : length (removelast (mpWorkQueue s) ++ [WEvent (Event_withEffective id e)])
                     = length (mpWorkQueue s)).
      { rewrite (last_snoc_inv _ _ Hlast) at 2. rewrite !length_app. reflexivity. }
      split.
      + revert HS. apply Struct_same; dq_simpl; [ exact Hids | reflexivity ].
      + unfold countsOk, ring_frames in *. dq_simpl. rewrite Hids, Hlen. split; assumption.
    - revert Hm. unfold doAdvanceIssuedFrame.
      match goal with
      | |- ?m s = Ok _ -> _ =>
          assert (K : keeps ringCounted m) by counted_tac; intros Hm; exact (K s u s1 HQ Hm)
      end. }
  revert H. match goal with
  | |- ?m s1 = Ok _ -> _ =>
      assert (K : keeps ringCounted m) by counted_tac; intros H; exact (K s1 a s' HQ1 H)
  end.
Qed.

Lemma run_op_counted fuel op : keeps ringCounted (run_op fuel op).
Proof.
  destruct op; cbn [run_op]; unfold returning.
  all: try (apply keeps_bind; [ | intros ?; apply keeps_ret ]).
  - unfold init. counted_tac.
  - unfold queueEvent. counted_tac.
  - apply queueFrame_counted.
  - apply queueDrop_counted.
  - unfold dropAllFrames. counted_tac. apply forEachWork_counted. intros w.
    unfold onUnlockedPoolFrame. counted_tac.
  - unfold dropRedundantFrames. counted_tac.
  - unfold consumeWork. counted_tac.
  - unfold flush, getWorkerTid, doFlush, doInvalidateFrames. counted_tac.
    all: apply forEachWork_counted; intros w; unfold onUnlockedPoolFrame; counted_tac.
  - unfold consumerBlocked. counted_tac.
  - unfold consumerUnblocked. counted_tac.
  - unfold notifyReady, signalWork. counted_tac.
  - unfold releaseFrame. counted_tac.
Qed.

Lemma DisplayQueue_new_counted poolCount poolLimit flags :
  ringCounted (DisplayQueue_new poolCount poolLimit flags).
Proof. split; [ apply DisplayQueue_new_Struct | split; reflexivity ]. Qed.

(** X6.  The counters of queued work follow the ring.  From a state in which
    the ring and the pool fit together and mQueuedWork and mQueuedFrames
    are, as 32-bit values, the number of items and of frames in the ring,
    which is what a new queue gives, every state a sequence of public
    operations reaches has its counters equal to the counts of its ring:
    the comparisons that are compiled out of doValidateQueue never fail,
    whichever operation fails or succeeds. *)
Theorem queued_counters_follow_ring (fuel : nat) (ops : list Op) (s : DisplayQueue) :
  Struct s -> countsOk s ->
  Forall countsOk (run_ops fuel ops s).
Proof.
  intros HS HC. assert (HQ : ringCounted s) by (split; assumption). clear HS HC.
  revert s HQ. induction ops as [ | op rest IH ]; intros s HQ; cbn [run_ops]; [ constructor | ].
  destruct (run_op fuel op s) as [[r s1] | | ] eqn:E; try constructor.
  - exact (proj2 (run_op_counted fuel op s r s1 HQ E)).
  - apply IH. exact (run_op_counted fuel op s r s1 HQ E).
Qed.

Lemma queued_counters_follow_ring_witness :
  Forall countsOk
    (run_ops 0 [OpQueueFrame true [exLayer] 0 (mkFrameId 1 1) 0;
                OpQueueEvent 7;
                OpQueueFrame false [exLayer; exLayer] 0 (mkFrameId 2 2) 0;
                OpQueueFrame true [exLayer; exLayer] 0 (mkFrameId 2 2) 0;
                OpQueueDrop (mkFrameId 3 3);
                OpDropRedundantFrames;
                OpConsumeWork false;
                OpConsumeWork true;
                OpConsumeWork true;
                OpReleaseFrame 1;
                OpDropAllFrames] exQueue).
Proof.
  apply queued_counters_follow_ring.
  - apply (bool_decide_unpack _). vm_compute. exact I.
  - apply (bool_decide_unpack _). vm_compute. exact I.
Defined.

Lemma framePoolPeak_high_water_witness :
  0 <= mFramePoolUsed exQueue1 <= mFramePoolPeak exQueue1
  /\ mFramePoolPeak exQueue <= mFramePoolPeak exQueue1.
Proof.
  apply (framePoolPeak_high_water 0 (OpQueueFrame true [exLayer] 0 (mkFrameId 1 1) 0)
           exQueue (RInt OK) exQueue1).
  - vm_compute. split; discriminate.
  - vm_compute. reflexivity.
Defined.

(** ** Events are neither lost nor reordered *)

(** The ids of the events handed to the backend, in the order of the calls. *)
Definition consumedEvents (log : list Effect) : list Z :=
  omap (fun x => match x with BackendConsumeEvent id => Some id | _ => None end) log.

(** The ids of the events deleted, in the order of the deletions. *)
Definition deletedEvents (log : list Effect) : list Z :=
  omap (fun x => match x with DeleteEvent id => Some id | _ => None end) log.

(** The events handed to the backend followed by the events still queued
    are [c], and the events deleted are the events handed to the backend. *)
Definition eventsAre (c : list Z) (s : DisplayQueue) : Prop :=
  consumedEvents (mLog s) ++ eventIds (mpWorkQueue s) = c
  /\ deletedEvents (mLog s) = consumedEvents (mLog s).

#[export] Instance eventsAre_dec c s : Decision (eventsAre c s).
Proof. unfold eventsAre. apply _. Defined.


Lemma eventIds_app r1 r2 : eventIds (r1 ++ r2) = eventIds r1 ++ eventIds r2.
Proof. unfold eventIds. rewrite ring_events_app. apply map_app. Qed.

Lemma ring_events_remove_frame i ring :
  ring_events (ring_remove (WFrame i) ring) = ring_events ring.
Proof.
  induction ring as [ | w rest IH ]; [ reflexivity | ].
  cbn [ring_remove]. destruct (WorkItem_eqb (WFrame i) w) eqn:E.
  - apply WorkItem_eqb_eq in E. subst w. reflexivity.
  - destruct w as [ j | e ].
    + change (ring_events (WFrame j :: ring_remove (WFrame i) rest))
        with (ring_events (ring_remove (WFrame i) rest)).
      exact IH.
    + change (ring_events (WEvent e :: ring_remove (WFrame i) rest))
        with (e :: ring_events (ring_remove (WFrame i) rest)).
      rewrite IH. reflexivity.
Qed.

Lemma consumedEvents_snoc log x :
  consumedEvents (log ++ [x])
  = consumedEvents log ++ match x with BackendConsumeEvent id => [id] | _ => [] end.
Proof. unfold consumedEvents. rewrite omap_app. destruct x; reflexivity. Qed.

Lemma deletedEvents_snoc log x :
  deletedEvents (log ++ [x])
  = deletedEvents log ++ match x with DeleteEvent id => [id] | _ => [] end.
Proof. unfold deletedEvents. rewrite omap_app. destruct x; reflexivity. Qed.

Lemma eventsAre_emit c x :
  match x with BackendConsumeEvent _ | DeleteEvent _ => False | _ => True end ->
  keeps (eventsAre c) (emit x).
Proof.
  intros Hx. apply keeps_modify. intros s [H1 H2]. unfold eventsAre. dq_simpl.
  rewrite consumedEvents_snoc, deletedEvents_snoc.
  destruct x; try contradiction; rewrite !app_nil_r; split; assumption.
Qed.

Ltac events_step :=
  lazymatch goal with
  | |- keeps _ (bind _ _) => apply keeps_bind; [ | intros ? ]
  | |- keeps _ (ret _) => apply keeps_ret
  | |- keeps _ (gets _) => apply keeps_gets
  | |- keeps _ (HWCASSERT _) => apply keeps_assert
  | |- keeps _ (validateFutureFrame _ _) => apply keeps_assert
  | |- keeps _ (getFrame _) => apply keeps_getFrame
  | |- keeps (eventsAre _) (modify _) =>
      let h := fresh in apply keeps_modify; intros ? h; exact h
  | |- keeps (eventsAre _) (emit _) => apply eventsAre_emit; exact I
  | |- keeps (eventsAre _) (updFrame _ _) => unfold updFrame, setFrame
  | |- keeps _ (match ?x with _ => _ end) => destruct x
  | |- keeps _ _ => solve [ auto with keeps ]
  end.

Ltac events_tac := repeat events_step.

Lemma WorkItem_dequeue_frame_events c i : keeps (eventsAre c) (WorkItem_dequeue (WFrame i)).
Proof.
  intros s a s' [H1 H2] H.
  revert H1 H2.
  unfold WorkItem_dequeue, isQueued, updFrame, setFrame in H. minv_all. dq_simpl_all.
  intros H1 H2.
  unfold eventsAre, eventIds in *. dq_simpl. rewrite ring_events_remove_frame.
  split; assumption.
Qed.
#[export] Hint Resolve WorkItem_dequeue_frame_events : keeps.

Lemma WorkItem_queue_frame_events c i : keeps (eventsAre c) (WorkItem_queue (WFrame i)).
Proof.
  intros s a s' [H1 H2] H.
  revert H1 H2.
  unfold WorkItem_queue, isQueued, updFrame, setFrame in H. minv_all. dq_simpl_all.
  intros H1 H2.
  unfold eventsAre in *. dq_simpl. rewrite eventIds_app.
  change (eventIds [WFrame i]) with (@nil Z). rewrite app_nil_r. split; assumption.
Qed.
#[export] Hint Resolve WorkItem_queue_frame_events : keeps.

Lemma liftFrame_events {A} c i (op : Frame -> Result (A * Frame)) :
  keeps (eventsAre c) (liftFrame i op).
Proof.
  intros s a s' HP H. apply liftFrame_inv in H. destruct H as (f & f' & _ & _ & ->).
  exact HP.
Qed.
#[export] Hint Resolve liftFrame_events : keeps.

Lemma ring_effective_events c ring : keeps (eventsAre c) (ring_effective ring).
Proof.
  induction ring as [ | w rest IH ]; cbn [ring_effective]; unfold getEffectiveFrame;
    events_tac.
Qed.
#[export] Hint Resolve ring_effective_events : keeps.

Lemma doValidateQueue_events c : keeps (eventsAre c) doValidateQueue.
Proof. unfold doValidateQueue. events_tac. Qed.
#[export] Hint Resolve doValidateQueue_events : keeps.

Lemma dropFrame_events c i : keeps (eventsAre c) (dropFrame i).
Proof. unfold dropFrame. events_tac. Qed.
#[export] Hint Resolve dropFrame_events : keeps.

Lemma dropRedundant_loop_events c older :
  forall b, keeps (eventsAre c) (dropRedundant_loop older b).
Proof.
  induction older as [ | w rest IH ]; intros b; cbn [dropRedundant_loop];
    unfold dropRedundant_step; events_tac.
Qed.
#[export] Hint Resolve dropRedundant_loop_events : keeps.

Lemma doDropRedundantFrames_events c : keeps (eventsAre c) doDropRedundantFrames.
Proof. unfold doDropRedundantFrames, newerComplete_seed. events_tac. Qed.
#[export] Hint Resolve doDropRedundantFrames_events : keeps.


Lemma doReleaseFrame_events c i : keeps (eventsAre c) (doReleaseFrame i).
Proof. unfold doReleaseFrame. events_tac. Qed.
#[export] Hint Resolve doReleaseFrame_events : keeps.

Lemma doFlush_loop_events c fuel fi mc sc : keeps (eventsAre c) (doFlush_loop fuel fi mc sc).
Proof.
  induction fuel as [ | fuel IH ]; intros s a s' HP H; cbn [doFlush_loop] in H.
  - destruct (doFlush_continue fi mc sc s); [ discriminate | ].
    injection H as _ <-. exact HP.
  - destruct (doFlush_continue fi mc sc s).
    + destruct (mpWorker s) as [ w | ]; [ | discriminate ].
      revert s a s' HP H.
      change (keeps (eventsAre c) (signalWork w >> doFlush_loop fuel fi mc sc)).
      unfold signalWork. events_tac.
    + injection H as _ <-. exact HP.
Qed.
#[export] Hint Resolve doFlush_loop_events : keeps.

Lemma doQueueWork_frame_events c i : keeps (eventsAre c) (doQueueWork (WFrame i)).
Proof.
  unfold doQueueWork, getEffectiveFrame, startWorker, signalWork. cbn [isFrameItem].
  events_tac.
Qed.
#[export] Hint Resolve doQueueWork_frame_events : keeps.

Lemma doConsumeFrame_events c b i : keeps (eventsAre c) (doConsumeFrame b i).
Proof.
  unfold doConsumeFrame, lockFrameForDisplay, unlockFrameForDisplay, backend_consumeFrame,
    doAdvanceIssuedFrame.
  events_tac.
Qed.
#[export] Hint Resolve doConsumeFrame_events : keeps.


(** doConsumeEvent hands the event at the head of the ring to the backend,
    takes it out of the ring and deletes it. *)
Lemma doConsumeEvent_events c e rest s u s' :
  mpWorkQueue s = WEvent e :: rest ->
  eventsAre c s -> doConsumeEvent e s = Ok (u, s') -> eventsAre c s'.
Proof.
  intros Hring [H1 H2] H. revert H1 H2 Hring.
  unfold doConsumeEvent, WorkItem_dequeue, isQueued, doAdvanceIssuedFrame in H.
  minv_all; use_ro; dq_simpl_all.
  intros H1 H2 Hring.
  unfold eventsAre in *. dq_simpl.
  rewrite !consumedEvents_snoc, !deletedEvents_snoc, !app_nil_r.
  rewrite Hring in *. cbn [ring_remove]. rewrite WorkItem_eqb_refl.
  cbn [eventIds ring_events omap map] in H1. split.
  - rewrite <- app_assoc. exact H1.
  - rewrite H2. reflexivity.
Qed.

Lemma doConsumeWork_events c b : keeps (eventsAre c) (doConsumeWork b).
Proof.
  unfold doConsumeWork. apply keeps_bind; [ events_tac | intros _ ].
  intros s a s' HQ H.
  apply bind_inv in H. destruct H as (ring & s0 & Hg & H).
  apply gets_inv in Hg. destruct Hg as [-> ->].
  destruct (mpWorkQueue s) as [ | pWork rest ] eqn:Hring.
  - revert H. match goal with
    | |- ?m s = Ok _ -> _ =>
        assert (K : keeps (eventsAre c) m) by events_tac; intros H; exact (K s a s' HQ H)
    end.
  - apply bind_inv in H. destruct H as (qw & s0 & Hg & H).
    apply gets_inv in Hg. destruct Hg as [-> ->].
    apply bind_inv in H. destruct H as (u & s0 & Hg & H).
    apply HWCASSERT_inv in Hg. destruct Hg as [_ ->].
    apply bind_inv in H. destruct H as (u1 & s1 & Hc & H).
    apply ret_inv in H. destruct H as [_ ->].
    destruct pWork as [ i | e ].
    + exact (doConsumeFrame_events c b i s u1 s1 HQ Hc).
    + exact (doConsumeEvent_events c e rest s u1 s1 Hring HQ Hc).
Qed.
#[export] Hint Resolve doConsumeWork_events : keeps.



(** The state after the operations of a sequence that complete. *)
Definition finalState (fuel : nat) (ops : list Op) (s : DisplayQueue) : DisplayQueue :=
  match last (run_ops fuel ops s) with
  | Some s' => s'
  | None => s
  end.




Example events_in_queue_order_example :
  consumedEvents (mLog (finalState 0 [OpQueueEvent 7;
                   OpQueueFrame true [exLayer] 0 (mkFrameId 1 1) 0;
                   OpQueueEvent 8;
                   OpConsumeWork true;
                   OpQueueDrop (mkFrameId 2 2);
                   OpConsumeWork true;
                   OpQueueEvent 9;
                   OpDropAllFrames;
                   OpConsumeWork true] exQueue)) = [7; 8]
  /\ length (run_ops 0 [OpQueueEvent 7;
                   OpQueueFrame true [exLayer] 0 (mkFrameId 1 1) 0;
                   OpQueueEvent 8;
                   OpConsumeWork true;
                   OpQueueDrop (mkFrameId 2 2);
                   OpConsumeWork true;
                   OpQueueEvent 9;
                   OpDropAllFrames;
                   OpConsumeWork true] exQueue) = 9%nat.
Proof. vm_compute. split; reflexivity. Qed.

(** ** A frame on display is left alone until it is released *)

Section OnDisplay.

Variable i : nat.
Variable f : Frame.
Hypothesis Hlocked : mbLockedForDisplay f = true.

(** The pool frame [i] is [f] and is not in the ring. *)
Definition onDisplay (s : DisplayQueue) : Prop :=
  maFrames s !! i = Some f /\ i ∉ frame_ids (mpWorkQueue s).

Lemma onDisplay_updFrame j g : j <> i -> keeps onDisplay (updFrame j g).
Proof.
  intros Hj s a s' [Hf Hr] H. unfold updFrame, setFrame in H. minv.
  split; [ | exact Hr ]. dq_simpl. rewrite list_lookup_insert_ne by exact Hj. exact Hf.
Qed.

Ltac disp_step :=
  lazymatch goal with
  | |- keeps _ (bind _ _) => apply keeps_bind; [ | intros ? ]
  | |- keeps _ (ret _) => apply keeps_ret
  | |- keeps _ (gets _) => apply keeps_gets
  | |- keeps _ (HWCASSERT _) => apply keeps_assert
  | |- keeps _ (validateFutureFrame _ _) => apply keeps_assert
  | |- keeps _ (getFrame _) => apply keeps_getFrame
  | |- keeps onDisplay (modify _) =>
      let h := fresh in apply keeps_modify; intros ? h; exact h
  | |- keeps onDisplay (emit _) =>
      let h := fresh in apply keeps_modify; intros ? h; exact h
  | |- keeps onDisplay (updFrame _ _) => apply onDisplay_updFrame; assumption
  | |- keeps _ (match ?x with _ => _ end) => destruct x
  | |- keeps _ _ => solve [ auto with keeps ]
  end.

Ltac disp_tac := repeat disp_step.

Lemma ring_effective_onDisplay ring : keeps onDisplay (ring_effective ring).
Proof.
  induction ring as [ | w rest IH ]; cbn [ring_effective]; unfold getEffectiveFrame;
    disp_tac.
Qed.
Hint Resolve ring_effective_onDisplay : keeps.

Lemma doValidateQueue_onDisplay : keeps onDisplay doValidateQueue.
Proof. unfold doValidateQueue. disp_tac. Qed.
Hint Resolve doValidateQueue_onDisplay : keeps.

Lemma frame_ids_remove_ne j ring :
  i ∉ frame_ids ring -> i ∉ frame_ids (ring_remove (WFrame j) ring).
Proof.
  intros Hr Hin. apply Hr. clear Hr.
  induction ring as [ | w rest IH ]; [ exact Hin | ].
  cbn [ring_remove] in Hin. destruct (WorkItem_eqb (WFrame j) w) eqn:E.
  - destruct w as [ k | e ].
    + rewrite frame_ids_frame. right. exact Hin.
    + rewrite frame_ids_event. exact Hin.
  - destruct w as [ k | e ].
    + rewrite frame_ids_frame in *. apply elem_of_cons in Hin.
      destruct Hin as [ -> | Hin ]; [ left | right; exact (IH Hin) ].
    + rewrite frame_ids_event in *. exact (IH Hin).
Qed.

(** dropFrame asserts that the frame is not locked for display. *)
Lemma dropFrame_onDisplay j : keeps onDisplay (dropFrame j).
Proof.
  intros s a s' [Hf Hr] H.
  unfold dropFrame, WorkItem_dequeue, isQueued, updFrame, setFrame in H.
  minv_all. dq_simpl_all. pool_norm.
  assert (Hj : j <> i).
  { intros ->. match goal with
    | Ha : maFrames s !! i = Some ?a, Hc : negb (mbLockedForDisplay ?a) = true |- _ =>
        rewrite Hf in Ha; injection Ha as <-; rewrite Hlocked in Hc; discriminate Hc
    end. }
  split; dq_simpl.
  - rewrite !list_lookup_insert_ne by exact Hj. exact Hf.
  - apply frame_ids_remove_ne. exact Hr.
Qed.
Hint Resolve dropFrame_onDisplay : keeps.

Lemma dropRedundant_loop_onDisplay older :
  forall b, keeps onDisplay (dropRedundant_loop older b).
Proof.
  induction older as [ | w rest IH ]; intros b; cbn [dropRedundant_loop];
    unfold dropRedundant_step; disp_tac.
Qed.
Hint Resolve dropRedundant_loop_onDisplay : keeps.

Lemma doDropRedundantFrames_onDisplay : keeps onDisplay doDropRedundantFrames.
Proof. unfold doDropRedundantFrames, newerComplete_seed. disp_tac. Qed.
Hint Resolve doDropRedundantFrames_onDisplay : keeps.

(** The loops of dropAllFrames and doInvalidateFrames skip a frame that is
    locked for display. *)
Lemma onUnlockedPoolFrame_onDisplay act w :
  (forall j, j <> i -> keeps onDisplay (act j)) ->
  keeps onDisplay (onUnlockedPoolFrame act w).
Proof.
  intros Hact s a s' [Hf Hr] H. unfold onUnlockedPoolFrame in H.
  destruct w as [ j | e ]; [ | minv; split; assumption ].
  apply bind_inv in H. destruct H as (g & s0 & Hg & H).
  apply getFrame_inv in Hg. destruct Hg as [Hg ->].
  destruct (decide (j = i)) as [ -> | Hj ].
  - rewrite Hf in Hg. injection Hg as <-. rewrite Hlocked in H. cbn in H.
    minv. split; assumption.
  - destruct (negb (mbLockedForDisplay g) && FrameType_eqb (mType g) eFT_DISPLAY_QUEUE).
    + exact (Hact j Hj s a s' (conj Hf Hr) H).
    + minv. split; assumption.
Qed.

Lemma forEachWork_onDisplay body items :
  (forall w, keeps onDisplay (body w)) -> keeps onDisplay (forEachWork body items).
Proof. intros Hb. induction items as [ | w rest IH ]; cbn [forEachWork]; disp_tac. Qed.

Lemma doReleaseFrame_onDisplay j : j <> i -> keeps onDisplay (doReleaseFrame j).
Proof. intros Hj. unfold doReleaseFrame. disp_tac. Qed.

Lemma doFlush_loop_onDisplay fuel fi mc sc : keeps onDisplay (doFlush_loop fuel fi mc sc).
Proof.
  induction fuel as [ | fuel IH ]; intros s a s' HP H; cbn [doFlush_loop] in H.
  - destruct (doFlush_continue fi mc sc s); [ discriminate | ].
    injection H as _ <-. exact HP.
  - destruct (doFlush_continue fi mc sc s).
    + destruct (mpWorker s) as [ w | ]; [ | discriminate ].
      revert s a s' HP H.
      change (keeps onDisplay (signalWork w >> doFlush_loop fuel fi mc sc)).
      unfold signalWork. disp_tac.
    + injection H as _ <-. exact HP.
Qed.
Hint Resolve doFlush_loop_onDisplay : keeps.

Lemma doQueueWork_onDisplay w :
  match w with WFrame j => j <> i | WEvent _ => True end ->
  keeps onDisplay (doQueueWork w).
Proof.
  intros Hw. unfold doQueueWork.
  do 6 (apply keeps_bind; [ unfold getEffectiveFrame; disp_tac | intros ? ]).
  apply keeps_bind; [ | intros ?; unfold startWorker, signalWork; disp_tac ].
  intros st r st' [Hf Hr] H. unfold WorkItem_queue, isQueued, updFrame, setFrame in H.
  destruct w as [ j | e ]; minv_all; dq_simpl_all; split; dq_simpl.
  - rewrite list_lookup_insert_ne by exact Hw. exact Hf.
  - rewrite frame_ids_app, (frame_ids_frame j []). change (frame_ids []) with (@nil nat).
    intros Hin. apply elem_of_app in Hin. destruct Hin as [ Hin | Hin ]; [ exact (Hr Hin) | ].
    apply list_elem_of_singleton in Hin. congruence.
  - exact Hf.
  - rewrite frame_ids_snoc_event. exact Hr.
Qed.

(** The rest of a computation that keeps the frame, run from [s]. *)
Ltac disp_rest HP :=
  match goal with
  | H : ?m ?s = Ok (?a, ?s') |- onDisplay ?s' =>
      let K := fresh "K" in
      assert (K : keeps onDisplay m); [ | exact (K s a s' HP H) ]
  end.

(** Frame::set asserts that the frame is not locked for display. *)
Lemma queueFrame_onDisplay bAlloc stack zorder id config :
  keeps onDisplay (queueFrame bAlloc stack zorder id config).
Proof.
  unfold queueFrame, limitUsedFrames, findFree.
  do 4 (apply keeps_bind; [ disp_tac | intros ? ]).
  match goal with |- keeps _ (match ?x with _ => _ end) => destruct x as [ j | ] end;
    [ | disp_tac ].
  do 6 (apply keeps_bind; [ disp_tac | intros ? ]).
  intros st r st' HP H.
  apply bind_inv in H. destruct H as (bSet & st1 & Hl & H).
  apply liftFrame_inv in Hl. destruct Hl as (g & g' & Hg & Hset & ->).
  assert (Hj : j <> i).
  { intros ->. destruct HP as [Hf _]. rewrite Hf in Hg. injection Hg as <-.
    apply Frame_set_fields in Hset. destruct Hset as (_ & Hk & _). congruence. }
  assert (HP1 : onDisplay (with_frames (<[j := g']> (maFrames st)) st)).
  { destruct HP as [Hf Hr]. split; dq_simpl; [ | exact Hr ].
    rewrite list_lookup_insert_ne by exact Hj. exact Hf. }
  disp_rest HP1. disp_tac. apply doQueueWork_onDisplay. exact Hj.
Qed.

Lemma doConsumeFrame_onDisplay b j : j <> i -> keeps onDisplay (doConsumeFrame b j).
Proof.
  intros Hj. unfold doConsumeFrame, lockFrameForDisplay, unlockFrameForDisplay.
  do 13 (apply keeps_bind; [ disp_tac | intros ? ]).
  assert (Htail : forall k, k <> i ->
            keeps onDisplay
              (let! qf := gets mQueuedFrames in
               let! qw := gets mQueuedWork in
               HWCASSERT (0 <? qf) >>
               HWCASSERT (0 <? qw) >>
               WorkItem_dequeue (WFrame k) >>
               modify (with_queuedFrames (decr32 qf)) >>
               modify (with_queuedWork (decr32 qw)) >>
               modify (fun s => with_consumedFrames (incr32 (mConsumedFramesSinceInit s)) s) >>
               modify (fun s => with_consumedWork (incr32 (mConsumedWork s)) s) >>
               let! fj := getFrame k in
               let effectiveIssuedFrame := mEffectiveFrame fj in
               HWCASSERT (0 <=? s32 (mHwcIndex effectiveIssuedFrame - mHwcIndex (mFrameId fj))) >>
               backend_consumeFrame b k >>
               doValidateQueue >>
               doAdvanceIssuedFrame effectiveIssuedFrame)).
  { intros k Hk. do 4 (apply keeps_bind; [ disp_tac | intros ? ]).
    apply keeps_bind.
    - intros st r st' [Hf Hr] H.
      unfold WorkItem_dequeue, isQueued, updFrame, setFrame in H.
      minv_all. dq_simpl_all. split; dq_simpl.
      + rewrite list_lookup_insert_ne by exact Hk. exact Hf.
      + apply frame_ids_remove_ne. exact Hr.
    - intros ?. unfold backend_consumeFrame, doAdvanceIssuedFrame. disp_tac.
      apply doReleaseFrame_onDisplay. exact Hk. }
  match goal with
  | |- keeps _ (bind (if ?c then _ else _) _) => destruct c
  end.
  - (* eBF_SYNC_BEFORE_FLIP *)
    intros st r st' HP H.
    apply bind_inv in H. destruct H as (pFrame & st1 & Hp & H).
    apply bind_inv in Hp. destruct Hp as (u1 & st2 & Hv & Hp).
    apply doValidateQueue_ro in Hv. unfold whole in Hv. subst st2.
    apply bind_inv in Hp. destruct Hp as (g & st2 & Hg & Hp).
    apply getFrame_inv in Hg. destruct Hg as [Hg ->].
    apply bind_inv in Hp. destruct Hp as (u2 & st2 & Ha & Hp).
    apply HWCASSERT_inv in Ha. destruct Ha as [_ ->].
    apply bind_inv in Hp. destruct Hp as (u3 & st2 & Hu & Hp).
    assert (HP2 : onDisplay st2).
    { revert Hu. match goal with
      | |- ?m st = Ok _ -> _ =>
          assert (K : keeps onDisplay m) by disp_tac; intros Hu; exact (K st u3 st2 HP Hu)
      end. }
    apply bind_inv in Hp. destruct Hp as (u4 & st3 & Hd & Hp).
    pose proof (doDropRedundantFrames_onDisplay st2 u4 st3 HP2 Hd) as HP3.
    apply bind_inv in Hp. destruct Hp as (ring & st4 & Hr & Hp).
    apply gets_inv in Hr. destruct Hr as [-> ->].
    apply bind_inv in Hp. destruct Hp as (u5 & st4 & Ha & Hp).
    apply HWCASSERT_inv in Ha. destruct Ha as [_ ->].
    destruct (mpWorkQueue st3) as [ | [ k | e ] rest ] eqn:Hring.
    + apply ret_inv in Hp. destruct Hp as [-> ->]. apply ret_inv in H.
      destruct H as [_ ->]. exact HP3.
    + assert (Hk : k <> i).
      { intros ->. destruct HP3 as [_ Hr]. apply Hr. rewrite Hring, frame_ids_frame. left. }
      apply bind_inv in Hp. destruct Hp as (u6 & st4 & Hl & Hp).
      assert (HP4 : onDisplay st4).
      { revert Hl. match goal with
        | |- ?m st3 = Ok _ -> _ =>
            assert (K : keeps onDisplay m) by disp_tac; intros Hl; exact (K st3 u6 st4 HP3 Hl)
        end. }
      apply bind_inv in Hp. destruct Hp as (fk & st5 & Hg' & Hp).
      apply getFrame_inv in Hg'. destruct Hg' as [_ ->].
      apply bind_inv in Hp. destruct Hp as (u7 & st5 & Ha & Hp).
      apply HWCASSERT_inv in Ha. destruct Ha as [_ ->].
      apply ret_inv in Hp. destruct Hp as [-> ->].
      exact (Htail k Hk st4 r st' HP4 H).
    + apply ret_inv in Hp. destruct Hp as [-> ->]. apply ret_inv in H.
      destruct H as [_ ->]. exact HP3.
  - intros st r st' HP H.
    apply bind_inv in H. destruct H as (pFrame & st1 & Hp & H).
    apply ret_inv in Hp. destruct Hp as [-> ->].
    exact (Htail j Hj st r st' HP H).
Qed.

Lemma WorkItem_dequeue_event_onDisplay e : keeps onDisplay (WorkItem_dequeue (WEvent e)).
Proof.
  intros st r st' [Hf Hr] H. unfold WorkItem_dequeue, isQueued in H.
  minv_all. dq_simpl_all. split; dq_simpl; [ exact Hf | ].
  rewrite frame_ids_remove_event. exact Hr.
Qed.
Hint Resolve WorkItem_dequeue_event_onDisplay : keeps.

Lemma doConsumeWork_onDisplay b : keeps onDisplay (doConsumeWork b).
Proof.
  unfold doConsumeWork. apply keeps_bind; [ disp_tac | intros _ ].
  intros st r st' HP H.
  apply bind_inv in H. destruct H as (ring & st0 & Hg & H).
  apply gets_inv in Hg. destruct Hg as [-> ->].
  destruct (mpWorkQueue st) as [ | [ j | e ] rest ] eqn:Hring.
  - disp_rest HP. disp_tac.
  - assert (Hj : j <> i).
    { intros ->. destruct HP as [_ Hr]. apply Hr. rewrite Hring, frame_ids_frame. left. }
    disp_rest HP. disp_tac. apply doConsumeFrame_onDisplay. exact Hj.
  - disp_rest HP. unfold doConsumeEvent, doAdvanceIssuedFrame. disp_tac.
Qed.

Lemma queueDrop_onDisplay id : keeps onDisplay (queueDrop id).
Proof.
  unfold queueDrop.
  apply keeps_bind; [ disp_tac | intros queued ].
  apply keeps_bind; [ disp_tac | intros _ ].
  intros st r st' HP H.
  apply bind_inv in H. destruct H as (ring & st0 & Hg & H).
  apply gets_inv in Hg. destruct Hg as [-> ->].
  apply bind_inv in H. destruct H as (u & st1 & Hm & H).
  assert (HP1 : onDisplay st1).
  { destruct (last (mpWorkQueue st)) as [ [ j | e ] | ] eqn:Hlast.
    - assert (Hj : j <> i).
      { intros ->. destruct HP as [_ Hr]. apply Hr. apply elem_of_frame_ids.
        apply last_Some_elem_of. exact Hlast. }
      exact (onDisplay_updFrame j _ Hj st u st1 HP Hm).
    - apply modify_inv in Hm. subst st1. destruct HP as [Hf Hr].
      split; dq_simpl; [ exact Hf | ].
      rewrite frame_ids_snoc_event. intros Hin. apply Hr.
      rewrite (last_snoc_inv _ _ Hlast), frame_ids_snoc_event. exact Hin.
    - revert Hm. unfold doAdvanceIssuedFrame.
      match goal with
      | |- ?m st = Ok _ -> _ =>
          assert (K : keeps onDisplay m) by disp_tac; intros Hm; exact (K st u st1 HP Hm)
      end. }
  disp_rest HP1. disp_tac.
Qed.

Lemma run_op_onDisplay fuel op :
  op <> OpReleaseFrame i -> keeps onDisplay (run_op fuel op).
Proof.
  intros Hop. destruct op; cbn [run_op]; unfold returning.
  all: apply keeps_bind; [ | intros ?; apply keeps_ret ].
  - unfold init. disp_tac.
  - unfold queueEvent. disp_tac. apply doQueueWork_onDisplay. exact I.
  - apply queueFrame_onDisplay.
  - apply queueDrop_onDisplay.
  - unfold dropAllFrames. disp_tac. apply forEachWork_onDisplay. intros w.
    apply onUnlockedPoolFrame_onDisplay. intros j _. apply dropFrame_onDisplay.
  - unfold dropRedundantFrames. disp_tac.
  - apply doConsumeWork_onDisplay.
  - unfold flush, getWorkerTid, doFlush, doInvalidateFrames. disp_tac.
    all: apply forEachWork_onDisplay; intros w; apply onUnlockedPoolFrame_onDisplay.
    all: intros j Hj; apply onDisplay_updFrame; exact Hj.
  - unfold consumerBlocked. disp_tac.
  - unfold consumerUnblocked. disp_tac.
  - unfold notifyReady, signalWork. disp_tac.
  - unfold releaseFrame. apply doReleaseFrame_onDisplay. congruence.
Qed.

End OnDisplay.

(** Is the operation releaseFrame of the frame [i]? *)
Definition releasesFrame (i : nat) (op : Op) : bool :=
  match op with
  | OpReleaseFrame j => Nat.eqb j i
  | _ => false
  end.

(** X8.  A frame on display is left alone until it is released.  If the pool
    frame [i] is locked for display and is not in the ring, every public
    operation that completes, other than releaseFrame of this frame,
    leaves every field and every layer of the frame as it is, and the
    frame outside the ring: queueFrame does not hand it out, no drop, no
    flush, no invalidation and no consumption of other work touches it. *)
Theorem frame_on_display_untouched (fuel : nat) (ops : list Op) (i : nat) (f : Frame)
    (s : DisplayQueue) :
  mbLockedForDisplay f = true ->
  maFrames s !! i = Some f ->
  i ∉ frame_ids (mpWorkQueue s) ->
  forallb (fun op => negb (releasesFrame i op)) ops = true ->
  Forall (fun s' => maFrames s' !! i = Some f /\ i ∉ frame_ids (mpWorkQueue s'))
         (run_ops fuel ops s).
Proof.
  intros Hl Hf Hr Hops.
  assert (HP : onDisplay i f s) by (split; assumption).
  clear Hf Hr. revert s HP. induction ops as [ | op rest IH ]; intros s HP; cbn [run_ops].
  - constructor.
  - cbn [forallb] in Hops. apply andb_true_iff in Hops. destruct Hops as [Hop Hrest].
    assert (Hop' : op <> OpReleaseFrame i).
    { intros ->. cbn in Hop. rewrite Nat.eqb_refl in Hop. discriminate Hop. }
    clear Hop. rename Hop' into Hop.
    destruct (run_op fuel op s) as [[r s1] | | ] eqn:E; try constructor.
    + exact (run_op_onDisplay i f Hl fuel op Hop s r s1 HP E).
    + apply IH; [ exact Hrest | ].
      exact (run_op_onDisplay i f Hl fuel op Hop s r s1 HP E).
Qed.

(** One frame on display, a second frame and an event queued. *)
Definition exQueueOnDisplay : DisplayQueue :=
  afterOps [OpQueueFrame true [exLayer] 0 (mkFrameId 1 1) 0;
            OpConsumeWork true;
            OpQueueFrame true [exLayerBusy] 0 (mkFrameId 2 2) 0;
            OpQueueEvent 5] exQueue.

Lemma frame_on_display_untouched_witness :
  Forall (fun s' => maFrames s' !! 0%nat = Some (frameAt exQueueOnDisplay 0)
                    /\ 0%nat ∉ frame_ids (mpWorkQueue s'))
    (run_ops 0 [OpQueueFrame true [exLayer] 0 (mkFrameId 3 3) 0;
                OpDropRedundantFrames;
                OpFlush 1 0 0;
                OpQueueFrame true [exLayer] 0 (mkFrameId 4 4) 0;
                OpQueueFrame true [exLayer] 0 (mkFrameId 5 5) 0;
                OpQueueFrame true [exLayer] 0 (mkFrameId 6 6) 0;
                OpDropAllFrames;
                OpConsumeWork true;
                OpQueueFrame true [exLayer] 0 (mkFrameId 7 7) 0;
                OpConsumeWork true;
                OpReleaseFrame 1] exQueueOnDisplay).
Proof.
  apply frame_on_display_untouched.
  - vm_compute. reflexivity.
  - vm_compute. reflexivity.
  - apply (bool_decide_unpack _). vm_compute. exact I.
  - reflexivity.
Defined.

Example frame_on_display_example :
  mbLockedForDisplay (frameAt exQueueOnDisplay 0) = true
  /\ length (run_ops 0 [OpQueueFrame true [exLayer] 0 (mkFrameId 3 3) 0;
                        OpDropRedundantFrames;
                        OpFlush 1 0 0;
                        OpQueueFrame true [exLayer] 0 (mkFrameId 4 4) 0;
                        OpQueueFrame true [exLayer] 0 (mkFrameId 5 5) 0;
                        OpQueueFrame true [exLayer] 0 (mkFrameId 6 6) 0;
                        OpDropAllFrames;
                        OpConsumeWork true;
                        OpQueueFrame true [exLayer] 0 (mkFrameId 7 7) 0;
                        OpConsumeWork true;
                        OpReleaseFrame 1] exQueueOnDisplay) = 11%nat.
Proof. vm_compute. split; reflexivity. Qed.

(** ** consumeWork *)

(** X9.  consumeWork tells whether there was work.  On an empty ring that passes
    the validation, with mQueuedWork zero, it returns false and changes
    nothing; whenever it completes it returns true exactly when the ring was
    not empty, and a result of false means that nothing changed. *)
Theorem consumeWork_reports_work (bFlipOk : bool) (s : DisplayQueue) :
  (mpWorkQueue s = [] -> queueValid s = true -> mQueuedWork s = 0 ->
   consumeWork bFlipOk s = Ok (false, s))
  /\ (forall r s', consumeWork bFlipOk s = Ok (r, s') ->
        (r = false <-> mpWorkQueue s = []) /\ (r = false -> s' = s)).
Proof.
  split.
  - intros Hring Hv Hqw. unfold consumeWork, doConsumeWork.
    unfold bind at 1. rewrite doValidateQueue_run, Hv. mrun. rewrite Hring. mrun.
    rewrite Hqw. reflexivity.
  - intros r s' H. unfold consumeWork, doConsumeWork in H.
    apply bind_inv in H. destruct H as (u & s0 & Hv & H).
    apply doValidateQueue_ro in Hv. unfold whole in Hv. subst s0.
    apply bind_inv in H. destruct H as (ring & s0 & Hg & H).
    apply gets_inv in Hg. destruct Hg as [-> ->].
    destruct (mpWorkQueue s) as [ | w rest ].
    + minv. split; [ split; reflexivity | reflexivity ].
    + minv. split; [ split; discriminate | discriminate ].
Qed.

Lemma consumeWork_reports_work_witness :
  consumeWork true exQueue = Ok (false, exQueue)
  /\ mpWorkQueue exQueue1 <> [].
Proof.
  split.
  - apply (proj1 (consumeWork_reports_work true exQueue)).
    + vm_compute. reflexivity.
    + vm_compute. reflexivity.
    + vm_compute. reflexivity.
  - intros E.
    assert (H : true = false); [ | discriminate H ].
    apply (proj1 (proj2 (consumeWork_reports_work true exQueue1) true
             (stateAfter (consumeWork true) exQueue1)
             ltac:(vm_compute; reflexivity))).
    exact E.
Defined.


(** What a completed doConsumeWork did with a frame at the head of the ring. *)
Lemma doConsumeWork_head_frame_inv (bFlipOk : bool) (i : nat) (rest : list WorkItem)
    (s : DisplayQueue) (r : bool) (s' : DisplayQueue) :
  mpWorkQueue s = WFrame i :: rest ->
  Z.land (mBehaviourFlags s) eBF_SYNC_BEFORE_FLIP = 0 ->
  doConsumeWork bFlipOk s = Ok (r, s') ->
  exists f,
    maFrames s !! i = Some f
    /\ r = true
    /\ mpWorkQueue s' = rest
    /\ mLastIssuedFrame s' = mEffectiveFrame f
    /\ mQueuedWork s' = decr32 (mQueuedWork s)
    /\ mQueuedFrames s' = decr32 (mQueuedFrames s)
    /\ mConsumedWork s' = incr32 (mConsumedWork s)
    /\ mConsumedFramesSinceInit s' = incr32 (mConsumedFramesSinceInit s)
    /\ (bFlipOk = true ->
          maFrames s' = <[i := Frame_withLinked false (Frame_withLocked true f)]> (maFrames s)
          /\ mFramesLockedForDisplay s' = incr32 (mFramesLockedForDisplay s)
          /\ mFramePoolUsed s' = mFramePoolUsed s
          /\ mLog s' = mLog s ++ [BackendConsumeFrame i; NotifyWorkConsumed])
    /\ (bFlipOk = false ->
          maFrames s'
          = <[i := Frame_reset false (Frame_withLinked false (Frame_withLocked true f))]>
              (maFrames s)
          /\ mFramesLockedForDisplay s' = decr32 (incr32 (mFramesLockedForDisplay s))
          /\ mFramePoolUsed s' = decr32 (mFramePoolUsed s)
          /\ mLog s' = mLog s ++ [BackendConsumeFrame i; NotifyFrameReleased;
                                  NotifyWorkConsumed]).
Proof.
  intros Hring Hflags H. revert Hring Hflags.
  unfold consumeWork, doConsumeWork, doConsumeFrame, lockFrameForDisplay,
    backend_consumeFrame, doReleaseFrame, doAdvanceIssuedFrame, WorkItem_dequeue,
    isQueued, updFrame, setFrame in H.
  minv_all; use_ro; dq_simpl_all; intros Hring Hflags.
  all: try (rewrite Hring in *; discriminate).
  all: try (rewrite Hflags in *; discriminate).
  all: match goal with
       | Hr : mpWorkQueue ?s0 = WFrame ?k :: ?r, Hl : mpWorkQueue ?s0 = WFrame ?j :: ?l |- _ =>
           rewrite Hr in Hl; injection Hl as <- <-
       end.
  all: match goal with
       | Hn : Some ?n = Some ?k |- _ => injection Hn as ->
       end.
  all: pool_norm.
  all: match goal with
       | Hf : maFrames ?s0 !! ?k = Some ?f |- _ => exists f
       end.
  all: match goal with
       | Hr : mpWorkQueue ?s0 = WFrame ?k :: ?r |- _ => rewrite Hr
       end; cbn [ring_remove WorkItem_eqb]; rewrite Nat.eqb_refl.
  all: rewrite ?list_insert_insert_eq, <- ?app_assoc.
  all: split_and!; try reflexivity; try assumption; try discriminate.
  all: intros _; split_and!; reflexivity.
Qed.

(** X10.  consumeWork on a frame at the head of the ring, without
    eBF_SYNC_BEFORE_FLIP.  When it completes, the frame is out of the ring
    and has been handed to the backend, and lastIssuedFrame is the effective
    frame of the frame.  After a good flip the frame is locked for display
    and still counted in framePoolUsed; after a failed flip the backend has
    released it: the frame is unlocked, its layers are reset, and
    framePoolUsed is one less. *)
Theorem consumeWork_flips_head_frame (bFlipOk : bool) (i : nat) (rest : list WorkItem)
    (s : DisplayQueue) (r : bool) (s' : DisplayQueue) :
  mpWorkQueue s = WFrame i :: rest ->
  Z.land (mBehaviourFlags s) eBF_SYNC_BEFORE_FLIP = 0 ->
  consumeWork bFlipOk s = Ok (r, s') ->
  exists f,
    maFrames s !! i = Some f
    /\ r = true
    /\ mpWorkQueue s' = rest
    /\ mLastIssuedFrame s' = mEffectiveFrame f
    /\ mQueuedWork s' = decr32 (mQueuedWork s)
    /\ mQueuedFrames s' = decr32 (mQueuedFrames s)
    /\ mConsumedWork s' = incr32 (mConsumedWork s)
    /\ mConsumedFramesSinceInit s' = incr32 (mConsumedFramesSinceInit s)
    /\ (bFlipOk = true ->
          maFrames s' = <[i := Frame_withLinked false (Frame_withLocked true f)]> (maFrames s)
          /\ mFramesLockedForDisplay s' = incr32 (mFramesLockedForDisplay s)
          /\ mFramePoolUsed s' = mFramePoolUsed s
          /\ mLog s' = mLog s ++ [BackendConsumeFrame i; NotifyWorkConsumed])
    /\ (bFlipOk = false ->
          maFrames s'
          = <[i := Frame_reset false (Frame_withLinked false (Frame_withLocked true f))]>
              (maFrames s)
          /\ mFramesLockedForDisplay s' = decr32 (incr32 (mFramesLockedForDisplay s))
          /\ mFramePoolUsed s' = decr32 (mFramePoolUsed s)
          /\ mLog s' = mLog s ++ [BackendConsumeFrame i; NotifyFrameReleased;
                                  NotifyWorkConsumed]).
Proof.
  intros Hring Hflags H. unfold consumeWork in H.
  exact (doConsumeWork_head_frame_inv bFlipOk i rest s r s' Hring Hflags H).
Qed.

Lemma consumeWork_flips_head_frame_witness :
  exists f,
    maFrames exQueue1 !! 0%nat = Some f
    /\ mpWorkQueue (stateAfter (consumeWork true) exQueue1) = []
    /\ mLastIssuedFrame (stateAfter (consumeWork true) exQueue1) = mEffectiveFrame f
    /\ mFramePoolUsed (stateAfter (consumeWork true) exQueue1) = mFramePoolUsed exQueue1.
Proof.
  destruct (consumeWork_flips_head_frame true 0 [] exQueue1 true
              (stateAfter (consumeWork true) exQueue1))
    as (f & Hf & _ & Hring & Hissued & _ & _ & _ & _ & Hgood & _).
  - vm_compute. reflexivity.
  - vm_compute. reflexivity.
  - vm_compute. reflexivity.
  - exists f. destruct (Hgood eq_refl) as (_ & _ & Hused & _).
    split_and!; assumption.
Defined.


(** ** releaseFrame *)

Lemma doReleaseFrame_unlocked i f s :
  maFrames s !! i = Some f -> mbLockedForDisplay f = false ->
  doReleaseFrame i s = AssertFail.
Proof.
  intros Hf Hl. unfold doReleaseFrame. rewrite (bind_getFrame _ _ _ _ Hf).
  unfold bind at 1, HWCASSERT at 1.
  destruct (FrameType_eqb (mType f) eFT_DISPLAY_QUEUE); [ | reflexivity ].
  unfold bind at 1, HWCASSERT at 1. rewrite Hl. reflexivity.
Qed.

(** What a completed doReleaseFrame did. *)
Lemma doReleaseFrame_inv i s u s' :
  doReleaseFrame i s = Ok (u, s') ->
  exists f,
    maFrames s !! i = Some f
    /\ mbLockedForDisplay f = true
    /\ mType f = eFT_DISPLAY_QUEUE
    /\ maFrames s' = <[i := Frame_reset false f]> (maFrames s)
    /\ mFramesLockedForDisplay s' = decr32 (mFramesLockedForDisplay s)
    /\ mFramePoolUsed s' = decr32 (mFramePoolUsed s)
    /\ mpWorkQueue s' = mpWorkQueue s
    /\ mLog s' = mLog s ++ [NotifyFrameReleased].
Proof.
  intros H. unfold doReleaseFrame, updFrame, setFrame in H.
  minv_all; use_ro; dq_simpl_all. pool_norm.
  match goal with
  | Hf : maFrames s !! i = Some ?f |- _ => exists f
  end.
  split_and!; try reflexivity; try assumption.
  match goal with
  | Hc : FrameType_eqb (mType ?f) eFT_DISPLAY_QUEUE = true |- mType ?f = _ =>
      destruct (mType f); [ discriminate Hc | reflexivity ]
  end.
Qed.

(** X11.  releaseFrame gives a frame on display back to the pool, once.  When it
    completes, the frame was a display-queue frame locked for display; it
    is unlocked and its layers are reset without cancelling the release
    fences, framesLockedForDisplay and framePoolUsed are one less, the ring
    is untouched and frameReleased is signalled; releasing the frame a
    second time fails its assertion.  Releasing a frame that is not locked
    for display fails the assertion as well. *)
Theorem releaseFrame_once (i : nat) (s : DisplayQueue) :
  (forall u s', releaseFrame i s = Ok (u, s') ->
     exists f,
       maFrames s !! i = Some f
       /\ mbLockedForDisplay f = true
       /\ mType f = eFT_DISPLAY_QUEUE
       /\ maFrames s' = <[i := Frame_reset false f]> (maFrames s)
       /\ mFramesLockedForDisplay s' = decr32 (mFramesLockedForDisplay s)
       /\ mFramePoolUsed s' = decr32 (mFramePoolUsed s)
       /\ mpWorkQueue s' = mpWorkQueue s
       /\ mLog s' = mLog s ++ [NotifyFrameReleased]
       /\ releaseFrame i s' = AssertFail)
  /\ (forall f, maFrames s !! i = Some f -> mbLockedForDisplay f = false ->
        releaseFrame i s = AssertFail).
Proof.
  split.
  - intros u s' H. unfold releaseFrame in H.
    destruct (doReleaseFrame_inv i s u s' H)
      as (f & Hf & Hl & Ht & Hpool & Hlocked & Hused & Hring & Hlog).
    exists f. split_and!; try assumption.
    unfold releaseFrame. apply (doReleaseFrame_unlocked i (Frame_reset false f)).
    + rewrite Hpool. apply list_lookup_insert_eq. exact (lookup_lt_Some _ _ _ Hf).
    + reflexivity.
  - intros f Hf Hl. exact (doReleaseFrame_unlocked i f s Hf Hl).
Qed.

Lemma releaseFrame_once_witness :
  mFramePoolUsed (stateAfter (releaseFrame 0) exQueueLocked)
  = decr32 (mFramePoolUsed exQueueLocked)
  /\ releaseFrame 0 (stateAfter (releaseFrame 0) exQueueLocked) = AssertFail
  /\ releaseFrame 1 exQueue1 = AssertFail.
Proof.
  split; [ | split ].
  - destruct (proj1 (releaseFrame_once 0 exQueueLocked) tt
                (stateAfter (releaseFrame 0) exQueueLocked))
      as (f & _ & _ & _ & _ & _ & Hused & _).
    + vm_compute. reflexivity.
    + exact Hused.
  - destruct (proj1 (releaseFrame_once 0 exQueueLocked) tt
                (stateAfter (releaseFrame 0) exQueueLocked))
      as (f & _ & _ & _ & _ & _ & _ & _ & _ & Hagain).
    + vm_compute. reflexivity.
    + exact Hagain.
  - apply (proj2 (releaseFrame_once 1 exQueue1) (frameAt exQueue1 1)).
    + vm_compute. reflexivity.
    + vm_compute. reflexivity.
Defined.


(** ** dropAllFrames *)

(** The items dropAllFrames leaves in the ring: the events, and the frames
    that are locked for display. *)
Definition staysInRing (pool : list Frame) (w : WorkItem) : bool :=
  match w with
  | WFrame i => mbLockedForDisplay (poolFrame pool i)
  | WEvent _ => true
  end.

Lemma staysInRing_events pool ring :
  ring_events (List.filter (staysInRing pool) ring) = ring_events ring.
Proof.
  induction ring as [ | w rest IH ]; [ reflexivity | ].
  cbn [List.filter]. destruct w as [ i | e ]; cbn [staysInRing].
  - change (ring_events (WFrame i :: rest)) with (ring_events rest).
    destruct (mbLockedForDisplay (poolFrame pool i)); exact IH.
  - change (ring_events (WEvent e :: rest)) with (e :: ring_events rest).
    change (ring_events (WEvent e :: List.filter (staysInRing pool) rest))
      with (e :: ring_events (List.filter (staysInRing pool) rest)).
    rewrite IH. reflexivity.
Qed.

Lemma dropAll_loop_ok items : forall s kept,
  RingOk s ->
  mpWorkQueue s = kept ++ items ->
  exists s',
    forEachWork (onUnlockedPoolFrame dropFrame) items s = Ok (tt, s')
    /\ mpWorkQueue s' = kept ++ List.filter (staysInRing (maFrames s)) items
    /\ RingOk s'
    /\ countersFollow s s'
    /\ ids s' = ids s.
Proof.
  induction items as [ | w rest IH ]; intros s kept Hok Hring.
  - exists s. split_and!; [ reflexivity | exact Hring | exact Hok
                          | apply countersFollow_refl | reflexivity ].
  - cbn [forEachWork List.filter]. destruct w as [ i | e ].
    + destruct (RingOk_frame _ _ _ _ Hok Hring) as (Hlook & Hi1 & Hi2).
      assert (Htype : mType (frameAt s i) = eFT_DISPLAY_QUEUE).
      { destruct Hok as (Hfr & _). rewrite Forall_forall in Hfr.
        apply (Hfr i). rewrite Hring, frame_ids_app, frame_ids_frame.
        apply elem_of_app. right. left. }
      cbn [staysInRing]. fold (frameAt s i).
      destruct (mbLockedForDisplay (frameAt s i)) eqn:Hlck.
      * assert (Hring' : mpWorkQueue s = (kept ++ [WFrame i]) ++ rest)
          by (rewrite <- app_assoc; exact Hring).
        destruct (IH s _ Hok Hring') as (s' & Hrun & Hr & Hok' & Hc & Hids).
        exists s'. split_and!; [ | | exact Hok' | exact Hc | exact Hids ].
        -- unfold onUnlockedPoolFrame. rewrite bind_assoc. run_getFrame Hlook.
           rewrite Hlck. cbn [negb andb]. mrun. exact Hrun.
        -- rewrite Hr, <- app_assoc. reflexivity.
      * destruct (dropFrame_ok _ _ _ _ Hok Hring Hlck) as (Hrun & Hr1 & Hok1 & Hc1).
        destruct (IH _ kept Hok1 Hr1) as (s' & Hrun' & Hr & Hok' & Hc & Hids).
        exists s'. split_and!; [ | | exact Hok' | | ].
        -- unfold onUnlockedPoolFrame. rewrite bind_assoc. run_getFrame Hlook.
           rewrite Hlck, Htype. cbn [negb andb FrameType_eqb]. run_with Hrun. exact Hrun'.
        -- rewrite Hr. f_equal. apply filter_ext_in. intros w Hw.
           destruct w as [ j | e ]; [ | reflexivity ]. cbn [staysInRing dropFrame_state maFrames].
           rewrite poolFrame_insert_ne; [ reflexivity | ].
           intros ->. apply Hi2. apply elem_of_frame_ids. apply list_elem_of_In. exact Hw.
        -- eapply countersFollow_trans; eassumption.
        -- rewrite Hids. reflexivity.
    + assert (Hring' : mpWorkQueue s = (kept ++ [WEvent e]) ++ rest)
        by (rewrite <- app_assoc; exact Hring).
      destruct (IH s _ Hok Hring') as (s' & Hrun & Hr & Hok' & Hc & Hids).
      exists s'. split_and!; [ | | exact Hok' | exact Hc | exact Hids ].
      * unfold onUnlockedPoolFrame. mrun. exact Hrun.
      * rewrite Hr, <- app_assoc. reflexivity.
Qed.

(** X12.  dropAllFrames takes every frame that is not locked for display out of
    the ring and leaves the events where they are.  On a well-formed queue
    the loop completes: the ring then holds the events and the locked
    frames in their order, the counters went down by the number of frames
    dropped, and the tracking ids are as before, lastIssuedFrame included;
    dropAllFrames completes with this state if the validation of the queue
    passes before and after the loop, and fails its assertion otherwise. *)
Theorem dropAllFrames_leaves_events (s : DisplayQueue) :
  RingOk s ->
  exists s1,
    mpWorkQueue s1 = List.filter (staysInRing (maFrames s)) (mpWorkQueue s)
    /\ ring_events (mpWorkQueue s1) = ring_events (mpWorkQueue s)
    /\ RingOk s1
    /\ countersFollow s s1
    /\ mLastIssuedFrame s1 = mLastIssuedFrame s
    /\ mLastQueuedFrame s1 = mLastQueuedFrame s
    /\ dropAllFrames s
       = if queueValid s && queueValid s1 then Ok (tt, s1) else AssertFail.
Proof.
  intros Hok.
  destruct (dropAll_loop_ok (mpWorkQueue s) s [] Hok eq_refl)
    as (s1 & Hrun & Hr & Hok1 & Hc & Hids).
  cbn [app] in Hr. exists s1. unfold ids in Hids. split_and!; try assumption.
  - rewrite Hr. apply staysInRing_events.
  - congruence.
  - congruence.
  - unfold dropAllFrames. unfold bind at 1. rewrite doValidateQueue_run.
    destruct (queueValid s); [ | reflexivity ]. mrun. run_with Hrun.
    unfold bind. rewrite doValidateQueue_run.
    destruct (queueValid s1); reflexivity.
Qed.

Lemma dropAllFrames_leaves_events_witness :
  exists s1,
    mpWorkQueue s1 = List.filter (staysInRing (maFrames exQueueFE)) (mpWorkQueue exQueueFE)
    /\ ring_events (mpWorkQueue s1) = ring_events (mpWorkQueue exQueueFE)
    /\ RingOk s1
    /\ countersFollow exQueueFE s1
    /\ mLastIssuedFrame s1 = mLastIssuedFrame exQueueFE
    /\ mLastQueuedFrame s1 = mLastQueuedFrame exQueueFE
    /\ dropAllFrames exQueueFE
       = if queueValid exQueueFE && queueValid s1 then Ok (tt, s1) else AssertFail.
Proof.
  apply (dropAllFrames_leaves_events exQueueFE).
  apply (bool_decide_unpack _). vm_compute. exact I.
Defined.

(** The run of the example: the frame is dropped, the event stays. *)
Lemma dropAllFrames_example :
  exists s1, dropAllFrames exQueueFE = Ok (tt, s1)
             /\ frame_ids (mpWorkQueue exQueueFE) = [0%nat]
             /\ eventIds (mpWorkQueue exQueueFE) = [42]
             /\ frame_ids (mpWorkQueue s1) = []
             /\ eventIds (mpWorkQueue s1) = [42].
Proof.
  eexists. split_and!; vm_compute; reflexivity.
Qed.

(** ** Frame::set and Frame::reset *)

(** A frame layer that holds nothing: what FrameLayer::set asserts. *)
Definition layerClean (fl : FrameLayer) : Prop :=
  mbSet fl = false /\ mpAcquiredBuffer fl = None /\ mAcquireFence fl < 0.

#[export] Instance layerClean_dec fl : Decision (layerClean fl).
Proof. unfold layerClean. apply _. Defined.

Definition layersClean (f : Frame) : Prop := Forall layerClean (maLayers f).

(** What FrameLayer::validate asserts of a layer that has a buffer. *)
Definition layerValid (l : Layer) : Prop :=
  lHandle l = None \/ (lBufferDeviceIdValid l = true /\ lBufferDeviceId l <> 0).

#[export] Instance layerValid_dec l : Decision (layerValid l).
Proof. unfold layerValid. apply _. Defined.

(** The frame layer FrameLayer::set makes of a layer: the snapshot without
    the reference to a native release fence, the duplicate of the acquire
    fence, the buffer of the handle. *)
Definition frameLayerOf (l : Layer) : FrameLayer :=
  mkFrameLayer
    (mkLayer (lDisabled l) (lBufferDeviceId l) (lBufferDeviceIdValid l) (lHandle l)
             (lAcquireFence l) false
             (if lReleaseNative l then false else lHasReleaseFence l)
             (lRendered l))
    (lAcquireFence l) (lHandle l) true.

Lemma FrameLayer_set_inv l fl fl' :
  FrameLayer_set l fl = Ok fl' -> fl' = frameLayerOf l /\ layerClean fl /\ layerValid l.
Proof.
  unfold FrameLayer_set, layerClean, layerValid, frameLayerOf. intros H.
  destruct (mbSet fl); cbn [negb rassert rbind] in H; [ discriminate | ].
  destruct (mpAcquiredBuffer fl); cbn [rassert rbind] in H; [ discriminate | ].
  destruct (mAcquireFence fl <? 0) eqn:Ef; cbn [rassert rbind] in H; [ | discriminate ].
  apply Z.ltb_lt in Ef.
  destruct (lHandle l) as [ hd | ] eqn:Eh.
  - destruct (lBufferDeviceIdValid l); cbn [rassert rbind] in H; [ | discriminate ].
    destruct (lBufferDeviceId l =? 0) eqn:Ed; cbn [negb rassert rbind] in H; [ discriminate | ].
    apply Z.eqb_neq in Ed. injection H as <-.
    split_and!; try reflexivity; try assumption.
    + destruct (lReleaseNative l); reflexivity.
    + right. split; [ reflexivity | exact Ed ].
  - injection H as <-. split_and!; try reflexivity; try assumption.
    + destruct (lReleaseNative l); reflexivity.
    + left. reflexivity.
Qed.

Lemma FrameLayer_set_run l fl :
  layerClean fl -> layerValid l -> FrameLayer_set l fl = Ok (frameLayerOf l).
Proof.
  intros (Hs & Hb & Hf) Hv. unfold FrameLayer_set, frameLayerOf.
  rewrite Hs, Hb. cbn [negb rassert rbind]. rewrite (proj2 (Z.ltb_lt _ _) Hf).
  cbn [rassert rbind].
  destruct Hv as [ Hn | [Hv Hd] ].
  - rewrite Hn. destruct (lReleaseNative l); reflexivity.
  - destruct (lHandle l) as [ hd | ].
    + rewrite Hv. cbn [rassert rbind]. rewrite (proj2 (Z.eqb_neq _ _) Hd).
      cbn [negb rassert rbind]. destruct (lReleaseNative l); reflexivity.
    + destruct (lReleaseNative l); reflexivity.
Qed.

(** FrameLayer::reset leaves a layer that FrameLayer::set accepts. *)
Lemma FrameLayer_reset_clean b fl : layerClean (FrameLayer_reset b fl).
Proof.
  unfold layerClean, FrameLayer_reset. cbn. split_and!; try reflexivity.
  destruct (0 <=? mAcquireFence fl) eqn:E; [ lia | apply Z.leb_gt in E; exact E ].
Qed.

Lemma set_layers_inv stack : forall ls ls',
  set_layers stack ls = Ok ls' ->
  ls' = map frameLayerOf stack ++ drop (length stack) ls
  /\ Forall layerValid stack
  /\ Forall layerClean (take (length stack) ls)
  /\ (length stack <= length ls)%nat.
Proof.
  induction stack as [ | l stack IH ]; intros ls ls' H; cbn [set_layers] in H.
  - injection H as <-. cbn. split_and!; [ reflexivity | constructor | constructor | lia ].
  - destruct ls as [ | fl ls ]; [ discriminate | ].
    destruct (FrameLayer_set l fl) as [ fl' | | ] eqn:El; cbn [rbind] in H; try discriminate.
    destruct (set_layers stack ls) as [ rest | | ] eqn:E; cbn [rbind] in H; try discriminate.
    injection H as <-.
    apply FrameLayer_set_inv in El. destruct El as (-> & Hc & Hv).
    destruct (IH _ _ E) as (-> & Hvs & Hcs & Hlen).
    cbn. split_and!; [ reflexivity | constructor; assumption | constructor; assumption | lia ].
Qed.

Lemma set_layers_run stack : forall ls,
  Forall layerClean ls -> Forall layerValid stack -> (length stack <= length ls)%nat ->
  set_layers stack ls = Ok (map frameLayerOf stack ++ drop (length stack) ls).
Proof.
  induction stack as [ | l stack IH ]; intros ls Hc Hv Hlen; cbn [set_layers].
  - reflexivity.
  - destruct ls as [ | fl ls ]; [ cbn in Hlen; lia | ].
    apply Forall_cons in Hc. destruct Hc as [Hc Hcs].
    apply Forall_cons in Hv. destruct Hv as [Hv Hvs].
    rewrite (FrameLayer_set_run l fl Hc Hv). cbn [rbind].
    rewrite (IH ls Hcs Hvs ltac:(cbn in Hlen; lia)). reflexivity.
Qed.

(** The number of layers Frame::set allocates for a stack of [n] layers. *)
Definition allocFor (n : Z) : Z :=
  if cMinimumLayerAllocCount <? n then n else cMinimumLayerAllocCount.

(** Frame::set, unfolded on a frame that is neither queued nor locked, for
    a stack whose size fits a uint32_t. *)
Lemma Frame_set_unfold bAlloc stack zorder id config f :
  mbLinked f = false -> mbLockedForDisplay f = false ->
  Z.of_nat (length stack) < 2 ^ 32 ->
  Frame_set bAlloc stack zorder id config f =
  let n := Z.of_nat (length stack) in
  if mLayerAllocCount f <? n then
    if bAlloc then
      rbind (set_layers stack (repeat FrameLayer_new (Z.to_nat (allocFor n)))) (fun ls =>
      Ok (true, mkFrame (mEffectiveFrame f) false (mType f) (allocFor n) n ls
                        zorder id config false true))
    else
      Ok (false, mkFrame (mEffectiveFrame f) false (mType f) 0 0 []
                         zorder id (mConfig f) false true)
  else
    rbind (set_layers stack (maLayers f)) (fun ls =>
    Ok (true, mkFrame (mEffectiveFrame f) false (mType f) (mLayerAllocCount f) n ls
                      zorder id config false true)).
Proof.
  intros Hl Hk Hn. unfold Frame_set. rewrite Hl, Hk. cbn [negb rassert rbind].
  rewrite (u32_small (Z.of_nat (length stack))) by lia. cbv zeta.
  fold (allocFor (Z.of_nat (length stack))).
  destruct (mLayerAllocCount f <? Z.of_nat (length stack)) eqn:Ere.
  - destruct bAlloc; cbn [negb andb]; [ | reflexivity ].
    replace (allocFor (Z.of_nat (length stack)) <? Z.of_nat (length stack)) with false;
      [ reflexivity | ].
    symmetry. apply Z.ltb_ge. unfold allocFor, cMinimumLayerAllocCount.
    destruct (8 <? Z.of_nat (length stack)) eqn:E8; [ lia | apply Z.ltb_ge in E8; lia ].
  - cbn [andb]. rewrite Ere. reflexivity.
Qed.

Lemma repeat_new_clean n : Forall layerClean (repeat FrameLayer_new n).
Proof.
  apply Forall_forall. intros fl Hfl. apply list_elem_of_In, repeat_spec in Hfl. subst fl.
  unfold layerClean. cbn. split_and!; [ reflexivity | reflexivity | lia ].
Qed.

Lemma allocFor_ge n : n <= allocFor n /\ cMinimumLayerAllocCount <= allocFor n.
Proof.
  unfold allocFor, cMinimumLayerAllocCount.
  destruct (8 <? n) eqn:E; [ apply Z.ltb_lt in E | apply Z.ltb_ge in E ]; lia.
Qed.

(** X13.  Frame::set on success.  The frame holds one layer for each layer of the
    stack, in the order of the stack: getLayer( ly ) is the snapshot of the
    layer ly of the stack, with the acquire fence duplicated, the buffer
    acquired and no reference to a native release fence; getLayer of the
    stack size is NULL.  The frame carries the id, the z-order and the
    config, it is valid, and its allocation did not shrink: it is the old
    one, or at least cMinimumLayerAllocCount. *)
Theorem Frame_set_holds_the_stack (bAlloc : bool) (stack : list Layer) (zorder : Z)
    (id : FrameId) (config : Z) (f f' : Frame) :
  Z.of_nat (length stack) < 2 ^ 32 ->
  Frame_set bAlloc stack zorder id config f = Ok (true, f') ->
  mLayerCount f' = Z.of_nat (length stack)
  /\ (forall ly l, stack !! ly = Some l ->
        Frame_getLayer f' (Z.of_nat ly) = Some (Z.of_nat ly)
        /\ Frame_layerAt f' (Z.of_nat ly) = Some (frameLayerOf l))
  /\ Frame_getLayer f' (Z.of_nat (length stack)) = None
  /\ mFrameId f' = id /\ mZOrder f' = zorder /\ mConfig f' = config /\ mbValid f' = true
  /\ mLayerAllocCount f <= mLayerAllocCount f'
  /\ (mLayerAllocCount f' = mLayerAllocCount f
      \/ cMinimumLayerAllocCount <= mLayerAllocCount f').
Proof.
  intros Hn H.
  pose proof (Frame_set_fields _ _ _ _ _ _ _ _ H) as (Hl & Hk & _).
  rewrite (Frame_set_unfold _ _ _ _ _ _ Hl Hk Hn) in H. cbv zeta in H.
  pose proof (allocFor_ge (Z.of_nat (length stack))) as [Ha1 Ha2].
  assert (Hlayers : exists ls0, maLayers f' = map frameLayerOf stack ++ drop (length stack) ls0
            /\ mLayerCount f' = Z.of_nat (length stack)
            /\ mFrameId f' = id /\ mZOrder f' = zorder /\ mConfig f' = config
            /\ mbValid f' = true
            /\ mLayerAllocCount f <= mLayerAllocCount f'
            /\ (mLayerAllocCount f' = mLayerAllocCount f
                \/ cMinimumLayerAllocCount <= mLayerAllocCount f')).
  { destruct (mLayerAllocCount f <? Z.of_nat (length stack)) eqn:Ere.
    - apply Z.ltb_lt in Ere. destruct bAlloc; [ | discriminate ].
      destruct (set_layers stack _) as [ ls | | ] eqn:Es; cbn [rbind] in H; try discriminate.
      injection H as <-. apply set_layers_inv in Es. destruct Es as (-> & _).
      eexists. cbn. split_and!; try reflexivity; try lia; right; exact Ha2.
    - destruct (set_layers stack _) as [ ls | | ] eqn:Es; cbn [rbind] in H; try discriminate.
      injection H as <-. apply set_layers_inv in Es. destruct Es as (-> & _).
      eexists. cbn. split_and!; try reflexivity; try lia; left; reflexivity. }
  destruct Hlayers as (ls0 & Hls & Hc & Hid & Hz & Hcfg & Hv & Hg1 & Hg2).
  split_and!; try assumption.
  - intros ly l Hly. pose proof (lookup_lt_Some _ _ _ Hly) as Hlt.
    unfold Frame_getLayer, Frame_editLayer, Frame_layerAt. rewrite Hc, Hls.
    replace (Z.of_nat (length stack) =? 0) with false by (symmetry; apply Z.eqb_neq; lia).
    replace (Z.of_nat ly <? Z.of_nat (length stack)) with true
      by (symmetry; apply Z.ltb_lt; lia).
    replace (Z.of_nat ly <? 0) with false by (symmetry; apply Z.ltb_ge; lia).
    cbn [negb andb]. rewrite Nat2Z.id. split; [ reflexivity | ].
    rewrite lookup_app_l by (rewrite length_map; exact Hlt).
    rewrite list_lookup_fmap, Hly. reflexivity.
  - unfold Frame_getLayer, Frame_editLayer. rewrite Hc, Z.ltb_irrefl, andb_false_r.
    reflexivity.
Qed.

(** X14.  A frame that was reset can be set again.  On a frame that is neither
    queued nor locked, whose layers hold nothing, Frame::set of a stack of
    layers that pass FrameLayer::validate completes and returns true, as
    long as the allocation succeeds or is not needed because the stack is
    not larger than the allocation; and Frame::reset, with or without
    cancel, gives back a frame on which this holds again, with an
    allocation that is not smaller than before and not smaller than the
    stack. *)
Theorem Frame_set_reset_reusable (bAlloc : bool) (stack : list Layer) (zorder : Z)
    (id : FrameId) (config : Z) (f : Frame) :
  Frame_ok f -> layersClean f ->
  mbLinked f = false -> mbLockedForDisplay f = false ->
  Forall layerValid stack ->
  Z.of_nat (length stack) < 2 ^ 32 ->
  bAlloc = true \/ Z.of_nat (length stack) <= mLayerAllocCount f ->
  exists f',
    Frame_set bAlloc stack zorder id config f = Ok (true, f')
    /\ forall bCancel,
         Frame_ok (Frame_reset bCancel f')
         /\ layersClean (Frame_reset bCancel f')
         /\ mbLinked (Frame_reset bCancel f') = false
         /\ mbLockedForDisplay (Frame_reset bCancel f') = false
         /\ mLayerAllocCount f <= mLayerAllocCount (Frame_reset bCancel f')
         /\ Z.of_nat (length stack) <= mLayerAllocCount (Frame_reset bCancel f').
Proof.
  intros Hok Hclean Hl Hk Hv Hn Halloc.
  pose proof Hok as [Hlen Hcnt].
  pose proof (allocFor_ge (Z.of_nat (length stack))) as [Ha1 Ha2].
  assert (Hreset : forall ls0 bCancel,
            Forall layerClean ls0 ->
            Forall layerClean
              (reset_layers bCancel (Z.of_nat (length stack))
                 (map frameLayerOf stack ++ drop (length stack) ls0))).
  { intros ls0 bCancel Hc. unfold reset_layers. rewrite Nat2Z.id.
    rewrite take_app_length' by (symmetry; apply length_map).
    rewrite drop_app_length' by (symmetry; apply length_map).
    apply Forall_app. split.
    - apply Forall_forall. intros fl Hfl. apply list_elem_of_fmap in Hfl.
      destruct Hfl as (fl0 & -> & _). apply FrameLayer_reset_clean.
    - apply Forall_drop. exact Hc. }
  rewrite (Frame_set_unfold _ _ _ _ _ _ Hl Hk Hn). cbv zeta.
  destruct (mLayerAllocCount f <? Z.of_nat (length stack)) eqn:Ere.
  - apply Z.ltb_lt in Ere. destruct Halloc as [ -> | Hfit ]; [ | lia ].
    rewrite set_layers_run;
      [ | apply repeat_new_clean | exact Hv | rewrite repeat_length; lia ].
    cbn [rbind]. eexists. split; [ reflexivity | ]. intros bCancel.
    split; [ | split ].
    + apply Frame_reset_ok. unfold Frame_ok. cbn.
      rewrite length_app, length_map, length_drop, repeat_length. lia.
    + unfold layersClean. cbn. apply Hreset. apply repeat_new_clean.
    + cbn. split_and!; try reflexivity; lia.
  - apply Z.ltb_ge in Ere.
    rewrite set_layers_run; [ | exact Hclean | exact Hv | lia ].
    cbn [rbind]. eexists. split; [ reflexivity | ]. intros bCancel.
    split; [ | split ].
    + apply Frame_reset_ok. unfold Frame_ok. cbn.
      rewrite length_app, length_map, length_drop. lia.
    + unfold layersClean. cbn. apply Hreset. exact Hclean.
    + cbn. split_and!; try reflexivity; lia.
Qed.

(** X15.  Frame::set when the allocation of the layers fails.  On a frame that is
    neither queued nor locked and whose allocation is smaller than the
    stack, a failing allocation makes Frame::set return false; the frame
    has no layers left, getLayer is NULL for every index, and the frame has
    all the same taken the new id and z-order and is marked valid. *)
Theorem Frame_set_allocation_failure (stack : list Layer) (zorder : Z) (id : FrameId)
    (config : Z) (f : Frame) :
  mbLinked f = false -> mbLockedForDisplay f = false ->
  Z.of_nat (length stack) < 2 ^ 32 ->
  mLayerAllocCount f < Z.of_nat (length stack) ->
  exists f',
    Frame_set false stack zorder id config f = Ok (false, f')
    /\ mLayerCount f' = 0 /\ mLayerAllocCount f' = 0 /\ maLayers f' = []
    /\ (forall ly, Frame_getLayer f' ly = None)
    /\ mFrameId f' = id /\ mZOrder f' = zorder /\ mbValid f' = true
    /\ mConfig f' = mConfig f.
Proof.
  intros Hl Hk Hn Hsmall.
  rewrite (Frame_set_unfold _ _ _ _ _ _ Hl Hk Hn). cbv zeta.
  rewrite (proj2 (Z.ltb_lt _ _) Hsmall).
  eexists. split; [ reflexivity | ]. cbn. split_and!; reflexivity.
Qed.

(** A frame out of the constructor, set to a stack of two layers. *)
Definition exFrameSet : Frame :=
  match Frame_set true [exLayer; exLayerBusy] 0 (mkFrameId 1 1) 0 Frame_new with
  | Ok (_, f) => f
  | _ => Frame_new
  end.

Lemma Frame_set_holds_the_stack_witness :
  mLayerCount exFrameSet = 2
  /\ (forall ly l, [exLayer; exLayerBusy] !! ly = Some l ->
        Frame_getLayer exFrameSet (Z.of_nat ly) = Some (Z.of_nat ly)
        /\ Frame_layerAt exFrameSet (Z.of_nat ly) = Some (frameLayerOf l))
  /\ Frame_getLayer exFrameSet 2 = None
  /\ mFrameId exFrameSet = mkFrameId 1 1 /\ mZOrder exFrameSet = 0
  /\ mConfig exFrameSet = 0 /\ mbValid exFrameSet = true
  /\ mLayerAllocCount Frame_new <= mLayerAllocCount exFrameSet
  /\ (mLayerAllocCount exFrameSet = mLayerAllocCount Frame_new
      \/ cMinimumLayerAllocCount <= mLayerAllocCount exFrameSet).
Proof.
  apply (Frame_set_holds_the_stack true [exLayer; exLayerBusy] 0 (mkFrameId 1 1) 0
           Frame_new exFrameSet).
  - vm_compute. reflexivity.
  - vm_compute. reflexivity.
Defined.

Lemma Frame_set_reset_reusable_witness :
  exists f',
    Frame_set false [exLayer] 3 (mkFrameId 2 2) 1 (Frame_reset true exFrameSet) = Ok (true, f')
    /\ forall bCancel,
         Frame_ok (Frame_reset bCancel f')
         /\ layersClean (Frame_reset bCancel f')
         /\ mbLinked (Frame_reset bCancel f') = false
         /\ mbLockedForDisplay (Frame_reset bCancel f') = false
         /\ mLayerAllocCount (Frame_reset true exFrameSet)
            <= mLayerAllocCount (Frame_reset bCancel f')
         /\ Z.of_nat (length [exLayer]) <= mLayerAllocCount (Frame_reset bCancel f').
Proof.
  apply (Frame_set_reset_reusable false [exLayer] 3 (mkFrameId 2 2) 1
           (Frame_reset true exFrameSet)).
  - apply (bool_decide_unpack _). vm_compute. exact I.
  - apply (bool_decide_unpack _). vm_compute. exact I.
  - vm_compute. reflexivity.
  - vm_compute. reflexivity.
  - apply (bool_decide_unpack _). vm_compute. exact I.
  - vm_compute. reflexivity.
  - right. vm_compute. discriminate.
Defined.

Lemma Frame_set_allocation_failure_witness :
  exists f',
    Frame_set false [exLayer] 3 (mkFrameId 2 2) 1 Frame_new = Ok (false, f')
    /\ mLayerCount f' = 0 /\ mLayerAllocCount f' = 0 /\ maLayers f' = []
    /\ (forall ly, Frame_getLayer f' ly = None)
    /\ mFrameId f' = mkFrameId 2 2 /\ mZOrder f' = 3 /\ mbValid f' = true
    /\ mConfig f' = mConfig Frame_new.
Proof.
  apply (Frame_set_allocation_failure [exLayer] 3 (mkFrameId 2 2) 1 Frame_new).
  - vm_compute. reflexivity.
  - vm_compute. reflexivity.
  - vm_compute. reflexivity.
  - vm_compute. reflexivity.
Defined.

(** ** The life of a frame: queued, flipped, released *)

Lemma limitUsedFrames_empty s :
  mpWorkQueue s = [] -> limitUsedFrames s = Ok (tt, s).
Proof.
  intros Hring. unfold limitUsedFrames, doDropRedundantFrames. mrun. rewrite Hring.
  cbn [rev]. mrun.
  destruct (mFramePoolUsed s <? mFramePoolLimit s); reflexivity.
Qed.

Lemma dropFrame_empty i s :
  mpWorkQueue s = [] -> forall u s', dropFrame i s <> Ok (u, s').
Proof.
  intros Hring u s' H. unfold dropFrame, WorkItem_dequeue, isQueued in H.
  minv_all; use_ro; dq_simpl_all.
  match goal with
  | Hl : negb (Nat.eqb (length (mpWorkQueue _)) 0) = true |- _ =>
      rewrite Hring in Hl; discriminate Hl
  end.
Qed.

(** With nothing queued findFree drops nothing: it yields a frame that is
    neither queued nor locked, or NULL. *)
Lemma findFree_empty s r s' :
  mpWorkQueue s = [] -> findFree s = Ok (r, s') ->
  s' = s /\ forall i, r = Some i -> exists f, maFrames s !! i = Some f /\ unusedFrame f.
Proof.
  intros Hring H. rewrite findFree_unfold in H.
  destruct (findFree_scan (maFrames s) 0 None) as [ k | [ [o fo] | ] ] eqn:Hscan.
  - injection H as <- <-. split; [ reflexivity | ]. intros i Ei. injection Ei as <-.
    apply findFree_scan_inl in Hscan. destruct Hscan as (n & fr & -> & Hn & Hu).
    exists fr. split; assumption.
  - apply bind_inv in H. destruct H as (u & s0 & Hd & _).
    exfalso. exact (dropFrame_empty o s Hring u s0 Hd).
  - injection H as <- <-. split; [ reflexivity | ]. intros i Ei. discriminate Ei.
Qed.

(** What a successful queueFrame did on a queue with an empty ring. *)
Lemma queueFrame_empty_inv bAlloc stack zorder id config s s1 :
  mpWorkQueue s = [] ->
  queueFrame bAlloc stack zorder id config s = Ok (OK, s1) ->
  exists i f f',
    maFrames s !! i = Some f /\ unusedFrame f
    /\ Frame_set bAlloc stack zorder id config f = Ok (true, f')
    /\ mpWorkQueue s1 = [WFrame i]
    /\ maFrames s1 = <[i := Frame_withLinked true (Frame_withEffective id f')]> (maFrames s)
    /\ mBehaviourFlags s1 = mBehaviourFlags s
    /\ mLastQueuedFrame s1 = id
    /\ mFramePoolUsed s1 = incr32 (mFramePoolUsed s)
    /\ mFramesLockedForDisplay s1 = mFramesLockedForDisplay s.
Proof.
  intros Hring H. unfold queueFrame in H.
  apply bind_inv in H. destruct H as (q & s0 & Hq & H).
  apply gets_inv in Hq. destruct Hq as [-> ->].
  apply bind_inv in H. destruct H as (u0 & s0 & Hv & H).
  apply validateFutureFrame_inv in Hv. destruct Hv as [Hv ->].
  apply bind_inv in H. destruct H as ([] & sL & Hlimit & H).
  rewrite (limitUsedFrames_empty s Hring) in Hlimit. injection Hlimit as <-.
  apply bind_inv in H. destruct H as (pNewFrame & s2 & Hfind & H).
  apply (findFree_empty _ _ _ Hring) in Hfind. destruct Hfind as [-> Hfree].
  destruct pNewFrame as [ i | ]; [ | apply ret_inv in H; destruct H as [H _]; discriminate H ].
  destruct (Hfree i eq_refl) as (f & Hf & Hu).
  revert Hring Hf Hu.
  unfold doQueueWork, WorkItem_queue, isQueued, getEffectiveFrame, updFrame, setFrame,
    startWorker, signalWork in H.
  minv_all; use_ro; dq_simpl_all; intros Xring Xf Xu.
  all: cbn [isFrameItem] in *; try discriminate.
  all: match goal with
       | Hl : liftFrame _ _ _ = Ok (?b, _) |- _ =>
           apply liftFrame_inv in Hl; destruct Hl as (f0 & f' & Hf0' & Hop & ->);
           destruct b; [ | discriminate ]
       end.
  all: dq_simpl_all; pool_norm.
  all: match goal with
       | Hs : Frame_set _ _ _ _ _ ?f = Ok (true, ?g) |- _ => exists i, f, g
       end.
  all: rewrite Xring, !list_insert_insert_eq.
  all: split_and!; try reflexivity; assumption.
Qed.

(** X16.  A frame from the queue to the display and back to the pool.  On a
    queue with an empty ring and without eBF_SYNC_BEFORE_FLIP, a queueFrame
    that returns OK followed by a consumeWork whose flip succeeds: the
    frame was taken from the unused frames of the pool, consumeWork
    returns true and hands this frame to the backend, the ring is empty
    again, lastQueuedFrame and lastIssuedFrame are the id that was queued,
    and the frame is locked for display and counted in framePoolUsed.  A
    releaseFrame of the frame that completes then leaves the frame unused
    and puts framePoolUsed and framesLockedForDisplay back to their 32-bit
    values before the frame was queued. *)
Theorem frame_life_cycle (bAlloc : bool) (stack : list Layer) (zorder : Z) (id : FrameId)
    (config : Z) (s s1 : DisplayQueue) (r : bool) (s2 : DisplayQueue) :
  mpWorkQueue s = [] ->
  Z.land (mBehaviourFlags s) eBF_SYNC_BEFORE_FLIP = 0 ->
  queueFrame bAlloc stack zorder id config s = Ok (OK, s1) ->
  consumeWork true s1 = Ok (r, s2) ->
  exists i f0 f2,
    maFrames s !! i = Some f0 /\ unusedFrame f0
    /\ mpWorkQueue s1 = [WFrame i]
    /\ r = true
    /\ mpWorkQueue s2 = []
    /\ mLog s2 = mLog s1 ++ [BackendConsumeFrame i; NotifyWorkConsumed]
    /\ mLastQueuedFrame s2 = id /\ mLastIssuedFrame s2 = id
    /\ maFrames s2 !! i = Some f2
    /\ mFrameId f2 = id /\ mZOrder f2 = zorder
    /\ mbLockedForDisplay f2 = true /\ mbLinked f2 = false
    /\ mFramePoolUsed s2 = incr32 (mFramePoolUsed s)
    /\ mFramesLockedForDisplay s2 = incr32 (mFramesLockedForDisplay s)
    /\ forall u s3, releaseFrame i s2 = Ok (u, s3) ->
          mpWorkQueue s3 = []
          /\ mFramePoolUsed s3 = u32 (mFramePoolUsed s)
          /\ mFramesLockedForDisplay s3 = u32 (mFramesLockedForDisplay s)
          /\ exists f3, maFrames s3 !! i = Some f3 /\ unusedFrame f3.
Proof.
  intros Hring Hflags Hq Hc.
  destruct (queueFrame_empty_inv _ _ _ _ _ _ _ Hring Hq)
    as (i & f0 & f' & Hf0 & Hu0 & Hset & Hring1 & Hpool1 & Hflags1 & Hlq1 & Hused1 & Hlocked1).
  pose proof (lookup_lt_Some _ _ _ Hf0) as Hi.
  rewrite <- Hflags1 in Hflags.
  destruct (doConsumeWork_head_frame_inv true i [] s1 r s2 Hring1 Hflags Hc)
    as (f1 & Hf1 & -> & Hring2 & Hissued & _ & _ & _ & _ & Hgood & _).
  destruct (Hgood eq_refl) as (Hpool2 & Hlocked2 & Hused2 & Hlog2).
  rewrite Hpool1, list_lookup_insert_eq in Hf1 by exact Hi. injection Hf1 as <-.
  pose proof (Frame_set_fields _ _ _ _ _ _ _ _ Hset) as (_ & _ & Hid & Hz & _).
  exists i, f0, (Frame_withLinked false (Frame_withLocked true
                   (Frame_withLinked true (Frame_withEffective id f')))).
  split_and!; try assumption; try reflexivity.
  - rewrite <- Hlq1. apply (doConsumeWork_queued true s1 true s2 Hc).
  - rewrite Hpool2, Hpool1. apply list_lookup_insert_eq. rewrite length_insert. exact Hi.
  - congruence.
  - congruence.
  - intros u s3 Hr. unfold releaseFrame in Hr.
    destruct (doReleaseFrame_inv i s2 u s3 Hr)
      as (f2 & Hf2 & _ & _ & Hpool3 & Hlocked3 & Hused3 & Hring3 & _).
    split_and!.
    + congruence.
    + rewrite Hused3, Hused2, Hused1. u32_arith.
    + rewrite Hlocked3, Hlocked2, Hlocked1. u32_arith.
    + exists (Frame_reset false f2). split.
      * rewrite Hpool3. apply list_lookup_insert_eq. exact (lookup_lt_Some _ _ _ Hf2).
      * rewrite Hpool2, Hpool1, list_lookup_insert_eq in Hf2
          by (rewrite !length_insert; exact Hi).
        injection Hf2 as <-. split; reflexivity.
Qed.


(** The queue of the examples with its first frame on display. *)
Definition exQueueFlipped : DisplayQueue := stateAfter (consumeWork true) exQueue1.

Lemma frame_life_cycle_witness :
  exists i f0 f2,
    maFrames exQueue !! i = Some f0 /\ unusedFrame f0
    /\ mpWorkQueue exQueue1 = [WFrame i]
    /\ true = true
    /\ mpWorkQueue exQueueFlipped = []
    /\ mLog exQueueFlipped = mLog exQueue1 ++ [BackendConsumeFrame i; NotifyWorkConsumed]
    /\ mLastQueuedFrame exQueueFlipped = mkFrameId 1 1
    /\ mLastIssuedFrame exQueueFlipped = mkFrameId 1 1
    /\ maFrames exQueueFlipped !! i = Some f2
    /\ mFrameId f2 = mkFrameId 1 1 /\ mZOrder f2 = 0
    /\ mbLockedForDisplay f2 = true /\ mbLinked f2 = false
    /\ mFramePoolUsed exQueueFlipped = incr32 (mFramePoolUsed exQueue)
    /\ mFramesLockedForDisplay exQueueFlipped = incr32 (mFramesLockedForDisplay exQueue)
    /\ forall u s3, releaseFrame i exQueueFlipped = Ok (u, s3) ->
          mpWorkQueue s3 = []
          /\ mFramePoolUsed s3 = u32 (mFramePoolUsed exQueue)
          /\ mFramesLockedForDisplay s3 = u32 (mFramesLockedForDisplay exQueue)
          /\ exists f3, maFrames s3 !! i = Some f3 /\ unusedFrame f3.
Proof.
  apply (frame_life_cycle true [exLayer] 0 (mkFrameId 1 1) 0 exQueue exQueue1 true
           exQueueFlipped).
  - vm_compute. reflexivity.
  - vm_compute. reflexivity.
  - vm_compute. reflexivity.
  - vm_compute. reflexivity.
Defined.

(** The release of the example completes: the pool is as it was. *)
Example frame_life_cycle_example :
  exists s3, releaseFrame 0 exQueueFlipped = Ok (tt, s3)
             /\ mFramePoolUsed s3 = 0 /\ mFramesLockedForDisplay s3 = 0
             /\ mpWorkQueue s3 = [].
Proof. eexists. split_and!; vm_compute; reflexivity. Qed.

(** ** Layer pointers along a run *)

(** X17.  In every state that public operations reach from a new queue, every
    pointer that Frame::getLayer returns for a frame of the pool and an
    index of type uint32_t designates a layer inside the layer array of the
    frame. *)
Theorem getLayer_stays_in_array_along_runs (fuel : nat) (ops : list Op)
    (poolCount : nat) (poolLimit flags : Z) :
  Forall (fun s => forall i f ly p,
            maFrames s !! i = Some f -> 0 <= ly ->
            Frame_getLayer f ly = Some p ->
            exists fl, Frame_layerAt f p = Some fl)
         (run_ops fuel ops (DisplayQueue_new poolCount poolLimit flags)).
Proof.
  pose proof (run_ops_frames fuel ops _ (DisplayQueue_new_frames poolCount poolLimit flags))
    as Hall.
  eapply Forall_impl; [ exact Hall | ].
  intros s Hs i f ly p Hf Hly Hget. cbv beta in Hs.
  unfold poolFramesOk in Hs. rewrite Forall_forall in Hs.
  destruct (Hs f (list_elem_of_lookup_2 _ _ _ Hf)) as [Hlen Hcnt].
  unfold Frame_getLayer, Frame_editLayer in Hget.
  destruct (negb (mLayerCount f =? 0) && (ly <? mLayerCount f)) eqn:E; [ | discriminate ].
  injection Hget as <-. apply andb_true_iff in E. destruct E as [_ E].
  apply Z.ltb_lt in E. unfold Frame_layerAt.
  replace (ly <? 0) with false by (symmetry; apply Z.ltb_ge; lia).
  apply lookup_lt_is_Some_2. lia.
Qed.

(** ** framePoolUsed while mLockQueue is free *)

(** X18.  Where framePoolUsed stands between the locked sections.  With the
    steps of other threads and the sections of consumeWork in any order,
    and no allocation of frame layers failing: at every point where
    mLockQueue is free, framePoolUsed is, on 32 bits, the number of pool
    frames in the ring plus framesLockedForDisplay, less one while the
    thread inside consumeWork waits for the rendering of the head frame
    under eBF_SYNC_BEFORE_FLIP, a frame that is then both in the ring and
    locked for display.  So the sum equals framePoolUsed exactly at the
    points outside this window. *)
Theorem framePoolUsed_between_sections (fuel : nat) (steps : list Step) (c : Consumer)
    (s : DisplayQueue) :
  Struct s -> poolAccountingAt c s -> Forall stepAllocates steps ->
  Forall (fun cs => Struct (snd cs)
                    /\ poolAccountingAt (fst cs) (snd cs)
                    /\ (poolAccounting32 (snd cs) <-> inWaitRendering (fst cs) = 0))
         (run_steps fuel steps (c, s)).
Proof.
  revert c s. induction steps as [ | st rest IH ]; intros c s HS HA Hsteps; cbn [run_steps];
    [ constructor | ].
  apply Forall_cons in Hsteps. destruct Hsteps as [Hst Hrest].
  destruct (oneConsumer st (fst (c, s))); [ | constructor ].
  destruct (run_step fuel st (c, s)) as [[c1 s1] | | ] eqn:E; try constructor.
  - apply (poolAccountingAt_slack c s HS) in HA.
    destruct (run_step_slack fuel st c s c1 s1 Hst HS HA E) as [HS1 E1].
    apply (poolAccountingAt_slack c1 s1 HS1) in E1. cbn [fst snd].
    split_and!; [ exact HS1 | exact E1 | ].
    destruct c1; cbn [inWaitRendering];
      try (split; [ intros _; reflexivity | intros _ ];
           match goal with
           | E1 : poolAccountingAt ?c0 ?s0 |- _ =>
               exact (proj1 (poolAccountingAt_idle c0 s0 eq_refl) E1)
           end).
    split; [ | intros E0; discriminate E0 ]. intros H32. exfalso.
    exact (poolAccountingAt_waiting _ _ E1 H32).
  - apply (poolAccountingAt_slack c s HS) in HA.
    destruct (run_step_slack fuel st c s c1 s1 Hst HS HA E) as [HS1 E1].
    apply (poolAccountingAt_slack c1 s1 HS1) in E1.
    apply IH; assumption.
Qed.

(** A queue with eBF_SYNC_BEFORE_FLIP and a pool of four frames. *)
Definition exQueueSync : DisplayQueue := DisplayQueue_new 4 3 eBF_SYNC_BEFORE_FLIP.

(** A frame is queued, the worker enters consumeWork and waits for the
    rendering, a producer queues an event, the worker goes on to the flip
    and returns. *)
Definition exStepsSync : list Step :=
  [SOther (OpQueueFrame true [exLayer] 0 (mkFrameId 1 1) 0);
   SWorker;
   SOther (OpQueueEvent 7);
   SWorker;
   SWorker].

Lemma framePoolUsed_between_sections_witness :
  Forall (fun cs => Struct (snd cs)
                    /\ poolAccountingAt (fst cs) (snd cs)
                    /\ (poolAccounting32 (snd cs) <-> inWaitRendering (fst cs) = 0))
         (run_steps 0 exStepsSync (CIdle, exQueueSync)).
Proof.
  apply (framePoolUsed_between_sections 0 exStepsSync CIdle exQueueSync).
  - apply (bool_decide_unpack _). vm_compute. exact I.
  - vm_compute. reflexivity.
  - apply (bool_decide_unpack _). vm_compute. exact I.
Defined.

(** The run of the example, step by step: where the worker is, and
    framePoolUsed, the frames in the ring and framesLockedForDisplay.
    queueEvent completes with the lock free and framePoolUsed one below
    the sum. *)
Example framePoolUsed_in_the_wait_window :
  map (fun cs => (fst cs, mFramePoolUsed (snd cs), ring_frames (mpWorkQueue (snd cs)),
                  mFramesLockedForDisplay (snd cs)))
      (run_steps 0 exStepsSync (CIdle, exQueueSync))
  = [(CIdle, 1, 1%nat, 0);
     (CWaitRendering 0, 1, 1%nat, 1);
     (CWaitRendering 0, 1, 1%nat, 1);
     (CFlip 0 (mkFrameId 1 1), 1, 0%nat, 1);
     (CIdle, 1, 0%nat, 1)].
Proof. vm_compute. reflexivity. Qed.

(** ** The pool limit limits nothing *)

Definition with_poolLimit (v : Z) (s : DisplayQueue) : DisplayQueue :=
  mkDisplayQueue (mBehaviourFlags s) (mName s) (mpWorkQueue s) (mQueuedWork s) (mQueuedFrames s)
    (mFramesLockedForDisplay s) (mFramePoolUsed s) (mFramePoolPeak s) v
    (mConsumedWork s) (mConsumedFramesSinceInit s) (mbConsumerBlocked s) (maFrames s)
    (mLastQueuedFrame s) (mLastIssuedFrame s) (mLastDroppedFrame s) (mpWorker s) (mLog s).

(** The outcome of a computation, with another pool limit in its state. *)
Definition relimit {A} (v : Z) (r : Result (A * DisplayQueue)) : Result (A * DisplayQueue) :=
  match r with
  | Ok (a, s) => Ok (a, with_poolLimit v s)
  | AssertFail => AssertFail
  | Spin => Spin
  end.

(** The computation does the same whatever the pool limit is. *)
Definition ignoresLimit {A} (m : M A) : Prop :=
  forall v s, m (with_poolLimit v s) = relimit v (m s).

Lemma ignoresLimit_ret {A} (a : A) : ignoresLimit (ret a).
Proof. intros v s. reflexivity. Qed.

Lemma ignoresLimit_gets {A} (f : DisplayQueue -> A) :
  (forall v s, f (with_poolLimit v s) = f s) -> ignoresLimit (gets f).
Proof. intros Hf v s. unfold gets. rewrite Hf. reflexivity. Qed.

Lemma ignoresLimit_modify (g : DisplayQueue -> DisplayQueue) :
  (forall v s, g (with_poolLimit v s) = with_poolLimit v (g s)) -> ignoresLimit (modify g).
Proof. intros Hg v s. unfold modify. rewrite Hg. reflexivity. Qed.

Lemma ignoresLimit_assert c : ignoresLimit (HWCASSERT c).
Proof. intros v s. unfold HWCASSERT. destruct c; reflexivity. Qed.

Lemma ignoresLimit_getFrame i : ignoresLimit (getFrame i).
Proof.
  intros v s. unfold getFrame. cbn [maFrames with_poolLimit].
  destruct (maFrames s !! i); reflexivity.
Qed.

Lemma ignoresLimit_bind {A B} (m : M A) (k : A -> M B) :
  ignoresLimit m -> (forall a, ignoresLimit (k a)) -> ignoresLimit (bind m k).
Proof.
  intros Hm Hk v s. unfold bind. rewrite Hm.
  destruct (m s) as [[a s1] | | ]; cbn [relimit]; [ apply Hk | reflexivity | reflexivity ].
Qed.

Create HintDb limit discriminated.

Ltac limit_step :=
  lazymatch goal with
  | |- ignoresLimit (bind _ _) => apply ignoresLimit_bind; [ | intros ? ]
  | |- ignoresLimit (ret _) => apply ignoresLimit_ret
  | |- ignoresLimit (gets _) => apply ignoresLimit_gets; intros; reflexivity
  | |- ignoresLimit (HWCASSERT _) => apply ignoresLimit_assert
  | |- ignoresLimit (validateFutureFrame _ _) => apply ignoresLimit_assert
  | |- ignoresLimit (getFrame _) => apply ignoresLimit_getFrame
  | |- ignoresLimit (modify _) => apply ignoresLimit_modify; intros; reflexivity
  | |- ignoresLimit (emit _) => apply ignoresLimit_modify; intros; reflexivity
  | |- ignoresLimit (match ?x with _ => _ end) => destruct x
  | |- ignoresLimit _ => solve [ auto with limit ]
  end.

Ltac limit_tac := repeat limit_step.

Lemma updFrame_limit i g : ignoresLimit (updFrame i g).
Proof. unfold updFrame, setFrame. limit_tac. Qed.
#[export] Hint Resolve updFrame_limit : limit.

Lemma isQueued_limit w : ignoresLimit (isQueued w).
Proof. unfold isQueued. limit_tac. Qed.
#[export] Hint Resolve isQueued_limit : limit.

Lemma getEffectiveFrame_limit w : ignoresLimit (getEffectiveFrame w).
Proof. unfold getEffectiveFrame. limit_tac. Qed.
#[export] Hint Resolve getEffectiveFrame_limit : limit.

Lemma WorkItem_queue_limit w : ignoresLimit (WorkItem_queue w).
Proof. unfold WorkItem_queue. limit_tac. Qed.
#[export] Hint Resolve WorkItem_queue_limit : limit.

Lemma WorkItem_dequeue_limit w : ignoresLimit (WorkItem_dequeue w).
Proof. unfold WorkItem_dequeue. limit_tac. Qed.
#[export] Hint Resolve WorkItem_dequeue_limit : limit.

Lemma ring_effective_limit ring : ignoresLimit (ring_effective ring).
Proof. induction ring as [ | w rest IH ]; cbn [ring_effective]; limit_tac. Qed.
#[export] Hint Resolve ring_effective_limit : limit.

Lemma doValidateQueue_limit : ignoresLimit doValidateQueue.
Proof. unfold doValidateQueue. limit_tac. Qed.
#[export] Hint Resolve doValidateQueue_limit : limit.

Lemma startWorker_limit : ignoresLimit startWorker.
Proof. unfold startWorker. limit_tac. Qed.
#[export] Hint Resolve startWorker_limit : limit.

Lemma signalWork_limit w : ignoresLimit (signalWork w).
Proof. unfold signalWork. limit_tac. Qed.
#[export] Hint Resolve signalWork_limit : limit.

Lemma getWorkerTid_limit t : ignoresLimit (getWorkerTid t).
Proof. unfold getWorkerTid. limit_tac. Qed.
#[export] Hint Resolve getWorkerTid_limit : limit.

Lemma doAdvanceIssuedFrame_limit id : ignoresLimit (doAdvanceIssuedFrame id).
Proof. unfold doAdvanceIssuedFrame. limit_tac. Qed.
#[export] Hint Resolve doAdvanceIssuedFrame_limit : limit.

Lemma doQueueWork_limit w : ignoresLimit (doQueueWork w).
Proof. unfold doQueueWork. limit_tac. Qed.
#[export] Hint Resolve doQueueWork_limit : limit.

Lemma dropFrame_limit i : ignoresLimit (dropFrame i).
Proof. unfold dropFrame. limit_tac. Qed.
#[export] Hint Resolve dropFrame_limit : limit.

Lemma dropRedundant_step_limit w b : ignoresLimit (dropRedundant_step w b).
Proof. unfold dropRedundant_step. limit_tac. Qed.
#[export] Hint Resolve dropRedundant_step_limit : limit.

Lemma dropRedundant_loop_limit older : forall b, ignoresLimit (dropRedundant_loop older b).
Proof. induction older as [ | w rest IH ]; intros b; cbn [dropRedundant_loop]; limit_tac. Qed.
#[export] Hint Resolve dropRedundant_loop_limit : limit.

Lemma newerComplete_seed_limit w : ignoresLimit (newerComplete_seed w).
Proof. unfold newerComplete_seed. limit_tac. Qed.
#[export] Hint Resolve newerComplete_seed_limit : limit.

Lemma doDropRedundantFrames_limit : ignoresLimit doDropRedundantFrames.
Proof. unfold doDropRedundantFrames. limit_tac. Qed.
#[export] Hint Resolve doDropRedundantFrames_limit : limit.

(** limitUsedFrames is doDropRedundantFrames: the test on the pool limit
    selects between two returns. *)
Lemma limitUsedFrames_is_doDropRedundantFrames s :
  limitUsedFrames s = doDropRedundantFrames s.
Proof.
  unfold limitUsedFrames. unfold bind at 1.
  destruct (doDropRedundantFrames s) as [[[] s1] | | ]; [ | reflexivity | reflexivity ].
  unfold bind, gets. destruct (mFramePoolUsed s1 <? mFramePoolLimit s1); reflexivity.
Qed.

Lemma limitUsedFrames_limit : ignoresLimit limitUsedFrames.
Proof.
  intros v s. rewrite !limitUsedFrames_is_doDropRedundantFrames.
  apply doDropRedundantFrames_limit.
Qed.
#[export] Hint Resolve limitUsedFrames_limit : limit.

Lemma findFree_limit : ignoresLimit findFree.
Proof. unfold findFree. limit_tac. Qed.
#[export] Hint Resolve findFree_limit : limit.

Lemma lockFrameForDisplay_limit i : ignoresLimit (lockFrameForDisplay i).
Proof. unfold lockFrameForDisplay. limit_tac. Qed.
#[export] Hint Resolve lockFrameForDisplay_limit : limit.

Lemma unlockFrameForDisplay_limit i : ignoresLimit (unlockFrameForDisplay i).
Proof. unfold unlockFrameForDisplay. limit_tac. Qed.
#[export] Hint Resolve unlockFrameForDisplay_limit : limit.

Lemma doReleaseFrame_limit i : ignoresLimit (doReleaseFrame i).
Proof. unfold doReleaseFrame. limit_tac. Qed.
#[export] Hint Resolve doReleaseFrame_limit : limit.

Lemma onUnlockedPoolFrame_limit act w :
  (forall i, ignoresLimit (act i)) -> ignoresLimit (onUnlockedPoolFrame act w).
Proof. intros Ha. unfold onUnlockedPoolFrame. limit_tac. Qed.

Lemma forEachWork_limit body items :
  (forall w, ignoresLimit (body w)) -> ignoresLimit (forEachWork body items).
Proof.
  intros Hb. induction items as [ | w rest IH ]; cbn [forEachWork]; limit_tac.
Qed.

Lemma doInvalidateFrames_limit : ignoresLimit doInvalidateFrames.
Proof.
  unfold doInvalidateFrames. limit_tac.
  apply forEachWork_limit. intros w. apply onUnlockedPoolFrame_limit. intros i.
  apply updFrame_limit.
Qed.
#[export] Hint Resolve doInvalidateFrames_limit : limit.

Lemma doFlush_loop_limit fuel fi mc sc : ignoresLimit (doFlush_loop fuel fi mc sc).
Proof.
  induction fuel as [ | n IH ]; intros v s; cbn [doFlush_loop].
  - change (doFlush_continue fi mc sc (with_poolLimit v s)) with (doFlush_continue fi mc sc s).
    destruct (doFlush_continue fi mc sc s); reflexivity.
  - change (doFlush_continue fi mc sc (with_poolLimit v s)) with (doFlush_continue fi mc sc s).
    destruct (doFlush_continue fi mc sc s); [ | reflexivity ].
    change (mpWorker (with_poolLimit v s)) with (mpWorker s).
    destruct (mpWorker s) as [ w | ]; [ | reflexivity ].
    apply ignoresLimit_bind; [ apply signalWork_limit | intros _; exact IH ].
Qed.
#[export] Hint Resolve doFlush_loop_limit : limit.

Lemma doFlush_limit fuel fi tn : ignoresLimit (doFlush fuel fi tn).
Proof. unfold doFlush. limit_tac. Qed.
#[export] Hint Resolve doFlush_limit : limit.

Lemma doConsumeEvent_limit e : ignoresLimit (doConsumeEvent e).
Proof. unfold doConsumeEvent. limit_tac. Qed.
#[export] Hint Resolve doConsumeEvent_limit : limit.

Lemma backend_consumeFrame_limit b i : ignoresLimit (backend_consumeFrame b i).
Proof. unfold backend_consumeFrame. limit_tac. Qed.
#[export] Hint Resolve backend_consumeFrame_limit : limit.

Lemma doConsumeFrame_limit b i : ignoresLimit (doConsumeFrame b i).
Proof. unfold doConsumeFrame. limit_tac. Qed.
#[export] Hint Resolve doConsumeFrame_limit : limit.

Lemma doConsumeWork_limit b : ignoresLimit (doConsumeWork b).
Proof. unfold doConsumeWork. limit_tac. Qed.
#[export] Hint Resolve doConsumeWork_limit : limit.

Lemma liftFrame_limit {A} i (op : Frame -> Result (A * Frame)) : ignoresLimit (liftFrame i op).
Proof.
  unfold liftFrame. apply ignoresLimit_bind; [ apply ignoresLimit_getFrame | ].
  intros f v s. destruct (op f) as [[a f'] | | ]; reflexivity.
Qed.
#[export] Hint Resolve liftFrame_limit : limit.

Lemma run_op_limit fuel op : ignoresLimit (run_op fuel op).
Proof.
  destruct op; cbn [run_op]; unfold returning.
  - unfold init. limit_tac.
  - unfold queueEvent. limit_tac.
  - unfold queueFrame. limit_tac.
  - unfold queueDrop. limit_tac.
  - unfold dropAllFrames. limit_tac.
    apply forEachWork_limit. intros w. apply onUnlockedPoolFrame_limit. intros i.
    apply dropFrame_limit.
  - unfold dropRedundantFrames. limit_tac.
  - unfold consumeWork. limit_tac.
  - unfold flush. limit_tac.
  - unfold consumerBlocked. limit_tac.
  - unfold consumerUnblocked. limit_tac.
  - unfold notifyReady. limit_tac.
  - unfold releaseFrame. limit_tac.
Qed.

(** X19.  The pool limit has no effect.  limitUsedFrames, the only reader of
    mFramePoolLimit, returns on both sides of its test, the wait being
    compiled out: every public operation gives the same outcome and the
    same state on two queues that differ in the pool limit only, and so
    does every run of operations. *)
Theorem framePoolLimit_has_no_effect (fuel : nat) (ops : list Op) (v : Z) (s : DisplayQueue) :
  (forall op, run_op fuel op (with_poolLimit v s) = relimit v (run_op fuel op s))
  /\ run_ops fuel ops (with_poolLimit v s) = map (with_poolLimit v) (run_ops fuel ops s)
  /\ limitUsedFrames s = doDropRedundantFrames s.
Proof.
  split_and!.
  - intros op. apply run_op_limit.
  - revert s. induction ops as [ | op rest IH ]; intros s; cbn [run_ops]; [ reflexivity | ].
    rewrite (run_op_limit fuel op v s).
    destruct (run_op fuel op s) as [[r s1] | | ]; cbn [relimit map]; try reflexivity.
    rewrite IH. reflexivity.
  - apply limitUsedFrames_is_doDropRedundantFrames.
Qed.

(** Queues built with the limits 1 and 3 run alike; the second frame is
    queued although the first one uses up the limit of 1. *)
Example framePoolLimit_example :
  run_ops 0 [OpQueueFrame true [exLayerBusy] 0 (mkFrameId 1 1) 0;
             OpQueueFrame true [exLayerBusy] 0 (mkFrameId 2 2) 0]
    (DisplayQueue_new 4 1 0)
  = map (with_poolLimit 1)
      (run_ops 0 [OpQueueFrame true [exLayerBusy] 0 (mkFrameId 1 1) 0;
                  OpQueueFrame true [exLayerBusy] 0 (mkFrameId 2 2) 0] exQueue)
  /\ map mFramePoolUsed
       (run_ops 0 [OpQueueFrame true [exLayerBusy] 0 (mkFrameId 1 1) 0;
                   OpQueueFrame true [exLayerBusy] 0 (mkFrameId 2 2) 0]
          (DisplayQueue_new 4 1 0)) = [1; 2].
Proof. split; vm_compute; reflexivity. Qed.
